(** * The fragment read engine of TileDB ([core/src/fragment/read_state.cc])

    A shallow embedding of the parts of [ReadState] that the specification
    makes claims about and of the functions around them, the theorems that
    settle those claims, and further properties of the code.

    Conventions of the embedding.
    - [int], [int64_t] and the coordinate type [T] are modelled by [Z];
      signed overflow is undefined behaviour in C++ and is not modelled,
      but for the arithmetic on coordinates of [init_range_in_tile_domain],
      where the two's complement result is written out ([int_wrap]).
    - [size_t] is modelled by [Z] with the wrap-around modulo [2^64] written
      out ([size_t]).
    - A C array is a [list]; reading it outside its bounds is a fault, made
      explicit by [option] results ([at_]).
    - [std::vector]s that are updated by index use stdpp's list lookup and
      insert.
    - Loops that are not bounded by a count carry fuel.  The binary searches
      and the search of the overlap iterator are given enough of it, which is
      proved ([bsearch_never_starves], [find_next_never_starves]); the slab
      copy and the [for(;;)] loops of the sparse reads take their fuel from
      outside, as these loops need not end. *)

From Stdlib Require Import ZArith Lia.
From stdpp Require Import base option list strings gmap.

Local Open Scope Z_scope.

(** ** Machine arithmetic and array access *)

Definition two64 : Z := 2 ^ 64.

(** The value of a [size_t] expression whose mathematical value is [z]. *)
Definition size_t (z : Z) : Z := z mod two64.

(** The value of an expression of a signed integer type of [bits] bits
    whose mathematical value is [z], in two's complement: [z] itself when it
    lies in [[-2^(bits-1), 2^(bits-1))]. *)
Definition int_wrap (bits : Z) (z : Z) : Z :=
  (z + 2 ^ (bits - 1)) mod (2 * 2 ^ (bits - 1)) - 2 ^ (bits - 1).

(** [a[i]] for a C array [a]; [None] is an access outside the array. *)
Definition at_ {A : Type} (a : list A) (i : Z) : option A :=
  if i <? 0 then None else a !! Z.to_nat i.

(** The status codes of the class. *)
Inductive status : Set := TILEDB_RS_OK | TILEDB_RS_ERR.

#[global] Instance status_eq_dec : EqDecision status.
Proof. solve_decision. Defined.

(** Modelled from the spec: the constant of the headers for the byte size
    of one entry of the offset stream of a variable-sized attribute, "an
    array of 8-byte offsets". *)
Definition TILEDB_CELL_VAR_OFFSET_SIZE : Z := 8.

(** ** The binary search loop

    The same loop occurs, verbatim up to the comparison, in
    [compute_bytes_to_copy], [compute_cell_pos_ranges_contig_row/col] and
    [init_tile_search_range_row/col]:
<<
    while(min <= max) {
      med = min + ((max - min) / 2);
      if(A)      max = med-1;
      else if(B) min = med+1;
      else       break;
    }
>>
    [look med] says which of the three branches is taken at [med]. *)

Inductive probe : Set :=
| GoLeft    (* first test holds: max = med-1 *)
| GoRight   (* second test holds: min = med+1 *)
| Stop      (* break *)
| Fault.    (* the test read outside an array *)

(** How the loop is left: the bounds crossed ([max < min]), or [break] was
    taken at [med] (then [min <= max] still holds). *)
Inductive bs_exit : Set :=
| Crossed (min max : Z)
| Broke (min max med : Z)
| Faulted
| Starved.  (* out of fuel: never happens, see [bsearch_never_starves] *)

Fixpoint bsearch_loop (fuel : nat) (look : Z -> probe) (min max : Z) : bs_exit :=
  if max <? min then Crossed min max
  else match fuel with
       | O => Starved
       | S fuel' =>
           let med := min + Z.quot (max - min) 2 in
           match look med with
           | GoLeft => bsearch_loop fuel' look min (med - 1)
           | GoRight => bsearch_loop fuel' look (med + 1) max
           | Stop => Broke min max med
           | Fault => Faulted
           end
       end.

Definition bsearch (look : Z -> probe) (min max : Z) : bs_exit :=
  bsearch_loop (Z.to_nat (max - min + 1)) look min max.

(** ** [ReadState::compute_bytes_to_copy] *)

Module BytesToCopy.

(** The comparison made inside the loop, at [med]. *)
Definition look (tile : list Z) (tile_start buffer_var_free_space : Z)
    (med : Z) : probe :=
  match at_ tile med with
  | None => Fault
  | Some t =>
      let bytes_var_to_copy := size_t (t - tile_start) in
      if bytes_var_to_copy >? buffer_var_free_space then GoLeft
      else if bytes_var_to_copy <? buffer_var_free_space then GoRight
      else Stop
  end.

(** [tile] is the offset tile of the attribute ([tiles_[attribute_id]] read
    as [size_t*]), [cell_num] the cell count of the current overlapping tile
    and [tiles_var_size] is [tiles_var_sizes_[attribute_id]].  The result is
    [(bytes_to_copy, bytes_var_to_copy)]; [None] is a read outside [tile]. *)
Definition compute_bytes_to_copy (tile : list Z) (cell_num tiles_var_size : Z)
    (start_cell_pos end_cell_pos : Z)
    (buffer_free_space buffer_var_free_space : Z) : option (Z * Z) :=
  if (buffer_free_space =? 0) || (buffer_var_free_space =? 0)
  then Some (0, 0)
  else
    tile_start ← at_ tile start_cell_pos;
    bytes_var_to_copy ←
      (if end_cell_pos + 1 <? cell_num
       then t ← at_ tile (end_cell_pos + 1); Some (size_t (t - tile_start))
       else Some (size_t (tiles_var_size - tile_start)));
    if bytes_var_to_copy >? buffer_var_free_space
    then
      end_cell_pos' ←
        match bsearch (look tile tile_start buffer_var_free_space)
                      start_cell_pos end_cell_pos with
        | Crossed min max => Some (max - 1)
        | Broke _ _ med => Some med
        | Faulted | Starved => None
        end;
      t ← at_ tile (end_cell_pos' + 1);
      Some (size_t ((end_cell_pos' - start_cell_pos + 1)
                      * TILEDB_CELL_VAR_OFFSET_SIZE),
            size_t (t - tile_start))
    else
      Some (size_t ((end_cell_pos - start_cell_pos + 1)
                      * TILEDB_CELL_VAR_OFFSET_SIZE),
            bytes_var_to_copy).

(** The offsets as the specification reads them: [off[k]] is the start of
    cell [k] in the variable segment, and the end of the segment for
    [k = cell_num]. *)
Definition off (tile : list Z) (cell_num tiles_var_size : Z) (k : Z) : Z :=
  if k <? cell_num then default 0 (at_ tile k) else tiles_var_size.

(** The cells [start .. m] take no more than [free_var] variable bytes. *)
Definition fits (tile : list Z) (cell_num tiles_var_size : Z)
    (start free_var m : Z) : Prop :=
  off tile cell_num tiles_var_size (m + 1)
  - off tile cell_num tiles_var_size start <= free_var.

(** [m] is the largest cell of [start .. end_] such that [start .. m]
    fits.  For [m = start - 1] no cell fits. *)
Definition largest_fit (tile : list Z) (cell_num tiles_var_size : Z)
    (start end_ free_var m : Z) : Prop :=
  start - 1 <= m <= end_
  /\ (start <= m -> fits tile cell_num tiles_var_size start free_var m)
  /\ forall m', m < m' <= end_ ->
       ~ fits tile cell_num tiles_var_size start free_var m'.

End BytesToCopy.


(** ** Outcomes of a call

    A call returns, stops at a failed [assert], reads or writes outside an
    array, or (in the model only) runs out of fuel. *)

Inductive outcome (A : Type) : Type :=
| Returns (a : A)
| Aborts      (* a failed assert *)
| Faults      (* undefined behaviour: access outside a vector or array *)
| Starves.    (* the model ran out of fuel *)

Arguments Returns {A} a.
Arguments Aborts {A}.
Arguments Faults {A}.
Arguments Starves {A}.

Definition obind {A B : Type} (m : outcome A) (k : A -> outcome B) : outcome B :=
  match m with
  | Returns a => k a
  | Aborts => Aborts
  | Faults => Faults
  | Starves => Starves
  end.

(** [v[i]] for a vector [v]. *)
Definition vec_at {A : Type} (v : list A) (i : nat) : outcome A :=
  match v !! i with
  | Some a => Returns a
  | None => Faults
  end.

(** [assert(b)]: compiled out when [NDEBUG] is defined. *)
Definition assert_ (NDEBUG : bool) (b : bool) : outcome unit :=
  if NDEBUG || b then Returns tt else Aborts.

Declare Scope outcome_scope.
Delimit Scope outcome_scope with outcome.
Notation "'do' x <- m ; k" := (obind m (fun x => k))
  (at level 10, x name, m at level 100, k at level 200) : outcome_scope.
Notation "'do_' m ; k" := (obind m (fun _ => k))
  (at level 10, m at level 100, k at level 200) : outcome_scope.

(** ** The state of a [ReadState] *)

Inductive Overlap : Set := NONE | FULL | PARTIAL_CONTIG | PARTIAL_NON_CONTIG.

#[global] Instance Overlap_eq_dec : EqDecision Overlap.
Proof. solve_decision. Defined.

(** [ReadState::OverlappingTile].  A heap block ([overlap_range_],
    [coords_]) is [None] when the pointer is [NULL]. *)
Record OverlappingTile : Type := mkOverlappingTile {
  cell_num_ : Z;
  cell_pos_ranges_ : list (Z * Z);
  coords_ : option (list Z);
  coords_tile_fetched_ : bool;
  overlap_ : Overlap;
  overlap_range_ : option (list Z);
  pos_ : Z
}.

(** One [memcpy(buffer + dst, tile + src, n)] into a caller's buffer. *)
Record memcpy_call : Set := mkMemcpy { dst : Z; src : Z; n : Z }.

(** One [read_from_file(filename, offset, buffer, length)]: the file is that
    of attribute [file_attribute], or its [_var] file. *)
Record file_read : Set := mkFileRead {
  file_attribute : nat;
  file_var : bool;
  file_offset : Z;
  file_length : Z
}.

(** One return of [gunzip]: the byte count it produced, and the byte count
    the caller expects. *)
Record gunzip_return : Set := mkGunzipReturn {
  gunzip_out_size : Z;
  expected_size : Z
}.

(** The members of [ReadState] that the modelled functions use, and three
    ghost members: the heap blocks handed to [free], the reads made from
    attribute files, and the successful returns of [gunzip]. *)
Record ReadState : Type := mkReadState {
  overflow_ : list bool;
  overlapping_tiles_ : list OverlappingTile;
  overlapping_tiles_pos_ : list Z;
  tiles_offsets_ : list Z;
  tiles_sizes_ : list Z;
  tiles_var_offsets_ : list Z;
  tiles_var_sizes_ : list Z;
  freed_ : list (list Z);
  file_reads_ : list file_read;
  gunzips_ : list gunzip_return
}.

Definition with_overflow (v : list bool) (s : ReadState) : ReadState :=
  mkReadState v (overlapping_tiles_ s) (overlapping_tiles_pos_ s)
    (tiles_offsets_ s) (tiles_sizes_ s) (tiles_var_offsets_ s)
    (tiles_var_sizes_ s) (freed_ s) (file_reads_ s) (gunzips_ s).

Definition with_overlapping_tiles (v : list OverlappingTile) (s : ReadState)
  : ReadState :=
  mkReadState (overflow_ s) v (overlapping_tiles_pos_ s)
    (tiles_offsets_ s) (tiles_sizes_ s) (tiles_var_offsets_ s)
    (tiles_var_sizes_ s) (freed_ s) (file_reads_ s) (gunzips_ s).

Definition with_overlapping_tiles_pos (v : list Z) (s : ReadState) : ReadState :=
  mkReadState (overflow_ s) (overlapping_tiles_ s) v
    (tiles_offsets_ s) (tiles_sizes_ s) (tiles_var_offsets_ s)
    (tiles_var_sizes_ s) (freed_ s) (file_reads_ s) (gunzips_ s).

Definition with_tiles_offsets (v : list Z) (s : ReadState) : ReadState :=
  mkReadState (overflow_ s) (overlapping_tiles_ s) (overlapping_tiles_pos_ s)
    v (tiles_sizes_ s) (tiles_var_offsets_ s)
    (tiles_var_sizes_ s) (freed_ s) (file_reads_ s) (gunzips_ s).

Definition with_tiles_sizes (v : list Z) (s : ReadState) : ReadState :=
  mkReadState (overflow_ s) (overlapping_tiles_ s) (overlapping_tiles_pos_ s)
    (tiles_offsets_ s) v (tiles_var_offsets_ s)
    (tiles_var_sizes_ s) (freed_ s) (file_reads_ s) (gunzips_ s).

Definition with_tiles_var_offsets (v : list Z) (s : ReadState) : ReadState :=
  mkReadState (overflow_ s) (overlapping_tiles_ s) (overlapping_tiles_pos_ s)
    (tiles_offsets_ s) (tiles_sizes_ s) v
    (tiles_var_sizes_ s) (freed_ s) (file_reads_ s) (gunzips_ s).

Definition with_tiles_var_sizes (v : list Z) (s : ReadState) : ReadState :=
  mkReadState (overflow_ s) (overlapping_tiles_ s) (overlapping_tiles_pos_ s)
    (tiles_offsets_ s) (tiles_sizes_ s) (tiles_var_offsets_ s)
    v (freed_ s) (file_reads_ s) (gunzips_ s).

Definition with_freed (v : list (list Z)) (s : ReadState) : ReadState :=
  mkReadState (overflow_ s) (overlapping_tiles_ s) (overlapping_tiles_pos_ s)
    (tiles_offsets_ s) (tiles_sizes_ s) (tiles_var_offsets_ s)
    (tiles_var_sizes_ s) v (file_reads_ s) (gunzips_ s).

Definition with_file_reads (v : list file_read) (s : ReadState) : ReadState :=
  mkReadState (overflow_ s) (overlapping_tiles_ s) (overlapping_tiles_pos_ s)
    (tiles_offsets_ s) (tiles_sizes_ s) (tiles_var_offsets_ s)
    (tiles_var_sizes_ s) (freed_ s) v (gunzips_ s).

Definition with_gunzips (v : list gunzip_return) (s : ReadState) : ReadState :=
  mkReadState (overflow_ s) (overlapping_tiles_ s) (overlapping_tiles_pos_ s)
    (tiles_offsets_ s) (tiles_sizes_ s) (tiles_var_offsets_ s)
    (tiles_var_sizes_ s) (freed_ s) (file_reads_ s) v.

(** [v[i] = x] for a vector [v]. *)
Definition vec_set {A : Type} (v : list A) (i : nat) (x : A) : outcome (list A) :=
  if (i <? length v)%nat then Returns (<[i := x]> v) else Faults.

Local Open Scope outcome_scope.

(** [overflow_[attribute_id] = true]. *)
Definition set_overflow (attribute_id : nat) (s : ReadState) : outcome ReadState :=
  do v <- vec_set (overflow_ s) attribute_id true;
  Returns (with_overflow v s).

(** [tiles_offsets_[attribute_id] = x]. *)
Definition set_tiles_offset (attribute_id : nat) (x : Z) (s : ReadState)
  : outcome ReadState :=
  do v <- vec_set (tiles_offsets_ s) attribute_id x;
  Returns (with_tiles_offsets v s).

(** [tiles_sizes_[attribute_id] = x]. *)
Definition set_tiles_size (attribute_id : nat) (x : Z) (s : ReadState)
  : outcome ReadState :=
  do v <- vec_set (tiles_sizes_ s) attribute_id x;
  Returns (with_tiles_sizes v s).

(** [++overlapping_tiles_pos_[attribute_id]]. *)
Definition next_overlapping_tile (attribute_id : nat) (s : ReadState)
  : outcome ReadState :=
  do p <- vec_at (overlapping_tiles_pos_ s) attribute_id;
  do v <- vec_set (overlapping_tiles_pos_ s) attribute_id (p + 1);
  Returns (with_overlapping_tiles_pos v s).

Local Close Scope outcome_scope.

(** ** [ReadState::copy_from_tile_buffer_partial_non_contig_dense] *)

Module SlabCopy.

Local Open Scope outcome_scope.

(** What the function asks the array schema about the attribute and about
    the overlap range of the current tile: [cell_size(attribute_id)],
    [var_size(attribute_id)], [get_cell_pos] of the two corners of the
    overlap range, [cell_num_in_range_slab] and [cell_num_in_tile_slab]. *)
Record geometry : Set := mkGeometry {
  cell_size : Z;
  var_size : bool;
  range_start_cell_pos : Z;
  range_end_cell_pos : Z;
  cell_num_in_range_slab : Z;
  cell_num_in_tile_slab : Z
}.

(** The local state of the copy: the tile cursor
    [tiles_offsets_[attribute_id]], the caller's [buffer_offset], and the
    [memcpy] calls made so far (latest first). *)
Record cursor : Set := mkCursor {
  tile_offset : Z;
  buffer_offset : Z;
  copies : list memcpy_call
}.

(** "Copy rest of the slabs": the [while] loop. *)
Fixpoint copy_slabs (fuel : nat) (buffer_size range_end_offset
    range_slab_size tile_slab_size : Z) (c : cursor) : outcome cursor :=
  if negb (buffer_offset c =? buffer_size)
     && negb (tile_offset c =? size_t (range_end_offset + 1))
  then
    match fuel with
    | O => Starves
    | S fuel' =>
        let buffer_free_space := size_t (buffer_size - buffer_offset c) in
        let bytes_to_copy := Z.min range_slab_size buffer_free_space in
        let call := mkMemcpy (buffer_offset c) (tile_offset c) bytes_to_copy in
        let buffer_offset' := size_t (buffer_offset c + bytes_to_copy) in
        let tile_offset' := size_t (tile_offset c + bytes_to_copy) in
        let tile_offset'' :=
          if (bytes_to_copy =? range_slab_size)
             && negb (tile_offset' =? size_t (range_end_offset + 1))
          then size_t (tile_offset' + size_t (tile_slab_size - bytes_to_copy))
          else tile_offset' in
        copy_slabs fuel' buffer_size range_end_offset range_slab_size
                   tile_slab_size
                   (mkCursor tile_offset'' buffer_offset' (call :: copies c))
    end
  else Returns c.

(** The result is the new state, the new [buffer_offset] and the [memcpy]
    calls made into [buffer], in order. *)
Definition copy_from_tile_buffer_partial_non_contig_dense
    (NDEBUG : bool) (g : geometry) (fuel : nat) (attribute_id : nat)
    (buffer_size buffer_offset0 : Z) (s : ReadState)
  : outcome (ReadState * Z * list memcpy_call) :=
  let buffer_free_space := size_t (buffer_size - buffer_offset0) in
  if buffer_free_space =? 0
  then
    do s' <- set_overflow attribute_id s;
    Returns (s', buffer_offset0, [])
  else
    do_ assert_ NDEBUG (negb (var_size g));
    let range_start_offset := size_t (range_start_cell_pos g * cell_size g) in
    let range_end_offset :=
      size_t ((range_end_cell_pos g + 1) * cell_size g - 1) in
    do tile_offset0 <- vec_at (tiles_offsets_ s) attribute_id;
    let tile_offset1 :=
      if tile_offset0 <? range_start_offset then range_start_offset
      else tile_offset0 in
    let range_slab_size := size_t (cell_num_in_range_slab g * cell_size g) in
    let tile_slab_size := size_t (cell_num_in_tile_slab g * cell_size g) in
    if tile_slab_size =? 0 then Faults   (* division by zero *)
    else
      let current_slab_start_offset :=
        size_t (size_t ((size_t (tile_offset1 - range_start_offset)
                           / tile_slab_size) * tile_slab_size)
                + range_start_offset) in
      let current_slab_end_offset :=
        size_t (current_slab_start_offset + range_slab_size - 1) in
      let bytes_in_current_slab_left_to_copy :=
        size_t (current_slab_end_offset - tile_offset1 + 1) in
      let bytes_to_copy :=
        Z.min bytes_in_current_slab_left_to_copy buffer_size in
      let call := mkMemcpy buffer_offset0 tile_offset1 bytes_to_copy in
      let buffer_offset1 := size_t (buffer_offset0 + bytes_to_copy) in
      let tile_offset2 := size_t (tile_offset1 + bytes_to_copy) in
      let tile_offset3 :=
        if (bytes_to_copy =? bytes_in_current_slab_left_to_copy)
           && negb (tile_offset2 =? size_t (range_end_offset + 1))
        then size_t (tile_offset2 + size_t (tile_slab_size - range_slab_size))
        else tile_offset2 in
      do c <- copy_slabs fuel buffer_size range_end_offset range_slab_size
                         tile_slab_size
                         (mkCursor tile_offset3 buffer_offset1 [call]);
      if tile_offset c =? size_t (range_end_offset + 1)
      then
        do tile_size <- vec_at (tiles_sizes_ s) attribute_id;
        do s1 <- set_tiles_offset attribute_id tile_size s;
        do s2 <- next_overlapping_tile attribute_id s1;
        Returns (s2, buffer_offset c, reverse (copies c))
      else
        do s1 <- set_tiles_offset attribute_id (tile_offset c) s;
        do_ assert_ NDEBUG (buffer_offset c =? buffer_size);
        do s2 <- set_overflow attribute_id s1;
        Returns (s2, buffer_offset c, reverse (copies c)).

(** A [memcpy] stays inside a buffer of [buffer_size] bytes. *)
Definition inside (buffer_size : Z) (m : memcpy_call) : Prop :=
  0 <= dst m /\ dst m + n m <= buffer_size.

(** The number of bytes written by a list of calls. *)
Definition bytes_written (ms : list memcpy_call) : Z :=
  foldr (fun m acc => n m + acc) 0 ms.

(** The cursor of a copy that has stayed inside the buffer: the offset is
    the number of bytes written, and lies in the buffer. *)
Definition stays_inside (buffer_size : Z) (c : cursor) : Prop :=
  0 <= buffer_offset c <= buffer_size
  /\ Forall (fun m => inside buffer_size m /\ 0 <= n m) (copies c)
  /\ bytes_written (copies c) = buffer_offset c.

End SlabCopy.

(** ** [ReadState::clean_up_processed_overlapping_tiles] *)

Module Reaper.

Local Open Scope outcome_scope.

(** The loop that looks for the minimum: [ids] are the attribute ids still
    to be visited. *)
Fixpoint min_pos_loop (pos : list Z) (ids : list nat) (min_pos : Z)
  : outcome Z :=
  match ids with
  | [] => Returns min_pos
  | id :: ids' =>
      do p <- vec_at pos id;
      min_pos_loop pos ids' (if p <? min_pos then p else min_pos)
  end.

(** The heap blocks of an entry that the function hands to [free]. *)
Definition blocks (t : OverlappingTile) : list (list Z) :=
  option_list (overlap_range_ t) ++ option_list (coords_ t).

(** "Update the positions": for [i] in [0 .. attribute_num]. *)
Definition shift_positions (attribute_num : nat) (min_pos : Z) (pos : list Z)
  : list Z :=
  ((fun p => if p =? 0 then p else p - min_pos) <$> take (S attribute_num) pos)
    ++ drop (S attribute_num) pos.

(** [attribute_num] is the schema's attribute count and [attribute_ids] the
    ids of the attributes requested by the query, in the caller's order. *)
Definition clean_up_processed_overlapping_tiles (attribute_num : nat)
    (attribute_ids : list nat) (s : ReadState) : outcome ReadState :=
  do p0 <- vec_at (overlapping_tiles_pos_ s) 0;
  do min_pos <- min_pos_loop (overlapping_tiles_pos_ s)
                             (drop 1 attribute_ids) p0;
  if min_pos =? 0 then Returns s
  else if (min_pos <? 0)
          || (Z.of_nat (length (overlapping_tiles_ s)) <? min_pos)
          || (length (overlapping_tiles_pos_ s) <? S attribute_num)%nat
  then Faults
  else
    let k := Z.to_nat min_pos in
    Returns
      (with_overlapping_tiles_pos
         (shift_positions attribute_num min_pos (overlapping_tiles_pos_ s))
         (with_overlapping_tiles (drop k (overlapping_tiles_ s))
            (with_freed
               (freed_ s ++ concat (blocks <$> take k (overlapping_tiles_ s)))
               s))).

(** The end of [get_next_overlapping_tile_dense/sparse]: the new entry is
    stored and the processed entries are cleaned up. *)
Definition push_and_clean_up (attribute_num : nat) (attribute_ids : list nat)
    (overlapping_tile : OverlappingTile) (s : ReadState) : outcome ReadState :=
  clean_up_processed_overlapping_tiles attribute_num attribute_ids
    (with_overlapping_tiles (overlapping_tiles_ s ++ [overlapping_tile]) s).

(** The positions of the requested attributes. *)
Definition requested_positions (attribute_ids : list nat) (s : ReadState)
  : list Z :=
  omap (fun id => overlapping_tiles_pos_ s !! id) attribute_ids.

Definition minimum (l : list Z) (d : Z) : Z := foldr Z.min d l.
Definition maximum (l : list Z) (d : Z) : Z := foldr Z.max d l.

(** The drift of the requested attributes: maximum minus minimum of their
    positions. *)
Definition drift (attribute_ids : list nat) (s : ReadState) : Z :=
  match requested_positions attribute_ids s with
  | [] => 0
  | p :: ps => maximum ps p - minimum ps p
  end.

End Reaper.

(** ** [ReadState::init_range_in_tile_domain] *)

Module DenseInit.

Local Open Scope outcome_scope.

(** The operator [/] of C++ on a signed integer type of [bits] bits: it
    truncates towards zero ([Z.quot]); the division by zero and the division
    of the least value by [-1], whose quotient the type does not hold, are
    faults. *)
Definition int_div (bits : Z) (a b : Z) : outcome Z :=
  if (b =? 0) || ((b =? -1) && (a =? - 2 ^ (bits - 1))) then Faults
  else Returns (Z.quot a b).

(** One round of the loop "Calculate range in tile domain".  [bits] is the
    width of the coordinate type [T]: 32 for [int] and 64 for [int64_t], the
    two types the function is instantiated for.  The subtraction is made in
    [T]. *)
Definition range_in_tile_domain_at (bits : Z)
    (domain tile_extents range tile_domain : list Z) (i : nat)
  : outcome (Z * Z) :=
  do range_lo <- vec_at range (2 * i);
  do range_hi <- vec_at range (2 * i + 1);
  do domain_lo <- vec_at domain (2 * i);
  do extent <- vec_at tile_extents i;
  do tile_lo <- vec_at tile_domain (2 * i);
  do tile_hi <- vec_at tile_domain (2 * i + 1);
  do lo <- int_div bits (int_wrap bits (range_lo - domain_lo)) extent;
  do hi <- int_div bits (int_wrap bits (range_hi - domain_lo)) extent;
  Returns (Z.max lo tile_lo, Z.min hi tile_hi).

Fixpoint calculate (bits : Z) (domain tile_extents range tile_domain : list Z)
    (i : nat) (rounds : nat) : outcome (list Z) :=
  match rounds with
  | O => Returns []
  | S rounds' =>
      do lh <- range_in_tile_domain_at bits domain tile_extents range
                 tile_domain i;
      do rest <- calculate bits domain tile_extents range tile_domain (S i)
                   rounds';
      Returns (lh.1 :: lh.2 :: rest)
  end.

(** The loop "Check if there is any overlap between the range and the tile
    domain"; it leaves at the first dimension without overlap. *)
Fixpoint check_overlap (range_in_tile_domain tile_domain : list Z)
    (i : nat) (rounds : nat) : outcome bool :=
  match rounds with
  | O => Returns true
  | S rounds' =>
      do lo <- vec_at range_in_tile_domain (2 * i);
      do hi <- vec_at range_in_tile_domain (2 * i + 1);
      do tile_lo <- vec_at tile_domain (2 * i);
      do tile_hi <- vec_at tile_domain (2 * i + 1);
      if (lo >? tile_hi) || (hi <? tile_lo) then Returns false
      else check_overlap range_in_tile_domain tile_domain (S i) rounds'
  end.

(** The entry pushed when there is no overlap.  The function sets three
    members and the vector of cell position ranges is constructed empty;
    the other members keep whatever [uninit] holds. *)
Definition sentinel (uninit : OverlappingTile) : OverlappingTile :=
  mkOverlappingTile (cell_num_ uninit) [] None
                    (coords_tile_fetched_ uninit) NONE None (pos_ uninit).

(** The result is [range_in_tile_domain_] and the new state. *)
Definition init_range_in_tile_domain (bits : Z) (uninit : OverlappingTile)
    (dim_num : nat) (domain tile_extents range tile_domain : list Z)
    (s : ReadState) : outcome (list Z * ReadState) :=
  do range_in_tile_domain <-
    calculate bits domain tile_extents range tile_domain 0 dim_num;
  do overlap <- check_overlap range_in_tile_domain tile_domain 0 dim_num;
  if overlap then Returns (range_in_tile_domain, s)
  else Returns (range_in_tile_domain,
                with_overlapping_tiles
                  (overlapping_tiles_ s ++ [sentinel uninit]) s).

(** The interval of dimension [i] with the division of C++ (towards
    zero), and with the division that rounds down. *)
Definition interval (division : Z -> Z -> Z)
    (domain tile_extents range tile_domain : list Z) (i : nat) : Z * Z :=
  (Z.max (division (range !!! (2 * i)%nat - domain !!! (2 * i)%nat)
                   (tile_extents !!! i))
         (tile_domain !!! (2 * i)%nat),
   Z.min (division (range !!! (2 * i + 1)%nat - domain !!! (2 * i)%nat)
                   (tile_extents !!! i))
         (tile_domain !!! (2 * i + 1)%nat)).

Definition is_empty (lh : Z * Z) : bool := lh.2 <? lh.1.

(** The arrays have the sizes that [dim_num] asks for, the tile extents are
    positive, and the range and the tile domain are not reversed. *)
Definition well_formed (dim_num : nat)
    (domain tile_extents range tile_domain : list Z) : bool :=
  (length domain =? 2 * dim_num)%nat
  && (length tile_extents =? dim_num)%nat
  && (length range =? 2 * dim_num)%nat
  && (length tile_domain =? 2 * dim_num)%nat
  && forallb (fun i => (0 <? tile_extents !!! i)
                       && (range !!! (2 * i)%nat <=? range !!! (2 * i + 1)%nat)
                       && (tile_domain !!! (2 * i)%nat
                           <=? tile_domain !!! (2 * i + 1)%nat))
             (seq 0 dim_num).

(** The differences [range_lo - domain_lo] and [range_hi - domain_lo] of
    every dimension are values of the coordinate type. *)
Definition representable (bits : Z) (dim_num : nat) (domain range : list Z)
  : bool :=
  forallb (fun i =>
             let lo := range !!! (2 * i)%nat - domain !!! (2 * i)%nat in
             let hi := range !!! (2 * i + 1)%nat - domain !!! (2 * i)%nat in
             (- 2 ^ (bits - 1) <=? lo) && (lo <? 2 ^ (bits - 1))
             && (- 2 ^ (bits - 1) <=? hi) && (hi <? 2 ^ (bits - 1)))
          (seq 0 dim_num).

(** The claim of the specification at one input: the intervals are those
    of the rounding-down division, and an empty one makes the function
    push the sentinel. *)
Definition floor_claim (bits : Z) (uninit : OverlappingTile) (dim_num : nat)
    (domain tile_extents range tile_domain : list Z) (s : ReadState) : Prop :=
  exists range_in_tile_domain s',
    init_range_in_tile_domain bits uninit dim_num domain tile_extents range
                              tile_domain s
    = Returns (range_in_tile_domain, s')
    /\ (forall i, (i < dim_num)%nat ->
          (range_in_tile_domain !!! (2 * i)%nat,
           range_in_tile_domain !!! (2 * i + 1)%nat)
          = interval Z.div domain tile_extents range tile_domain i)
    /\ (existsb (fun i => is_empty (interval Z.div domain tile_extents range
                                             tile_domain i))
                (seq 0 dim_num) = true ->
        overlapping_tiles_ s' = overlapping_tiles_ s ++ [sentinel uninit]).

End DenseInit.

(** ** Coordinates, ranges and cell orders

    [cmp_row_order], [cmp_col_order], [cell_in_range] and [is_unary_range]
    are declared in [utils.h], which is not part of the sources at hand. *)

Module Coords.

(** Modelled from the spec: the comparison that [cmp_row_order] and
    [cmp_col_order] of [utils.h] make, "row-major compares dimension 0
    first".  The three-way comparison of two coordinate tuples, first entry
    first; a tuple that is a proper prefix of another precedes it (the
    tuples that are compared have [dim_num] entries each). *)
Fixpoint lex_cmp (a b : list Z) : Z :=
  match a, b with
  | [], [] => 0
  | [], _ :: _ => -1
  | _ :: _, [] => 1
  | x :: a', y :: b' =>
      if x <? y then -1 else if y <? x then 1 else lex_cmp a' b'
  end.

(** Modelled from the spec: [cmp_row_order] of [utils.h], "row-major
    compares dimension 0 first".  Negative, zero or positive as [a]
    precedes, equals or succeeds [b] on their first [dim_num] entries. *)
Definition cmp_row_order (a b : list Z) (dim_num : nat) : Z :=
  lex_cmp (take dim_num a) (take dim_num b).

(** Modelled from the spec: [cmp_col_order] of [utils.h], "column-major
    compares dimension D-1 first". *)
Definition cmp_col_order (a b : list Z) (dim_num : nat) : Z :=
  lex_cmp (reverse (take dim_num a)) (reverse (take dim_num b)).

(** [range[2*i]] and [range[2*i+1]] for [i < dim_num]: the lower and the
    upper corner of a range. *)
Definition range_min_coords (range : list Z) (dim_num : nat) : list Z :=
  (fun i => range !!! (2 * i)%nat) <$> seq 0 dim_num.

Definition range_max_coords (range : list Z) (dim_num : nat) : list Z :=
  (fun i => range !!! (2 * i + 1)%nat) <$> seq 0 dim_num.

(** Modelled from the spec: [cell_in_range] of [utils.h], a range is
    "inclusive [lo_i, hi_i] per dimension". *)
Definition cell_in_range (cell range : list Z) (dim_num : nat) : bool :=
  forallb (fun i => (range !!! (2 * i)%nat <=? cell !!! i)
                    && (cell !!! i <=? range !!! (2 * i + 1)%nat))
          (seq 0 dim_num).

(** Modelled from the spec: [is_unary_range] of [utils.h], "unary means
    lo_i == hi_i for every dimension". *)
Definition is_unary_range (range : list Z) (dim_num : nat) : bool :=
  forallb (fun i => range !!! (2 * i)%nat =? range !!! (2 * i + 1)%nat)
          (seq 0 dim_num).

(** [&tile[i*dim_num]] as a tuple of [dim_num] coordinates; [None] when
    the tuple does not lie inside the buffer [tile]. *)
Definition cell_at (tile : list Z) (dim_num : nat) (i : Z) : option (list Z) :=
  if (i <? 0) || (Z.of_nat (length tile) <? (i + 1) * Z.of_nat dim_num)
  then None
  else Some (take dim_num (drop (Z.to_nat i * dim_num) tile)).

Inductive CellOrder : Set :=
| TILEDB_AS_CO_ROW_MAJOR
| TILEDB_AS_CO_COLUMN_MAJOR
| TILEDB_AS_CO_HILBERT.

End Coords.

(** ** [ReadState::init_tile_search_range_row] and [_col] *)

Module TileSearch.

Import Coords.
Local Open Scope outcome_scope.

Section Order.

(** The comparator: [cmp_row_order] in [init_tile_search_range_row],
    [cmp_col_order] in [init_tile_search_range_col].  The two functions
    are the same text otherwise. *)
Variable cmp_order : list Z -> list Z -> nat -> Z.

(** "Calculate precedence" for the tile at [med], against the corner
    [coords] of the range. *)
Definition look (dim_num : nat) (bounding_coords : list (list Z))
    (coords : list Z) (med : Z) : probe :=
  match at_ bounding_coords med with
  | None => Fault
  | Some bc =>
      let tile_start_coords := bc in
      let tile_end_coords := drop dim_num bc in
      if cmp_order coords tile_start_coords dim_num <? 0 then GoLeft
      else if cmp_order coords tile_end_coords dim_num >? 0 then GoRight
      else Stop
  end.

(** The result is [(tile_search_range_[0], tile_search_range_[1])]. *)
Definition init_tile_search_range_in_order (dim_num : nat) (range : list Z)
    (tile_num : Z) (bounding_coords : list (list Z)) : outcome (Z * Z) :=
  let range_min_coords := range_min_coords range dim_num in
  let range_max_coords := range_max_coords range dim_num in
  do first <-
    match bsearch (look dim_num bounding_coords range_min_coords)
                  0 (tile_num - 1) with
    | Crossed min max => Returns min
    | Broke _ _ med => Returns med
    | Faulted => Faults
    | Starved => Starves
    end;
  if is_unary_range range dim_num
  then Returns (first, first)
  else
    do last <-
      match bsearch (look dim_num bounding_coords range_max_coords)
                    0 (tile_num - 1) with
      | Crossed min max => Returns max
      | Broke _ _ med => Returns med
      | Faulted => Faults
      | Starved => Starves
      end;
    Returns (first, last).

End Order.

Definition init_tile_search_range_row :=
  init_tile_search_range_in_order cmp_row_order.

Definition init_tile_search_range_col :=
  init_tile_search_range_in_order cmp_col_order.

(** The first and the last cell of tile [t], in the cell order. *)
Definition first_coord (dim_num : nat) (bounding_coords : list (list Z))
    (t : Z) : list Z :=
  take dim_num (default [] (at_ bounding_coords t)).

Definition last_coord (dim_num : nat) (bounding_coords : list (list Z))
    (t : Z) : list Z :=
  take dim_num (drop dim_num (default [] (at_ bounding_coords t))).

(** The bounding coordinates follow the cell order: in every tile the
    first cell does not succeed the last one, and the last cell of a tile
    precedes the first cell of the next tile. *)
Fixpoint in_cell_order (cmp_order : list Z -> list Z -> nat -> Z)
    (dim_num : nat) (bounding_coords : list (list Z)) : bool :=
  match bounding_coords with
  | [] => true
  | bc :: rest =>
      (cmp_order bc (drop dim_num bc) dim_num <=? 0)
      && match rest with
         | [] => true
         | bc' :: _ => cmp_order (drop dim_num bc) bc' dim_num <? 0
         end
      && in_cell_order cmp_order dim_num rest
  end.

(** [first] is the position of the first tile whose last bounding
    coordinate does not precede [coords] ([tile_num] if there is none). *)
Definition first_tile_from (cmp_order : list Z -> list Z -> nat -> Z)
    (dim_num : nat) (bounding_coords : list (list Z)) (tile_num : Z)
    (coords : list Z) (first : Z) : Prop :=
  0 <= first <= tile_num
  /\ (forall t, 0 <= t < first ->
        cmp_order (last_coord dim_num bounding_coords t) coords dim_num < 0)
  /\ (first < tile_num ->
        cmp_order coords (last_coord dim_num bounding_coords first) dim_num
        <= 0).

(** [last] is the position of the last tile whose first bounding
    coordinate does not succeed [coords] ([-1] if there is none). *)
Definition last_tile_upto (cmp_order : list Z -> list Z -> nat -> Z)
    (dim_num : nat) (bounding_coords : list (list Z)) (tile_num : Z)
    (coords : list Z) (last : Z) : Prop :=
  -1 <= last < tile_num
  /\ (forall t, last < t < tile_num ->
        cmp_order coords (first_coord dim_num bounding_coords t) dim_num < 0)
  /\ (0 <= last ->
        cmp_order (first_coord dim_num bounding_coords last) coords dim_num
        <= 0).

(** The comparator of a cell order, and the initializer for it. *)
Definition cmp_of (column_major : bool) : list Z -> list Z -> nat -> Z :=
  if column_major then cmp_col_order else cmp_row_order.

Definition init_tile_search_range_of (column_major : bool) :=
  if column_major then init_tile_search_range_col
  else init_tile_search_range_row.

End TileSearch.

(** ** The cell-range resolver: [compute_cell_pos_ranges_contig],
    [_non_contig] and [_scan] *)

Module Resolver.

Import Coords.
Local Open Scope outcome_scope.

(** "Calculate precedence" for the cell at [med] of the coordinates tile. *)
Definition look (cmp_order : list Z -> list Z -> nat -> Z) (dim_num : nat)
    (tile : list Z) (coords : list Z) (med : Z) : probe :=
  match cell_at tile dim_num med with
  | None => Fault
  | Some cell_coords =>
      if cmp_order coords cell_coords dim_num <? 0 then GoLeft
      else if cmp_order coords cell_coords dim_num >? 0 then GoRight
      else Stop
  end.

(** [compute_cell_pos_ranges_contig_row] and [_col], which differ in the
    comparator only.  [tile] is the buffer [tiles_[attribute_num]] of the
    coordinates and [t] the entry [overlapping_tiles_.back()]. *)
Definition compute_cell_pos_ranges_contig_in_order
    (cmp_order : list Z -> list Z -> nat -> Z) (dim_num : nat)
    (tile : list Z) (t : OverlappingTile) : outcome OverlappingTile :=
  match overlap_range_ t with
  | None => Faults
  | Some range =>
      let cell_num := cell_num_ t in
      let range_min_coords := range_min_coords range dim_num in
      let range_max_coords := range_max_coords range dim_num in
      do start_cell_pos <-
        match bsearch (look cmp_order dim_num tile range_min_coords)
                      0 (cell_num - 1) with
        | Crossed min max => Returns min
        | Broke _ _ med => Returns med
        | Faulted => Faults
        | Starved => Starves
        end;
      do end_cell_pos <-
        match bsearch (look cmp_order dim_num tile range_max_coords)
                      0 (cell_num - 1) with
        | Crossed min max => Returns max
        | Broke _ _ med => Returns med
        | Faulted => Faults
        | Starved => Starves
        end;
      if start_cell_pos <=? end_cell_pos
      then Returns
             (mkOverlappingTile (cell_num_ t)
                (cell_pos_ranges_ t ++ [(start_cell_pos, end_cell_pos)])
                (coords_ t) (coords_tile_fetched_ t) (overlap_ t)
                (overlap_range_ t) (pos_ t))
      else Returns t
  end.

Definition compute_cell_pos_ranges_contig (cell_order : CellOrder)
    (dim_num : nat) (tile : list Z) (t : OverlappingTile)
  : outcome OverlappingTile :=
  match cell_order with
  | TILEDB_AS_CO_ROW_MAJOR =>
      compute_cell_pos_ranges_contig_in_order cmp_row_order dim_num tile t
  | TILEDB_AS_CO_COLUMN_MAJOR =>
      compute_cell_pos_ranges_contig_in_order cmp_col_order dim_num tile t
  | TILEDB_AS_CO_HILBERT => Returns t
  end.

(** The loop of [compute_cell_pos_ranges_scan]; [ranges] are the ranges
    pushed so far. *)
Fixpoint scan_loop (dim_num : nat) (range tile : list Z) (i : Z)
    (rounds : nat) (current_start_pos current_end_pos : Z)
    (ranges : list (Z * Z)) : outcome (Z * Z * list (Z * Z)) :=
  match rounds with
  | O => Returns (current_start_pos, current_end_pos, ranges)
  | S rounds' =>
      match cell_at tile dim_num i with
      | None => Faults
      | Some cell =>
          if cell_in_range cell range dim_num
          then
            if i - 1 =? current_end_pos
            then scan_loop dim_num range tile (i + 1) rounds'
                           current_start_pos (current_end_pos + 1) ranges
            else scan_loop dim_num range tile (i + 1) rounds' i i ranges
          else
            if i - 1 =? current_end_pos
            then scan_loop dim_num range tile (i + 1) rounds'
                           current_start_pos (-2)
                           (ranges ++ [(current_start_pos, current_end_pos)])
            else scan_loop dim_num range tile (i + 1) rounds'
                           current_start_pos current_end_pos ranges
      end
  end.

(** [range] is the range of the query.  [current_start_pos] is declared
    without a value; [uninit] stands for what it holds. *)
Definition compute_cell_pos_ranges_scan (uninit : Z) (dim_num : nat)
    (range tile : list Z) (start_pos end_pos : Z) (t : OverlappingTile)
  : outcome OverlappingTile :=
  do r <- scan_loop dim_num range tile start_pos
                    (Z.to_nat (end_pos - start_pos + 1)) uninit (-2)
                    (cell_pos_ranges_ t);
  let '(current_start_pos, current_end_pos, ranges) := r in
  let ranges' :=
    if current_end_pos =? -2 then ranges
    else ranges ++ [(current_start_pos, current_end_pos)] in
  Returns (mkOverlappingTile (cell_num_ t) ranges' (coords_ t)
             (coords_tile_fetched_ t) (overlap_ t) (overlap_range_ t)
             (pos_ t)).

(** [capacity] is [array_schema->capacity()]. *)
Definition compute_cell_pos_ranges_non_contig (uninit : Z)
    (cell_order : CellOrder) (capacity : Z) (dim_num : nat)
    (range tile : list Z) (t : OverlappingTile) : outcome OverlappingTile :=
  match cell_order with
  | TILEDB_AS_CO_ROW_MAJOR | TILEDB_AS_CO_COLUMN_MAJOR =>
      do t1 <- compute_cell_pos_ranges_contig cell_order dim_num tile t;
      match cell_pos_ranges_ t1 with
      | [] => Returns t1
      | (start_pos, end_pos) :: _ =>
          compute_cell_pos_ranges_scan uninit dim_num range tile
            start_pos end_pos
            (mkOverlappingTile (cell_num_ t1) [] (coords_ t1)
               (coords_tile_fetched_ t1) (overlap_ t1) (overlap_range_ t1)
               (pos_ t1))
      end
  | TILEDB_AS_CO_HILBERT =>
      let cell_num := capacity in
      compute_cell_pos_ranges_scan uninit dim_num range tile
        0 (cell_num - 1) t
  end.

(** Position [c] lies in one of the intervals. *)
Definition covered (ranges : list (Z * Z)) (c : Z) : Prop :=
  Exists (fun r => r.1 <= c <= r.2) ranges.

(** The intervals are non-empty, ordered and pairwise disjoint. *)
Fixpoint ordered (ranges : list (Z * Z)) : Prop :=
  match ranges with
  | [] => True
  | r :: rest =>
      r.1 <= r.2
      /\ match rest with [] => True | r' :: _ => r.2 < r'.1 end
      /\ ordered rest
  end.

(** The cell at position [c] of the coordinates tile lies in [range]. *)
Definition qualifies (dim_num : nat) (range tile : list Z) (c : Z) : Prop :=
  exists cell, cell_at tile dim_num c = Some cell
               /\ cell_in_range cell range dim_num = true.

(** What holds in [compute_cell_pos_ranges_scan], started at [start_pos],
    before the cell at [i] is visited: the ranges pushed so far are ordered
    and cover the qualifying cells below [bound]; the active range, if there
    is one, starts at [bound] and reaches the cell before [i]. *)
Definition scan_invariant (dim_num : nat) (range tile : list Z)
    (start_pos i current_start_pos current_end_pos : Z)
    (ranges : list (Z * Z)) : Prop :=
  let bound := if current_end_pos =? -2 then i else current_start_pos in
  ordered ranges
  /\ (forall r, r ∈ ranges -> r.2 < bound)
  /\ (forall c, covered ranges c
                <-> start_pos <= c < bound /\ qualifies dim_num range tile c)
  /\ (current_end_pos <> -2 ->
      start_pos <= current_start_pos <= current_end_pos
      /\ current_end_pos = i - 1
      /\ forall c, current_start_pos <= c <= current_end_pos ->
                   qualifies dim_num range tile c).

(** The cells of a coordinates tile, each as the first and the last cell of
    a tile of one cell. *)
Definition cells_as_bounds (dim_num : nat) (tile : list Z) (cell_num : Z)
  : list (list Z) :=
  (fun i => take dim_num (drop (i * dim_num) tile)
            ++ take dim_num (drop (i * dim_num) tile))
    <$> seq 0 (Z.to_nat cell_num).

(** The cells of the tile follow the cell order, each before the next. *)
Definition cells_in_cell_order (cmp_order : list Z -> list Z -> nat -> Z)
    (dim_num : nat) (tile : list Z) (cell_num : Z) : bool :=
  TileSearch.in_cell_order cmp_order dim_num
    (cells_as_bounds dim_num tile cell_num).

End Resolver.

(** ** Tile I/O: [get_tile_from_disk_cmp_none], [_cmp_gzip] and
    [_var_cmp_gzip]

    The functions are modelled as compiled without [_TILEDB_USE_MMAP]: the
    macros [READ_TILE_FROM_FILE_*] stand for [read_tile_from_file_*].  The
    contents of the buffers are not part of the state; what is read from a
    file and what [gunzip] returns are given by the environment. *)

Module TileIO.

Local Open Scope outcome_scope.

(** The array schema, the book-keeping and the file system, as far as the
    functions consult them.  [read_from_file] and [gunzip] (of [utils.h])
    say whether the call succeeds ([TILEDB_UT_OK]); [gunzip] also gives
    the number of bytes it produced. *)
Record Env : Type := mkEnv {
  attribute_num : nat;
  cell_size : nat -> Z;
  tile_size : nat -> Z;
  cell_num_per_tile : Z;
  tile_num : Z;
  tile_offsets : list (list Z);
  tile_var_offsets : list (list Z);
  tile_var_sizes : list (list Z);
  file_size : nat -> bool -> Z;
  read_from_file : file_read -> bool;
  gunzip : file_read -> Z -> bool * Z
}.

(** [overlapping_tiles_[overlapping_tiles_pos_[attribute_id]]]: the
    position in the list and the entry. *)
Definition current_tile (attribute_id : nat) (s : ReadState)
  : outcome (nat * OverlappingTile) :=
  do p <- vec_at (overlapping_tiles_pos_ s) attribute_id;
  if p <? 0 then Faults
  else
    do t <- vec_at (overlapping_tiles_ s) (Z.to_nat p);
    Returns (Z.to_nat p, t).

(** [overlapping_tile.coords_tile_fetched_ = true] for the entry at [i]. *)
Definition set_coords_tile_fetched (i : nat) (s : ReadState) : ReadState :=
  with_overlapping_tiles
    (alter (fun t => mkOverlappingTile (cell_num_ t) (cell_pos_ranges_ t)
                       (coords_ t) true (overlap_ t) (overlap_range_ t)
                       (pos_ t))
           i (overlapping_tiles_ s)) s.

(** A call of [read_from_file]. *)
Definition do_read (E : Env) (r : file_read) (s : ReadState)
  : status * ReadState :=
  (if read_from_file E r then TILEDB_RS_OK else TILEDB_RS_ERR,
   with_file_reads (file_reads_ s ++ [r]) s).

Definition read_tile_from_file_cmp_none (E : Env) (attribute_id : nat)
    (offset tile_size : Z) (s : ReadState) : outcome (status * ReadState) :=
  do s1 <- set_tiles_size attribute_id tile_size s;
  Returns (do_read E (mkFileRead attribute_id false offset tile_size) s1).

Definition read_tile_from_file_cmp_gzip (E : Env) (attribute_id : nat)
    (offset tile_size : Z) (s : ReadState) : outcome (status * ReadState) :=
  Returns (do_read E (mkFileRead attribute_id false offset tile_size) s).

Definition read_tile_from_file_var_cmp_gzip (E : Env) (attribute_id : nat)
    (offset tile_size : Z) (s : ReadState) : outcome (status * ReadState) :=
  Returns (do_read E (mkFileRead attribute_id true offset tile_size) s).

Definition get_tile_from_disk_cmp_none (E : Env) (attribute_id : nat)
    (s : ReadState) : outcome (status * ReadState) :=
  do it <- current_tile attribute_id s;
  let overlapping_tile := it.2 in
  if bool_decide (attribute_id = attribute_num E)
     && coords_tile_fetched_ overlapping_tile
  then Returns (TILEDB_RS_OK, s)
  else
    let full_tile_size := tile_size E attribute_id in
    let tile_size :=
      size_t (cell_num_ overlapping_tile * cell_size E attribute_id) in
    let pos := pos_ overlapping_tile in
    let file_offset := pos * full_tile_size in
    do r <- read_tile_from_file_cmp_none E attribute_id file_offset tile_size s;
    if bool_decide (r.1 <> TILEDB_RS_OK)
    then Returns (TILEDB_RS_ERR, r.2)
    else
      do s2 <- set_tiles_offset attribute_id 0 r.2;
      Returns (TILEDB_RS_OK,
               if bool_decide (attribute_id = attribute_num E)
               then set_coords_tile_fetched it.1 s2 else s2).

(** "Find file offset where the tile begins" and the size of the compressed
    tile, from the offsets [offsets] of the tiles of one file. *)
Definition compressed_extent (E : Env) (offsets : list Z) (size_of_file : Z)
    (pos : Z) : outcome (Z * Z) :=
  match at_ offsets pos with
  | None => Faults
  | Some file_offset =>
      if pos =? tile_num E - 1
      then Returns (file_offset, size_t (size_of_file - file_offset))
      else match at_ offsets (pos + 1) with
           | None => Faults
           | Some next => Returns (file_offset, size_t (next - file_offset))
           end
  end.

(** [gunzip(...)] followed by the sanity check
    [assert(gunzip_out_size == expected)].  [Returns None] stands for the
    [return TILEDB_RS_ERR] taken when [gunzip] fails. *)
Definition gunzip_checked (NDEBUG : bool) (E : Env) (r : file_read)
    (out_capacity expected : Z) (s : ReadState) : outcome (option ReadState) :=
  let g := gunzip E r out_capacity in
  if negb g.1 then Returns None
  else
    do_ assert_ NDEBUG (g.2 =? expected);
    Returns (Some (with_gunzips
                     (gunzips_ s ++ [mkGunzipReturn g.2 expected]) s)).

Definition get_tile_from_disk_cmp_gzip (NDEBUG : bool) (E : Env)
    (attribute_id : nat) (s : ReadState) : outcome (status * ReadState) :=
  do it <- current_tile attribute_id s;
  let overlapping_tile := it.2 in
  if bool_decide (attribute_id = attribute_num E)
     && coords_tile_fetched_ overlapping_tile
  then Returns (TILEDB_RS_OK, s)
  else
    let full_tile_size := tile_size E attribute_id in
    let tile_size :=
      size_t (cell_num_ overlapping_tile * cell_size E attribute_id) in
    do s1 <- set_tiles_size attribute_id tile_size s;
    let pos := pos_ overlapping_tile in
    do offsets <- vec_at (tile_offsets E) attribute_id;
    do ext <- compressed_extent E offsets (file_size E attribute_id false) pos;
    do r <- read_tile_from_file_cmp_gzip E attribute_id ext.1 ext.2 s1;
    if bool_decide (r.1 <> TILEDB_RS_OK)
    then Returns (TILEDB_RS_ERR, r.2)
    else
      do u <- gunzip_checked NDEBUG E
                (mkFileRead attribute_id false ext.1 ext.2)
                full_tile_size tile_size r.2;
      match u with
      | None => Returns (TILEDB_RS_ERR, r.2)
      | Some s2 =>
          do s3 <- set_tiles_offset attribute_id 0 s2;
          Returns (TILEDB_RS_OK,
                   if bool_decide (attribute_id = attribute_num E)
                   then set_coords_tile_fetched it.1 s3 else s3)
      end.

(** [var_size] is [array_schema->var_size(attribute_id)]. *)
Definition get_tile_from_disk_var_cmp_gzip (NDEBUG : bool) (E : Env)
    (var_size : bool) (attribute_id : nat) (s : ReadState)
  : outcome (status * ReadState) :=
  do_ assert_ NDEBUG var_size;
  let cell_size := TILEDB_CELL_VAR_OFFSET_SIZE in
  do it <- current_tile attribute_id s;
  let overlapping_tile := it.2 in
  let tile_size := size_t (cell_num_ overlapping_tile * cell_size) in
  let pos := pos_ overlapping_tile in
  (* Get tile with variable cell offsets *)
  do offsets <- vec_at (tile_offsets E) attribute_id;
  do ext <- compressed_extent E offsets (file_size E attribute_id false) pos;
  do s1 <- set_tiles_size attribute_id tile_size s;
  do r <- read_tile_from_file_cmp_gzip E attribute_id ext.1 ext.2 s1;
  if bool_decide (r.1 <> TILEDB_RS_OK)
  then Returns (TILEDB_RS_ERR, r.2)
  else
    do u <- gunzip_checked NDEBUG E
              (mkFileRead attribute_id false ext.1 ext.2)
              tile_size tile_size r.2;
    match u with
    | None => Returns (TILEDB_RS_ERR, r.2)
    | Some s2 =>
        do s3 <- set_tiles_offset attribute_id 0 s2;
        (* Get variable tile *)
        do var_offsets <- vec_at (tile_var_offsets E) attribute_id;
        do vext <- compressed_extent E var_offsets
                     (file_size E attribute_id true) pos;
        do var_sizes <- vec_at (tile_var_sizes E) attribute_id;
        match at_ var_sizes pos with
        | None => Faults
        | Some tile_var_size =>
            do r' <- read_tile_from_file_var_cmp_gzip E attribute_id
                       vext.1 vext.2 s3;
            if bool_decide (r'.1 <> TILEDB_RS_OK)
            then Returns (TILEDB_RS_ERR, r'.2)
            else
              do u' <- gunzip_checked NDEBUG E
                         (mkFileRead attribute_id true vext.1 vext.2)
                         tile_var_size tile_var_size r'.2;
              match u' with
              | None => Returns (TILEDB_RS_ERR, r'.2)
              | Some s4 =>
                  do v <- vec_set (tiles_var_sizes_ s4) attribute_id
                                  tile_var_size;
                  do w <- vec_set (tiles_var_offsets_ s4) attribute_id 0;
                  Returns (TILEDB_RS_OK,
                           with_tiles_var_offsets w
                             (with_tiles_var_sizes v s4))
              end
        end
    end.

(** "Fetch and decompress tile" in the loop of
    [read_dense_attr_cmp_gzip<T>] and [read_sparse_attr_cmp_gzip<T>]: the
    function returns [TILEDB_RS_ERR] at once when the load fails
    ([Some TILEDB_RS_ERR]), and goes on to the copy otherwise ([None]). *)
Definition fetch_and_decompress (NDEBUG : bool) (E : Env)
    (attribute_id : nat) (s : ReadState)
  : outcome (option status * ReadState) :=
  do it <- current_tile attribute_id s;
  if bool_decide (overlap_ it.2 <> NONE)
  then
    do r <- get_tile_from_disk_cmp_gzip NDEBUG E attribute_id s;
    if bool_decide (r.1 <> TILEDB_RS_OK)
    then Returns (Some TILEDB_RS_ERR, r.2)
    else Returns (None, r.2)
  else Returns (None, s).

(** The reads of the file of attribute [attribute_id] made so far. *)
Definition reads_of (attribute_id : nat) (s : ReadState) : list file_read :=
  filter (fun r => file_attribute r = attribute_id) (file_reads_ s).

End TileIO.

(** ** The overlap iterator for sparse fragments:
    [get_next_overlapping_tile_sparse] *)

Module Iterator.

Local Open Scope outcome_scope.

(** What [compute_mbr_range_overlap] returns as [overlap] is turned into
    an [Overlap]; another value leaves the member as it was. *)
Definition set_overlap (overlap : Z) (t : OverlappingTile) : Overlap :=
  if overlap =? 0 then NONE
  else if overlap =? 1 then FULL
  else if overlap =? 2 then PARTIAL_NON_CONTIG
  else if overlap =? 3 then PARTIAL_CONTIG
  else overlap_ t.

(** "The next overlapping tile", before the search: [coords_] is [NULL],
    [overlap_range_] is a fresh block, the flag is reset and [overlap_] is
    [NONE]; [pos_] and [cell_num_] hold what [uninit] holds. *)
Definition new_overlapping_tile (uninit : OverlappingTile) (block : list Z)
  : OverlappingTile :=
  mkOverlappingTile (cell_num_ uninit) [] None false NONE (Some block)
                    (pos_ uninit).

(** "Find the tile position of the next overlapping tile": the [while]
    loop.  [compute_mbr_range_overlap range mbr] is the schema's answer
    [(overlap_range, overlap)]. *)
Fixpoint find_next (fuel : nat)
    (compute_mbr_range_overlap : list Z -> list Z -> list Z * Z)
    (range : list Z) (mbrs : list (list Z)) (tile_search_range_1 : Z)
    (tile_pos : Z) (t : OverlappingTile) : outcome OverlappingTile :=
  if bool_decide (overlap_ t = NONE) && (tile_pos <=? tile_search_range_1)
  then
    match fuel with
    | O => Starves
    | S fuel' =>
        match at_ mbrs tile_pos with
        | None => Faults
        | Some mbr =>
            let o := compute_mbr_range_overlap range mbr in
            let t1 := mkOverlappingTile (cell_num_ t) (cell_pos_ranges_ t)
                        (coords_ t) (coords_tile_fetched_ t) (overlap_ t)
                        (Some o.1) tile_pos in
            let t2 := mkOverlappingTile (cell_num_ t1) (cell_pos_ranges_ t1)
                        (coords_ t1) (coords_tile_fetched_ t1)
                        (set_overlap o.2 t1) (overlap_range_ t1) (pos_ t1) in
            find_next fuel' compute_mbr_range_overlap range mbrs
                      tile_search_range_1 (tile_pos + 1) t2
        end
    end
  else Returns t.

Section Sparse.

Variable compute_mbr_range_overlap : list Z -> list Z -> list Z * Z.
(** [compute_cell_pos_ranges<T>], which works on the entry just pushed. *)
Variable compute_cell_pos_ranges : ReadState -> outcome ReadState.

(** The entry that the function stores: the position of the next
    overlapping tile is searched from the entry last stored, and the
    number of cells is set. *)
Definition next_overlapping_tile_entry (uninit : OverlappingTile)
    (block : list Z) (capacity last_tile_cell_num : Z) (range : list Z)
    (mbrs : list (list Z)) (tile_search_range_ : Z * Z) (s : ReadState)
  : outcome OverlappingTile :=
  let tile_num := Z.of_nat (length mbrs) in
  let overlapping_tile := new_overlapping_tile uninit block in
  let tile_pos :=
    match last (overlapping_tiles_ s) with
    | None => tile_search_range_.1
    | Some back => pos_ back + 1
    end in
  do t1 <-
    (if (0 <=? tile_search_range_.1) && (tile_search_range_.1 <? tile_num)
     then find_next (Z.to_nat (tile_search_range_.2 - tile_pos + 1))
                    compute_mbr_range_overlap range mbrs
                    tile_search_range_.2 tile_pos overlapping_tile
     else Returns overlapping_tile);
  Returns (mkOverlappingTile
             (if pos_ t1 =? tile_num - 1 then last_tile_cell_num
              else capacity)
             (cell_pos_ranges_ t1) (coords_ t1) (coords_tile_fetched_ t1)
             (overlap_ t1) (overlap_range_ t1) (pos_ t1)).

Definition get_next_overlapping_tile_sparse (uninit : OverlappingTile)
    (block : list Z) (attribute_num : nat) (attribute_ids : list nat)
    (capacity last_tile_cell_num : Z) (range : list Z)
    (mbrs : list (list Z)) (tile_search_range_ : Z * Z) (s : ReadState)
  : outcome ReadState :=
  do t2 <- next_overlapping_tile_entry uninit block capacity
             last_tile_cell_num range mbrs tile_search_range_ s;
  let s1 := with_overlapping_tiles (overlapping_tiles_ s ++ [t2]) s in
  do s2 <-
    (if bool_decide (overlap_ t2 = PARTIAL_CONTIG)
        || bool_decide (overlap_ t2 = PARTIAL_NON_CONTIG)
     then compute_cell_pos_ranges s1 else Returns s1);
  Reaper.clean_up_processed_overlapping_tiles attribute_num attribute_ids s2.

End Sparse.

End Iterator.

(** ** The facade: [read], [read_dense], [read_sparse] and the
    per-attribute dispatchers *)

Module Facade.

Local Open Scope outcome_scope.

Inductive Compression : Set := TILEDB_AS_CMP_NONE | TILEDB_AS_CMP_GZIP.

(** [array_schema->coords_type()]; [T_other] is any type but the four. *)
Inductive CoordsType : Set := T_int | T_int64 | T_float | T_double | T_other.

(** [array->mode()]; [TILEDB_WRITE] stands for every mode that is not a
    read mode. *)
Inductive Mode : Set := TILEDB_READ | TILEDB_READ_REVERSE | TILEDB_WRITE.

(** The fragment, its array and the array schema, as far as the facade
    consults them; [files] are the files that exist. *)
Record Fragment : Type := mkFragment {
  fragment_name : string;
  attribute : nat -> string;
  TILEDB_FILE_SUFFIX : string;
  files : gset string;
  dense : bool;
  var_size : nat -> bool;
  compression : nat -> Compression;
  coords_type : CoordsType;
  attribute_ids : list nat;
  mode : Mode
}.

(** Modelled from the spec: [is_file] of [utils.h], "an attribute is empty if
    its file does not exist". *)
Definition is_file (F : Fragment) (filename : string) : bool :=
  bool_decide (filename ∈ files F).

Definition is_empty_attribute (F : Fragment) (attribute_id : nat) : bool :=
  let filename :=
    fragment_name F +:+ "/" +:+ attribute F attribute_id
      +:+ TILEDB_FILE_SUFFIX F in
  negb (is_file F filename).

Definition reset_overflow (s : ReadState) : ReadState :=
  with_overflow ((fun _ => false) <$> overflow_ s) s.

(** What a per-attribute read gives back: the status, the buffer sizes as
    the function leaves them (one size for a fixed-sized attribute, two for
    a variable-sized one) and the state. *)
Definition result : Type := status * list Z * ReadState.

Section Loops.

(** The templated functions [read_dense_attr_cmp_none<T>], ...,
    [read_sparse_attr_var_cmp_gzip<T>], each a [for(;;)] loop over the
    overlapping tiles: [loop is_dense is_var compression T attribute_id
    buffer_sizes s]. *)
Variable loop : bool -> bool -> Compression -> CoordsType -> nat ->
                list Z -> ReadState -> outcome result.

(** "Invoke the proper templated function": the dense functions accept
    [int] and [int64_t], the sparse ones [float] and [double] too. *)
Definition invoke (is_dense is_var : bool) (c : Compression)
    (F : Fragment) (attribute_id : nat) (buffer_sizes : list Z)
    (s : ReadState) : outcome result :=
  match coords_type F with
  | T_int => loop is_dense is_var c T_int attribute_id buffer_sizes s
  | T_int64 => loop is_dense is_var c T_int64 attribute_id buffer_sizes s
  | T_float =>
      if is_dense then Returns (TILEDB_RS_ERR, buffer_sizes, s)
      else loop is_dense is_var c T_float attribute_id buffer_sizes s
  | T_double =>
      if is_dense then Returns (TILEDB_RS_ERR, buffer_sizes, s)
      else loop is_dense is_var c T_double attribute_id buffer_sizes s
  | T_other => Returns (TILEDB_RS_ERR, buffer_sizes, s)
  end.

(** The four functions for fixed-sized attributes have the same text up
    to the templated function they invoke. *)
Definition read_attr_cmp (is_dense : bool) (c : Compression)
    (F : Fragment) (attribute_id : nat) (buffer_size : Z) (s : ReadState)
  : outcome result :=
  if is_empty_attribute F attribute_id
  then Returns (TILEDB_RS_OK, [0], s)
  else invoke is_dense false c F attribute_id [buffer_size] s.

Definition read_dense_attr_cmp_none := read_attr_cmp true TILEDB_AS_CMP_NONE.
Definition read_dense_attr_cmp_gzip := read_attr_cmp true TILEDB_AS_CMP_GZIP.
Definition read_sparse_attr_cmp_none := read_attr_cmp false TILEDB_AS_CMP_NONE.
Definition read_sparse_attr_cmp_gzip := read_attr_cmp false TILEDB_AS_CMP_GZIP.

(** Likewise for variable-sized attributes. *)
Definition read_attr_var_cmp (is_dense : bool) (c : Compression)
    (F : Fragment) (attribute_id : nat) (buffer_size buffer_var_size : Z)
    (s : ReadState) : outcome result :=
  if is_empty_attribute F attribute_id
  then Returns (TILEDB_RS_OK, [0; 0], s)
  else invoke is_dense true c F attribute_id
              [buffer_size; buffer_var_size] s.

Definition read_dense_attr_var_cmp_none :=
  read_attr_var_cmp true TILEDB_AS_CMP_NONE.
Definition read_dense_attr_var_cmp_gzip :=
  read_attr_var_cmp true TILEDB_AS_CMP_GZIP.
Definition read_sparse_attr_var_cmp_none :=
  read_attr_var_cmp false TILEDB_AS_CMP_NONE.
Definition read_sparse_attr_var_cmp_gzip :=
  read_attr_var_cmp false TILEDB_AS_CMP_GZIP.

(** [read_dense_attr] ([is_dense]) and [read_sparse_attr]. *)
Definition read_attr (is_dense : bool) (F : Fragment) (attribute_id : nat)
    (buffer_size : Z) (s : ReadState) : outcome result :=
  if buffer_size =? 0
  then
    do s' <- set_overflow attribute_id s;
    Returns (TILEDB_RS_OK, [buffer_size], s')
  else
    match compression F attribute_id with
    | TILEDB_AS_CMP_NONE =>
        read_attr_cmp is_dense TILEDB_AS_CMP_NONE F attribute_id
                      buffer_size s
    | TILEDB_AS_CMP_GZIP =>
        read_attr_cmp is_dense TILEDB_AS_CMP_GZIP F attribute_id
                      buffer_size s
    end.

Definition read_dense_attr := read_attr true.
Definition read_sparse_attr := read_attr false.

(** [read_dense_attr_var] ([is_dense]) and [read_sparse_attr_var]. *)
Definition read_attr_var (is_dense : bool) (F : Fragment)
    (attribute_id : nat) (buffer_size buffer_var_size : Z) (s : ReadState)
  : outcome result :=
  if (buffer_size =? 0) || (buffer_var_size =? 0)
  then
    do s' <- set_overflow attribute_id s;
    Returns (TILEDB_RS_OK, [0; 0], s')
  else
    match compression F attribute_id with
    | TILEDB_AS_CMP_NONE =>
        read_attr_var_cmp is_dense TILEDB_AS_CMP_NONE F attribute_id
                          buffer_size buffer_var_size s
    | TILEDB_AS_CMP_GZIP =>
        read_attr_var_cmp is_dense TILEDB_AS_CMP_GZIP F attribute_id
                          buffer_size buffer_var_size s
    end.

Definition read_dense_attr_var := read_attr_var true.
Definition read_sparse_attr_var := read_attr_var false.

(** The loop of [read_dense] ([is_dense]) and [read_sparse] over the
    requested attributes; [rc] is the status of the last attribute read
    and [buffer_sizes] the caller's array of sizes, updated in place. *)
Fixpoint read_attributes (is_dense : bool) (F : Fragment) (ids : list nat)
    (buffer_i : nat) (rc : status) (buffer_sizes : list Z) (s : ReadState)
  : outcome result :=
  match ids with
  | [] => Returns (rc, buffer_sizes, s)
  | id :: ids' =>
      if negb (var_size F id)
      then
        do size <- vec_at buffer_sizes buffer_i;
        do r <- read_attr is_dense F id size s;
        let '(rc', sizes', s') := r in
        let buffer_sizes' :=
          <[buffer_i := sizes' !!! 0%nat]> buffer_sizes in
        if bool_decide (rc' <> TILEDB_RS_OK)
        then Returns (rc', buffer_sizes', s')
        else read_attributes is_dense F ids' (buffer_i + 1) rc'
                             buffer_sizes' s'
      else
        do size <- vec_at buffer_sizes buffer_i;
        do size_var <- vec_at buffer_sizes (buffer_i + 1);
        do r <- read_attr_var is_dense F id size size_var s;
        let '(rc', sizes', s') := r in
        let buffer_sizes' :=
          <[(buffer_i + 1)%nat := sizes' !!! 1%nat]>
            (<[buffer_i := sizes' !!! 0%nat]> buffer_sizes) in
        if bool_decide (rc' <> TILEDB_RS_OK)
        then Returns (rc', buffer_sizes', s')
        else read_attributes is_dense F ids' (buffer_i + 2) rc'
                             buffer_sizes' s'
  end.

(** [rc] is declared without a value; [uninit] stands for what it
    holds. *)
Definition read_dense (uninit : status) (F : Fragment)
    (buffer_sizes : list Z) (s : ReadState) : outcome result :=
  read_attributes true F (attribute_ids F) 0 uninit buffer_sizes s.

Definition read_sparse (uninit : status) (F : Fragment)
    (buffer_sizes : list Z) (s : ReadState) : outcome result :=
  read_attributes false F (attribute_ids F) 0 uninit buffer_sizes s.

(** "Dispatch the proper write command": what [read] does after the
    reset. *)
Definition dispatch (uninit : status) (F : Fragment)
    (buffer_sizes : list Z) (s : ReadState) : outcome result :=
  match mode F with
  | TILEDB_READ =>
      if dense F then read_dense uninit F buffer_sizes s
      else read_sparse uninit F buffer_sizes s
  | TILEDB_READ_REVERSE => Returns (TILEDB_RS_OK, buffer_sizes, s)
  | TILEDB_WRITE => Returns (TILEDB_RS_ERR, buffer_sizes, s)
  end.

Definition read (uninit : status) (F : Fragment) (buffer_sizes : list Z)
    (s : ReadState) : outcome result :=
  dispatch uninit F buffer_sizes (reset_overflow s).

End Loops.

End Facade.

(** ** The end of a [ReadState]: [ReadState::~ReadState] *)

Module Lifetime.

(** The first loop of the destructor: the heap blocks of every entry that
    is still in the list are handed to [free]. *)
Definition destructor (s : ReadState) : ReadState :=
  with_freed (freed_ s ++ concat (Reaper.blocks <$> overlapping_tiles_ s)) s.

End Lifetime.

(** ** [ReadState::shift_var_offsets] *)

Module VarOffsets.

Local Open Scope outcome_scope.

(** The loops "Shift offsets": [a[i] = f(a[i])] for [rounds] entries, from
    entry [i] on. *)
Fixpoint shift_loop (f : Z -> Z) (i rounds : nat) (a : list Z)
  : outcome (list Z) :=
  match rounds with
  | O => Returns a
  | S rounds' =>
      do x <- vec_at a i;
      do a' <- vec_set a i (f x);
      shift_loop f (S i) rounds' a'
  end.

(** [shift_var_offsets(buffer, offset_num, new_start_offset)].  [buffer_s]
    is the caller's buffer from [buffer] on, read as [size_t] entries; the
    result is the buffer as the function leaves it. *)
Definition shift_var_offsets (buffer_s : list Z)
    (offset_num new_start_offset : Z) : outcome (list Z) :=
  do start_offset <- vec_at buffer_s 0;
  shift_loop (fun x => size_t (size_t (x - start_offset) + new_start_offset))
             0 (Z.to_nat offset_num) buffer_s.

(** [shift_var_offsets(attribute_id)].  [tiles_size] is
    [tiles_sizes_[attribute_id]] and [tile_s] the buffer
    [tiles_[attribute_id]], read as [size_t] entries. *)
Definition shift_var_offsets_of_tile (tiles_size : Z) (tile_s : list Z)
  : outcome (list Z) :=
  let cell_num := tiles_size / TILEDB_CELL_VAR_OFFSET_SIZE in
  do first_offset <- vec_at tile_s 0;
  shift_loop (fun x => size_t (x - first_offset)) 0 (Z.to_nat cell_num) tile_s.

(** The byte length of cell [i], where the offsets [a] are followed by the
    end [last] of the variable segment. *)
Definition cell_length (a : list Z) (i : nat) : Z :=
  a !!! S i - a !!! i.

End VarOffsets.


(** ** The resolver for a unary range: [compute_cell_pos_ranges_unary] and
    [compute_cell_pos_ranges_unary_row], [_col] and [_hil] *)

Module Unary.

Import Coords.
Local Open Scope outcome_scope.

(** The three functions differ in the comparator only: [cmp_row_order],
    [cmp_col_order], and for the Hilbert order [cmp_row_order] on the
    Hilbert ids and the coordinates.  [tile] is the buffer
    [tiles_[attribute_num]] of the coordinates and [t] the entry
    [overlapping_tiles_.back()]. *)
Definition compute_cell_pos_ranges_unary_in_order
    (cmp_order : list Z -> list Z -> nat -> Z) (dim_num : nat)
    (tile : list Z) (t : OverlappingTile) : outcome OverlappingTile :=
  match overlap_range_ t with
  | None => Faults
  | Some range =>
      let cell_num := cell_num_ t in
      let range_coords := range_min_coords range dim_num in
      match bsearch (Resolver.look cmp_order dim_num tile range_coords)
                    0 (cell_num - 1) with
      | Crossed min max => Returns t
      | Broke min max med =>
          Returns
            (mkOverlappingTile (cell_num_ t)
               (cell_pos_ranges_ t ++ [(med, med)])
               (coords_ t) (coords_tile_fetched_ t) (overlap_ t)
               (overlap_range_ t) (pos_ t))
      | Faulted => Faults
      | Starved => Starves
      end
  end.

(** [cmp_hilbert a b dim_num] stands for
    [cmp_row_order(hilbert_id(a), a, hilbert_id(b), b, dim_num)]. *)
Definition compute_cell_pos_ranges_unary
    (cmp_hilbert : list Z -> list Z -> nat -> Z) (cell_order : CellOrder)
    (dim_num : nat) (tile : list Z) (t : OverlappingTile)
  : outcome OverlappingTile :=
  match cell_order with
  | TILEDB_AS_CO_ROW_MAJOR =>
      compute_cell_pos_ranges_unary_in_order cmp_row_order dim_num tile t
  | TILEDB_AS_CO_COLUMN_MAJOR =>
      compute_cell_pos_ranges_unary_in_order cmp_col_order dim_num tile t
  | TILEDB_AS_CO_HILBERT =>
      compute_cell_pos_ranges_unary_in_order cmp_hilbert dim_num tile t
  end.

End Unary.


(** ** Copying from the tile buffer into the caller's buffer:
    [copy_from_tile_buffer_full], [_partial_contig_sparse],
    [_partial_non_contig_sparse] and [copy_from_tile_buffer_sparse]

    Fixed-sized attributes only.  The contents of the buffers are not part
    of the state; the writes into the caller's buffer are logged. *)

Module Copier.

Local Open Scope outcome_scope.

(** A write into the caller's buffer, at [buffer + dst]: a [memcpy] from
    the tile buffer, or a [READ_FROM_FILE] that reads straight into the
    caller's buffer. *)
Inductive buffer_write : Set :=
| FromTile (m : memcpy_call)
| FromFile (dst : Z) (r : file_read).

Definition write_dst (w : buffer_write) : Z :=
  match w with FromTile m => dst m | FromFile d _ => d end.

Definition write_len (w : buffer_write) : Z :=
  match w with FromTile m => n m | FromFile _ r => file_length r end.

(** The state of a [ReadState] together with the member
    [cell_pos_range_pos_], the caller's [buffer_offset] (a reference
    parameter of every copy function) and the log of the writes into the
    caller's buffer, in order. *)
Record copy_state : Type := mkCopyState {
  state_ : ReadState;
  cell_pos_range_pos_ : list Z;
  buffer_offset_ : Z;
  written_ : list buffer_write
}.

Definition with_state (s : ReadState) (c : copy_state) : copy_state :=
  mkCopyState s (cell_pos_range_pos_ c) (buffer_offset_ c) (written_ c).

(** [memcpy(buffer_c + buffer_offset, tile + tiles_offset, bytes_to_copy)]
    followed by [buffer_offset += bytes_to_copy]. *)
Definition memcpy_to_buffer (tiles_offset bytes_to_copy : Z) (c : copy_state)
  : copy_state :=
  mkCopyState (state_ c) (cell_pos_range_pos_ c)
    (size_t (buffer_offset_ c + bytes_to_copy))
    (written_ c
     ++ [FromTile (mkMemcpy (buffer_offset_ c) tiles_offset bytes_to_copy)]).

Definition copy_from_tile_buffer_full (NDEBUG : bool) (attribute_id : nat)
    (buffer_size : Z) (c : copy_state) : outcome copy_state :=
  let s := state_ c in
  do tiles_size <- vec_at (tiles_sizes_ s) attribute_id;
  do tiles_offset <- vec_at (tiles_offsets_ s) attribute_id;
  let bytes_left_to_copy := size_t (tiles_size - tiles_offset) in
  do_ assert_ NDEBUG (negb (bytes_left_to_copy =? 0));
  let buffer_free_space := size_t (buffer_size - buffer_offset_ c) in
  let bytes_to_copy := Z.min bytes_left_to_copy buffer_free_space in
  do r <-
    (if negb (bytes_to_copy =? 0)
     then
       let tiles_offset' := size_t (tiles_offset + bytes_to_copy) in
       do s1 <- set_tiles_offset attribute_id tiles_offset' s;
       Returns (with_state s1 (memcpy_to_buffer tiles_offset bytes_to_copy c),
                tiles_offset',
                size_t (bytes_left_to_copy - bytes_to_copy))
     else Returns (c, tiles_offset, bytes_left_to_copy));
  let '(c1, tiles_offset1, bytes_left_to_copy1) := r in
  if bytes_left_to_copy1 >? 0
  then
    do_ assert_ NDEBUG (buffer_offset_ c1 =? buffer_size);
    do s2 <- set_overflow attribute_id (state_ c1);
    Returns (with_state s2 c1)
  else
    do_ assert_ NDEBUG (tiles_offset1 =? tiles_size);
    do s2 <- next_overlapping_tile attribute_id (state_ c1);
    Returns (with_state s2 c1).

(** [cell_size] is [array_schema->cell_size(attribute_id)] and [var_size]
    is [array_schema->var_size(attribute_id)]. *)
Definition copy_from_tile_buffer_partial_contig_sparse (NDEBUG : bool)
    (cell_size : Z) (var_size : bool) (attribute_id : nat) (buffer_size : Z)
    (c : copy_state) : outcome copy_state :=
  let s := state_ c in
  let buffer_free_space := size_t (buffer_size - buffer_offset_ c) in
  if buffer_free_space =? 0
  then
    do s' <- set_overflow attribute_id s;
    Returns (with_state s' c)
  else
    do it <- TileIO.current_tile attribute_id s;
    let overlapping_tile := it.2 in
    do_ assert_ NDEBUG
          (length (cell_pos_ranges_ overlapping_tile) <=? 1)%nat;
    match cell_pos_ranges_ overlapping_tile with
    | [] => Returns c
    | (first, second) :: _ =>
        let start_offset := size_t (first * cell_size) in
        let end_offset := size_t ((second + 1) * cell_size - 1) in
        do_ assert_ NDEBUG (negb var_size);
        do tiles_offset0 <- vec_at (tiles_offsets_ s) attribute_id;
        let tiles_offset1 :=
          if tiles_offset0 <? start_offset then start_offset
          else tiles_offset0 in
        let bytes_left_to_copy := size_t (end_offset - tiles_offset1 + 1) in
        let bytes_to_copy := Z.min bytes_left_to_copy buffer_free_space in
        let c1 := memcpy_to_buffer tiles_offset1 bytes_to_copy c in
        let tiles_offset2 := size_t (tiles_offset1 + bytes_to_copy) in
        if tiles_offset2 =? size_t (end_offset + 1)
        then
          do tiles_size <- vec_at (tiles_sizes_ s) attribute_id;
          do s1 <- set_tiles_offset attribute_id tiles_size s;
          do s2 <- next_overlapping_tile attribute_id s1;
          Returns (with_state s2 c1)
        else
          do s1 <- set_tiles_offset attribute_id tiles_offset2 s;
          do_ assert_ NDEBUG (buffer_offset_ c1 =? buffer_size);
          do s2 <- set_overflow attribute_id s1;
          Returns (with_state s2 c1)
    end.

(** The loop "For each cell position range" of
    [copy_from_tile_buffer_partial_non_contig_sparse]: [ranges] are the
    ranges of the current overlapping tile, [i] the range to visit and
    [buffer_free_space] the local variable of that name. *)
Fixpoint copy_cell_pos_ranges (NDEBUG : bool) (cell_size : Z)
    (attribute_id : nat) (buffer_size : Z) (ranges : list (Z * Z))
    (i : Z) (rounds : nat) (buffer_free_space : Z) (c : copy_state)
  : outcome copy_state :=
  match rounds with
  | O => Returns c
  | S rounds' =>
      match at_ ranges i with
      | None => Faults
      | Some (first, second) =>
          let s := state_ c in
          let cell_pos_ranges_num := Z.of_nat (length ranges) in
          let start_offset := size_t (first * cell_size) in
          let end_offset := size_t ((second + 1) * cell_size - 1) in
          do tiles_offset0 <- vec_at (tiles_offsets_ s) attribute_id;
          let tiles_offset1 :=
            if tiles_offset0 <? start_offset then start_offset
            else tiles_offset0 in
          let bytes_left_to_copy :=
            size_t (end_offset - tiles_offset1 + 1) in
          let bytes_to_copy := Z.min bytes_left_to_copy buffer_free_space in
          let copies := negb (bytes_to_copy =? 0) in
          let c1 :=
            if copies then memcpy_to_buffer tiles_offset1 bytes_to_copy c
            else c in
          let tiles_offset2 :=
            if copies then size_t (tiles_offset1 + bytes_to_copy)
            else tiles_offset1 in
          let buffer_free_space' :=
            if copies then size_t (buffer_size - buffer_offset_ c1)
            else buffer_free_space in
          do s1 <- set_tiles_offset attribute_id tiles_offset2 s;
          do c2 <-
            (if (i =? cell_pos_ranges_num - 1)
                && (tiles_offset2 =? size_t (end_offset + 1))
             then
               do tiles_size <- vec_at (tiles_sizes_ s1) attribute_id;
               do s2 <- set_tiles_offset attribute_id tiles_size s1;
               do s3 <- next_overlapping_tile attribute_id s2;
               do p <- vec_set (cell_pos_range_pos_ c1) attribute_id 0;
               Returns (mkCopyState s3 p (buffer_offset_ c1) (written_ c1))
             else if negb (tiles_offset2 =? size_t (end_offset + 1))
             then
               do_ assert_ NDEBUG (buffer_offset_ c1 =? buffer_size);
               do s2 <- set_overflow attribute_id s1;
               do p <- vec_set (cell_pos_range_pos_ c1) attribute_id i;
               Returns (mkCopyState s2 p (buffer_offset_ c1) (written_ c1))
             else Returns (with_state s1 c1));
          copy_cell_pos_ranges NDEBUG cell_size attribute_id buffer_size
            ranges (i + 1) rounds' buffer_free_space' c2
      end
  end.

Definition copy_from_tile_buffer_partial_non_contig_sparse (NDEBUG : bool)
    (cell_size : Z) (var_size : bool) (attribute_id : nat) (buffer_size : Z)
    (c : copy_state) : outcome copy_state :=
  let s := state_ c in
  let buffer_free_space := size_t (buffer_size - buffer_offset_ c) in
  if buffer_free_space =? 0
  then
    do s' <- set_overflow attribute_id s;
    Returns (with_state s' c)
  else
    do it <- TileIO.current_tile attribute_id s;
    let overlapping_tile := it.2 in
    do_ assert_ NDEBUG (negb var_size);
    match cell_pos_ranges_ overlapping_tile with
    | [] =>
        do tiles_size <- vec_at (tiles_sizes_ s) attribute_id;
        do s1 <- set_tiles_offset attribute_id tiles_size s;
        do s2 <- next_overlapping_tile attribute_id s1;
        Returns (with_state s2 c)
    | ranges =>
        let cell_pos_ranges_num := Z.of_nat (length ranges) in
        do i <- vec_at (cell_pos_range_pos_ c) attribute_id;
        copy_cell_pos_ranges NDEBUG cell_size attribute_id buffer_size ranges
          i (Z.to_nat (cell_pos_ranges_num - i)) buffer_free_space c
    end.

(** [copy_from_tile_buffer_sparse<T>]: the copy function for the kind of
    overlap of the current overlapping tile. *)
Definition copy_from_tile_buffer_sparse (NDEBUG : bool) (cell_size : Z)
    (var_size : bool) (attribute_id : nat) (buffer_size : Z) (c : copy_state)
  : outcome copy_state :=
  do it <- TileIO.current_tile attribute_id (state_ c);
  match overlap_ it.2 with
  | FULL => copy_from_tile_buffer_full NDEBUG attribute_id buffer_size c
  | PARTIAL_NON_CONTIG =>
      copy_from_tile_buffer_partial_non_contig_sparse NDEBUG cell_size
        var_size attribute_id buffer_size c
  | PARTIAL_CONTIG =>
      copy_from_tile_buffer_partial_contig_sparse NDEBUG cell_size var_size
        attribute_id buffer_size c
  | NONE => Returns c
  end.

(** A write lies inside a buffer of [buffer_size] bytes. *)
Definition inside (buffer_size : Z) (w : buffer_write) : Prop :=
  0 <= write_dst w /\ 0 <= write_len w
  /\ write_dst w + write_len w <= buffer_size.

(** The caller's offset lies in the buffer, and so does every write made
    so far. *)
Definition within (buffer_size : Z) (c : copy_state) : Prop :=
  0 <= buffer_offset_ c <= buffer_size
  /\ Forall (inside buffer_size) (written_ c).

(** The copies that bring the cells of [ranges] into the buffer from
    [buffer_offset] on, one range after the other and without gaps; the copy
    of a range goes on from [tiles_offset] when that lies inside the range. *)
Fixpoint copies_of (cell_size : Z) (ranges : list (Z * Z))
    (buffer_offset tiles_offset : Z) : list buffer_write :=
  match ranges with
  | [] => []
  | (first, second) :: rest =>
      let src := Z.max tiles_offset (first * cell_size) in
      let n := (second + 1) * cell_size - src in
      FromTile (mkMemcpy buffer_offset src n)
      :: copies_of cell_size rest (buffer_offset + n) (src + n)
  end.

(** The bytes of the cells of [ranges] that lie at [tiles_offset] or
    after it. *)
Fixpoint bytes_of (cell_size : Z) (ranges : list (Z * Z)) (tiles_offset : Z)
  : Z :=
  match ranges with
  | [] => 0
  | (first, second) :: rest =>
      let src := Z.max tiles_offset (first * cell_size) in
      let n := (second + 1) * cell_size - src in
      n + bytes_of cell_size rest (src + n)
  end.

(** The cell position ranges of a tile as the resolvers produce them: each
    range is not empty, a range ends before the next one starts, and the
    byte offsets of the cells fit a [size_t]. *)
Definition ordered_ranges (cell_size : Z) (ranges : list (Z * Z)) : Prop :=
  (forall k first second,
     ranges !! k = Some (first, second) ->
     0 <= first <= second /\ (second + 1) * cell_size < two64)
  /\ (forall k first second first' second',
        ranges !! k = Some (first, second) ->
        ranges !! S k = Some (first', second') ->
        second < first').

End Copier.


(** ** Copying a tile from the file: [copy_tile_full],
    [copy_tile_full_direct], [copy_tile_partial_contig_sparse],
    [copy_tile_partial_contig_direct_sparse] and
    [copy_tile_partial_non_contig_sparse]

    Fixed-sized attributes without compression.  [READ_FROM_FILE] stands
    for [read_from_file], as [READ_TILE_FROM_FILE_CMP_NONE] stands for
    [read_tile_from_file_cmp_none]. *)

Module TileCopy.

Import Copier.
Local Open Scope outcome_scope.

(** [READ_FROM_FILE(filename, file_offset, buffer_c + buffer_offset,
    length)] on the file of the attribute: the read is logged in the state
    and as a write into the caller's buffer. *)
Definition read_into_buffer (E : TileIO.Env) (r : file_read) (c : copy_state)
  : status * copy_state :=
  let rs := TileIO.do_read E r (state_ c) in
  (rs.1,
   mkCopyState rs.2 (cell_pos_range_pos_ c) (buffer_offset_ c)
     (written_ c ++ [FromFile (buffer_offset_ c) r])).

(** "Update offset and overlapping tile pos" after a direct read of
    [length] bytes. *)
Definition advance (attribute_id : nat) (length : Z) (c : copy_state)
  : outcome copy_state :=
  do s <- next_overlapping_tile attribute_id (state_ c);
  Returns (mkCopyState s (cell_pos_range_pos_ c)
             (size_t (buffer_offset_ c + length)) (written_ c)).

Definition copy_tile_full_direct (NDEBUG : bool) (E : TileIO.Env)
    (attribute_id : nat) (buffer_size tile_size : Z) (c : copy_state)
  : outcome (status * copy_state) :=
  do_ assert_ NDEBUG (tile_size <=? size_t (buffer_size - buffer_offset_ c));
  do it <- TileIO.current_tile attribute_id (state_ c);
  let pos := pos_ it.2 in
  let file_offset := pos * TileIO.tile_size E attribute_id in
  let r := read_into_buffer E
             (mkFileRead attribute_id false file_offset tile_size) c in
  if bool_decide (r.1 <> TILEDB_RS_OK)
  then Returns (TILEDB_RS_ERR, r.2)
  else
    do c' <- advance attribute_id tile_size r.2;
    Returns (TILEDB_RS_OK, c').

(** [var_size] is [array_schema->var_size(attribute_id)]. *)
Definition copy_tile_full (NDEBUG : bool) (E : TileIO.Env) (var_size : bool)
    (attribute_id : nat) (buffer_size : Z) (c : copy_state)
  : outcome (status * copy_state) :=
  do_ assert_ NDEBUG (negb var_size);
  let buffer_free_space := size_t (buffer_size - buffer_offset_ c) in
  if buffer_free_space =? 0
  then
    do s' <- set_overflow attribute_id (state_ c);
    Returns (TILEDB_RS_OK, with_state s' c)
  else
    let cell_size := TileIO.cell_size E attribute_id in
    do it <- TileIO.current_tile attribute_id (state_ c);
    let tile_size := size_t (cell_num_ it.2 * cell_size) in
    if tile_size <=? buffer_free_space
    then copy_tile_full_direct NDEBUG E attribute_id buffer_size tile_size c
    else
      do r <- TileIO.get_tile_from_disk_cmp_none E attribute_id (state_ c);
      if bool_decide (r.1 <> TILEDB_RS_OK)
      then Returns (TILEDB_RS_ERR, with_state r.2 c)
      else
        do c' <- copy_from_tile_buffer_full NDEBUG attribute_id buffer_size
                   (with_state r.2 c);
        Returns (TILEDB_RS_OK, c').

Definition copy_tile_partial_contig_direct_sparse (NDEBUG : bool)
    (E : TileIO.Env) (var_size : bool) (attribute_id : nat)
    (buffer_size result_size : Z) (c : copy_state)
  : outcome (status * copy_state) :=
  do it <- TileIO.current_tile attribute_id (state_ c);
  let overlapping_tile := it.2 in
  do_ assert_ NDEBUG (negb var_size);
  let tile_size := TileIO.tile_size E attribute_id in
  let cell_size := TileIO.cell_size E attribute_id in
  do cell_pos_range <- vec_at (cell_pos_ranges_ overlapping_tile) 0;
  let start_offset := size_t (cell_pos_range.1 * cell_size) in
  let pos := pos_ overlapping_tile in
  let file_offset := pos * tile_size + start_offset in
  let r := read_into_buffer E
             (mkFileRead attribute_id false file_offset result_size) c in
  if bool_decide (r.1 <> TILEDB_RS_OK)
  then Returns (TILEDB_RS_ERR, r.2)
  else
    do c' <- advance attribute_id result_size r.2;
    Returns (TILEDB_RS_OK, c').

(** The status of the direct read is not looked at. *)
Definition copy_tile_partial_contig_sparse (NDEBUG : bool) (E : TileIO.Env)
    (var_size : bool) (attribute_id : nat) (buffer_size : Z) (c : copy_state)
  : outcome (status * copy_state) :=
  do it <- TileIO.current_tile attribute_id (state_ c);
  let overlapping_tile := it.2 in
  do_ assert_ NDEBUG (length (cell_pos_ranges_ overlapping_tile) <=? 1)%nat;
  match cell_pos_ranges_ overlapping_tile with
  | [] => Returns (TILEDB_RS_OK, c)
  | cell_pos_range :: _ =>
      let buffer_free_space := size_t (buffer_size - buffer_offset_ c) in
      let cell_size := TileIO.cell_size E attribute_id in
      let result_size :=
        size_t ((cell_pos_range.2 - cell_pos_range.1 + 1) * cell_size) in
      if result_size <=? buffer_free_space
      then
        do r <- copy_tile_partial_contig_direct_sparse NDEBUG E var_size
                  attribute_id buffer_size result_size c;
        Returns (TILEDB_RS_OK, r.2)
      else
        do r <- TileIO.get_tile_from_disk_cmp_none E attribute_id (state_ c);
        if bool_decide (r.1 <> TILEDB_RS_OK)
        then Returns (TILEDB_RS_ERR, with_state r.2 c)
        else
          do c' <- copy_from_tile_buffer_partial_contig_sparse NDEBUG
                     cell_size var_size attribute_id buffer_size
                     (with_state r.2 c);
          Returns (TILEDB_RS_OK, c')
  end.

Definition copy_tile_partial_non_contig_sparse (NDEBUG : bool)
    (E : TileIO.Env) (var_size : bool) (attribute_id : nat) (buffer_size : Z)
    (c : copy_state) : outcome (status * copy_state) :=
  do r <- TileIO.get_tile_from_disk_cmp_none E attribute_id (state_ c);
  if bool_decide (r.1 <> TILEDB_RS_OK)
  then Returns (TILEDB_RS_ERR, with_state r.2 c)
  else
    do c' <- copy_from_tile_buffer_partial_non_contig_sparse NDEBUG
               (TileIO.cell_size E attribute_id) var_size attribute_id
               buffer_size (with_state r.2 c);
    Returns (TILEDB_RS_OK, c').

End TileCopy.

(** ** The loops over the overlapping tiles of a sparse fragment:
    [read_sparse_attr_cmp_none<T>] and [read_sparse_attr_cmp_gzip<T>] *)

Module SparseLoops.

Import Copier TileCopy.
Local Open Scope outcome_scope.

Section Loops.

(** [get_next_overlapping_tile_sparse<T>()], with the data of the array
    and of the fragment. *)
Variable get_next_overlapping_tile_sparse : ReadState -> outcome ReadState.

Variable NDEBUG : bool.
Variable E : TileIO.Env.
(** [array_schema->var_size(attribute_id)]. *)
Variable var_size : bool.
Variable attribute_id : nat.
(** The size of the caller's buffer, as [read_sparse_attr] passes it. *)
Variable buffer_size : Z.

(** "There are still data pending inside the local tile buffers". *)
Definition copy_pending (c : copy_state) : outcome copy_state :=
  do tiles_offset <- vec_at (tiles_offsets_ (state_ c)) attribute_id;
  do tiles_size <- vec_at (tiles_sizes_ (state_ c)) attribute_id;
  if tiles_offset <? tiles_size
  then copy_from_tile_buffer_sparse NDEBUG (TileIO.cell_size E attribute_id)
         var_size attribute_id buffer_size c
  else Returns c.

(** "Compute the next overlapping tile": the cursor is compared with the
    size of the list as an unsigned number. *)
Definition compute_next (s : ReadState) : outcome ReadState :=
  do p <- vec_at (overlapping_tiles_pos_ s) attribute_id;
  if size_t p >=? Z.of_nat (length (overlapping_tiles_ s))
  then get_next_overlapping_tile_sparse s
  else Returns s.

(** The result of a loop is the status, [buffer_size] as the function
    leaves it, and the state. *)
Definition loop_result : Type := status * Z * copy_state.

(** "If the buffer overflows, return"; [continue] is the rest of the
    loop. *)
Definition unless_overflow (c : copy_state)
    (continue : copy_state -> outcome loop_result) : outcome loop_result :=
  do overflow <- vec_at (overflow_ (state_ c)) attribute_id;
  if (overflow : bool) then Returns (TILEDB_RS_OK, buffer_offset_ c, c)
  else continue c.

(** The [for(;;)] loop of [read_sparse_attr_cmp_gzip<T>]. *)
Fixpoint read_sparse_attr_cmp_gzip_loop (fuel : nat) (c : copy_state)
  : outcome loop_result :=
  match fuel with
  | O => Starves
  | S fuel' =>
      do c1 <- copy_pending c;
      unless_overflow c1 (fun c1 =>
        do s2 <- compute_next (state_ c1);
        do it <- TileIO.current_tile attribute_id s2;
        let overlap := overlap_ it.2 in
        do f <- TileIO.fetch_and_decompress NDEBUG E attribute_id s2;
        match f.1 with
        | Some _ => Returns (TILEDB_RS_ERR, buffer_size, with_state f.2 c1)
        | None =>
            let c3 := with_state f.2 c1 in
            let cell_size := TileIO.cell_size E attribute_id in
            match overlap with
            | NONE => Returns (TILEDB_RS_OK, buffer_offset_ c3, c3)
            | FULL =>
                do c4 <- copy_from_tile_buffer_full NDEBUG attribute_id
                           buffer_size c3;
                unless_overflow c4 (read_sparse_attr_cmp_gzip_loop fuel')
            | PARTIAL_CONTIG =>
                do c4 <- copy_from_tile_buffer_partial_contig_sparse NDEBUG
                           cell_size var_size attribute_id buffer_size c3;
                unless_overflow c4 (read_sparse_attr_cmp_gzip_loop fuel')
            | PARTIAL_NON_CONTIG =>
                do c4 <- copy_from_tile_buffer_partial_non_contig_sparse
                           NDEBUG cell_size var_size attribute_id buffer_size
                           c3;
                unless_overflow c4 (read_sparse_attr_cmp_gzip_loop fuel')
            end
        end)
  end.

(** "Invoke proper copy command" of [read_sparse_attr_cmp_none<T>]; [None]
    is the [return] taken when there are no more tiles. *)
Definition copy_command (it : nat * OverlappingTile) (c : copy_state)
  : outcome (option (status * copy_state)) :=
  let overlap := overlap_ it.2 in
  if bool_decide (attribute_id = TileIO.attribute_num E)
     && coords_tile_fetched_ it.2
  then
    do c' <- copy_from_tile_buffer_sparse NDEBUG
               (TileIO.cell_size E attribute_id) var_size attribute_id
               buffer_size c;
    Returns (Some (TILEDB_RS_OK, c'))
  else
    match overlap with
    | NONE => Returns None
    | FULL =>
        do r <- copy_tile_full NDEBUG E var_size attribute_id buffer_size c;
        Returns (Some r)
    | PARTIAL_CONTIG =>
        do r <- copy_tile_partial_contig_sparse NDEBUG E var_size attribute_id
                  buffer_size c;
        Returns (Some r)
    | PARTIAL_NON_CONTIG =>
        do r <- copy_tile_partial_non_contig_sparse NDEBUG E var_size
                  attribute_id buffer_size c;
        Returns (Some r)
    end.

(** The [for(;;)] loop of [read_sparse_attr_cmp_none<T>]. *)
Fixpoint read_sparse_attr_cmp_none_loop (fuel : nat) (c : copy_state)
  : outcome loop_result :=
  match fuel with
  | O => Starves
  | S fuel' =>
      do c1 <- copy_pending c;
      unless_overflow c1 (fun c1 =>
        do s2 <- compute_next (state_ c1);
        do it <- TileIO.current_tile attribute_id s2;
        do r <- copy_command it (with_state s2 c1);
        match r with
        | None => Returns (TILEDB_RS_OK, buffer_offset_ c1, with_state s2 c1)
        | Some (st, c4) =>
            if bool_decide (st <> TILEDB_RS_OK)
            then Returns (TILEDB_RS_ERR, buffer_size, c4)
            else unless_overflow c4 (read_sparse_attr_cmp_none_loop fuel')
        end)
  end.

(** The two templated functions: the loop is entered with
    [buffer_offset = 0].  [cell_pos_range_pos] is the member
    [cell_pos_range_pos_]. *)
Definition read_sparse_attr_cmp_gzip (fuel : nat) (s : ReadState)
    (cell_pos_range_pos : list Z) : outcome loop_result :=
  read_sparse_attr_cmp_gzip_loop fuel (mkCopyState s cell_pos_range_pos 0 []).

Definition read_sparse_attr_cmp_none (fuel : nat) (s : ReadState)
    (cell_pos_range_pos : list Z) : outcome loop_result :=
  read_sparse_attr_cmp_none_loop fuel (mkCopyState s cell_pos_range_pos 0 []).

End Loops.

(** What a loop gives back is safe: the writes lie inside the buffer, and
    so does the size that is returned. *)
Definition safe_result (buffer_size : Z) (r : loop_result) : Prop :=
  0 <= r.1.2 <= buffer_size /\ Forall (inside buffer_size) (written_ r.2).

End SparseLoops.

(** ** The reads of a fixed-sized attribute of a dense fragment:
    [read_dense_attr_cmp_gzip<T>] and [read_dense_attr_cmp_none<T>] *)

Module DenseLoops.

Import Copier TileCopy.
Local Open Scope outcome_scope.

Section Loops.

(** [get_next_overlapping_tile_dense<T>()], with the data of the array
    and of the fragment. *)
Variable get_next_overlapping_tile_dense : ReadState -> outcome ReadState.

(** The copy functions that are particular to dense tiles, each with its
    arguments [attribute_id] and [buffer_size]; [buffer_offset] and the
    state are in the [copy_state]. *)
Variable copy_from_tile_buffer_dense : nat -> Z -> copy_state ->
                                       outcome copy_state.
Variable copy_from_tile_buffer_partial_contig_dense :
  nat -> Z -> copy_state -> outcome copy_state.
Variable copy_from_tile_buffer_partial_non_contig_dense :
  nat -> Z -> copy_state -> outcome copy_state.
Variable copy_tile_partial_contig_dense :
  nat -> Z -> copy_state -> outcome (status * copy_state).
Variable copy_tile_partial_non_contig_dense :
  nat -> Z -> copy_state -> outcome (status * copy_state).

Variable NDEBUG : bool.
Variable E : TileIO.Env.
(** [array_schema->var_size(attribute_id)]. *)
Variable var_size : bool.
Variable attribute_id : nat.
(** The size of the caller's buffer, as [read_dense_attr] passes it. *)
Variable buffer_size : Z.

(** "There are still data pending inside the local tile buffers". *)
Definition copy_pending (c : copy_state) : outcome copy_state :=
  do tiles_offset <- vec_at (tiles_offsets_ (state_ c)) attribute_id;
  do tiles_size <- vec_at (tiles_sizes_ (state_ c)) attribute_id;
  if tiles_offset <? tiles_size
  then copy_from_tile_buffer_dense attribute_id buffer_size c
  else Returns c.

(** "Compute the next overlapping tile": the cursor is compared with the
    size of the list as an unsigned number. *)
Definition compute_next (s : ReadState) : outcome ReadState :=
  do p <- vec_at (overlapping_tiles_pos_ s) attribute_id;
  if size_t p >=? Z.of_nat (length (overlapping_tiles_ s))
  then get_next_overlapping_tile_dense s
  else Returns s.

(** The [for(;;)] loop of [read_dense_attr_cmp_gzip<T>]. *)
Fixpoint read_dense_attr_cmp_gzip_loop (fuel : nat) (c : copy_state)
  : outcome SparseLoops.loop_result :=
  match fuel with
  | O => Starves
  | S fuel' =>
      do c1 <- copy_pending c;
      SparseLoops.unless_overflow attribute_id c1 (fun c1 =>
        do s2 <- compute_next (state_ c1);
        do it <- TileIO.current_tile attribute_id s2;
        let overlap := overlap_ it.2 in
        do f <- TileIO.fetch_and_decompress NDEBUG E attribute_id s2;
        match f.1 with
        | Some _ => Returns (TILEDB_RS_ERR, buffer_size, with_state f.2 c1)
        | None =>
            let c3 := with_state f.2 c1 in
            match overlap with
            | NONE => Returns (TILEDB_RS_OK, buffer_offset_ c3, c3)
            | FULL =>
                do c4 <- copy_from_tile_buffer_full NDEBUG attribute_id
                           buffer_size c3;
                SparseLoops.unless_overflow attribute_id c4
                  (read_dense_attr_cmp_gzip_loop fuel')
            | PARTIAL_CONTIG =>
                do c4 <- copy_from_tile_buffer_partial_contig_dense
                           attribute_id buffer_size c3;
                SparseLoops.unless_overflow attribute_id c4
                  (read_dense_attr_cmp_gzip_loop fuel')
            | PARTIAL_NON_CONTIG =>
                do c4 <- copy_from_tile_buffer_partial_non_contig_dense
                           attribute_id buffer_size c3;
                SparseLoops.unless_overflow attribute_id c4
                  (read_dense_attr_cmp_gzip_loop fuel')
            end
        end)
  end.

(** "Invoke proper copy command based on the overlap type" of
    [read_dense_attr_cmp_none<T>]; [None] is the [return] taken when there
    are no more tiles. *)
Definition copy_command (it : nat * OverlappingTile) (c : copy_state)
  : outcome (option (status * copy_state)) :=
  match overlap_ it.2 with
  | NONE => Returns None
  | FULL =>
      do r <- copy_tile_full NDEBUG E var_size attribute_id buffer_size c;
      Returns (Some r)
  | PARTIAL_CONTIG =>
      do r <- copy_tile_partial_contig_dense attribute_id buffer_size c;
      Returns (Some r)
  | PARTIAL_NON_CONTIG =>
      do r <- copy_tile_partial_non_contig_dense attribute_id buffer_size c;
      Returns (Some r)
  end.

(** The [for(;;)] loop of [read_dense_attr_cmp_none<T>]. *)
Fixpoint read_dense_attr_cmp_none_loop (fuel : nat) (c : copy_state)
  : outcome SparseLoops.loop_result :=
  match fuel with
  | O => Starves
  | S fuel' =>
      do c1 <- copy_pending c;
      SparseLoops.unless_overflow attribute_id c1 (fun c1 =>
        do s2 <- compute_next (state_ c1);
        do it <- TileIO.current_tile attribute_id s2;
        do r <- copy_command it (with_state s2 c1);
        match r with
        | None => Returns (TILEDB_RS_OK, buffer_offset_ c1, with_state s2 c1)
        | Some (st, c4) =>
            if bool_decide (st <> TILEDB_RS_OK)
            then Returns (TILEDB_RS_ERR, buffer_size, c4)
            else SparseLoops.unless_overflow attribute_id c4
                   (read_dense_attr_cmp_none_loop fuel')
        end)
  end.

(** The two templated functions: the loop is entered with
    [buffer_offset = 0].  [cell_pos_range_pos] is the member
    [cell_pos_range_pos_]. *)
Definition read_dense_attr_cmp_gzip (fuel : nat) (s : ReadState)
    (cell_pos_range_pos : list Z) : outcome SparseLoops.loop_result :=
  read_dense_attr_cmp_gzip_loop fuel (mkCopyState s cell_pos_range_pos 0 []).

Definition read_dense_attr_cmp_none (fuel : nat) (s : ReadState)
    (cell_pos_range_pos : list Z) : outcome SparseLoops.loop_result :=
  read_dense_attr_cmp_none_loop fuel (mkCopyState s cell_pos_range_pos 0 []).

End Loops.

End DenseLoops.


(** ** The start of a [ReadState]: [ReadState::ReadState],
    [init_tile_search_range<T>] and [init_tile_search_range_hil<T>] *)

Module Construct.

Import Coords.
Local Open Scope outcome_scope.

(** "Initializations": the members that the model carries, as the
    constructor leaves them before it looks at the range. *)
Definition initial (attribute_num : nat) : ReadState :=
  mkReadState (replicate (S attribute_num) false) []
    (replicate (S attribute_num) 0) (replicate (S attribute_num) 0)
    (replicate (S attribute_num) 0) (replicate attribute_num 0)
    (replicate attribute_num 0) [] [] [].

(** The member [cell_pos_range_pos_] after the initializations. *)
Definition initial_cell_pos_range_pos (attribute_num : nat) : list Z :=
  replicate (S attribute_num) 0.

(** [cmp_hilbert a b dim_num] stands for
    [cmp_row_order(hilbert_id(a), a, hilbert_id(b), b, dim_num)]. *)
Definition init_tile_search_range_hil
    (cmp_hilbert : list Z -> list Z -> nat -> Z) (dim_num : nat)
    (range : list Z) (tile_num : Z) (bounding_coords : list (list Z))
  : outcome (Z * Z) :=
  if is_unary_range range dim_num
  then
    let range_coords := range_min_coords range dim_num in
    do first <-
      match bsearch (TileSearch.look cmp_hilbert dim_num bounding_coords
                       range_coords) 0 (tile_num - 1) with
      | Crossed min max => Returns min
      | Broke _ _ med => Returns med
      | Faulted => Faults
      | Starved => Starves
      end;
    Returns (first, first)
  else Returns (0, tile_num - 1).

(** [init_tile_search_range<T>]: the result is [tile_search_range_] and
    the new state.  The entry pushed when the search range is empty is the
    one that [init_range_in_tile_domain] pushes. *)
Definition init_tile_search_range
    (cmp_hilbert : list Z -> list Z -> nat -> Z) (uninit : OverlappingTile)
    (cell_order : CellOrder) (dim_num : nat) (range : list Z) (tile_num : Z)
    (bounding_coords : list (list Z)) (s : ReadState)
  : outcome (Z * Z * ReadState) :=
  do tile_search_range <-
    match cell_order with
    | TILEDB_AS_CO_HILBERT =>
        init_tile_search_range_hil cmp_hilbert dim_num range tile_num
                                   bounding_coords
    | TILEDB_AS_CO_ROW_MAJOR =>
        TileSearch.init_tile_search_range_row dim_num range tile_num
                                              bounding_coords
    | TILEDB_AS_CO_COLUMN_MAJOR =>
        TileSearch.init_tile_search_range_col dim_num range tile_num
                                              bounding_coords
    end;
  if tile_search_range.2 <? tile_search_range.1
  then Returns (tile_search_range,
                with_overlapping_tiles
                  (overlapping_tiles_ s ++ [DenseInit.sentinel uninit]) s)
  else Returns (tile_search_range, s).

(** The constructor, for a sparse array. *)
Definition ReadState_sparse
    (cmp_hilbert : list Z -> list Z -> nat -> Z) (uninit : OverlappingTile)
    (attribute_num : nat) (cell_order : CellOrder) (dim_num : nat)
    (range : list Z) (tile_num : Z) (bounding_coords : list (list Z))
  : outcome (Z * Z * ReadState) :=
  init_tile_search_range cmp_hilbert uninit cell_order dim_num range tile_num
    bounding_coords (initial attribute_num).

(** The tile at [t] may hold a cell of the range: its first cell does not
    succeed the upper corner of the range, and its last cell does not
    precede the lower corner. *)
Definition may_hold (cmp_order : list Z -> list Z -> nat -> Z)
    (dim_num : nat) (bounding_coords : list (list Z)) (range : list Z)
    (t : Z) : Prop :=
  cmp_order (TileSearch.first_coord dim_num bounding_coords t)
            (range_max_coords range dim_num) dim_num <= 0
  /\ cmp_order (range_min_coords range dim_num)
               (TileSearch.last_coord dim_num bounding_coords t) dim_num <= 0.

End Construct.

(** What the proofs use of a comparator of coordinate tuples: it is the
    three-way comparison of a total order on the first [dim_num] entries. *)
Record three_way (cmp_order : list Z -> list Z -> nat -> Z) (dim_num : nat)
  : Prop := {
  cmp_opp : forall a b, cmp_order b a dim_num = - cmp_order a b dim_num;
  cmp_lt_le : forall a b c,
      cmp_order a b dim_num < 0 -> cmp_order b c dim_num <= 0 ->
      cmp_order a c dim_num < 0;
  cmp_le_lt : forall a b c,
      cmp_order a b dim_num <= 0 -> cmp_order b c dim_num < 0 ->
      cmp_order a c dim_num < 0;
  cmp_take_l : forall a b,
      cmp_order (take dim_num a) b dim_num = cmp_order a b dim_num;
  cmp_take_r : forall a b,
      cmp_order a (take dim_num b) dim_num = cmp_order a b dim_num
}.

(** ** Inputs for the examples *)

(** An array with one fixed-sized attribute, whose file does not exist. *)
Definition one_missing_attribute : Facade.Fragment :=
  Facade.mkFragment "f" (fun _ => "a1") ".tdb" ∅ true (fun _ => false)
    (fun _ => Facade.TILEDB_AS_CMP_NONE) Facade.T_int [0%nat]
    Facade.TILEDB_READ.

(** A stand-in for the templated loops, for inputs that do not reach them. *)
Definition no_loop : bool -> bool -> Facade.Compression ->
    Facade.CoordsType -> nat -> list Z -> ReadState -> outcome Facade.result :=
  fun _ _ _ _ _ buffer_sizes s => Returns (TILEDB_RS_OK, buffer_sizes, s).

(** A coordinates-free array with one GZIP attribute of 4 cells of 4 bytes
    per tile and a single tile, whose compressed tile takes 10 bytes; the
    file is read without error, and [gunzip] succeeds and produces
    [produced] bytes. *)
Definition one_gzip_tile (produced : Z) : TileIO.Env :=
  TileIO.mkEnv 1 (fun _ => 4) (fun _ => 16) 4 1 [[0]; [0]] [] []
    (fun _ _ => 10) (fun _ => true) (fun _ _ => (true, produced)).

(** An [OverlappingTile] as it is declared, before a member is written, in
    a run in which the memory of its flag holds a set bit. *)
Definition unwritten_with_set_flag : OverlappingTile :=
  mkOverlappingTile 0 [] None true NONE None 0.

(** A state in which attribute 0 stands at the only entry, a full tile. *)
Definition at_first_tile : ReadState :=
  mkReadState [false; false]
    [mkOverlappingTile 4 [] None false FULL (Some [0; 1; 0; 1]) 0]
    [0; 0] [0; 0] [0; 0] [0] [0] [] [] [].

(** A sparse array with one attribute and its coordinates (attribute 1),
    whose only tile holds 4 cells of 16 bytes. *)
Definition one_coords_tile : TileIO.Env :=
  TileIO.mkEnv 1 (fun _ => 16) (fun _ => 64) 4 1 [[0]; [0]] [] []
    (fun _ _ => 10) (fun _ => true) (fun _ _ => (true, 64)).

(** ** Theorems *)

(** The loop always leaves by one of its three exits when it is given the
    fuel that [bsearch] gives it. *)
Lemma bsearch_loop_never_starves (look : Z -> probe) (fuel : nat) :
  forall min max : Z,
    max - min + 1 <= Z.of_nat fuel ->
    bsearch_loop fuel look min max <> Starved.
Proof.
  induction fuel as [|fuel IH]; intros min max Hfuel; simpl.
  - destruct (max <? min) eqn:E; [discriminate|]. apply Z.ltb_ge in E. lia.
  - destruct (max <? min) eqn:E; [discriminate|]. apply Z.ltb_ge in E.
    assert (Hq : 0 <= Z.quot (max - min) 2 <= max - min).
    { rewrite Z.quot_div_nonneg by lia. split.
      - apply Z.div_pos; lia.
      - apply Z.div_le_upper_bound; lia. }
    destruct (look _); try discriminate; apply IH; lia.
Qed.

Lemma bsearch_never_starves (look : Z -> probe) (min max : Z) :
  bsearch look min max <> Starved.
Proof. apply bsearch_loop_never_starves. lia. Qed.

Example scenario6 :
  BytesToCopy.compute_bytes_to_copy [0; 1; 3; 6] 4 10 0 3 32 5 = Some (16, 3).
Proof. reflexivity. Qed.

(** *** The binary search loop *)

(** What is known when the loop is left, whatever the comparison: the
    bounds have crossed between an element sent right and an element sent
    left, or the loop stopped at an element that asked for it. *)
Lemma bsearch_loop_exit (look : Z -> probe) (min0 max0 : Z) (fuel : nat) :
  forall min max : Z,
    min0 <= min -> max <= max0 -> min <= max + 1 ->
    (min = min0 \/ look (min - 1) = GoRight) ->
    (max = max0 \/ look (max + 1) = GoLeft) ->
    match bsearch_loop fuel look min max with
    | Crossed a b =>
        a = b + 1 /\ min0 <= a /\ b <= max0
        /\ (a = min0 \/ look (a - 1) = GoRight)
        /\ (b = max0 \/ look (b + 1) = GoLeft)
    | Broke _ _ med => min0 <= med <= max0 /\ look med = Stop
    | Faulted => exists k, min0 <= k <= max0 /\ look k = Fault
    | Starved => True
    end.
Proof.
  induction fuel as [|fuel IH]; intros min max Hlo Hhi Hgap Hmin Hmax; simpl.
  - destruct (max <? min) eqn:E; [|exact I].
    apply Z.ltb_lt in E. repeat split; try lia; assumption.
  - destruct (max <? min) eqn:E.
    + apply Z.ltb_lt in E. repeat split; try lia; assumption.
    + apply Z.ltb_ge in E.
      assert (Hq : 0 <= Z.quot (max - min) 2 <= max - min).
      { rewrite Z.quot_div_nonneg by lia. split.
        - apply Z.div_pos; lia.
        - apply Z.div_le_upper_bound; lia. }
      set (med := min + Z.quot (max - min) 2) in *.
      destruct (look med) eqn:L.
      * apply IH; try lia; try assumption.
        right. replace (med - 1 + 1) with med by lia. exact L.
      * apply IH; try lia; try assumption.
        right. replace (med + 1 - 1) with med by lia. exact L.
      * split; [lia | exact L].
      * exists med. split; [lia | exact L].
Qed.

Lemma bsearch_exit (look : Z -> probe) (min0 max0 : Z) :
  min0 <= max0 + 1 ->
  match bsearch look min0 max0 with
  | Crossed a b =>
      a = b + 1 /\ min0 <= a /\ b <= max0
      /\ (a = min0 \/ look (a - 1) = GoRight)
      /\ (b = max0 \/ look (b + 1) = GoLeft)
  | Broke _ _ med => min0 <= med <= max0 /\ look med = Stop
  | Faulted => exists k, min0 <= k <= max0 /\ look k = Fault
  | Starved => False
  end.
Proof.
  intros H.
  pose proof (bsearch_never_starves look min0 max0) as Hs.
  pose proof (bsearch_loop_exit look min0 max0 (Z.to_nat (max0 - min0 + 1))
                min0 max0 ltac:(lia) ltac:(lia) H (or_introl eq_refl)
                (or_introl eq_refl)) as Hx.
  unfold bsearch in *. destruct (bsearch_loop _ _ _ _); auto.
Qed.

(** *** The cell orders *)

Section LexCmp.

Import Coords.

Lemma lex_cmp_opp (a : list Z) : forall b, lex_cmp b a = - lex_cmp a b.
Proof.
  induction a as [|x a IH]; intros [|y b]; simpl; try reflexivity.
  destruct (Z.ltb_spec x y), (Z.ltb_spec y x); try lia. apply IH.
Qed.

Lemma lex_cmp_eq (a : list Z) : forall b, lex_cmp a b = 0 -> a = b.
Proof.
  induction a as [|x a IH]; intros [|y b]; simpl; try discriminate; auto.
  destruct (Z.ltb_spec x y), (Z.ltb_spec y x); try discriminate.
  intros Hz. f_equal; [lia | auto].
Qed.

Lemma lex_cmp_refl (a : list Z) : lex_cmp a a = 0.
Proof.
  induction a as [|x a IH]; simpl; [reflexivity|].
  rewrite Z.ltb_irrefl. exact IH.
Qed.

Lemma lex_cmp_lt_lt (a : list Z) :
  forall b c, lex_cmp a b < 0 -> lex_cmp b c < 0 -> lex_cmp a c < 0.
Proof.
  induction a as [|x a IH]; intros [|y b] [|z c]; simpl; try lia.
  destruct (Z.ltb_spec x y), (Z.ltb_spec y x), (Z.ltb_spec y z),
    (Z.ltb_spec z y), (Z.ltb_spec x z), (Z.ltb_spec z x);
    try lia; apply IH.
Qed.

Lemma lex_cmp_lt_le (a b c : list Z) :
  lex_cmp a b < 0 -> lex_cmp b c <= 0 -> lex_cmp a c < 0.
Proof.
  intros H1 H2. destruct (Z.eq_dec (lex_cmp b c) 0) as [E|E].
  - apply lex_cmp_eq in E. subst. exact H1.
  - apply lex_cmp_lt_lt with b; [exact H1 | lia].
Qed.

Lemma lex_cmp_le_lt (a b c : list Z) :
  lex_cmp a b <= 0 -> lex_cmp b c < 0 -> lex_cmp a c < 0.
Proof.
  intros H1 H2. destruct (Z.eq_dec (lex_cmp a b) 0) as [E|E].
  - apply lex_cmp_eq in E. subst. exact H2.
  - apply lex_cmp_lt_lt with b; [lia | exact H2].
Qed.

End LexCmp.

(** *** The tile search range of a sparse fragment *)


Lemma cmp_row_order_three_way (dim_num : nat) :
  three_way Coords.cmp_row_order dim_num.
Proof.
  unfold Coords.cmp_row_order. split; intros.
  - apply lex_cmp_opp.
  - eapply lex_cmp_lt_le; eassumption.
  - eapply lex_cmp_le_lt; eassumption.
  - by rewrite take_take, Nat.min_id.
  - by rewrite take_take, Nat.min_id.
Qed.

Lemma cmp_col_order_three_way (dim_num : nat) :
  three_way Coords.cmp_col_order dim_num.
Proof.
  unfold Coords.cmp_col_order. split; intros.
  - apply lex_cmp_opp.
  - eapply lex_cmp_lt_le; eassumption.
  - eapply lex_cmp_le_lt; eassumption.
  - by rewrite take_take, Nat.min_id.
  - by rewrite take_take, Nat.min_id.
Qed.

Lemma cmp_of_three_way (column_major : bool) (dim_num : nat) :
  three_way (TileSearch.cmp_of column_major) dim_num.
Proof.
  destruct column_major;
    [apply cmp_col_order_three_way | apply cmp_row_order_three_way].
Qed.

Section TileSearchFacts.

Import TileSearch.

Variable cmp_order : list Z -> list Z -> nat -> Z.
Variable dim_num : nat.
Hypothesis order : three_way cmp_order dim_num.

Lemma cmp_refl (a : list Z) : cmp_order a a dim_num = 0.
Proof. pose proof (cmp_opp _ _ order a a). lia. Qed.

Lemma cmp_le_le (a b c : list Z) :
  cmp_order a b dim_num <= 0 -> cmp_order b c dim_num <= 0 ->
  cmp_order a c dim_num <= 0.
Proof.
  intros H1 H2.
  destruct (Z.eq_dec (cmp_order a b dim_num) 0) as [E|E].
  - destruct (Z.eq_dec (cmp_order b c dim_num) 0) as [E'|E'].
    + destruct (Z_lt_le_dec 0 (cmp_order a c dim_num)) as [G|G]; [|exact G].
      (* c < a and a <= b give c < b, against b <= c *)
      assert (cmp_order c a dim_num < 0)
        by (rewrite (cmp_opp _ _ order a c); lia).
      assert (cmp_order c b dim_num < 0)
        by (eapply (cmp_lt_le _ _ order); [eassumption | lia]).
      rewrite (cmp_opp _ _ order b c) in *. lia.
    + assert (cmp_order a c dim_num < 0); [|lia].
      eapply (cmp_le_lt _ _ order); [exact H1 | lia].
  - assert (cmp_order a c dim_num < 0); [|lia].
    eapply (cmp_lt_le _ _ order); [|exact H2]. lia.
Qed.

Variable bounding_coords : list (list Z).
Hypothesis sorted : in_cell_order cmp_order dim_num bounding_coords = true.

Abbreviation tile_num := (Z.of_nat (length bounding_coords)).
Abbreviation first_coord := (first_coord dim_num bounding_coords).
Abbreviation last_coord := (last_coord dim_num bounding_coords).

Lemma at_bounding_coords (t : Z) :
  0 <= t < tile_num -> exists bc, at_ bounding_coords t = Some bc.
Proof.
  intros H. unfold at_. destruct (t <? 0) eqn:E; [lia|].
  destruct (lookup_lt_is_Some_2 bounding_coords (Z.to_nat t)) as [bc Hbc];
    [lia|]. eauto.
Qed.

Lemma in_cell_order_within (l : list (list Z)) :
  in_cell_order cmp_order dim_num l = true ->
  forall i bc, l !! i = Some bc ->
    cmp_order bc (drop dim_num bc) dim_num <= 0.
Proof.
  induction l as [|b l IH]; intros Hs i bc Hi; [discriminate|].
  simpl in Hs. apply andb_prop in Hs as [Hs Hrest].
  apply andb_prop in Hs as [Hb _].
  destruct i as [|i]; simpl in Hi.
  - inversion Hi; subst. lia.
  - eapply IH; eassumption.
Qed.

Lemma in_cell_order_across (l : list (list Z)) :
  in_cell_order cmp_order dim_num l = true ->
  forall i bc bc', l !! i = Some bc -> l !! S i = Some bc' ->
    cmp_order (drop dim_num bc) bc' dim_num < 0.
Proof.
  induction l as [|b l IH]; intros Hs i bc bc' Hi Hi'; [discriminate|].
  simpl in Hs. apply andb_prop in Hs as [Hs Hrest].
  apply andb_prop in Hs as [_ Hb].
  destruct i as [|i]; simpl in Hi, Hi'.
  - inversion Hi; subst. destruct l; [discriminate|].
    inversion Hi'; subst. lia.
  - eapply IH; eassumption.
Qed.

Lemma first_le_last (t : Z) :
  0 <= t < tile_num -> cmp_order (first_coord t) (last_coord t) dim_num <= 0.
Proof.
  intros H. unfold TileSearch.first_coord, TileSearch.last_coord, at_.
  destruct (t <? 0) eqn:E; [lia|].
  destruct (lookup_lt_is_Some_2 bounding_coords (Z.to_nat t)) as [bc Hbc];
    [lia|].
  rewrite Hbc. simpl.
  rewrite (cmp_take_l _ _ order), (cmp_take_r _ _ order).
  eapply in_cell_order_within; eassumption.
Qed.

Lemma last_lt_next_first (t : Z) :
  0 <= t -> t + 1 < tile_num ->
  cmp_order (last_coord t) (first_coord (t + 1)) dim_num < 0.
Proof.
  intros H0 H. unfold TileSearch.first_coord, TileSearch.last_coord, at_.
  destruct (t <? 0) eqn:E; [lia|]. destruct (t + 1 <? 0) eqn:E'; [lia|].
  destruct (lookup_lt_is_Some_2 bounding_coords (Z.to_nat t)) as [bc Hbc];
    [lia|].
  destruct (lookup_lt_is_Some_2 bounding_coords (S (Z.to_nat t)))
    as [bc' Hbc']; [lia|].
  replace (Z.to_nat (t + 1)) with (S (Z.to_nat t)) by lia.
  rewrite Hbc, Hbc'. simpl.
  rewrite (cmp_take_l _ _ order), (cmp_take_r _ _ order).
  eapply in_cell_order_across; eassumption.
Qed.

(** The tiles follow each other: the cells of an earlier tile precede the
    cells of a later one. *)
Lemma last_lt_later_first (t : Z) (k : nat) :
  0 <= t -> t + 1 + Z.of_nat k < tile_num ->
  cmp_order (last_coord t) (first_coord (t + 1 + Z.of_nat k)) dim_num < 0.
Proof.
  intros H0. induction k as [|k IH]; intros H.
  - replace (t + 1 + Z.of_nat 0) with (t + 1) by lia.
    apply last_lt_next_first; lia.
  - eapply (cmp_lt_le _ _ order); [apply IH; lia|].
    apply Z.lt_le_incl.
    eapply (cmp_le_lt _ _ order);
      [apply first_le_last; lia|].
    replace (t + 1 + Z.of_nat (S k)) with (t + 1 + Z.of_nat k + 1) by lia.
    apply last_lt_next_first; lia.
Qed.

Lemma last_lt_first (t t' : Z) :
  0 <= t < t' -> t' < tile_num ->
  cmp_order (last_coord t) (first_coord t') dim_num < 0.
Proof.
  intros H H'.
  replace t' with (t + 1 + Z.of_nat (Z.to_nat (t' - t - 1))) by lia.
  apply last_lt_later_first; lia.
Qed.

Lemma look_sound (coords : list Z) (t : Z) :
  0 <= t < tile_num ->
  match look cmp_order dim_num bounding_coords coords t with
  | GoLeft => cmp_order coords (first_coord t) dim_num < 0
  | GoRight => cmp_order (last_coord t) coords dim_num < 0
  | Stop => cmp_order (first_coord t) coords dim_num <= 0
            /\ cmp_order coords (last_coord t) dim_num <= 0
  | Fault => False
  end.
Proof.
  intros H. unfold look, TileSearch.first_coord, TileSearch.last_coord.
  destruct (at_bounding_coords t H) as [bc ->]. simpl.
  rewrite !(cmp_take_r _ _ order), !(cmp_take_l _ _ order).
  rewrite Z.gtb_ltb.
  destruct (Z.ltb_spec (cmp_order coords bc dim_num) 0); [assumption|].
  destruct (Z.ltb_spec 0 (cmp_order coords (drop dim_num bc) dim_num)).
  - rewrite (cmp_opp _ _ order). lia.
  - split; [|assumption]. rewrite (cmp_opp _ _ order). lia.
Qed.

(** The search for the start tile. *)
Lemma start_tile_found (coords : list Z) :
  match bsearch (look cmp_order dim_num bounding_coords coords)
                0 (tile_num - 1) with
  | Crossed min _ =>
      first_tile_from cmp_order dim_num bounding_coords tile_num coords min
  | Broke _ _ med =>
      first_tile_from cmp_order dim_num bounding_coords tile_num coords med
  | Faulted | Starved => False
  end.
Proof.
  pose proof (bsearch_exit (look cmp_order dim_num bounding_coords coords)
                0 (tile_num - 1) ltac:(lia)) as Hx.
  destruct (bsearch _ _ _) as [a b | a b med | |]; [| | |exact Hx].
  - destruct Hx as (-> & Ha & Hb & Hleft & Hright).
    split; [lia|]. split.
    + intros t Ht. destruct Hleft as [E|L]; [lia|].
      pose proof (look_sound coords (b + 1 - 1) ltac:(lia)) as S.
      rewrite L in S. replace (b + 1 - 1) with b in S by lia.
      destruct (Z.eq_dec t b) as [->|N]; [exact S|].
      eapply (cmp_lt_le _ _ order); [apply (last_lt_first t b); lia|].
      eapply cmp_le_le; [apply first_le_last; lia|]. lia.
    + intros Hlt. destruct Hright as [E|L]; [lia|].
      pose proof (look_sound coords (b + 1) ltac:(lia)) as S.
      rewrite L in S. apply Z.lt_le_incl.
      eapply (cmp_lt_le _ _ order); [exact S|]. apply first_le_last; lia.
  - destruct Hx as (Hmed & L).
    pose proof (look_sound coords med ltac:(lia)) as S. rewrite L in S.
    destruct S as [S1 S2].
    split; [lia|]. split; [|intros _; exact S2].
    intros t Ht. eapply (cmp_lt_le _ _ order); [|exact S1].
    apply last_lt_first; lia.
  - destruct Hx as (k & Hk & L).
    pose proof (look_sound coords k ltac:(lia)) as S. by rewrite L in S.
Qed.

(** The search for the end tile. *)
Lemma end_tile_found (coords : list Z) :
  match bsearch (look cmp_order dim_num bounding_coords coords)
                0 (tile_num - 1) with
  | Crossed _ max =>
      last_tile_upto cmp_order dim_num bounding_coords tile_num coords max
  | Broke _ _ med =>
      last_tile_upto cmp_order dim_num bounding_coords tile_num coords med
  | Faulted | Starved => False
  end.
Proof.
  pose proof (bsearch_exit (look cmp_order dim_num bounding_coords coords)
                0 (tile_num - 1) ltac:(lia)) as Hx.
  destruct (bsearch _ _ _) as [a b | a b med | |]; [| | |exact Hx].
  - destruct Hx as (-> & Ha & Hb & Hleft & Hright).
    split; [lia|]. split.
    + intros t Ht. destruct Hright as [E|L]; [lia|].
      pose proof (look_sound coords (b + 1) ltac:(lia)) as S.
      rewrite L in S.
      destruct (Z.eq_dec t (b + 1)) as [->|N]; [exact S|].
      eapply (cmp_lt_le _ _ order); [exact S|].
      apply Z.lt_le_incl.
      eapply (cmp_le_lt _ _ order); [apply first_le_last; lia|].
      apply last_lt_first; lia.
    + intros Hge. destruct Hleft as [E|L]; [lia|].
      pose proof (look_sound coords (b + 1 - 1) ltac:(lia)) as S.
      rewrite L in S. replace (b + 1 - 1) with b in S by lia.
      apply Z.lt_le_incl.
      eapply (cmp_le_lt _ _ order); [|exact S]. apply first_le_last; lia.
  - destruct Hx as (Hmed & L).
    pose proof (look_sound coords med ltac:(lia)) as S. rewrite L in S.
    destruct S as [S1 S2].
    split; [lia|]. split; [|intros _; exact S1].
    intros t Ht. eapply (cmp_le_lt _ _ order); [exact S2|].
    apply last_lt_first; lia.
  - destruct Hx as (k & Hk & L).
    pose proof (look_sound coords k ltac:(lia)) as S. by rewrite L in S.
Qed.

End TileSearchFacts.

(** The two corners of a unary range are the same point. *)
Lemma unary_range_corners (range : list Z) (dim_num : nat) :
  Coords.is_unary_range range dim_num = true ->
  Coords.range_max_coords range dim_num
  = Coords.range_min_coords range dim_num.
Proof.
  unfold Coords.is_unary_range, Coords.range_max_coords,
    Coords.range_min_coords.
  intros Hunary. rewrite forallb_forall in Hunary.
  apply list_eq. intros k. rewrite !list_lookup_fmap.
  destruct (seq 0 dim_num !! k) as [i|] eqn:Hk; [|reflexivity].
  cbn [fmap option_fmap option_map]. f_equal. symmetry.
  apply Z.eqb_eq, Hunary. apply list_elem_of_In.
  by eapply list_elem_of_lookup_2.
Qed.

(** C6 as the code has it.  For a sparse fragment in row-major or
    column-major cell order whose bounding coordinates follow that order, the
    initializer of the tile search range returns [(first, last)] where
    [first] is the position of the first tile whose last bounding coordinate
    is not before the lower corner of the range.  For a range that is not
    unary, [last] is the position of the last tile whose first bounding
    coordinate is not after the upper corner.  For a unary range [last] is
    [first]: this is the last tile whose first bounding coordinate is not
    after the point when the point lies within the bounding coordinates of
    the tile at [first]; when it does not (the point lies between two tiles,
    before the first or after the last tile), that last tile is at
    [first - 1]. *)
Theorem init_tile_search_range_first_last (column_major : bool)
    (dim_num : nat) (range : list Z) (tile_num : Z)
    (bounding_coords : list (list Z)) :
  tile_num = Z.of_nat (length bounding_coords) ->
  TileSearch.in_cell_order (TileSearch.cmp_of column_major) dim_num
                           bounding_coords = true ->
  exists first last,
    TileSearch.init_tile_search_range_of column_major dim_num range tile_num
                                         bounding_coords
    = Returns (first, last)
    /\ TileSearch.first_tile_from (TileSearch.cmp_of column_major) dim_num
         bounding_coords tile_num (Coords.range_min_coords range dim_num) first
    /\ if Coords.is_unary_range range dim_num
       then last = first
            /\ TileSearch.last_tile_upto (TileSearch.cmp_of column_major)
                 dim_num bounding_coords tile_num
                 (Coords.range_max_coords range dim_num)
                 (if (first <? tile_num)
                     && (TileSearch.cmp_of column_major
                           (TileSearch.first_coord dim_num bounding_coords
                                                   first)
                           (Coords.range_max_coords range dim_num) dim_num
                         <=? 0)
                  then first else first - 1)
       else TileSearch.last_tile_upto (TileSearch.cmp_of column_major) dim_num
              bounding_coords tile_num (Coords.range_max_coords range dim_num)
              last.
Proof.
  intros -> Hsorted.
  pose proof (cmp_of_three_way column_major dim_num) as Hord.
  pose proof (start_tile_found _ _ Hord _ Hsorted
                (Coords.range_min_coords range dim_num)) as Hfirst.
  pose proof (end_tile_found _ _ Hord _ Hsorted
                (Coords.range_max_coords range dim_num)) as Hlast.
  assert (E : TileSearch.init_tile_search_range_of column_major
              = TileSearch.init_tile_search_range_in_order
                  (TileSearch.cmp_of column_major))
    by (destruct column_major; reflexivity).
  assert (Hunary :
           forall first,
             Coords.is_unary_range range dim_num = true ->
             TileSearch.first_tile_from (TileSearch.cmp_of column_major)
               dim_num bounding_coords (Z.of_nat (length bounding_coords))
               (Coords.range_min_coords range dim_num) first ->
             TileSearch.last_tile_upto (TileSearch.cmp_of column_major)
               dim_num bounding_coords (Z.of_nat (length bounding_coords))
               (Coords.range_max_coords range dim_num)
               (if (first <? Z.of_nat (length bounding_coords))
                   && (TileSearch.cmp_of column_major
                         (TileSearch.first_coord dim_num bounding_coords
                                                 first)
                         (Coords.range_max_coords range dim_num) dim_num
                       <=? 0)
                then first else first - 1)).
  { intros first Hu (Hbounds & Hbefore & Hat).
    rewrite (unary_range_corners _ _ Hu).
    set (point := Coords.range_min_coords range dim_num) in *.
    destruct (Z.ltb_spec first (Z.of_nat (length bounding_coords)))
      as [Hin|Hout]; cbn [andb].
    - destruct (Z.leb_spec
                  (TileSearch.cmp_of column_major
                     (TileSearch.first_coord dim_num bounding_coords first)
                     point dim_num) 0) as [Hle|Hgt].
      + split; [lia|]. split; [|intros _; exact Hle].
        intros t Ht. eapply (cmp_le_lt _ _ Hord); [exact (Hat Hin)|].
        apply (last_lt_first _ _ Hord _ Hsorted); lia.
      + assert (Hpoint : TileSearch.cmp_of column_major point
                           (TileSearch.first_coord dim_num bounding_coords
                                                   first) dim_num < 0)
          by (rewrite (cmp_opp _ _ Hord); lia).
        split; [lia|]. split.
        * intros t Ht. destruct (Z.eq_dec t first) as [->|Hne];
            [exact Hpoint|].
          eapply (cmp_lt_le _ _ Hord); [exact Hpoint|].
          apply Z.lt_le_incl.
          eapply (cmp_le_lt _ _ Hord);
            [apply (first_le_last _ _ Hord _ Hsorted); lia|].
          apply (last_lt_first _ _ Hord _ Hsorted); lia.
        * intros Hpos. apply Z.lt_le_incl.
          eapply (cmp_le_lt _ _ Hord);
            [apply (first_le_last _ _ Hord _ Hsorted); lia|].
          apply Hbefore. lia.
    - split; [lia|]. split; [intros t Ht; lia|].
      intros Hpos. apply Z.lt_le_incl.
      eapply (cmp_le_lt _ _ Hord);
        [apply (first_le_last _ _ Hord _ Hsorted); lia|].
      apply Hbefore. lia. }
  rewrite E. unfold TileSearch.init_tile_search_range_in_order.
  destruct (bsearch _ 0 _) as [a b | a b med | |] in Hfirst |- *;
    try contradiction; cbn [obind];
    (destruct (Coords.is_unary_range range dim_num) eqn:Hu;
     [eexists _, _; split; [reflexivity|]; split; [exact Hfirst|];
      split; [reflexivity|]; by apply Hunary|]);
    destruct (bsearch _ 0 _) as [a' b' | a' b' med' | |] in Hlast |- *;
    try contradiction; cbn [obind]; eauto.
Qed.

Lemma init_tile_search_range_first_last_witness :
  exists first last,
    TileSearch.init_tile_search_range_of false 2 [1; 3; 1; 3] 3
      [[0; 0; 0; 3]; [1; 1; 1; 2]; [3; 0; 3; 3]]
    = Returns (first, last)
    /\ TileSearch.first_tile_from (TileSearch.cmp_of false) 2
         [[0; 0; 0; 3]; [1; 1; 1; 2]; [3; 0; 3; 3]] 3
         (Coords.range_min_coords [1; 3; 1; 3] 2) first
    /\ TileSearch.last_tile_upto (TileSearch.cmp_of false) 2
         [[0; 0; 0; 3]; [1; 1; 1; 2]; [3; 0; 3; 3]] 3
         (Coords.range_max_coords [1; 3; 1; 3] 2) last.
Proof.
  apply (init_tile_search_range_first_last false 2 [1; 3; 1; 3] 3
           [[0; 0; 0; 3]; [1; 1; 1; 2]; [3; 0; 3; 3]]); reflexivity.
Defined.

(** C6 as the specification states it fails for a unary range whose point
    lies between two tiles.  With the tiles [(0,0) .. (0,3)] and
    [(3,0) .. (3,3)] in row-major order and the point [(1,1)], the function
    returns [(1, 1)]: [first] is 1, the first tile whose last bounding
    coordinate is not before the point, and [last] is [first]; the last tile
    whose first bounding coordinate is not after the point is tile 0, and
    tile 1 is not. *)
Lemma init_tile_search_range_unary_in_a_gap :
  TileSearch.in_cell_order (TileSearch.cmp_of false) 2
    [[0; 0; 0; 3]; [3; 0; 3; 3]] = true
  /\ Coords.is_unary_range [1; 1; 1; 1] 2 = true
  /\ TileSearch.init_tile_search_range_of false 2 [1; 1; 1; 1] 2
       [[0; 0; 0; 3]; [3; 0; 3; 3]]
     = Returns (1, 1)
  /\ TileSearch.last_tile_upto (TileSearch.cmp_of false) 2
       [[0; 0; 0; 3]; [3; 0; 3; 3]] 2
       (Coords.range_max_coords [1; 1; 1; 1] 2) 0
  /\ ~ TileSearch.last_tile_upto (TileSearch.cmp_of false) 2
         [[0; 0; 0; 3]; [3; 0; 3; 3]] 2
         (Coords.range_max_coords [1; 1; 1; 1] 2) 1.
Proof.
  split; [reflexivity|]. split; [reflexivity|]. split; [reflexivity|]. split.
  - split; [lia|]. split.
    + intros t Ht. assert (t = 1) as -> by lia. reflexivity.
    + intros _. vm_compute. discriminate.
  - intros (_ & _ & Hfirst). specialize (Hfirst ltac:(lia)).
    vm_compute in Hfirst. by apply Hfirst.
Qed.

(** *** The helper that fits a region into the variable buffer *)

(** C1. When the offset of some cell [med], taken from the start cell, is
    exactly the free space of the variable buffer, and the search looks at
    that cell, the function leaves the loop by [break] and keeps [med] as
    the last cell: the variable bytes it returns are those of the cells
    [start .. med], which exceed the free space.  Here the tile holds four
    cells of 3, 3, 4 and 5 variable bytes, and 3 bytes are free: the largest
    fit is cell 0 alone (8 offset bytes, 3 variable bytes), and the function
    returns 16 offset bytes and 6 variable bytes. *)
Theorem compute_bytes_to_copy_exact_fit_overshoots :
  BytesToCopy.compute_bytes_to_copy [0; 3; 6; 10] 4 15 0 3 32 3 = Some (16, 6)
  /\ BytesToCopy.largest_fit [0; 3; 6; 10] 4 15 0 3 3 0
  /\ (0 - 0 + 1) * TILEDB_CELL_VAR_OFFSET_SIZE = 8
  /\ BytesToCopy.off [0; 3; 6; 10] 4 15 (0 + 1)
     - BytesToCopy.off [0; 3; 6; 10] 4 15 0 = 3.
Proof.
  split; [reflexivity|]. split; [|split; reflexivity].
  split; [lia|]. split.
  - intros _. vm_compute. discriminate.
  - intros m' Hm' Hfits.
    assert (Hc : m' = 1 \/ m' = 2 \/ m' = 3) by lia.
    destruct Hc as [-> | [-> | ->]]; vm_compute in Hfits; auto.
Qed.

(** *** The slab copy of a dense tile *)

(** C2. With 4 free bytes left in a buffer of 12 (the offset is 8) and slabs
    of 8 bytes, the first [memcpy] is bounded by the size of the buffer and
    not by its free space: it writes 8 bytes at offset 8, past the end; the
    offset is then beyond the size, the loop goes on and writes 8 more bytes
    at offset 16.  The tile is taken as done and no overflow is flagged. *)
Theorem slab_copy_writes_past_the_buffer :
  let g := SlabCopy.mkGeometry 4 false 5 10 2 4 in
  let s := mkReadState [false] [] [0] [0] [64] [0] [0] [] [] [] in
  exists s',
    SlabCopy.copy_from_tile_buffer_partial_non_contig_dense false g 2 0 12 8 s
    = Returns (s', 24, [mkMemcpy 8 20 8; mkMemcpy 16 36 8])
    /\ ~ SlabCopy.inside 12 (mkMemcpy 8 20 8)
    /\ SlabCopy.bytes_written [mkMemcpy 8 20 8; mkMemcpy 16 36 8] = 16
    /\ overflow_ s' = [false]
    /\ overlapping_tiles_pos_ s' = [1].
Proof.
  eexists. split; [reflexivity|]. split; [|repeat split].
  unfold SlabCopy.inside. simpl. lia.
Qed.

(** *** The cell-range resolver *)

(** C3. In the Hilbert cell order the scan runs over [capacity] cells and
    not over the cells of the tile.  The last tile of the fragment holds 2
    cells, [(4,4)] and [(6,6)], in a buffer for 3; the third place still
    holds the cell [(1,1)] of the tile that was read before.  For the range
    [[0,5] x [0,5]] the resolver attaches the intervals [(0,0)] and [(2,2)]:
    position 2 is not a cell of the tile. *)
Theorem hilbert_scan_leaves_the_tile :
  let t := mkOverlappingTile 2 [] None true PARTIAL_NON_CONTIG
                             (Some [4; 5; 4; 5]) 1 in
  exists t',
    Resolver.compute_cell_pos_ranges_non_contig 0 Coords.TILEDB_AS_CO_HILBERT
      3 2 [0; 5; 0; 5] [4; 4; 6; 6; 1; 1] t = Returns t'
    /\ cell_pos_ranges_ t' = [(0, 0); (2, 2)]
    /\ cell_num_ t' = 2
    /\ Resolver.covered (cell_pos_ranges_ t') 2
    /\ ~ (0 <= 2 < cell_num_ t').
Proof.
  eexists. split; [reflexivity|]. simpl. repeat split; try lia.
  unfold Resolver.covered. apply Exists_cons_tl, Exists_cons_hd. simpl. lia.
Qed.

(** *** The reaper *)

(** C4. The minimum starts from the position of attribute 0, not from the
    position of the first requested attribute.  (1) Attribute 1 alone is
    requested and has passed the first entry: after the push the list has 2
    entries, the minimum over the requested attributes is 1, but the function
    finds 0 and frees nothing; the size 2 exceeds 1 plus the drift 0.
    (2) Attributes 1 and 0 are requested in this order, attribute 1 is at
    entry 1 and attribute 0 at entry 2: the function finds 2, frees the entry
    attribute 1 still needs and moves its position to -1. *)
Theorem reaper_starts_from_attribute_0 :
  let t0 := mkOverlappingTile 4 [] (Some [0; 0]) false FULL
                              (Some [0; 1; 0; 1]) 0 in
  let t1 := mkOverlappingTile 4 [] (Some [0; 1]) false FULL
                              (Some [0; 1; 0; 1]) 1 in
  let t2 := mkOverlappingTile 4 [] (Some [1; 0]) false FULL
                              (Some [0; 1; 0; 1]) 2 in
  let s := mkReadState [false; false; false] [t0] [0; 1; 0]
                       [0; 0; 0] [16; 16; 0] [0; 0] [0; 0] [] [] [] in
  let s' := mkReadState [false; false; false] [t0; t1] [2; 1; 0]
                        [0; 0; 0] [16; 16; 0] [0; 0] [0; 0] [] [] [] in
  (exists r,
      Reaper.push_and_clean_up 2 [1%nat] t1 s = Returns r
      /\ Reaper.requested_positions [1%nat] s = [1]
      /\ overlapping_tiles_ r = [t0; t1]
      /\ freed_ r = []
      /\ Z.of_nat (length (overlapping_tiles_ r))
         > 1 + Reaper.drift [1%nat] r)
  /\ (exists r,
         Reaper.push_and_clean_up 2 [1%nat; 0%nat] t2 s' = Returns r
         /\ Reaper.requested_positions [1%nat; 0%nat] s' = [1; 2]
         /\ overlapping_tiles_ r = [t2]
         /\ overlapping_tiles_pos_ r = [0; -1; 0]).
Proof.
  split; eexists; (split; [reflexivity|]); simpl; repeat split.
Qed.

(** *** The range in the tile domain of a dense array *)

Lemma vec_at_in_bounds {A : Type} `{Inhabited A} (v : list A) (i : nat) :
  (i < length v)%nat -> vec_at v i = Returns (v !!! i).
Proof.
  intros Hi. unfold vec_at.
  by rewrite (list_lookup_lookup_total_lt v i Hi).
Qed.

Lemma vec_at_lookup {A : Type} (v : list A) (i : nat) (x : A) :
  v !! i = Some x -> vec_at v i = Returns x.
Proof. intros Hi. unfold vec_at. by rewrite Hi. Qed.

(** The entries of an array that holds a pair per dimension. *)
Lemma pairs_lookup (f g : nat -> Z) (rounds : nat) :
  forall start i : nat,
    (i < rounds)%nat ->
    flat_map (fun j => [f j; g j]) (seq start rounds) !! (2 * i)%nat
    = Some (f (start + i)%nat)
    /\ flat_map (fun j => [f j; g j]) (seq start rounds) !! (2 * i + 1)%nat
       = Some (g (start + i)%nat).
Proof.
  induction rounds as [|rounds IH]; intros start i Hi; [lia|].
  destruct i as [|i]; simpl.
  - rewrite Nat.add_0_r. split; reflexivity.
  - replace (i + S (i + 0))%nat with (S (2 * i)) by lia. simpl.
    replace (start + S i)%nat with (S start + i)%nat by lia.
    apply IH. lia.
Qed.

Lemma pairs_length (f g : nat -> Z) (rounds start : nat) :
  length (flat_map (fun j => [f j; g j]) (seq start rounds))
  = (2 * rounds)%nat.
Proof.
  revert start. induction rounds as [|rounds IH]; intros start; simpl;
    [reflexivity|]. rewrite IH. lia.
Qed.

Lemma int_wrap_representable (bits z : Z) :
  - 2 ^ (bits - 1) <= z < 2 ^ (bits - 1) -> int_wrap bits z = z.
Proof.
  intros Hz. unfold int_wrap. rewrite Z.mod_small by lia. lia.
Qed.

Lemma int_div_positive (bits a b : Z) :
  0 < b -> DenseInit.int_div bits a b = Returns (Z.quot a b).
Proof.
  intros Hb. unfold DenseInit.int_div.
  destruct (Z.eqb_spec b 0); [lia|]. destruct (Z.eqb_spec b (-1)); [lia|].
  reflexivity.
Qed.

Section DenseInitFacts.

Import DenseInit.

Variable bits : Z.
Variable dim_num : nat.
Variables domain tile_extents range tile_domain : list Z.
Hypothesis wf :
  well_formed dim_num domain tile_extents range tile_domain = true.
Hypothesis fits : representable bits dim_num domain range = true.

Abbreviation trunc := (interval Z.quot domain tile_extents range tile_domain).

Lemma well_formed_sizes :
  length domain = (2 * dim_num)%nat /\ length tile_extents = dim_num
  /\ length range = (2 * dim_num)%nat
  /\ length tile_domain = (2 * dim_num)%nat.
Proof.
  unfold well_formed in wf.
  repeat (apply andb_prop in wf as [wf ?]).
  repeat split; by apply Nat.eqb_eq.
Qed.

Lemma well_formed_at (i : nat) :
  (i < dim_num)%nat ->
  0 < tile_extents !!! i
  /\ range !!! (2 * i)%nat <= range !!! (2 * i + 1)%nat
  /\ tile_domain !!! (2 * i)%nat <= tile_domain !!! (2 * i + 1)%nat.
Proof.
  intros Hi. unfold well_formed in wf.
  apply andb_prop in wf as [_ Hall].
  rewrite forallb_forall in Hall.
  specialize (Hall i). rewrite in_seq in Hall.
  specialize (Hall ltac:(lia)).
  apply andb_prop in Hall as [Hall ?]. apply andb_prop in Hall as [? ?].
  lia.
Qed.

Lemma representable_at (i : nat) :
  (i < dim_num)%nat ->
  - 2 ^ (bits - 1) <= range !!! (2 * i)%nat - domain !!! (2 * i)%nat
    < 2 ^ (bits - 1)
  /\ - 2 ^ (bits - 1) <= range !!! (2 * i + 1)%nat - domain !!! (2 * i)%nat
      < 2 ^ (bits - 1).
Proof.
  intros Hi. unfold representable in fits.
  rewrite forallb_forall in fits.
  specialize (fits i). rewrite in_seq in fits.
  specialize (fits ltac:(lia)). cbv zeta in fits.
  apply andb_prop in fits as [Hrest ?]. apply andb_prop in Hrest as [Hrest ?].
  apply andb_prop in Hrest as [? ?]. lia.
Qed.

Lemma range_in_tile_domain_at_truncates (i : nat) :
  (i < dim_num)%nat ->
  range_in_tile_domain_at bits domain tile_extents range tile_domain i
  = Returns (trunc i).
Proof.
  intros Hi. destruct well_formed_sizes as (Hd & He & Hr & Ht).
  destruct (well_formed_at i Hi) as (Hext & _).
  destruct (representable_at i Hi) as [Hlo Hhi].
  unfold range_in_tile_domain_at.
  rewrite !vec_at_in_bounds by lia. cbn [obind].
  rewrite !int_wrap_representable by assumption.
  rewrite !int_div_positive by assumption. reflexivity.
Qed.

Lemma calculate_truncates (rounds : nat) :
  forall i : nat,
    (i + rounds <= dim_num)%nat ->
    calculate bits domain tile_extents range tile_domain i rounds
    = Returns (flat_map (fun j => [(trunc j).1; (trunc j).2])
                        (seq i rounds)).
Proof.
  induction rounds as [|rounds IH]; intros i Hi; simpl; [reflexivity|].
  rewrite range_in_tile_domain_at_truncates by lia. simpl.
  rewrite IH by lia. reflexivity.
Qed.

(** The test of the function (no overlap with the tile domain) and the
    emptiness of the interval agree. *)
Lemma no_overlap_is_empty (i : nat) :
  (i < dim_num)%nat ->
  ((trunc i).1 >? tile_domain !!! (2 * i + 1)%nat)
  || ((trunc i).2 <? tile_domain !!! (2 * i)%nat)
  = is_empty (trunc i).
Proof.
  intros Hi. destruct (well_formed_at i Hi) as (Hext & Hr & Ht).
  unfold is_empty, interval. cbn [fst snd].
  assert (Hq : Z.quot (range !!! (2 * i)%nat - domain !!! (2 * i)%nat)
                      (tile_extents !!! i)
               <= Z.quot (range !!! (2 * i + 1)%nat - domain !!! (2 * i)%nat)
                         (tile_extents !!! i))
    by (apply Z.quot_le_mono; lia).
  rewrite Z.gtb_ltb.
  revert Hq. generalize (range !!! (2 * i)%nat - domain !!! (2 * i)%nat).
  generalize (range !!! (2 * i + 1)%nat - domain !!! (2 * i)%nat).
  intros hi lo. generalize (Z.quot lo (tile_extents !!! i)).
  generalize (Z.quot hi (tile_extents !!! i)). intros b a Hq.
  repeat match goal with
         | |- context [?x <? ?y] => destruct (Z.ltb_spec x y)
         end; simpl; try reflexivity; lia.
Qed.

Lemma check_overlap_is_empty (rounds : nat) :
  forall i : nat,
    (i + rounds <= dim_num)%nat ->
    check_overlap (flat_map (fun j => [(trunc j).1; (trunc j).2])
                            (seq 0 dim_num))
                  tile_domain i rounds
    = Returns (negb (existsb (fun j => is_empty (trunc j)) (seq i rounds))).
Proof.
  destruct well_formed_sizes as (Hd & He & Hr & Ht).
  induction rounds as [|rounds IH]; intros i Hi; [reflexivity|].
  destruct (pairs_lookup (fun j => (trunc j).1) (fun j => (trunc j).2)
              dim_num 0 i ltac:(lia)) as [Hlo Hhi].
  cbn [check_overlap seq existsb].
  rewrite (vec_at_lookup _ _ _ Hlo), (vec_at_lookup _ _ _ Hhi).
  rewrite !vec_at_in_bounds by lia. cbn [obind].
  rewrite <- (no_overlap_is_empty i) by lia.
  destruct (_ || _); simpl; [reflexivity|]. apply IH. lia.
Qed.

(** Towards zero and downwards are the same division when the range does
    not start below the domain. *)
Lemma trunc_is_floor (i : nat) :
  (i < dim_num)%nat ->
  domain !!! (2 * i)%nat <= range !!! (2 * i)%nat ->
  trunc i = interval Z.div domain tile_extents range tile_domain i.
Proof.
  intros Hi Hlo. destruct (well_formed_at i Hi) as (Hext & Hr & Ht).
  unfold interval. by rewrite !Z.quot_div_nonneg by lia.
Qed.

End DenseInitFacts.

(** C5 as the code has it.  For a dense array whose differences
    [range_lo - domain_lo] and [range_hi - domain_lo] are values of the
    coordinate type, the function computes, per dimension [i], the interval
    [[max((range_lo - domain_lo) / extent, tile_lo),
    min((range_hi - domain_lo) / extent, tile_hi)]] where [/] is the division
    of C++, which truncates towards zero; it is the division that rounds down
    when the range does not start below the domain.  The function pushes
    exactly one sentinel entry, with overlap [NONE], when one of these
    intervals is empty, and pushes nothing otherwise.  The sentinel signals
    "no more tiles": pushed at the creation of the read state, it is the
    entry that the first read of any attribute finds, and that read, with or
    without compression, returns [TILEDB_RS_OK] with 0 bytes in its first
    round; it does not ask the iterator for a tile, reads no file and copies
    nothing. *)
Theorem init_range_in_tile_domain_truncates (bits : Z)
    (uninit : OverlappingTile) (dim_num : nat)
    (domain tile_extents range tile_domain : list Z) (s : ReadState) :
  DenseInit.well_formed dim_num domain tile_extents range tile_domain = true ->
  DenseInit.representable bits dim_num domain range = true ->
  exists range_in_tile_domain,
    DenseInit.init_range_in_tile_domain bits uninit dim_num domain
                                        tile_extents range tile_domain s
    = Returns
        (range_in_tile_domain,
         if existsb (fun i => DenseInit.is_empty
                                (DenseInit.interval Z.quot domain tile_extents
                                                    range tile_domain i))
                    (seq 0 dim_num)
         then with_overlapping_tiles
                (overlapping_tiles_ s ++ [DenseInit.sentinel uninit]) s
         else s)
    /\ overlap_ (DenseInit.sentinel uninit) = NONE
    /\ (forall i, (i < dim_num)%nat ->
          (range_in_tile_domain !!! (2 * i)%nat,
           range_in_tile_domain !!! (2 * i + 1)%nat)
          = DenseInit.interval Z.quot domain tile_extents range tile_domain i
          /\ (domain !!! (2 * i)%nat <= range !!! (2 * i)%nat ->
              DenseInit.interval Z.quot domain tile_extents range tile_domain
                                 i
              = DenseInit.interval Z.div domain tile_extents range
                                   tile_domain i))
    /\ (existsb (fun i => DenseInit.is_empty
                            (DenseInit.interval Z.quot domain tile_extents
                                                range tile_domain i))
                (seq 0 dim_num) = true ->
        forall (attribute_num attribute_id : nat)
               (get_next_overlapping_tile_dense : ReadState ->
                                                  outcome ReadState)
               (copy_from_tile_buffer_dense
                copy_from_tile_buffer_partial_contig_dense
                copy_from_tile_buffer_partial_non_contig_dense
                : nat -> Z -> Copier.copy_state -> outcome Copier.copy_state)
               (copy_tile_partial_contig_dense
                copy_tile_partial_non_contig_dense
                : nat -> Z -> Copier.copy_state ->
                  outcome (status * Copier.copy_state))
               (NDEBUG : bool) (E : TileIO.Env) (var_size : bool)
               (buffer_size : Z) (fuel : nat),
          s = Construct.initial attribute_num ->
          (attribute_id <= attribute_num)%nat ->
          DenseLoops.read_dense_attr_cmp_gzip get_next_overlapping_tile_dense
            copy_from_tile_buffer_dense
            copy_from_tile_buffer_partial_contig_dense
            copy_from_tile_buffer_partial_non_contig_dense NDEBUG E
            attribute_id buffer_size (S fuel)
            (with_overlapping_tiles
               (overlapping_tiles_ s ++ [DenseInit.sentinel uninit]) s)
            (Construct.initial_cell_pos_range_pos attribute_num)
          = Returns
              (TILEDB_RS_OK, 0,
               Copier.mkCopyState
                 (with_overlapping_tiles
                    (overlapping_tiles_ s ++ [DenseInit.sentinel uninit]) s)
                 (Construct.initial_cell_pos_range_pos attribute_num) 0 [])
          /\ DenseLoops.read_dense_attr_cmp_none
               get_next_overlapping_tile_dense copy_from_tile_buffer_dense
               copy_tile_partial_contig_dense
               copy_tile_partial_non_contig_dense NDEBUG E var_size
               attribute_id buffer_size (S fuel)
               (with_overlapping_tiles
                  (overlapping_tiles_ s ++ [DenseInit.sentinel uninit]) s)
               (Construct.initial_cell_pos_range_pos attribute_num)
             = Returns
                 (TILEDB_RS_OK, 0,
                  Copier.mkCopyState
                    (with_overlapping_tiles
                       (overlapping_tiles_ s ++ [DenseInit.sentinel uninit])
                       s)
                    (Construct.initial_cell_pos_range_pos attribute_num) 0
                    [])).
Proof.
  intros wf fits. eexists. unfold DenseInit.init_range_in_tile_domain.
  rewrite (calculate_truncates _ _ _ _ _ _ wf fits) by lia. simpl.
  rewrite (check_overlap_is_empty _ _ _ _ _ wf) by lia. simpl.
  split; [|split; [reflexivity|split]].
  - by destruct (existsb _ _).
  - intros i Hi.
    destruct (pairs_lookup
                (fun j => (DenseInit.interval Z.quot domain tile_extents range
                                              tile_domain j).1)
                (fun j => (DenseInit.interval Z.quot domain tile_extents range
                                              tile_domain j).2)
                dim_num 0 i Hi) as [Hlo Hhi].
    rewrite (list_lookup_total_correct _ _ _ Hlo),
      (list_lookup_total_correct _ _ _ Hhi). cbn [Nat.add].
    split; [reflexivity|]. by apply (trunc_is_floor dim_num).
  - intros _ attribute_num attribute_id get_next cfd cpcd cpncd ctpcd ctpncd
           NDEBUG E var_size buffer_size fuel -> Ha.
    assert (Hzero : forall v : list Z,
               v = replicate (S attribute_num) 0 ->
               vec_at v attribute_id = Returns 0).
    { intros v ->. apply vec_at_lookup, lookup_replicate_2. lia. }
    assert (Hflag : vec_at (replicate (S attribute_num) false) attribute_id
                    = Returns false)
      by (apply vec_at_lookup, lookup_replicate_2; lia).
    split.
    + unfold DenseLoops.read_dense_attr_cmp_gzip.
      cbn [DenseLoops.read_dense_attr_cmp_gzip_loop].
      unfold DenseLoops.copy_pending, SparseLoops.unless_overflow,
        DenseLoops.compute_next, TileIO.fetch_and_decompress,
        TileIO.current_tile.
      repeat (cbn [obind Copier.state_ Copier.buffer_offset_
                   Copier.with_state Construct.initial with_overlapping_tiles
                   tiles_offsets_ tiles_sizes_ overflow_
                   overlapping_tiles_pos_ overlapping_tiles_ app length
                   fst snd];
              rewrite ?(Hzero _ eq_refl), ?Hflag;
              change (0 <? 0) with false;
              change (size_t 0 >=? Z.of_nat 1) with false;
              change (Z.to_nat 0) with 0%nat;
              change (vec_at [DenseInit.sentinel uninit] 0)
                with (Returns (DenseInit.sentinel uninit) : outcome _);
              cbn [DenseInit.sentinel overlap_ bool_decide decide_rel]).
      reflexivity.
    + unfold DenseLoops.read_dense_attr_cmp_none.
      cbn [DenseLoops.read_dense_attr_cmp_none_loop].
      unfold DenseLoops.copy_pending, SparseLoops.unless_overflow,
        DenseLoops.compute_next, DenseLoops.copy_command,
        TileIO.current_tile.
      repeat (cbn [obind Copier.state_ Copier.buffer_offset_
                   Copier.with_state Construct.initial with_overlapping_tiles
                   tiles_offsets_ tiles_sizes_ overflow_
                   overlapping_tiles_pos_ overlapping_tiles_ app length
                   fst snd];
              rewrite ?(Hzero _ eq_refl), ?Hflag;
              change (0 <? 0) with false;
              change (size_t 0 >=? Z.of_nat 1) with false;
              change (Z.to_nat 0) with 0%nat;
              change (vec_at [DenseInit.sentinel uninit] 0)
                with (Returns (DenseInit.sentinel uninit) : outcome _);
              cbn [DenseInit.sentinel overlap_ bool_decide decide_rel]).
      reflexivity.
Qed.

Lemma init_range_in_tile_domain_truncates_witness :
  exists range_in_tile_domain,
    DenseInit.init_range_in_tile_domain 32
      (mkOverlappingTile 0 [] None false NONE None 0) 2
      [0; 3; 0; 3] [2; 2] [1; 2; 9; 9] [0; 1; 0; 1] (Construct.initial 1)
    = Returns
        (range_in_tile_domain,
         with_overlapping_tiles
           [DenseInit.sentinel (mkOverlappingTile 0 [] None false NONE None 0)]
           (Construct.initial 1))
    /\ (forall i, (i < 2)%nat ->
          (range_in_tile_domain !!! (2 * i)%nat,
           range_in_tile_domain !!! (2 * i + 1)%nat)
          = DenseInit.interval Z.quot [0; 3; 0; 3] [2; 2] [1; 2; 9; 9]
                               [0; 1; 0; 1] i)
    /\ DenseLoops.read_dense_attr_cmp_none (fun s => Returns s)
         (fun _ _ c => Returns c) (fun _ _ c => Returns (TILEDB_RS_OK, c))
         (fun _ _ c => Returns (TILEDB_RS_OK, c)) false (one_gzip_tile 16)
         false 0 100 1
         (with_overlapping_tiles
            [DenseInit.sentinel
               (mkOverlappingTile 0 [] None false NONE None 0)]
            (Construct.initial 1))
         (Construct.initial_cell_pos_range_pos 1)
       = Returns
           (TILEDB_RS_OK, 0,
            Copier.mkCopyState
              (with_overlapping_tiles
                 [DenseInit.sentinel
                    (mkOverlappingTile 0 [] None false NONE None 0)]
                 (Construct.initial 1))
              (Construct.initial_cell_pos_range_pos 1) 0 []).
Proof.
  destruct (init_range_in_tile_domain_truncates 32
              (mkOverlappingTile 0 [] None false NONE None 0) 2
              [0; 3; 0; 3] [2; 2] [1; 2; 9; 9] [0; 1; 0; 1]
              (Construct.initial 1) eq_refl eq_refl)
    as (range_in_tile_domain & Hrun & _ & Hat & Hsignal).
  exists range_in_tile_domain. split; [exact Hrun|]. split.
  - intros i Hi. exact (proj1 (Hat i Hi)).
  - exact (proj2 (Hsignal eq_refl 1%nat 0%nat (fun s => Returns s)
                    (fun _ _ c => Returns c) (fun _ _ c => Returns c)
                    (fun _ _ c => Returns c)
                    (fun _ _ c => Returns (TILEDB_RS_OK, c))
                    (fun _ _ c => Returns (TILEDB_RS_OK, c)) false
                    (one_gzip_tile 16) false 100 0%nat eq_refl
                    ltac:(lia))).
Defined.

(** C5 as the specification states it, with the division that rounds down,
    fails for a range that ends less than one tile extent below the domain:
    for the domain [[0,3]], the extent 2 and the range [[-1,-1]] the
    function computes the interval [[0,0]], not the empty [[0,-1]], and
    pushes no sentinel. *)
Lemma init_range_in_tile_domain_not_floor :
  ~ DenseInit.floor_claim 32 (mkOverlappingTile 0 [] None false NONE None 0) 1
      [0; 3] [2] [-1; -1] [0; 1]
      (mkReadState [false] [] [0; 0] [0] [0] [0] [0] [] [] []).
Proof.
  intros (rtd & s' & Hrun & Hint & _).
  vm_compute in Hrun. inversion Hrun; subst.
  specialize (Hint 0%nat ltac:(lia)). vm_compute in Hint. discriminate.
Qed.

(** *** The facade *)

(** C8 as the code has it.  For an attribute whose file does not exist, the
    per-attribute read (dense or sparse, fixed or variable-sized) returns
    [TILEDB_RS_OK], gives back zero as the buffer size (both sizes for a
    variable-sized attribute) and leaves the state, the overflow flags in
    particular, as it is, provided the caller's buffer sizes are not zero.
    When a buffer size is zero, the read returns success with zero sizes
    before it looks for the file, and sets the overflow flag of the
    attribute. *)
Theorem empty_attribute_reads_nothing
    (loop : bool -> bool -> Facade.Compression -> Facade.CoordsType -> nat ->
            list Z -> ReadState -> outcome Facade.result)
    (is_dense : bool) (F : Facade.Fragment) (attribute_id : nat)
    (buffer_size buffer_var_size : Z) (s : ReadState) :
  Facade.is_empty_attribute F attribute_id = true ->
  (buffer_size <> 0 ->
   Facade.read_attr loop is_dense F attribute_id buffer_size s
   = Returns (TILEDB_RS_OK, [0], s))
  /\ (buffer_size <> 0 -> buffer_var_size <> 0 ->
      Facade.read_attr_var loop is_dense F attribute_id buffer_size
                           buffer_var_size s
      = Returns (TILEDB_RS_OK, [0; 0], s))
  /\ ((attribute_id < length (overflow_ s))%nat ->
      Facade.read_attr loop is_dense F attribute_id 0 s
      = Returns (TILEDB_RS_OK, [0],
                 with_overflow (<[attribute_id := true]> (overflow_ s)) s))
  /\ ((attribute_id < length (overflow_ s))%nat ->
      buffer_size = 0 \/ buffer_var_size = 0 ->
      Facade.read_attr_var loop is_dense F attribute_id buffer_size
                           buffer_var_size s
      = Returns (TILEDB_RS_OK, [0; 0],
                 with_overflow (<[attribute_id := true]> (overflow_ s)) s)).
Proof.
  intros Hempty. repeat split.
  - intros Hsize. unfold Facade.read_attr.
    destruct (Z.eqb_spec buffer_size 0); [contradiction|].
    destruct (Facade.compression F attribute_id);
      unfold Facade.read_attr_cmp; by rewrite Hempty.
  - intros Hsize Hvar. unfold Facade.read_attr_var.
    destruct (Z.eqb_spec buffer_size 0); [contradiction|].
    destruct (Z.eqb_spec buffer_var_size 0); [contradiction|]. simpl.
    destruct (Facade.compression F attribute_id);
      unfold Facade.read_attr_var_cmp; by rewrite Hempty.
  - intros Hin. unfold Facade.read_attr, set_overflow, vec_set. simpl.
    apply Nat.ltb_lt in Hin. by rewrite Hin.
  - intros Hin Hzero. unfold Facade.read_attr_var, set_overflow, vec_set.
    assert ((buffer_size =? 0) || (buffer_var_size =? 0) = true) as ->.
    { destruct Hzero as [-> | ->]; simpl; [reflexivity|].
      apply orb_true_r. }
    apply Nat.ltb_lt in Hin. by rewrite Hin.
Qed.


Lemma empty_attribute_reads_nothing_witness :
  (32 <> 0 ->
   Facade.read_attr no_loop true one_missing_attribute 0 32
     (mkReadState [false; false] [] [0; 0] [0; 0] [0; 0] [0] [0] [] [] [])
   = Returns (TILEDB_RS_OK, [0],
              mkReadState [false; false] [] [0; 0] [0; 0] [0; 0] [0] [0]
                          [] [] []))
  /\ Facade.is_empty_attribute one_missing_attribute 0 = true.
Proof.
  split; [|reflexivity].
  apply (empty_attribute_reads_nothing no_loop true one_missing_attribute 0
           32 32
           (mkReadState [false; false] [] [0; 0] [0; 0] [0; 0] [0] [0]
                        [] [] [])).
  reflexivity.
Defined.

(** C8 as the specification states it fails when the caller passes an empty
    buffer: [read] returns success for the attribute without a file, and its
    overflow flag is set. *)
Lemma empty_attribute_sets_overflow :
  Facade.is_empty_attribute one_missing_attribute 0 = true
  /\ exists s',
      Facade.read no_loop TILEDB_RS_OK one_missing_attribute [0]
        (mkReadState [false; false] [] [0; 0] [0; 0] [0; 0] [0] [0] [] [] [])
      = Returns (TILEDB_RS_OK, [0], s')
      /\ overflow_ s' !! 0%nat = Some true.
Proof.
  split; [reflexivity|]. eexists. split; reflexivity.
Qed.

(** C9. [read] clears every overflow flag before it dispatches.
    [reset_overflow] keeps the number of flags, puts every one of them down
    and touches no other member; [read] is the dispatch started from that
    state, so the copy work starts with all flags down, and what [read]
    returns and the state it leaves, the flags in particular, do not depend
    on the flags that an earlier call has left. *)
Theorem read_resets_overflow
    (loop : bool -> bool -> Facade.Compression -> Facade.CoordsType -> nat ->
            list Z -> ReadState -> outcome Facade.result)
    (uninit : status) (F : Facade.Fragment) (buffer_sizes : list Z)
    (s : ReadState) (flags : list bool) :
  length flags = length (overflow_ s) ->
  Facade.read loop uninit F buffer_sizes (with_overflow flags s)
  = Facade.read loop uninit F buffer_sizes s
  /\ Facade.read loop uninit F buffer_sizes s
     = Facade.dispatch loop uninit F buffer_sizes (Facade.reset_overflow s)
  /\ Forall (fun flag => flag = false)
            (overflow_ (Facade.reset_overflow s))
  /\ length (overflow_ (Facade.reset_overflow s)) = length (overflow_ s)
  /\ (forall attribute_id : nat,
        (attribute_id < length (overflow_ s))%nat ->
        overflow_ (Facade.reset_overflow s) !! attribute_id = Some false)
  /\ with_overflow (overflow_ s) (Facade.reset_overflow s) = s
  /\ Facade.reset_overflow (with_overflow flags s) = Facade.reset_overflow s.
Proof.
  intros Hlen.
  assert (Hsame : Facade.reset_overflow (with_overflow flags s)
                  = Facade.reset_overflow s).
  { unfold Facade.reset_overflow, with_overflow. simpl. f_equal.
    rewrite !(const_fmap (fun _ : bool => false) _ false) by reflexivity.
    by rewrite Hlen. }
  split; [|split; [reflexivity|split; [|split; [|split; [|split]]]]].
  - unfold Facade.read. by rewrite Hsame.
  - unfold Facade.reset_overflow. simpl.
    rewrite Forall_fmap. by apply Forall_true.
  - unfold Facade.reset_overflow. simpl. apply length_fmap.
  - intros attribute_id Hid. unfold Facade.reset_overflow. simpl.
    rewrite list_lookup_fmap.
    destruct (lookup_lt_is_Some_2 (overflow_ s) attribute_id Hid) as [b ->].
    reflexivity.
  - by destruct s.
  - exact Hsame.
Qed.

Lemma read_resets_overflow_witness :
  Facade.read no_loop TILEDB_RS_OK one_missing_attribute [32]
    (with_overflow [true; true]
       (mkReadState [false; true] [] [0; 0] [0; 0] [0; 0] [0] [0] [] [] []))
  = Facade.read no_loop TILEDB_RS_OK one_missing_attribute [32]
      (mkReadState [false; true] [] [0; 0] [0; 0] [0; 0] [0] [0] [] [] []).
Proof.
  apply (read_resets_overflow no_loop TILEDB_RS_OK one_missing_attribute [32]
           (mkReadState [false; true] [] [0; 0] [0; 0] [0; 0] [0] [0] [] [] [])
           [true; true]).
  reflexivity.
Defined.

(** *** Tile I/O *)

(** Takes one step along a run that is known to return. *)
Ltac run_step :=
  match goal with
  | H : Returns _ = Returns _ |- _ => inversion H; subst; clear H
  | H : obind ?m _ = Returns _ |- _ =>
      let E := fresh "E" in destruct m eqn:E; simpl in H; try discriminate
  | H : (if ?b then _ else _) = Returns _ |- _ =>
      let E := fresh "E" in destruct b eqn:E; try discriminate
  | H : match ?x with _ => _ end = Returns _ |- _ =>
      let E := fresh "E" in destruct x eqn:E; try discriminate
  end.

Ltac run_steps :=
  unfold TileIO.read_tile_from_file_cmp_none,
    TileIO.read_tile_from_file_cmp_gzip,
    TileIO.read_tile_from_file_var_cmp_gzip, TileIO.do_read,
    set_tiles_size, set_tiles_offset, set_overflow, vec_set, assert_ in *;
  repeat (run_step; cbn [fst snd] in * ).

(** What [gunzip] followed by the sanity check does. *)
Lemma gunzip_checked_cases (NDEBUG : bool) (E : TileIO.Env) (r : file_read)
    (out_capacity expected : Z) (s : ReadState) :
  TileIO.gunzip_checked NDEBUG E r out_capacity expected s
  = if negb (TileIO.gunzip E r out_capacity).1 then Returns None
    else if NDEBUG || ((TileIO.gunzip E r out_capacity).2 =? expected)
         then Returns
                (Some (with_gunzips
                         (gunzips_ s
                          ++ [mkGunzipReturn (TileIO.gunzip E r out_capacity).2
                                             expected]) s))
         else Aborts.
Proof.
  unfold TileIO.gunzip_checked, assert_.
  destruct (negb _); [reflexivity|]. by destruct (_ || _).
Qed.

Lemma gunzip_checked_agrees (E : TileIO.Env) (r : file_read)
    (out_capacity expected : Z) (s s' : ReadState) :
  TileIO.gunzip_checked false E r out_capacity expected s = Returns (Some s') ->
  exists g, s' = with_gunzips (gunzips_ s ++ [g]) s
            /\ gunzip_out_size g = expected_size g.
Proof.
  rewrite gunzip_checked_cases. intros H. run_steps.
  eexists. split; [reflexivity|]. simpl in *. lia.
Qed.


Lemma gzip_load_agrees (E : TileIO.Env) (attribute_id : nat)
    (s s' : ReadState) :
  TileIO.get_tile_from_disk_cmp_gzip false E attribute_id s
  = Returns (TILEDB_RS_OK, s') ->
  exists new, gunzips_ s' = gunzips_ s ++ new
              /\ Forall (fun g => gunzip_out_size g = expected_size g) new.
Proof.
  unfold TileIO.get_tile_from_disk_cmp_gzip. intros H. run_steps.
  - exists []. rewrite app_nil_r. split; [reflexivity | constructor].
  - apply gunzip_checked_agrees in E6 as (g & -> & Hg).
    exists [g]. split; [by destruct (bool_decide _)|].
    by repeat constructor.
Qed.

Lemma gzip_var_load_agrees (E : TileIO.Env) (var_size : bool)
    (attribute_id : nat) (s s' : ReadState) :
  TileIO.get_tile_from_disk_var_cmp_gzip false E var_size attribute_id s
  = Returns (TILEDB_RS_OK, s') ->
  exists new, gunzips_ s' = gunzips_ s ++ new
              /\ Forall (fun g => gunzip_out_size g = expected_size g) new.
Proof.
  unfold TileIO.get_tile_from_disk_var_cmp_gzip. intros H. run_steps.
  apply gunzip_checked_agrees in E6 as (g1 & -> & Hg1).
  apply gunzip_checked_agrees in E13 as (g2 & -> & Hg2).
  exists [g1; g2]. split; [|by repeat constructor].
  simpl. by rewrite <- app_assoc.
Qed.

(** C7 as the code has it.  The load of a GZIP tile that has read the
    compressed bytes calls [gunzip].  If [gunzip] reports a failure, the load
    returns [TILEDB_RS_ERR], for the tile of a fixed-sized attribute and for
    each of the two tiles of a variable-sized one; the read loops of a
    fixed-sized attribute, dense and sparse, then return [TILEDB_RS_ERR] at
    once, before anything of that tile is copied.  A byte count that differs
    from the expected tile size is checked by [assert] only: compiled with
    assertions the load stops there and does not return, so every load that
    returns [TILEDB_RS_OK] has decompressed as many bytes as expected;
    compiled with [NDEBUG] the load returns [TILEDB_RS_OK] whatever the
    count. *)
Theorem gzip_size_is_asserted (E : TileIO.Env) (attribute_id : nat) :
  (* The tile of a fixed-sized attribute, from the call of [gunzip] on. *)
  (forall (NDEBUG : bool) (s : ReadState) (i : nat) (t : OverlappingTile)
          (offsets : list Z) (ext : Z * Z),
      TileIO.current_tile attribute_id s = Returns (i, t) ->
      bool_decide (attribute_id = TileIO.attribute_num E)
      && coords_tile_fetched_ t = false ->
      (attribute_id < length (tiles_sizes_ s))%nat ->
      (attribute_id < length (tiles_offsets_ s))%nat ->
      TileIO.tile_offsets E !! attribute_id = Some offsets ->
      TileIO.compressed_extent E offsets
        (TileIO.file_size E attribute_id false) (pos_ t) = Returns ext ->
      TileIO.read_from_file E (mkFileRead attribute_id false ext.1 ext.2)
      = true ->
      match TileIO.gunzip E (mkFileRead attribute_id false ext.1 ext.2)
                          (TileIO.tile_size E attribute_id) with
      | (false, _) =>
          exists s1,
            TileIO.get_tile_from_disk_cmp_gzip NDEBUG E attribute_id s
            = Returns (TILEDB_RS_ERR, s1)
            /\ gunzips_ s1 = gunzips_ s
            /\ tiles_offsets_ s1 = tiles_offsets_ s
      | (true, gunzip_out_size) =>
          if NDEBUG
             || (gunzip_out_size
                 =? size_t (cell_num_ t * TileIO.cell_size E attribute_id))
          then
            exists s1,
              TileIO.get_tile_from_disk_cmp_gzip NDEBUG E attribute_id s
              = Returns (TILEDB_RS_OK, s1)
              /\ gunzips_ s1
                 = gunzips_ s
                   ++ [mkGunzipReturn gunzip_out_size
                         (size_t (cell_num_ t
                                  * TileIO.cell_size E attribute_id))]
          else
            TileIO.get_tile_from_disk_cmp_gzip NDEBUG E attribute_id s
            = Aborts
      end)
  (* The two tiles of a variable-sized attribute: the tile of the
     offsets, ... *)
  /\ (forall (NDEBUG var_size : bool) (s : ReadState) (i : nat)
             (t : OverlappingTile) (offsets : list Z) (ext : Z * Z),
         NDEBUG || var_size = true ->
         TileIO.current_tile attribute_id s = Returns (i, t) ->
         (attribute_id < length (tiles_sizes_ s))%nat ->
         TileIO.tile_offsets E !! attribute_id = Some offsets ->
         TileIO.compressed_extent E offsets
           (TileIO.file_size E attribute_id false) (pos_ t) = Returns ext ->
         TileIO.read_from_file E (mkFileRead attribute_id false ext.1 ext.2)
         = true ->
         match TileIO.gunzip E (mkFileRead attribute_id false ext.1 ext.2)
                 (size_t (cell_num_ t * TILEDB_CELL_VAR_OFFSET_SIZE)) with
         | (false, _) =>
             exists s1,
               TileIO.get_tile_from_disk_var_cmp_gzip NDEBUG E var_size
                 attribute_id s
               = Returns (TILEDB_RS_ERR, s1)
               /\ gunzips_ s1 = gunzips_ s
         | (true, gunzip_out_size) =>
             NDEBUG
             || (gunzip_out_size
                 =? size_t (cell_num_ t * TILEDB_CELL_VAR_OFFSET_SIZE))
             = false ->
             TileIO.get_tile_from_disk_var_cmp_gzip NDEBUG E var_size
               attribute_id s
             = Aborts
         end)
  (* ... and the tile of the values. *)
  /\ (forall (NDEBUG var_size : bool) (s : ReadState) (i : nat)
             (t : OverlappingTile) (offsets var_offsets var_sizes : list Z)
             (ext vext : Z * Z) (tile_var_size : Z),
         NDEBUG || var_size = true ->
         TileIO.current_tile attribute_id s = Returns (i, t) ->
         (attribute_id < length (tiles_sizes_ s))%nat ->
         (attribute_id < length (tiles_offsets_ s))%nat ->
         (attribute_id < length (tiles_var_sizes_ s))%nat ->
         (attribute_id < length (tiles_var_offsets_ s))%nat ->
         TileIO.tile_offsets E !! attribute_id = Some offsets ->
         TileIO.compressed_extent E offsets
           (TileIO.file_size E attribute_id false) (pos_ t) = Returns ext ->
         TileIO.read_from_file E (mkFileRead attribute_id false ext.1 ext.2)
         = true ->
         (TileIO.gunzip E (mkFileRead attribute_id false ext.1 ext.2)
            (size_t (cell_num_ t * TILEDB_CELL_VAR_OFFSET_SIZE))).1 = true ->
         NDEBUG
         || ((TileIO.gunzip E (mkFileRead attribute_id false ext.1 ext.2)
                (size_t (cell_num_ t * TILEDB_CELL_VAR_OFFSET_SIZE))).2
             =? size_t (cell_num_ t * TILEDB_CELL_VAR_OFFSET_SIZE)) = true ->
         TileIO.tile_var_offsets E !! attribute_id = Some var_offsets ->
         TileIO.compressed_extent E var_offsets
           (TileIO.file_size E attribute_id true) (pos_ t) = Returns vext ->
         TileIO.tile_var_sizes E !! attribute_id = Some var_sizes ->
         at_ var_sizes (pos_ t) = Some tile_var_size ->
         TileIO.read_from_file E (mkFileRead attribute_id true vext.1 vext.2)
         = true ->
         match TileIO.gunzip E (mkFileRead attribute_id true vext.1 vext.2)
                             tile_var_size with
         | (false, _) =>
             exists s1,
               TileIO.get_tile_from_disk_var_cmp_gzip NDEBUG E var_size
                 attribute_id s
               = Returns (TILEDB_RS_ERR, s1)
         | (true, gunzip_out_size) =>
             if NDEBUG || (gunzip_out_size =? tile_var_size)
             then
               exists s1,
                 TileIO.get_tile_from_disk_var_cmp_gzip NDEBUG E var_size
                   attribute_id s
                 = Returns (TILEDB_RS_OK, s1)
                 /\ gunzips_ s1
                    = gunzips_ s
                      ++ [mkGunzipReturn
                            (TileIO.gunzip E
                               (mkFileRead attribute_id false ext.1 ext.2)
                               (size_t (cell_num_ t
                                        * TILEDB_CELL_VAR_OFFSET_SIZE))).2
                            (size_t (cell_num_ t
                                     * TILEDB_CELL_VAR_OFFSET_SIZE));
                          mkGunzipReturn gunzip_out_size tile_var_size]
             else
               TileIO.get_tile_from_disk_var_cmp_gzip NDEBUG E var_size
                 attribute_id s
               = Aborts
         end)
  (* Compiled with assertions, a load that returns [TILEDB_RS_OK] has
     decompressed as many bytes as it expected. *)
  /\ (forall (var_size : bool) (s s' : ReadState),
         TileIO.get_tile_from_disk_cmp_gzip false E attribute_id s
         = Returns (TILEDB_RS_OK, s')
         \/ TileIO.get_tile_from_disk_var_cmp_gzip false E var_size
              attribute_id s
            = Returns (TILEDB_RS_OK, s') ->
         exists new, gunzips_ s' = gunzips_ s ++ new
                     /\ Forall (fun g => gunzip_out_size g = expected_size g)
                               new)
  (* [gunzip] and the sanity check. *)
  /\ (forall NDEBUG r out_capacity expected s0,
         (TileIO.gunzip E r out_capacity).1 = false ->
         TileIO.gunzip_checked NDEBUG E r out_capacity expected s0
         = Returns None)
  /\ (forall r out_capacity expected s0,
         (TileIO.gunzip E r out_capacity).1 = true ->
         (TileIO.gunzip E r out_capacity).2 <> expected ->
         TileIO.gunzip_checked false E r out_capacity expected s0 = Aborts)
  (* The read loops pass the error on before they copy from the tile. *)
  /\ (forall NDEBUG s0 s1,
         TileIO.get_tile_from_disk_cmp_gzip NDEBUG E attribute_id s0
         = Returns (TILEDB_RS_ERR, s1) ->
         (exists it, TileIO.current_tile attribute_id s0 = Returns it
                     /\ overlap_ it.2 <> NONE) ->
         TileIO.fetch_and_decompress NDEBUG E attribute_id s0
         = Returns (Some TILEDB_RS_ERR, s1))
  /\ (forall (get_next_overlapping_tile_sparse : ReadState ->
                                                 outcome ReadState)
             (NDEBUG var_size : bool) (buffer_size : Z) (fuel : nat)
             (c c1 : Copier.copy_state) (s2 s3 : ReadState)
             (it : nat * OverlappingTile),
         SparseLoops.copy_pending NDEBUG E var_size attribute_id buffer_size c
         = Returns c1 ->
         overflow_ (Copier.state_ c1) !! attribute_id = Some false ->
         SparseLoops.compute_next get_next_overlapping_tile_sparse
           attribute_id (Copier.state_ c1) = Returns s2 ->
         TileIO.current_tile attribute_id s2 = Returns it ->
         TileIO.fetch_and_decompress NDEBUG E attribute_id s2
         = Returns (Some TILEDB_RS_ERR, s3) ->
         SparseLoops.read_sparse_attr_cmp_gzip_loop
           get_next_overlapping_tile_sparse NDEBUG E var_size attribute_id
           buffer_size (S fuel) c
         = Returns (TILEDB_RS_ERR, buffer_size,
                    Copier.mkCopyState s3 (Copier.cell_pos_range_pos_ c1)
                      (Copier.buffer_offset_ c1) (Copier.written_ c1)))
  /\ (forall (get_next_overlapping_tile_dense : ReadState ->
                                                outcome ReadState)
             (copy_from_tile_buffer_dense
              copy_from_tile_buffer_partial_contig_dense
              copy_from_tile_buffer_partial_non_contig_dense
              : nat -> Z -> Copier.copy_state -> outcome Copier.copy_state)
             (NDEBUG : bool) (buffer_size : Z) (fuel : nat)
             (c c1 : Copier.copy_state) (s2 s3 : ReadState)
             (it : nat * OverlappingTile),
         DenseLoops.copy_pending copy_from_tile_buffer_dense attribute_id
           buffer_size c = Returns c1 ->
         overflow_ (Copier.state_ c1) !! attribute_id = Some false ->
         DenseLoops.compute_next get_next_overlapping_tile_dense attribute_id
           (Copier.state_ c1) = Returns s2 ->
         TileIO.current_tile attribute_id s2 = Returns it ->
         TileIO.fetch_and_decompress NDEBUG E attribute_id s2
         = Returns (Some TILEDB_RS_ERR, s3) ->
         DenseLoops.read_dense_attr_cmp_gzip_loop
           get_next_overlapping_tile_dense copy_from_tile_buffer_dense
           copy_from_tile_buffer_partial_contig_dense
           copy_from_tile_buffer_partial_non_contig_dense NDEBUG E
           attribute_id buffer_size (S fuel) c
         = Returns (TILEDB_RS_ERR, buffer_size,
                    Copier.mkCopyState s3 (Copier.cell_pos_range_pos_ c1)
                      (Copier.buffer_offset_ c1) (Copier.written_ c1))).
Proof.
  assert (Hset : forall (A : Type) (v : list A) (k : nat) (x : A),
             (k < length v)%nat -> vec_set v k x = Returns (<[k := x]> v)).
  { intros A v k x Hk. unfold vec_set.
    by rewrite (proj2 (Nat.ltb_lt _ _) Hk). }
  assert (Hok : bool_decide (TILEDB_RS_OK <> TILEDB_RS_OK) = false)
    by reflexivity.
  repeat apply conj.
  - intros NDEBUG s i t offsets ext Hcur Hskip Hts Hto Hoff Hext Hread.
    unfold TileIO.get_tile_from_disk_cmp_gzip.
    rewrite Hcur. cbn [obind fst snd]. rewrite Hskip.
    unfold set_tiles_size. rewrite Hset by exact Hts. cbn [obind].
    rewrite (vec_at_lookup _ _ _ Hoff). cbn [obind]. rewrite Hext.
    cbn [obind].
    unfold TileIO.read_tile_from_file_cmp_gzip, TileIO.do_read.
    cbn [obind fst snd]. rewrite Hread, Hok.
    rewrite gunzip_checked_cases.
    destruct (TileIO.gunzip E _ _) as [[|] n]; cbn [fst snd negb].
    + destruct (NDEBUG || _); cbn [obind]; [|reflexivity].
      unfold set_tiles_offset.
      rewrite Hset by (cbn [with_gunzips with_file_reads with_tiles_sizes
                            tiles_offsets_]; exact Hto).
      cbn [obind]. eexists. split; [reflexivity|].
      destruct (bool_decide (attribute_id = TileIO.attribute_num E));
        reflexivity.
    + eexists. split; [reflexivity|]. split; reflexivity.
  - intros NDEBUG var_size s i t offsets ext Hassert Hcur Hts Hoff Hext Hread.
    unfold TileIO.get_tile_from_disk_var_cmp_gzip.
    replace (assert_ NDEBUG var_size) with (Returns tt : outcome unit)
      by (unfold assert_; by rewrite Hassert).
    cbn [obind].
    rewrite Hcur. cbn [obind fst snd].
    rewrite (vec_at_lookup _ _ _ Hoff). cbn [obind]. rewrite Hext.
    cbn [obind].
    unfold set_tiles_size. rewrite Hset by exact Hts. cbn [obind].
    unfold TileIO.read_tile_from_file_cmp_gzip, TileIO.do_read.
    cbn [obind fst snd]. rewrite Hread, Hok.
    rewrite gunzip_checked_cases.
    destruct (TileIO.gunzip E _ _) as [[|] n]; cbn [fst snd negb].
    + intros ->. reflexivity.
    + eexists. split; reflexivity.
  - intros NDEBUG var_size s i t offsets var_offsets var_sizes ext vext
           tile_var_size Hassert Hcur Hts Hto Hvs Hvo Hoff Hext Hread Hg1
           Hcount Hvoff Hvext Hvsizes Hvsize Hvread.
    unfold TileIO.get_tile_from_disk_var_cmp_gzip.
    replace (assert_ NDEBUG var_size) with (Returns tt : outcome unit)
      by (unfold assert_; by rewrite Hassert).
    cbn [obind].
    rewrite Hcur. cbn [obind fst snd].
    rewrite (vec_at_lookup _ _ _ Hoff). cbn [obind]. rewrite Hext.
    cbn [obind].
    unfold set_tiles_size. rewrite Hset by exact Hts. cbn [obind].
    unfold TileIO.read_tile_from_file_cmp_gzip, TileIO.do_read.
    cbn [obind fst snd]. rewrite Hread, Hok.
    rewrite gunzip_checked_cases. rewrite Hg1, Hcount. cbn [negb obind].
    unfold set_tiles_offset.
    rewrite Hset by (cbn [with_gunzips with_file_reads with_tiles_sizes
                          tiles_offsets_]; exact Hto).
    cbn [obind].
    rewrite (vec_at_lookup _ _ _ Hvoff). cbn [obind]. rewrite Hvext.
    cbn [obind]. rewrite (vec_at_lookup _ _ _ Hvsizes). cbn [obind].
    rewrite Hvsize.
    unfold TileIO.read_tile_from_file_var_cmp_gzip, TileIO.do_read.
    cbn [obind fst snd]. rewrite Hvread, Hok.
    rewrite gunzip_checked_cases.
    destruct (TileIO.gunzip E (mkFileRead attribute_id true _ _) _)
      as [[|] n]; cbn [fst snd negb].
    + destruct (NDEBUG || (n =? tile_var_size)); cbn [obind]; [|reflexivity].
      rewrite Hset by (cbn [with_gunzips with_file_reads with_tiles_sizes
                            with_tiles_offsets tiles_var_sizes_]; exact Hvs).
      cbn [obind].
      rewrite Hset by (cbn [with_gunzips with_file_reads with_tiles_sizes
                            with_tiles_offsets tiles_var_offsets_];
                       exact Hvo).
      cbn [obind]. eexists. split; [reflexivity|].
      cbn [gunzips_ with_tiles_var_offsets with_tiles_var_sizes with_gunzips
           with_file_reads with_tiles_sizes with_tiles_offsets].
      by rewrite <- app_assoc.
    + eexists. reflexivity.
  - intros var_size s s' Hload.
    destruct Hload as [H | H];
      [eapply gzip_load_agrees | eapply gzip_var_load_agrees]; exact H.
  - intros NDEBUG r c e s0 Hfail. rewrite gunzip_checked_cases.
    by rewrite Hfail.
  - intros r c e s0 Hsucceeds Hne. rewrite gunzip_checked_cases.
    rewrite Hsucceeds.
    simpl. by destruct (Z.eqb_spec (TileIO.gunzip E r c).2 e).
  - intros NDEBUG s0 s1 Herr (it & Hit & Hnone).
    unfold TileIO.fetch_and_decompress. rewrite Hit. simpl.
    rewrite bool_decide_true by exact Hnone. by rewrite Herr.
  - intros get_next NDEBUG var_size buffer_size fuel c c1 s2 s3 it Hpending
           Hflag Hnext Hit Hfetch.
    cbn [SparseLoops.read_sparse_attr_cmp_gzip_loop].
    rewrite Hpending. cbn [obind]. unfold SparseLoops.unless_overflow.
    rewrite (vec_at_lookup _ _ _ Hflag). cbn [obind].
    rewrite Hnext. cbn [obind]. rewrite Hit. cbn [obind].
    rewrite Hfetch. reflexivity.
  - intros get_next cfd cpcd cpncd NDEBUG buffer_size fuel c c1 s2 s3 it
           Hpending Hflag Hnext Hit Hfetch.
    cbn [DenseLoops.read_dense_attr_cmp_gzip_loop].
    rewrite Hpending. cbn [obind]. unfold SparseLoops.unless_overflow.
    rewrite (vec_at_lookup _ _ _ Hflag). cbn [obind].
    rewrite Hnext. cbn [obind]. rewrite Hit. cbn [obind].
    rewrite Hfetch. reflexivity.
Qed.

Lemma gzip_size_is_asserted_witness :
  (exists s1,
      TileIO.get_tile_from_disk_cmp_gzip false
        (TileIO.mkEnv 1 (fun _ => 4) (fun _ => 16) 4 1 [[0]; [0]] [] []
           (fun _ _ => 10) (fun _ => true) (fun _ _ => (false, 0)))
        0 at_first_tile
      = Returns (TILEDB_RS_ERR, s1)
      /\ gunzips_ s1 = gunzips_ at_first_tile
      /\ tiles_offsets_ s1 = tiles_offsets_ at_first_tile)
  /\ exists new,
       gunzips_
         (with_tiles_offsets [0; 0]
            (with_gunzips [mkGunzipReturn 16 16]
               (with_file_reads [mkFileRead 0 false 0 10]
                  (with_tiles_sizes [16; 0] at_first_tile))))
       = gunzips_ at_first_tile ++ new
       /\ Forall (fun g => gunzip_out_size g = expected_size g) new.
Proof.
  split.
  - exact (proj1 (gzip_size_is_asserted
                    (TileIO.mkEnv 1 (fun _ => 4) (fun _ => 16) 4 1
                       [[0]; [0]] [] [] (fun _ _ => 10) (fun _ => true)
                       (fun _ _ => (false, 0))) 0)
             false at_first_tile 0%nat
             (mkOverlappingTile 4 [] None false FULL (Some [0; 1; 0; 1]) 0)
             [0] (0, 10) eq_refl eq_refl ltac:(simpl; lia) ltac:(simpl; lia)
             eq_refl eq_refl eq_refl).
  - apply (proj1 (proj2 (proj2 (proj2 (gzip_size_is_asserted
                                         (one_gzip_tile 16) 0))))
             false at_first_tile
             (with_tiles_offsets [0; 0]
                (with_gunzips [mkGunzipReturn 16 16]
                   (with_file_reads [mkFileRead 0 false 0 10]
                      (with_tiles_sizes [16; 0] at_first_tile))))).
    left. reflexivity.
Defined.

(** C7 as the specification states it fails: when [gunzip] succeeds with 5
    bytes where 16 are expected, the load does not return an error.
    Compiled with [NDEBUG] it returns [TILEDB_RS_OK]; compiled with
    assertions it stops at the [assert]. *)
Lemma gzip_size_mismatch_is_no_error :
  (exists s',
      TileIO.get_tile_from_disk_cmp_gzip true (one_gzip_tile 5) 0 at_first_tile
      = Returns (TILEDB_RS_OK, s')
      /\ gunzips_ s' = [mkGunzipReturn 5 16])
  /\ TileIO.get_tile_from_disk_cmp_gzip false (one_gzip_tile 5) 0 at_first_tile
     = Aborts
  /\ TileIO.fetch_and_decompress true (one_gzip_tile 5) 0 at_first_tile
     = Returns (None,
                with_tiles_offsets [0; 0]
                  (with_gunzips [mkGunzipReturn 5 16]
                     (with_file_reads [mkFileRead 0 false 0 10]
                        (with_tiles_sizes [16; 0] at_first_tile)))).
Proof.
  split; [eexists; split; reflexivity|]. split; reflexivity.
Qed.

(** The search for the next tile leaves the flag of the entry as it is. *)
Lemma find_next_keeps_flag
    (compute_mbr_range_overlap : list Z -> list Z -> list Z * Z)
    (range : list Z) (mbrs : list (list Z)) (tile_search_range_1 : Z)
    (fuel : nat) :
  forall (tile_pos : Z) (t t' : OverlappingTile),
    Iterator.find_next fuel compute_mbr_range_overlap range mbrs
                       tile_search_range_1 tile_pos t = Returns t' ->
    coords_tile_fetched_ t' = coords_tile_fetched_ t.
Proof.
  induction fuel as [|fuel IH]; intros tile_pos t t' H; simpl in H.
  - by run_steps.
  - destruct (_ && _); [|by run_steps].
    destruct (at_ mbrs tile_pos); [|discriminate].
    apply IH in H. exact H.
Qed.

Lemma current_tile_fetched (i : nat) (attribute_id : nat) (s : ReadState)
    (t : OverlappingTile) :
  TileIO.current_tile attribute_id s = Returns (i, t) ->
  exists t',
    TileIO.current_tile attribute_id (TileIO.set_coords_tile_fetched i s)
    = Returns (i, t')
    /\ coords_tile_fetched_ t' = true.
Proof.
  unfold TileIO.current_tile. intros H. run_steps. simpl.
  rewrite E. simpl. rewrite E0.
  unfold vec_at in *. rewrite list_lookup_alter_eq.
  destruct (overlapping_tiles_ s !! Z.to_nat a) eqn:L; [|discriminate].
  simpl. eexists. split; reflexivity.
Qed.

Lemma current_tile_frame (attribute_id : nat) (s s' : ReadState) :
  overlapping_tiles_pos_ s' = overlapping_tiles_pos_ s ->
  overlapping_tiles_ s' = overlapping_tiles_ s ->
  TileIO.current_tile attribute_id s' = TileIO.current_tile attribute_id s.
Proof. intros Hp Ht. unfold TileIO.current_tile. by rewrite Hp, Ht. Qed.

(** A load of the coordinates tile of an entry whose flag is up returns at
    once. *)
Lemma fetched_load_returns (NDEBUG gzip : bool) (E : TileIO.Env)
    (s : ReadState) (i : nat) (t : OverlappingTile) :
  TileIO.current_tile (TileIO.attribute_num E) s = Returns (i, t) ->
  coords_tile_fetched_ t = true ->
  (if gzip
   then TileIO.get_tile_from_disk_cmp_gzip NDEBUG E (TileIO.attribute_num E)
   else TileIO.get_tile_from_disk_cmp_none E (TileIO.attribute_num E)) s
  = Returns (TILEDB_RS_OK, s).
Proof.
  intros Hcur Hflag.
  destruct gzip; unfold TileIO.get_tile_from_disk_cmp_gzip,
    TileIO.get_tile_from_disk_cmp_none; rewrite Hcur; simpl;
    rewrite Hflag, bool_decide_true by reflexivity; reflexivity.
Qed.

Lemma reads_of_one_more (attribute_id : nat) (s : ReadState) (r : file_read)
    (s' : ReadState) :
  file_reads_ s' = file_reads_ s ++ [r] ->
  (length (TileIO.reads_of attribute_id s')
   <= length (TileIO.reads_of attribute_id s) + 1)%nat.
Proof.
  intros H. unfold TileIO.reads_of. rewrite H, filter_app, length_app.
  pose proof (length_filter (fun r => file_attribute r = attribute_id) [r]).
  simpl in *. lia.
Qed.

Lemma gunzip_checked_state (NDEBUG : bool) (E : TileIO.Env) (r : file_read)
    (out_capacity expected : Z) (s s' : ReadState) :
  TileIO.gunzip_checked NDEBUG E r out_capacity expected s = Returns (Some s') ->
  exists g, s' = with_gunzips (gunzips_ s ++ [g]) s.
Proof.
  rewrite gunzip_checked_cases. intros H. run_steps. eauto.
Qed.

(** X22. An entry that [get_next_overlapping_tile_sparse] builds is created
    with its flag [coords_tile_fetched_] down.  A load of the coordinates
    tile, raw or GZIP, that finds the flag of the current entry up returns
    [TILEDB_RS_OK] and leaves the state as it is: no file is read.  A load
    that returns [TILEDB_RS_OK] leaves the flag of that entry up and has
    read the file at most once; every load after it returns at once, so the
    coordinates tile of an entry is read and decompressed at most once. *)
Theorem coords_tile_is_fetched_once (NDEBUG gzip : bool) (E : TileIO.Env)
    (s : ReadState) (i : nat) (t : OverlappingTile) :
  TileIO.current_tile (TileIO.attribute_num E) s = Returns (i, t) ->
  (forall compute_mbr_range_overlap uninit block capacity last_tile_cell_num
          range mbrs tile_search_range_ s0 entry,
      Iterator.next_overlapping_tile_entry compute_mbr_range_overlap uninit
        block capacity last_tile_cell_num range mbrs tile_search_range_ s0
      = Returns entry ->
      coords_tile_fetched_ entry = false)
  /\ (coords_tile_fetched_ t = true ->
      (if gzip
       then TileIO.get_tile_from_disk_cmp_gzip NDEBUG E (TileIO.attribute_num E)
       else TileIO.get_tile_from_disk_cmp_none E (TileIO.attribute_num E)) s
      = Returns (TILEDB_RS_OK, s))
  /\ (forall s1,
         (if gzip
          then TileIO.get_tile_from_disk_cmp_gzip NDEBUG E
                 (TileIO.attribute_num E)
          else TileIO.get_tile_from_disk_cmp_none E (TileIO.attribute_num E)) s
         = Returns (TILEDB_RS_OK, s1) ->
         (exists t1,
             TileIO.current_tile (TileIO.attribute_num E) s1 = Returns (i, t1)
             /\ coords_tile_fetched_ t1 = true)
         /\ (length (TileIO.reads_of (TileIO.attribute_num E) s1)
             <= length (TileIO.reads_of (TileIO.attribute_num E) s) + 1)%nat
         /\ (if gzip
             then TileIO.get_tile_from_disk_cmp_gzip NDEBUG E
                    (TileIO.attribute_num E)
             else TileIO.get_tile_from_disk_cmp_none E
                    (TileIO.attribute_num E)) s1
            = Returns (TILEDB_RS_OK, s1)).
Proof.
  intros Hcur. split; [|split].
  - intros cmro uninit block capacity ltcn range mbrs tsr s0 entry H.
    unfold Iterator.next_overlapping_tile_entry in H. run_steps; simpl.
    + by apply find_next_keeps_flag in E0.
    + reflexivity.
  - by apply (fetched_load_returns NDEBUG gzip E s i t).
  - intros s1 Hload.
    assert (Hfetched :
             exists t1,
               TileIO.current_tile (TileIO.attribute_num E) s1
               = Returns (i, t1)
               /\ coords_tile_fetched_ t1 = true
               /\ (length (TileIO.reads_of (TileIO.attribute_num E) s1)
                   <= length (TileIO.reads_of (TileIO.attribute_num E) s) + 1)%nat).
    { destruct (coords_tile_fetched_ t) eqn:Hflag.
      - rewrite (fetched_load_returns NDEBUG gzip E s i t Hcur Hflag) in Hload.
        inversion Hload; subst. exists t. repeat split; [assumption..|lia].
      - destruct gzip; unfold TileIO.get_tile_from_disk_cmp_gzip,
          TileIO.get_tile_from_disk_cmp_none in Hload; rewrite Hcur in Hload;
          simpl in Hload; rewrite Hflag, andb_false_r in Hload.
        + run_steps. apply gunzip_checked_state in E4 as (g & ->).
          rewrite bool_decide_true by reflexivity.
          destruct (current_tile_fetched i (TileIO.attribute_num E) s t Hcur)
            as (t1 & Ht1 & Hup).
          exists t1. split; [|split; [exact Hup|]].
          * rewrite <- Ht1. apply current_tile_frame; reflexivity.
          * eapply reads_of_one_more. reflexivity.
        + run_steps. rewrite bool_decide_true by reflexivity.
          destruct (current_tile_fetched i (TileIO.attribute_num E) s t Hcur)
            as (t1 & Ht1 & Hup).
          exists t1. split; [|split; [exact Hup|]].
          * rewrite <- Ht1. apply current_tile_frame; reflexivity.
          * eapply reads_of_one_more. reflexivity. }
    destruct Hfetched as (t1 & Ht1 & Hup & Hreads).
    split; [eauto|]. split; [exact Hreads|].
    by apply (fetched_load_returns NDEBUG gzip E s1 i t1).
Qed.


Lemma coords_tile_is_fetched_once_witness :
  TileIO.get_tile_from_disk_cmp_none one_coords_tile 1
    (with_file_reads [mkFileRead 1 false 0 64]
       (with_tiles_sizes [0; 64]
          (TileIO.set_coords_tile_fetched 0 at_first_tile)))
  = Returns (TILEDB_RS_OK,
             with_file_reads [mkFileRead 1 false 0 64]
               (with_tiles_sizes [0; 64]
                  (TileIO.set_coords_tile_fetched 0 at_first_tile))).
Proof.
  apply (coords_tile_is_fetched_once false false one_coords_tile at_first_tile
           0 (mkOverlappingTile 4 [] None false FULL (Some [0; 1; 0; 1]) 0)
           eq_refl).
  reflexivity.
Defined.

Section BytesToCopyFacts.

Import BytesToCopy.

Variable tile : list Z.
Variables cell_num tiles_var_size : Z.
Variables start_cell_pos end_cell_pos : Z.
Variables buffer_free_space buffer_var_free_space : Z.

Abbreviation off_ := (off tile cell_num tiles_var_size).

(** The tile holds [cell_num] offsets, the region lies in the tile, the
    offsets of the region do not decrease and are values of [size_t]. *)
Hypothesis tile_size : Z.of_nat (length tile) = cell_num.
Hypothesis region :
  0 <= start_cell_pos /\ start_cell_pos <= end_cell_pos < cell_num.
Hypothesis monotone :
  forall i j, start_cell_pos <= i <= j -> j <= end_cell_pos + 1 ->
              off_ i <= off_ j.
Hypothesis in_size_t :
  forall k, start_cell_pos <= k <= end_cell_pos + 1 -> 0 <= off_ k < two64.
Hypothesis free_space :
  buffer_free_space <> 0 /\ 0 < buffer_var_free_space < two64.

Lemma at_tile (k : Z) : 0 <= k < cell_num -> at_ tile k = Some (off_ k).
Proof.
  intros Hk. unfold off, at_.
  destruct (Z.ltb_spec k cell_num); [|lia].
  destruct (Z.ltb_spec k 0); [lia|].
  destruct (lookup_lt_is_Some_2 tile (Z.to_nat k)) as [x Hx]; [lia|].
  by rewrite Hx.
Qed.

Lemma size_t_small (z : Z) : 0 <= z < two64 -> size_t z = z.
Proof. intros Hz. unfold size_t. by apply Z.mod_small. Qed.

Lemma bytes_from_start (k : Z) :
  start_cell_pos <= k <= end_cell_pos + 1 ->
  size_t (off_ k - off_ start_cell_pos) = off_ k - off_ start_cell_pos.
Proof.
  intros Hk. apply size_t_small.
  pose proof (monotone start_cell_pos k ltac:(lia) ltac:(lia)).
  pose proof (in_size_t k ltac:(lia)).
  pose proof (in_size_t start_cell_pos ltac:(lia)). lia.
Qed.

Lemma look_at (k : Z) :
  start_cell_pos <= k <= end_cell_pos ->
  look tile (off_ start_cell_pos) buffer_var_free_space k
  = if off_ k - off_ start_cell_pos >? buffer_var_free_space then GoLeft
    else if off_ k - off_ start_cell_pos <? buffer_var_free_space
         then GoRight else Stop.
Proof.
  intros Hk. unfold look. rewrite at_tile by lia.
  by rewrite bytes_from_start by lia.
Qed.

(** The requested variable bytes exceed the free space, and no cell of the
    region starts exactly at the end of the free space. *)
Hypothesis too_large :
  off_ (end_cell_pos + 1) - off_ start_cell_pos > buffer_var_free_space.
Hypothesis no_exact_fit :
  forall k, start_cell_pos <= k <= end_cell_pos ->
            off_ k - off_ start_cell_pos <> buffer_var_free_space.

Lemma compute_bytes_to_copy_crossed :
  exists m,
    compute_bytes_to_copy tile cell_num tiles_var_size start_cell_pos
      end_cell_pos buffer_free_space buffer_var_free_space
    = Some (size_t ((m - start_cell_pos + 1) * TILEDB_CELL_VAR_OFFSET_SIZE),
            off_ (m + 1) - off_ start_cell_pos)
    /\ largest_fit tile cell_num tiles_var_size start_cell_pos end_cell_pos
                   buffer_var_free_space m
    /\ off_ (m + 1) - off_ start_cell_pos <= buffer_var_free_space.
Proof.
  destruct free_space as [Hfree Hvar].
  unfold compute_bytes_to_copy.
  destruct (Z.eqb_spec buffer_free_space 0); [contradiction|].
  destruct (Z.eqb_spec buffer_var_free_space 0); [lia|]. simpl.
  rewrite (at_tile start_cell_pos) by lia. simpl.
  assert (Hfirst :
           (if end_cell_pos + 1 <? cell_num
            then t ← at_ tile (end_cell_pos + 1);
                 Some (size_t (t - off_ start_cell_pos))
            else Some (size_t (tiles_var_size - off_ start_cell_pos)))
           = Some (off_ (end_cell_pos + 1) - off_ start_cell_pos)).
  { destruct (Z.ltb_spec (end_cell_pos + 1) cell_num) as [Hlt|Hge].
    - rewrite at_tile by lia. simpl. by rewrite bytes_from_start by lia.
    - rewrite <- (bytes_from_start (end_cell_pos + 1)) by lia.
      unfold off at 2. destruct (Z.ltb_spec (end_cell_pos + 1) cell_num);
        [lia | reflexivity]. }
  rewrite Hfirst. simpl.
  destruct (Z.gtb_spec (off_ (end_cell_pos + 1) - off_ start_cell_pos)
                       buffer_var_free_space); [|lia].
  pose proof (bsearch_exit
                (look tile (off_ start_cell_pos) buffer_var_free_space)
                start_cell_pos end_cell_pos ltac:(lia)) as Hx.
  assert (Hstart : look tile (off_ start_cell_pos) buffer_var_free_space
                        start_cell_pos = GoRight).
  { rewrite look_at by lia. rewrite Z.sub_diag.
    destruct (Z.gtb_spec 0 buffer_var_free_space); [lia|].
    destruct (Z.ltb_spec 0 buffer_var_free_space); [reflexivity|lia]. }
  destruct (bsearch _ _ _) as [a b | a b med | |]; try contradiction.
  - destruct Hx as (-> & Ha & Hb & Hleft & Hright).
    assert (Hb' : start_cell_pos <= b).
    { destruct (Z_lt_le_dec b start_cell_pos) as [Hlt|]; [|assumption].
      assert (b = start_cell_pos - 1) as -> by lia.
      destruct Hright as [E|L]; [lia|].
      replace (start_cell_pos - 1 + 1) with start_cell_pos in L by lia.
      congruence. }
    destruct Hleft as [E|L]; [lia|].
    replace (b + 1 - 1) with b in L by lia. rewrite look_at in L by lia.
    destruct (Z.gtb_spec (off_ b - off_ start_cell_pos) buffer_var_free_space);
      [discriminate|].
    destruct (Z.ltb_spec (off_ b - off_ start_cell_pos) buffer_var_free_space);
      [|discriminate].
    exists (b - 1). simpl. replace (b - 1 + 1) with b by lia.
    rewrite at_tile by lia. simpl. rewrite bytes_from_start by lia.
    split; [reflexivity|]. split; [|lia].
    split; [lia|]. split.
    + intros _. unfold fits. replace (b - 1 + 1) with b by lia. lia.
    + intros m' Hm'. unfold fits.
      destruct (Z.eq_dec b end_cell_pos) as [->|Hne].
      * assert (m' = end_cell_pos) as -> by lia. lia.
      * destruct Hright as [E|R]; [contradiction|].
        rewrite look_at in R by lia.
        destruct (Z.gtb_spec (off_ (b + 1) - off_ start_cell_pos)
                             buffer_var_free_space);
          [|destruct (_ <? _) in R; discriminate].
        pose proof (monotone (b + 1) (m' + 1) ltac:(lia) ltac:(lia)). lia.
  - destruct Hx as (Hmed & L). rewrite look_at in L by lia.
    pose proof (no_exact_fit med Hmed).
    destruct (Z.gtb_spec (off_ med - off_ start_cell_pos)
                         buffer_var_free_space); [discriminate|].
    destruct (Z.ltb_spec (off_ med - off_ start_cell_pos)
                         buffer_var_free_space); [discriminate|lia].
  - destruct Hx as (k & Hk & L). rewrite look_at in L by lia.
    destruct (_ >? _) in L; [discriminate|].
    destruct (_ <? _) in L; discriminate.
Qed.

End BytesToCopyFacts.

(** *** The scan of the cell-range resolver *)

Lemma covered_snoc (ranges : list (Z * Z)) (r : Z * Z) (c : Z) :
  Resolver.covered (ranges ++ [r]) c
  <-> Resolver.covered ranges c \/ r.1 <= c <= r.2.
Proof.
  unfold Resolver.covered.
  rewrite Exists_app, Exists_cons, Exists_nil. tauto.
Qed.

Lemma ordered_snoc (ranges : list (Z * Z)) (a b : Z) :
  Resolver.ordered ranges ->
  (forall r, r ∈ ranges -> r.2 < a) ->
  a <= b ->
  Resolver.ordered (ranges ++ [(a, b)]).
Proof.
  intros Hord Hbelow Hab.
  induction ranges as [|r rest IH]; simpl.
  - repeat split. exact Hab.
  - destruct Hord as (Hr & Hnext & Hrest).
    split; [exact Hr|]. split.
    + destruct rest as [|r' rest']; simpl; [|exact Hnext].
      apply Hbelow. by left.
    + apply IH; [exact Hrest|]. intros r0 Hr0. apply Hbelow. by right.
Qed.

Section ScanFacts.

Import Resolver.

Variable dim_num : nat.
Variables range tile : list Z.
Variable start_pos : Z.
Hypothesis start_pos_nonneg : 0 <= start_pos.

Lemma qualifies_at (c : Z) (cell : list Z) :
  Coords.cell_at tile dim_num c = Some cell ->
  qualifies dim_num range tile c
  <-> Coords.cell_in_range cell range dim_num = true.
Proof.
  intros Hc. unfold qualifies. split.
  - intros (cell' & Hc' & Hin). congruence.
  - eauto.
Qed.

Lemma scan_loop_invariant (rounds : nat) :
  forall (i current_start_pos current_end_pos : Z) (ranges : list (Z * Z)),
    start_pos <= i ->
    (i + Z.of_nat rounds) * Z.of_nat dim_num <= Z.of_nat (length tile) ->
    scan_invariant dim_num range tile start_pos i current_start_pos
                   current_end_pos ranges ->
    exists current_start_pos' current_end_pos' ranges',
      scan_loop dim_num range tile i rounds current_start_pos
                current_end_pos ranges
      = Returns (current_start_pos', current_end_pos', ranges')
      /\ scan_invariant dim_num range tile start_pos (i + Z.of_nat rounds)
                        current_start_pos' current_end_pos' ranges'.
Proof.
  induction rounds as [|rounds IH]; intros i cs ce ranges Hi Hlen Hinv.
  - simpl. rewrite Z.add_0_r. eauto.
  - cbn [scan_loop].
    assert (Hcell : exists cell, Coords.cell_at tile dim_num i = Some cell).
    { unfold Coords.cell_at.
      destruct (Z.ltb_spec i 0); [lia|].
      destruct (Z.ltb_spec (Z.of_nat (length tile))
                           ((i + 1) * Z.of_nat dim_num)); [nia|].
      simpl. eauto. }
    destruct Hcell as [cell Hcell]. rewrite Hcell.
    pose proof (qualifies_at i cell Hcell) as Hq.
    replace (i + Z.of_nat (S rounds)) with (i + 1 + Z.of_nat rounds) by lia.
    destruct Hinv as (Hord & Hbelow & Hcov & Hact).
    destruct (Coords.cell_in_range cell range dim_num) eqn:Hin.
    + (* the cell qualifies *)
      destruct (Z.eqb_spec (i - 1) ce) as [Heq|Hne].
      * (* the range is expanded *)
        assert (Hce : ce <> -2) by lia.
        destruct (Hact Hce) as (Hcs & _ & Hall).
        apply IH; [lia | lia |].
        unfold scan_invariant in *.
        destruct (Z.eqb_spec ce (-2)); [contradiction|].
        destruct (Z.eqb_spec (ce + 1) (-2)); [lia|].
        split; [assumption|]. split; [assumption|]. split; [assumption|].
        intros _. split; [lia|]. split; [lia|].
        intros c Hc. destruct (Z.eq_dec c i) as [->|]; [by apply Hq|].
        apply Hall. lia.
      * (* a new range starts *)
        assert (Hce : ce = -2).
        { destruct (Z.eq_dec ce (-2)); [assumption|].
          destruct (Hact ltac:(assumption)) as (_ & ? & _). lia. }
        subst ce. apply IH; [lia | lia |].
        unfold scan_invariant in *. simpl in *.
        destruct (Z.eqb_spec i (-2)); [lia|].
        split; [assumption|]. split; [assumption|]. split; [assumption|].
        intros _. split; [lia|]. split; [lia|].
        intros c Hc. assert (c = i) as -> by lia. by apply Hq.
    + (* the cell does not qualify *)
      assert (Hnq : ~ qualifies dim_num range tile i).
      { rewrite Hq. congruence. }
      destruct (Z.eqb_spec (i - 1) ce) as [Heq|Hne].
      * (* the range is added to the list *)
        assert (Hce : ce <> -2) by lia.
        destruct (Hact Hce) as (Hcs & _ & Hall).
        apply IH; [lia | lia |].
        unfold scan_invariant in *. simpl.
        destruct (Z.eqb_spec ce (-2)); [contradiction|].
        split; [apply ordered_snoc; [assumption | assumption | lia]|].
        split; [|split; [|intros; contradiction]].
        -- intros r Hr. apply elem_of_app in Hr as [Hr|Hr].
           ++ specialize (Hbelow r Hr). lia.
           ++ apply list_elem_of_singleton in Hr. subst r. simpl. lia.
        -- intros c. rewrite covered_snoc, Hcov. simpl. split.
           ++ intros [[Hc Hqc] | Hc]; [split; [lia | assumption]|].
              split; [lia|]. by apply Hall.
           ++ intros [Hc Hqc].
              destruct (Z_lt_le_dec c cs); [left; split; [lia|assumption]|].
              right. destruct (Z.eq_dec c i) as [->|]; [contradiction|lia].
      * (* nothing happens *)
        assert (Hce : ce = -2).
        { destruct (Z.eq_dec ce (-2)); [assumption|].
          destruct (Hact ltac:(assumption)) as (_ & ? & _). lia. }
        subst ce. apply IH; [lia | lia |].
        unfold scan_invariant in *. simpl in *.
        split; [assumption|]. split; [|split; [|intros; contradiction]].
        -- intros r Hr. specialize (Hbelow r Hr). lia.
        -- intros c. rewrite Hcov. split.
           ++ intros [Hc Hqc]. split; [lia | assumption].
           ++ intros [Hc Hqc]. split; [|assumption].
              destruct (Z.eq_dec c i) as [->|]; [contradiction|lia].
Qed.

Lemma compute_cell_pos_ranges_scan_exact (uninit : Z) (end_pos : Z)
    (t : OverlappingTile) :
  (end_pos + 1) * Z.of_nat dim_num <= Z.of_nat (length tile) ->
  cell_pos_ranges_ t = [] ->
  exists t',
    compute_cell_pos_ranges_scan uninit dim_num range tile start_pos end_pos t
    = Returns t'
    /\ cell_num_ t' = cell_num_ t
    /\ ordered (cell_pos_ranges_ t')
    /\ forall c, covered (cell_pos_ranges_ t') c
                 <-> start_pos <= c <= end_pos
                     /\ qualifies dim_num range tile c.
Proof.
  intros Hlen Hnone. unfold compute_cell_pos_ranges_scan. rewrite Hnone.
  destruct (Z_lt_le_dec end_pos start_pos) as [Hempty|Hsome].
  - replace (Z.to_nat (end_pos - start_pos + 1)) with 0%nat by lia. simpl.
    eexists. split; [reflexivity|]. simpl.
    split; [reflexivity|]. split; [exact I|]. intros c.
    split; [intros Hc; by apply Exists_nil in Hc | intros [Hc _]; lia].
  - destruct (scan_loop_invariant (Z.to_nat (end_pos - start_pos + 1))
                start_pos uninit (-2) []) as (cs & ce & ranges & Hrun & Hinv).
    + lia.
    + replace (start_pos + Z.of_nat (Z.to_nat (end_pos - start_pos + 1)))
        with (end_pos + 1) by lia. exact Hlen.
    + unfold scan_invariant. simpl.
      split; [exact I|]. split; [intros r Hr; by apply elem_of_nil in Hr|].
      split; [|intros; contradiction]. intros c.
      split; [intros Hc; by apply Exists_nil in Hc | intros [Hc _]; lia].
    + rewrite Hrun. simpl. eexists. split; [reflexivity|]. simpl.
      split; [reflexivity|].
      replace (start_pos + Z.of_nat (Z.to_nat (end_pos - start_pos + 1)))
        with (end_pos + 1) in Hinv by lia.
      destruct Hinv as (Hord & Hbelow & Hcov & Hact).
      destruct (Z.eqb_spec ce (-2)) as [->|Hce].
      * split; [exact Hord|]. intros c. rewrite Hcov. simpl.
        split; intros [Hc Hq]; (split; [lia | exact Hq]).
      * destruct (Hact Hce) as (Hcs & Hlast & Hall).
        split; [apply ordered_snoc; [assumption | assumption | lia]|].
        intros c. rewrite covered_snoc, Hcov. simpl. split.
        -- intros [[Hc Hq] | Hc]; [split; [lia | assumption]|].
           split; [lia|]. by apply Hall.
        -- intros [Hc Hq].
           destruct (Z_lt_le_dec c cs); [left; split; [lia|assumption]|].
           right. lia.
Qed.

End ScanFacts.

(** X4.  In the Hilbert cell order, the resolver is exact for a tile that
    holds [capacity] cells (every tile but possibly the last): the intervals
    are ordered and disjoint, and cover the positions of the tile whose cells
    lie in the range. *)
Lemma hilbert_scan_of_a_full_tile (uninit : Z) (capacity : Z) (dim_num : nat)
    (range tile : list Z) (t : OverlappingTile) :
  cell_num_ t = capacity ->
  capacity * Z.of_nat dim_num <= Z.of_nat (length tile) ->
  cell_pos_ranges_ t = [] ->
  exists t',
    Resolver.compute_cell_pos_ranges_non_contig uninit
      Coords.TILEDB_AS_CO_HILBERT capacity dim_num range tile t
    = Returns t'
    /\ Resolver.ordered (cell_pos_ranges_ t')
    /\ forall c, Resolver.covered (cell_pos_ranges_ t') c
                 <-> 0 <= c < cell_num_ t
                     /\ Resolver.qualifies dim_num range tile c.
Proof.
  intros Hnum Hlen Hnone. unfold Resolver.compute_cell_pos_ranges_non_contig.
  destruct (compute_cell_pos_ranges_scan_exact dim_num range tile 0
              ltac:(lia) uninit (capacity - 1) t) as (t' & Hrun & _ & Hord & Hcov).
  - by replace (capacity - 1 + 1) with capacity by lia.
  - exact Hnone.
  - exists t'. split; [exact Hrun|]. split; [exact Hord|].
    intros c. rewrite Hcov, Hnum. split; intros [Hc Hq]; (split; [lia|exact Hq]).
Qed.

(** *** The reaper, when attribute 0 is the first requested attribute *)

Lemma foldr_min_min (l : list Z) (p m : Z) :
  foldr Z.min (Z.min p m) l = Z.min p (foldr Z.min m l).
Proof. induction l as [|x l IH]; simpl; [reflexivity|]. rewrite IH. lia. Qed.

Lemma minimum_le (l : list Z) (d : Z) :
  Reaper.minimum l d <= d /\ Forall (fun p => Reaper.minimum l d <= p) l.
Proof.
  unfold Reaper.minimum. induction l as [|x l [IH1 IH2]]; simpl.
  - split; [lia | constructor].
  - split; [lia|]. constructor; [lia|].
    eapply Forall_impl; [exact IH2|]. simpl. intros. lia.
Qed.

Lemma min_max_shift (l : list Z) (d m : Z) :
  Reaper.minimum ((fun p => p - m) <$> l) (d - m) = Reaper.minimum l d - m
  /\ Reaper.maximum ((fun p => p - m) <$> l) (d - m) = Reaper.maximum l d - m.
Proof.
  unfold Reaper.minimum, Reaper.maximum.
  induction l as [|x l [IH1 IH2]]; [split; reflexivity|].
  rewrite fmap_cons. cbn [foldr]. rewrite IH1, IH2. split; lia.
Qed.

Lemma maximum_ge (l : list Z) (d : Z) :
  d <= Reaper.maximum l d /\ Forall (fun p => p <= Reaper.maximum l d) l.
Proof.
  unfold Reaper.maximum. induction l as [|x l [IH1 IH2]]; simpl.
  - split; [lia | constructor].
  - split; [lia|]. constructor; [lia|].
    eapply Forall_impl; [exact IH2|]. simpl. intros. lia.
Qed.

(** The loop finds the minimum of the positions of the attributes it
    visits and of the value it starts from. *)
Lemma min_pos_loop_minimum (pos : list Z) (ids : list nat) :
  Forall (fun id => (id < length pos)%nat) ids ->
  forall min_pos,
    Reaper.min_pos_loop pos ids min_pos
    = Returns (Reaper.minimum ((fun id => pos !!! id) <$> ids) min_pos).
Proof.
  unfold Reaper.minimum.
  induction 1 as [|id ids Hid Hids IH]; intros min_pos; simpl;
    [reflexivity|].
  rewrite vec_at_in_bounds by exact Hid. simpl. rewrite IH.
  replace (if pos !!! id <? min_pos then pos !!! id else min_pos)
    with (Z.min (pos !!! id) min_pos)
    by (destruct (Z.ltb_spec (pos !!! id) min_pos); lia).
  by rewrite foldr_min_min.
Qed.

Lemma requested_positions_in_bounds (ids : list nat) (s : ReadState) :
  Forall (fun id => (id < length (overlapping_tiles_pos_ s))%nat) ids ->
  Reaper.requested_positions ids s
  = (fun id => overlapping_tiles_pos_ s !!! id) <$> ids.
Proof.
  unfold Reaper.requested_positions.
  induction 1 as [|id ids Hid Hids IH]; [reflexivity|].
  rewrite fmap_cons, <- IH. cbn [omap list_omap].
  by rewrite (list_lookup_lookup_total_lt _ _ Hid).
Qed.

Section ReaperFacts.

Import Reaper.

Variable attribute_num : nat.
Variable rest : list nat.
Variable s : ReadState.

Abbreviation ids := (0%nat :: rest).
Abbreviation pos := (overlapping_tiles_pos_ s).

(** There is a cursor for every attribute and for the coordinates; the
    requested attributes are attributes of the array; attribute 0 is the
    first of them. *)
Hypothesis cursors : length pos = S attribute_num.
Hypothesis requested : Forall (fun id => (id < length pos)%nat) rest.

Abbreviation min_pos := (minimum ((fun id => pos !!! id) <$> rest) (pos !!! 0%nat)).

(** No requested cursor is negative or beyond the end of the list. *)
Hypothesis cursors_in_list :
  0 <= min_pos <= Z.of_nat (length (overlapping_tiles_ s)).

Lemma clean_up_from_attribute_0 :
  clean_up_processed_overlapping_tiles attribute_num ids s
  = Returns
      (if min_pos =? 0 then s
       else with_overlapping_tiles_pos
              ((fun p => if p =? 0 then p else p - min_pos) <$> pos)
              (with_overlapping_tiles
                 (drop (Z.to_nat min_pos) (overlapping_tiles_ s))
                 (with_freed
                    (freed_ s
                     ++ concat (blocks <$> take (Z.to_nat min_pos)
                                  (overlapping_tiles_ s)))
                    s))).
Proof.
  unfold clean_up_processed_overlapping_tiles.
  rewrite vec_at_in_bounds by lia. simpl.
  rewrite drop_0, min_pos_loop_minimum by exact requested. simpl.
  destruct (Z.eqb_spec min_pos 0) as [E|E]; [reflexivity|].
  destruct (Z.ltb_spec min_pos 0); [lia|].
  destruct (Z.ltb_spec (Z.of_nat (length (overlapping_tiles_ s))) min_pos);
    [lia|].
  destruct (Nat.ltb_spec (length pos) (S attribute_num)); [lia|]. simpl.
  unfold shift_positions.
  rewrite <- cursors, firstn_all, drop_all, app_nil_r. reflexivity.
Qed.

(** After the clean-up the list is shorter by [min_pos] entries, and so is
    every requested cursor. *)
Lemma clean_up_shifts :
  exists s',
    clean_up_processed_overlapping_tiles attribute_num ids s = Returns s'
    /\ Z.of_nat (length (overlapping_tiles_ s'))
       = Z.of_nat (length (overlapping_tiles_ s)) - min_pos
    /\ requested_positions ids s'
       = (fun p => p - min_pos) <$> requested_positions ids s.
Proof.
  rewrite clean_up_from_attribute_0. eexists. split; [reflexivity|].
  assert (Hall : Forall (fun id => (id < length pos)%nat) ids)
    by (constructor; [lia | exact requested]).
  destruct (Z.eqb_spec min_pos 0) as [E|E].
  - rewrite E. split; [lia|].
    transitivity (id <$> requested_positions ids s);
      [by rewrite list_fmap_id|].
    apply list_fmap_ext. intros. simpl. lia.
  - cbn [overlapping_tiles_ with_overlapping_tiles_pos
           with_overlapping_tiles]. rewrite length_drop. split; [lia|].
    rewrite !requested_positions_in_bounds;
      cbn [overlapping_tiles_pos_ with_overlapping_tiles_pos];
      [|exact Hall | by rewrite length_fmap].
    pose proof (minimum_le ((fun id => pos !!! id) <$> rest) (pos !!! 0%nat))
      as [Hle0 Hle].
    rewrite Forall_fmap in Hle.
    rewrite <- list_fmap_compose. apply Forall_fmap_ext_1.
    assert (Hmin : Forall (fun id => min_pos <= pos !!! id) ids)
      by (constructor; [exact Hle0 | exact Hle]).
    rewrite Forall_forall in Hall, Hmin. apply Forall_forall.
    intros id Hin. simpl. specialize (Hall id Hin). specialize (Hmin id Hin).
    rewrite (list_lookup_total_fmap _ pos id Hall).
    destruct (Z.eqb_spec (pos !!! id) 0); lia.
Qed.

(** X5.  Reaper soundness when attribute 0 is requested first: if, when
    the clean-up starts (the new entry has been pushed), some requested
    attribute stands at the entry before the new one or beyond, then after
    the clean-up the size of the list is at most 1 plus the drift of the
    requested attributes. *)
Lemma clean_up_bounds_the_list :
  Exists (fun p => Z.of_nat (length (overlapping_tiles_ s)) - 1 <= p)
         (requested_positions ids s) ->
  exists s',
    clean_up_processed_overlapping_tiles attribute_num ids s = Returns s'
    /\ Z.of_nat (length (overlapping_tiles_ s')) <= 1 + drift ids s'.
Proof.
  intros Hmax.
  destruct clean_up_shifts as (s' & Hrun & Hlen & Hpos).
  exists s'. split; [exact Hrun|]. rewrite Hlen.
  unfold drift. rewrite Hpos.
  assert (Hall : Forall (fun id => (id < length pos)%nat) ids)
    by (constructor; [lia | exact requested]).
  rewrite requested_positions_in_bounds in Hmax |- * by exact Hall.
  rewrite !fmap_cons in Hmax |- *.
  rewrite (fmap_cons (fun p => p - min_pos)). cbv beta iota.
  destruct (min_max_shift ((fun id => pos !!! id) <$> rest) (pos !!! 0%nat)
              min_pos) as [-> ->].
  pose proof (maximum_ge ((fun id => pos !!! id) <$> rest) (pos !!! 0%nat))
    as [Hge0 Hge].
  fold min_pos.
  assert (Z.of_nat (length (overlapping_tiles_ s)) - 1
          <= maximum ((fun id => pos !!! id) <$> rest) (pos !!! 0%nat)).
  { apply Exists_cons in Hmax as [Hp|Hp]; [lia|].
    rewrite Exists_exists in Hp. destruct Hp as (p & Hin & Hp).
    rewrite Forall_forall in Hge. specialize (Hge p Hin). lia. }
  unfold minimum in *. lia.
Qed.

End ReaperFacts.

(** *** The slab copy into an empty buffer *)

Lemma bytes_written_app (ms ms' : list memcpy_call) :
  SlabCopy.bytes_written (ms ++ ms')
  = SlabCopy.bytes_written ms + SlabCopy.bytes_written ms'.
Proof.
  unfold SlabCopy.bytes_written.
  induction ms as [|m ms IH]; simpl; [reflexivity|]. rewrite IH. lia.
Qed.

Lemma bytes_written_reverse (ms : list memcpy_call) :
  SlabCopy.bytes_written (reverse ms) = SlabCopy.bytes_written ms.
Proof.
  induction ms as [|m ms IH]; [reflexivity|].
  rewrite reverse_cons, bytes_written_app, IH.
  unfold SlabCopy.bytes_written. simpl. lia.
Qed.

Section SlabCopyFacts.

Import SlabCopy.

Variables buffer_size range_end_offset range_slab_size tile_slab_size : Z.
Hypothesis buffer_is_small : 0 <= buffer_size < two64.
Hypothesis slab_is_not_empty : 0 < range_slab_size.

Lemma copy_slabs_stays_inside (fuel : nat) :
  forall c : cursor,
    stays_inside buffer_size c ->
    buffer_size - buffer_offset c <= Z.of_nat fuel ->
    exists c',
      copy_slabs fuel buffer_size range_end_offset range_slab_size
                 tile_slab_size c = Returns c'
      /\ stays_inside buffer_size c'
      /\ (tile_offset c' = size_t (range_end_offset + 1)
          \/ buffer_offset c' = buffer_size).
Proof.
  induction fuel as [|fuel IH]; intros c (Hoff & Hin & Hsum) Hfuel;
    cbn [copy_slabs].
  - assert (buffer_offset c = buffer_size) as E by lia.
    rewrite E, Z.eqb_refl. simpl.
    exists c. split; [reflexivity|]. split; [exact (conj Hoff (conj Hin Hsum))|]. by right.
  - destruct (Z.eqb_spec (buffer_offset c) buffer_size) as [E|E]; simpl.
    { exists c. split; [reflexivity|]. split; [exact (conj Hoff (conj Hin Hsum))|]. by right. }
    destruct (Z.eqb_spec (tile_offset c) (size_t (range_end_offset + 1)))
      as [E'|E']; simpl.
    { exists c. split; [reflexivity|]. split; [exact (conj Hoff (conj Hin Hsum))|]. by left. }
    assert (Hfree : size_t (buffer_size - buffer_offset c)
                    = buffer_size - buffer_offset c)
      by (apply size_t_small; lia).
    rewrite Hfree.
    set (bytes_to_copy := Z.min range_slab_size
                                (buffer_size - buffer_offset c)).
    assert (Hn : 0 < bytes_to_copy <= buffer_size - buffer_offset c)
      by (unfold bytes_to_copy; lia).
    assert (Hnew : size_t (buffer_offset c + bytes_to_copy)
                   = buffer_offset c + bytes_to_copy)
      by (apply size_t_small; lia).
    rewrite Hnew. apply IH.
    + unfold stays_inside. cbn [buffer_offset copies].
      split; [lia|]. split.
      * constructor; [|exact Hin]. unfold inside. simpl. lia.
      * unfold bytes_written in *. simpl. lia.
    + cbn [buffer_offset]. lia.
Qed.

End SlabCopyFacts.

(** X2.  When the buffer is empty ([buffer_offset] is 0) the slab copy
    stays inside it: every [memcpy] lies inside the buffer, and the bytes
    written, which are the new [buffer_offset], are at most [buffer_size]. *)
Lemma slab_copy_into_an_empty_buffer (NDEBUG : bool) (g : SlabCopy.geometry)
    (fuel : nat) (attribute_id : nat) (buffer_size : Z) (s : ReadState) :
  0 < buffer_size < two64 ->
  buffer_size <= Z.of_nat fuel ->
  SlabCopy.var_size g = false ->
  0 < size_t (SlabCopy.cell_num_in_range_slab g * SlabCopy.cell_size g) ->
  0 < size_t (SlabCopy.cell_num_in_tile_slab g * SlabCopy.cell_size g) ->
  (attribute_id < length (overflow_ s))%nat ->
  (attribute_id < length (tiles_offsets_ s))%nat ->
  (attribute_id < length (tiles_sizes_ s))%nat ->
  (attribute_id < length (overlapping_tiles_pos_ s))%nat ->
  exists s' buffer_offset ms,
    SlabCopy.copy_from_tile_buffer_partial_non_contig_dense NDEBUG g fuel
      attribute_id buffer_size 0 s
    = Returns (s', buffer_offset, ms)
    /\ Forall (SlabCopy.inside buffer_size) ms
    /\ SlabCopy.bytes_written ms = buffer_offset
    /\ buffer_offset <= buffer_size - 0.
Proof.
  intros Hsize Hfuel Hvar Hslab Htslab Ho Hto Hts Hp.
  unfold SlabCopy.copy_from_tile_buffer_partial_non_contig_dense.
  rewrite Z.sub_0_r.
  assert (Hfree : size_t buffer_size = buffer_size)
    by (apply size_t_small; lia).
  rewrite Hfree. destruct (Z.eqb_spec buffer_size 0); [lia|].
  unfold assert_. rewrite Hvar, orb_true_r. cbn [obind negb].
  rewrite (vec_at_in_bounds _ _ Hto). cbn [obind].
  destruct (Z.eqb_spec
              (size_t (SlabCopy.cell_num_in_tile_slab g * SlabCopy.cell_size g))
              0); [lia|].
  rewrite Z.add_0_l.
  match goal with
  | |- context [Z.min ?a buffer_size] =>
      assert (Ha : 0 <= a) by (apply Z.mod_pos_bound; reflexivity);
      rewrite (size_t_small (Z.min a buffer_size)) by lia;
      set (first := Z.min a buffer_size) in *;
      assert (Hfirst : 0 <= first <= buffer_size) by (unfold first; lia);
      clearbody first
  end.
  match goal with
  | |- context [SlabCopy.copy_slabs _ _ ?e ?r ?t ?c] =>
      destruct (copy_slabs_stays_inside buffer_size e r t ltac:(lia) Hslab
                  fuel c) as (c' & Hrun & (Hoff & Hin & Hsum) & Hexit)
  end.
  - unfold SlabCopy.stays_inside. cbn [SlabCopy.buffer_offset SlabCopy.copies].
    split; [lia|]. split.
    + repeat constructor; unfold SlabCopy.inside; simpl; lia.
    + unfold SlabCopy.bytes_written. simpl. lia.
  - cbn [SlabCopy.buffer_offset]. lia.
  - rewrite Hrun. cbn [obind].
    assert (Hlog : Forall (SlabCopy.inside buffer_size)
                          (reverse (SlabCopy.copies c'))).
    { apply Forall_reverse.
      eapply Forall_impl; [exact Hin|]. by intros m [Hm _]. }
    match goal with
    | |- context [SlabCopy.tile_offset c' =? ?x] =>
        destruct (Z.eqb_spec (SlabCopy.tile_offset c') x) as [Edone|Emore]
    end.
    + rewrite (vec_at_in_bounds _ _ Hts). cbn [obind].
      unfold set_tiles_offset, next_overlapping_tile, vec_set.
      apply Nat.ltb_lt in Hto. rewrite Hto. cbn [obind].
      cbn [overlapping_tiles_pos_ with_tiles_offsets].
      rewrite (vec_at_in_bounds _ _ Hp). cbn [obind].
      apply Nat.ltb_lt in Hp. rewrite Hp. cbn [obind].
      do 3 eexists. split; [reflexivity|].
      split; [exact Hlog|]. rewrite bytes_written_reverse. lia.
    + destruct Hexit as [E|E]; [contradiction|].
      unfold set_tiles_offset, set_overflow, vec_set.
      apply Nat.ltb_lt in Hto. rewrite Hto. cbn [obind].
      rewrite E, Z.eqb_refl, orb_true_r. cbn [obind].
      cbn [overflow_ with_tiles_offsets].
      apply Nat.ltb_lt in Ho. rewrite Ho. cbn [obind].
      do 3 eexists. split; [reflexivity|].
      split; [exact Hlog|]. rewrite bytes_written_reverse. lia.
Qed.

(** *** The resolver in row-major and column-major order *)

(** The loop depends on the comparison between its bounds only. *)
Lemma bsearch_loop_ext (look look' : Z -> probe) (min0 max0 : Z)
    (fuel : nat) :
  (forall k, min0 <= k <= max0 -> look k = look' k) ->
  forall min max,
    min0 <= min -> max <= max0 ->
    bsearch_loop fuel look min max = bsearch_loop fuel look' min max.
Proof.
  intros Hext. induction fuel as [|fuel IH]; intros min max Hmin Hmax;
    [reflexivity|]. simpl.
  destruct (Z.ltb_spec max min); [reflexivity|].
  assert (Hq : 0 <= Z.quot (max - min) 2 <= max - min).
  { rewrite Z.quot_div_nonneg by lia. split.
    - apply Z.div_pos; lia.
    - apply Z.div_le_upper_bound; lia. }
  rewrite <- Hext by lia.
  destruct (look _); try reflexivity; apply IH; lia.
Qed.

Lemma bsearch_ext (look look' : Z -> probe) (min0 max0 : Z) :
  (forall k, min0 <= k <= max0 -> look k = look' k) ->
  bsearch look min0 max0 = bsearch look' min0 max0.
Proof.
  intros Hext. unfold bsearch. by apply (bsearch_loop_ext _ _ min0 max0); try lia.
Qed.

(** A tuple that is below another in every dimension does not succeed it,
    in row-major and in column-major order. *)
Lemma lex_cmp_pointwise (a : list Z) :
  forall b, Forall2 Z.le a b -> Coords.lex_cmp a b <= 0.
Proof.
  induction a as [|x a IH]; intros b Hab; inversion Hab; subst; simpl;
    [lia|].
  destruct (Z.ltb_spec x y); [lia|]. destruct (Z.ltb_spec y x); [lia|].
  by apply IH.
Qed.

Section ResolverFacts.

Import Coords Resolver.

Variable column_major : bool.
Variable dim_num : nat.
Variable tile : list Z.
Variable cell_num : Z.

Abbreviation cmp_order := (TileSearch.cmp_of column_major).
Abbreviation bounds := (cells_as_bounds dim_num tile cell_num).
Abbreviation cell_ i := (take dim_num (drop (Z.to_nat i * dim_num) tile)).

(** The buffer holds the [cell_num] cells of the tile, in the cell order. *)
Hypothesis tile_size : cell_num * Z.of_nat dim_num <= Z.of_nat (length tile).
Hypothesis sorted : cells_in_cell_order cmp_order dim_num tile cell_num = true.

Lemma cell_at_cell (c : Z) :
  0 <= c < cell_num -> cell_at tile dim_num c = Some (cell_ c).
Proof.
  intros Hc. unfold cell_at.
  destruct (Z.ltb_spec c 0); [lia|].
  destruct (Z.ltb_spec (Z.of_nat (length tile)) ((c + 1) * Z.of_nat dim_num));
    [nia | reflexivity].
Qed.

Lemma cell_length (c : Z) :
  0 <= c < cell_num -> length (cell_ c) = dim_num.
Proof.
  intros Hc. rewrite length_take, length_drop. nia.
Qed.

Lemma bounds_length : Z.of_nat (length bounds) = Z.max 0 cell_num.
Proof. unfold cells_as_bounds. rewrite length_fmap, length_seq. lia. Qed.

Lemma bounds_at (c : Z) :
  0 <= c < cell_num -> at_ bounds c = Some (cell_ c ++ cell_ c).
Proof.
  intros Hc. unfold at_, cells_as_bounds.
  destruct (Z.ltb_spec c 0); [lia|].
  rewrite list_lookup_fmap, lookup_seq_lt by lia. reflexivity.
Qed.

Lemma first_coord_cell (c : Z) :
  0 <= c < cell_num -> TileSearch.first_coord dim_num bounds c = cell_ c.
Proof.
  intros Hc. unfold TileSearch.first_coord. rewrite bounds_at by exact Hc.
  simpl. by rewrite take_app_length' by (symmetry; by apply cell_length).
Qed.

Lemma last_coord_cell (c : Z) :
  0 <= c < cell_num -> TileSearch.last_coord dim_num bounds c = cell_ c.
Proof.
  intros Hc. unfold TileSearch.last_coord. rewrite bounds_at by exact Hc.
  simpl. rewrite drop_app_length' by (symmetry; by apply cell_length).
  by rewrite take_ge by (by rewrite cell_length).
Qed.

(** The comparison with a cell is the comparison with a tile of one cell. *)
Lemma look_as_bounds (coords : list Z) (c : Z) :
  0 <= c <= cell_num - 1 ->
  look cmp_order dim_num tile coords c
  = TileSearch.look cmp_order dim_num bounds coords c.
Proof.
  intros Hc. pose proof (cmp_of_three_way column_major dim_num) as Hord.
  unfold look, TileSearch.look.
  rewrite cell_at_cell, bounds_at by lia.
  rewrite drop_app_length' by (symmetry; apply cell_length; lia).
  rewrite <- (cmp_take_r _ _ Hord coords (_ ++ _)).
  rewrite take_app_length' by (symmetry; apply cell_length; lia).
  destruct (_ <? 0); [reflexivity|]. reflexivity.
Qed.

(** A cell inside a range lies between the corners of the range, in the
    cell order. *)
Lemma corners_around (cell R : list Z) :
  length cell = dim_num ->
  cell_in_range cell R dim_num = true ->
  cmp_order (range_min_coords R dim_num) cell dim_num <= 0
  /\ cmp_order cell (range_max_coords R dim_num) dim_num <= 0.
Proof.
  intros Hlen Hin. unfold cell_in_range in Hin.
  rewrite forallb_forall in Hin.
  assert (Hlo : Forall2 Z.le (range_min_coords R dim_num) cell
                /\ Forall2 Z.le cell (range_max_coords R dim_num)).
  { split; apply Forall2_same_length_lookup_2;
      unfold range_min_coords, range_max_coords;
      try (by rewrite length_fmap, length_seq);
      intros i x y Hx Hy;
      try (rewrite list_lookup_fmap in Hx);
      try (rewrite list_lookup_fmap in Hy);
      assert (Hi : (i < dim_num)%nat)
        by (rewrite <- Hlen; eapply lookup_lt_Some; eassumption);
      specialize (Hin i); rewrite in_seq in Hin;
      specialize (Hin ltac:(lia)); apply andb_prop in Hin as [Hl Hh];
      rewrite lookup_seq_lt in * by exact Hi; simpl in *;
      try (inversion Hx; subst); try (inversion Hy; subst);
      erewrite (list_lookup_total_correct cell) in Hl by eassumption;
      erewrite (list_lookup_total_correct cell) in Hh by eassumption; lia. }
  destruct Hlo as [Hlo Hhi].
  assert (Hmin : length (range_min_coords R dim_num) = dim_num)
    by (unfold range_min_coords; by rewrite length_fmap, length_seq).
  assert (Hmax : length (range_max_coords R dim_num) = dim_num)
    by (unfold range_max_coords; by rewrite length_fmap, length_seq).
  destruct column_major; unfold TileSearch.cmp_of, cmp_col_order,
    cmp_row_order; rewrite !take_ge by lia; split; apply lex_cmp_pointwise;
    try assumption; by apply Forall2_reverse.
Qed.

Variable range overlap_range : list Z.
Variable t : OverlappingTile.

(** The entry is that of the tile; no ranges are attached to it yet.  The
    overlap range of the entry holds the cells of the tile that lie in the
    range of the query. *)
Hypothesis entry :
  overlap_range_ t = Some overlap_range /\ cell_num_ t = cell_num
  /\ cell_pos_ranges_ t = [].
Hypothesis cell_num_nonneg : 0 <= cell_num.
Hypothesis in_overlap :
  forall c, 0 <= c < cell_num ->
            cell_in_range (cell_ c) range dim_num = true ->
            cell_in_range (cell_ c) overlap_range dim_num = true.

Lemma contig_bounds :
  exists start_cell_pos end_cell_pos,
    compute_cell_pos_ranges_contig_in_order cmp_order dim_num tile t
    = Returns
        (if start_cell_pos <=? end_cell_pos
         then mkOverlappingTile (cell_num_ t)
                (cell_pos_ranges_ t ++ [(start_cell_pos, end_cell_pos)])
                (coords_ t) (coords_tile_fetched_ t) (overlap_ t)
                (overlap_range_ t) (pos_ t)
         else t)
    /\ TileSearch.first_tile_from cmp_order dim_num bounds cell_num
         (range_min_coords overlap_range dim_num) start_cell_pos
    /\ TileSearch.last_tile_upto cmp_order dim_num bounds cell_num
         (range_max_coords overlap_range dim_num) end_cell_pos.
Proof.
  destruct entry as (Hrange & Hnum & _).
  pose proof (cmp_of_three_way column_major dim_num) as Hord.
  assert (Hn : Z.of_nat (length bounds) = cell_num)
    by (rewrite bounds_length; lia).
  pose proof (start_tile_found _ _ Hord _ sorted
                (range_min_coords overlap_range dim_num)) as Hfirst.
  pose proof (end_tile_found _ _ Hord _ sorted
                (range_max_coords overlap_range dim_num)) as Hlast.
  rewrite Hn in Hfirst, Hlast.
  unfold compute_cell_pos_ranges_contig_in_order. rewrite Hrange, Hnum.
  rewrite !(bsearch_ext (look cmp_order dim_num tile _)
                        (TileSearch.look cmp_order dim_num bounds _))
    by (intros; by apply look_as_bounds).
  destruct (bsearch _ 0 _) as [a b | a b med | |] in Hfirst |- *;
    try contradiction; simpl;
    destruct (bsearch _ 0 _) as [a' b' | a' b' med' | |] in Hlast |- *;
    try contradiction; simpl;
    refine (ex_intro _ _ (ex_intro _ _ (conj _ (conj Hfirst Hlast))));
    by destruct (_ <=? _).
Qed.

(** The qualifying cells lie between the two positions. *)
Lemma qualifying_between (start_cell_pos end_cell_pos c : Z) :
  TileSearch.first_tile_from cmp_order dim_num bounds cell_num
    (range_min_coords overlap_range dim_num) start_cell_pos ->
  TileSearch.last_tile_upto cmp_order dim_num bounds cell_num
    (range_max_coords overlap_range dim_num) end_cell_pos ->
  0 <= c < cell_num ->
  qualifies dim_num range tile c ->
  start_cell_pos <= c <= end_cell_pos.
Proof.
  intros (_ & Hbefore & _) (_ & Hafter & _) Hc (cell & Hcell & Hin).
  pose proof (cmp_of_three_way column_major dim_num) as Hord.
  rewrite cell_at_cell in Hcell by exact Hc. inversion Hcell; subst cell.
  destruct (corners_around (cell_ c) overlap_range (cell_length c Hc)
              (in_overlap c Hc Hin)) as [Hlo Hhi].
  split.
  - destruct (Z_lt_le_dec c start_cell_pos) as [Hlt|]; [|assumption].
    specialize (Hbefore c ltac:(lia)).
    rewrite last_coord_cell in Hbefore by exact Hc.
    rewrite (cmp_opp _ _ Hord) in Hbefore. lia.
  - destruct (Z_lt_le_dec end_cell_pos c) as [Hlt|]; [|assumption].
    specialize (Hafter c ltac:(lia)).
    rewrite first_coord_cell in Hafter by exact Hc.
    rewrite (cmp_opp _ _ Hord) in Hafter. lia.
Qed.

(** X3.  In row-major and column-major order the resolver is exact, for the
    last tile as for the others: the intervals are ordered and disjoint and
    cover the positions of the tile whose cells lie in the range of the
    query. *)
Lemma row_col_resolver_exact (uninit capacity : Z) :
  exists t',
    compute_cell_pos_ranges_non_contig uninit
      (if column_major then TILEDB_AS_CO_COLUMN_MAJOR
       else TILEDB_AS_CO_ROW_MAJOR)
      capacity dim_num range tile t
    = Returns t'
    /\ ordered (cell_pos_ranges_ t')
    /\ forall c, covered (cell_pos_ranges_ t') c
                 <-> 0 <= c < cell_num /\ qualifies dim_num range tile c.
Proof.
  destruct contig_bounds as (a & b & Hrun & Hfirst & Hlast).
  pose proof (qualifying_between a b) as Hbetween.
  destruct entry as (Hrange & Hnum & Hnone).
  assert (Hcontig :
           compute_cell_pos_ranges_contig
             (if column_major then TILEDB_AS_CO_COLUMN_MAJOR
              else TILEDB_AS_CO_ROW_MAJOR) dim_num tile t
           = compute_cell_pos_ranges_contig_in_order cmp_order dim_num tile t)
    by (by destruct column_major).
  assert (Hnon :
           compute_cell_pos_ranges_non_contig uninit
             (if column_major then TILEDB_AS_CO_COLUMN_MAJOR
              else TILEDB_AS_CO_ROW_MAJOR) capacity dim_num range tile t
           = obind (compute_cell_pos_ranges_contig_in_order cmp_order dim_num
                      tile t)
               (fun t1 =>
                  match cell_pos_ranges_ t1 with
                  | [] => Returns t1
                  | (start_pos, end_pos) :: _ =>
                      compute_cell_pos_ranges_scan uninit dim_num range tile
                        start_pos end_pos
                        (mkOverlappingTile (cell_num_ t1) [] (coords_ t1)
                           (coords_tile_fetched_ t1) (overlap_ t1)
                           (overlap_range_ t1) (pos_ t1))
                  end))
    by (unfold compute_cell_pos_ranges_non_contig; rewrite <- Hcontig;
        by destruct column_major).
  rewrite Hnon, Hrun. cbn [obind].
  destruct Hfirst as (Ha & Hfirst). destruct Hlast as (Hb & Hlast).
  destruct (Z.leb_spec a b) as [Hab|Hab].
  - rewrite Hnone. cbn [cell_pos_ranges_ app].
    destruct (compute_cell_pos_ranges_scan_exact dim_num range tile a
                ltac:(lia) uninit b
                (mkOverlappingTile (cell_num_ t) [] (coords_ t)
                   (coords_tile_fetched_ t) (overlap_ t) (overlap_range_ t)
                   (pos_ t)))
      as (t' & Hscan & _ & Hord & Hcov); [nia | reflexivity |].
    exists t'. split; [exact Hscan|]. split; [exact Hord|].
    intros c. rewrite Hcov. split.
    + intros [Hc Hq]. split; [lia | exact Hq].
    + intros [Hc Hq]. split; [|exact Hq].
      apply Hbetween; try assumption; by split.
  - rewrite Hnone. exists t. split; [reflexivity|]. rewrite Hnone.
    split; [exact I|]. intros c. split.
    + intros Hc. by apply Exists_nil in Hc.
    + intros [Hc Hq].
      assert (a <= c <= b) by (apply Hbetween; try assumption; by split).
      lia.
Qed.

End ResolverFacts.

(** ** The search of the overlap iterator ends *)

(** The loop of [get_next_overlapping_tile_sparse] visits each tile
    position up to [tile_search_range_1] once at most: the fuel that
    [next_overlapping_tile_entry] gives it is enough. *)
Lemma find_next_never_starves (fuel : nat)
    (compute_mbr_range_overlap : list Z -> list Z -> list Z * Z)
    (range : list Z) (mbrs : list (list Z)) (tile_search_range_1 tile_pos : Z)
    (t : OverlappingTile) :
  (Z.to_nat (tile_search_range_1 - tile_pos + 1) <= fuel)%nat ->
  Iterator.find_next fuel compute_mbr_range_overlap range mbrs
                     tile_search_range_1 tile_pos t <> Starves.
Proof.
  revert tile_pos t.
  induction fuel as [|fuel IH]; intros tile_pos t Hfuel; cbn [Iterator.find_next].
  - destruct (bool_decide (overlap_ t = NONE)); cbn [andb]; [|discriminate].
    destruct (Z.leb_spec tile_pos tile_search_range_1); [lia|discriminate].
  - destruct (bool_decide (overlap_ t = NONE)); cbn [andb]; [|discriminate].
    destruct (Z.leb_spec tile_pos tile_search_range_1); [|discriminate].
    destruct (at_ mbrs tile_pos); [|discriminate].
    apply IH. lia.
Qed.

Lemma next_overlapping_tile_entry_never_starves
    (compute_mbr_range_overlap : list Z -> list Z -> list Z * Z)
    (uninit : OverlappingTile) (block : list Z)
    (capacity last_tile_cell_num : Z) (range : list Z) (mbrs : list (list Z))
    (tile_search_range_ : Z * Z) (s : ReadState) :
  Iterator.next_overlapping_tile_entry compute_mbr_range_overlap uninit block
    capacity last_tile_cell_num range mbrs tile_search_range_ s <> Starves.
Proof.
  unfold Iterator.next_overlapping_tile_entry.
  set (tile_pos := match last (overlapping_tiles_ s) with
                   | Some back => pos_ back + 1
                   | None => tile_search_range_.1
                   end).
  destruct (_ && _).
  - pose proof (find_next_never_starves
                  (Z.to_nat (tile_search_range_.2 - tile_pos + 1))
                  compute_mbr_range_overlap range mbrs tile_search_range_.2
                  tile_pos (Iterator.new_overlapping_tile uninit block)
                  (le_n _)) as Hends.
    destruct (Iterator.find_next _ _ _ _ _ _ _); cbn [obind];
      congruence.
  - cbn [obind]. discriminate.
Qed.

(** ** Further properties of the helper that fits a region *)

(** X1.  When no cell of the region starts exactly at the end of the free
    space of the variable buffer, [compute_bytes_to_copy] returns the largest
    fit: the offsets and the variable bytes of the cells [start .. m], where
    [m] is the last cell such that the variable bytes of [start .. m] do not
    exceed the free space ([m = end] when the whole region fits); the variable
    bytes returned never exceed the free space. *)
Theorem compute_bytes_to_copy_largest_fit (tile : list Z)
    (cell_num tiles_var_size start_cell_pos end_cell_pos : Z)
    (buffer_free_space buffer_var_free_space : Z) :
  Z.of_nat (length tile) = cell_num ->
  0 <= start_cell_pos /\ start_cell_pos <= end_cell_pos < cell_num ->
  (forall i j, start_cell_pos <= i <= j -> j <= end_cell_pos + 1 ->
               BytesToCopy.off tile cell_num tiles_var_size i
               <= BytesToCopy.off tile cell_num tiles_var_size j) ->
  (forall k, start_cell_pos <= k <= end_cell_pos + 1 ->
             0 <= BytesToCopy.off tile cell_num tiles_var_size k < two64) ->
  buffer_free_space <> 0 /\ 0 < buffer_var_free_space < two64 ->
  (forall k, start_cell_pos <= k <= end_cell_pos ->
             BytesToCopy.off tile cell_num tiles_var_size k
             - BytesToCopy.off tile cell_num tiles_var_size start_cell_pos
             <> buffer_var_free_space) ->
  exists m,
    BytesToCopy.compute_bytes_to_copy tile cell_num tiles_var_size
      start_cell_pos end_cell_pos buffer_free_space buffer_var_free_space
    = Some (size_t ((m - start_cell_pos + 1) * TILEDB_CELL_VAR_OFFSET_SIZE),
            BytesToCopy.off tile cell_num tiles_var_size (m + 1)
            - BytesToCopy.off tile cell_num tiles_var_size start_cell_pos)
    /\ BytesToCopy.largest_fit tile cell_num tiles_var_size start_cell_pos
         end_cell_pos buffer_var_free_space m
    /\ BytesToCopy.off tile cell_num tiles_var_size (m + 1)
       - BytesToCopy.off tile cell_num tiles_var_size start_cell_pos
       <= buffer_var_free_space.
Proof.
  intros Hsize Hregion Hmono Hin Hfree Hexact.
  destruct (Z_gt_le_dec
              (BytesToCopy.off tile cell_num tiles_var_size (end_cell_pos + 1)
               - BytesToCopy.off tile cell_num tiles_var_size start_cell_pos)
              buffer_var_free_space) as [Hlarge|Hfits].
  - by apply compute_bytes_to_copy_crossed.
  - exists end_cell_pos. destruct Hfree as [Hfree Hvar].
    unfold BytesToCopy.compute_bytes_to_copy.
    destruct (Z.eqb_spec buffer_free_space 0); [contradiction|].
    destruct (Z.eqb_spec buffer_var_free_space 0); [lia|]. simpl.
    rewrite (at_tile tile cell_num tiles_var_size Hsize start_cell_pos) by lia.
    simpl.
    assert (Hfirst :
             (if end_cell_pos + 1 <? cell_num
              then t ← at_ tile (end_cell_pos + 1);
                   Some (size_t (t - BytesToCopy.off tile cell_num
                                       tiles_var_size start_cell_pos))
              else Some (size_t (tiles_var_size
                                 - BytesToCopy.off tile cell_num tiles_var_size
                                     start_cell_pos)))
             = Some (BytesToCopy.off tile cell_num tiles_var_size
                       (end_cell_pos + 1)
                     - BytesToCopy.off tile cell_num tiles_var_size
                         start_cell_pos)).
    { pose proof (bytes_from_start tile cell_num tiles_var_size start_cell_pos
                    end_cell_pos Hregion Hmono Hin (end_cell_pos + 1)
                    ltac:(lia))
        as Hbytes.
      destruct (Z.ltb_spec (end_cell_pos + 1) cell_num) as [Hlt|Hge].
      - rewrite (at_tile tile cell_num tiles_var_size Hsize) by lia. simpl.
        by rewrite Hbytes.
      - rewrite <- Hbytes. unfold BytesToCopy.off at 2.
        destruct (Z.ltb_spec (end_cell_pos + 1) cell_num); [lia|reflexivity]. }
    rewrite Hfirst. simpl.
    destruct (Z.gtb_spec
                (BytesToCopy.off tile cell_num tiles_var_size (end_cell_pos + 1)
                 - BytesToCopy.off tile cell_num tiles_var_size start_cell_pos)
                buffer_var_free_space); [lia|].
    split; [reflexivity|]. split; [|lia].
    split; [lia|]. split; [intros _; unfold BytesToCopy.fits; lia|].
    intros m' Hm'. lia.
Qed.

Lemma compute_bytes_to_copy_largest_fit_witness :
  exists m,
    BytesToCopy.compute_bytes_to_copy [0; 3; 6; 10] 4 15 0 3 32 4
    = Some (size_t ((m - 0 + 1) * TILEDB_CELL_VAR_OFFSET_SIZE),
            BytesToCopy.off [0; 3; 6; 10] 4 15 (m + 1)
            - BytesToCopy.off [0; 3; 6; 10] 4 15 0)
    /\ BytesToCopy.largest_fit [0; 3; 6; 10] 4 15 0 3 4 m
    /\ BytesToCopy.off [0; 3; 6; 10] 4 15 (m + 1)
       - BytesToCopy.off [0; 3; 6; 10] 4 15 0 <= 4.
Proof.
  apply (compute_bytes_to_copy_largest_fit [0; 3; 6; 10] 4 15 0 3 32 4).
  - reflexivity.
  - lia.
  - intros i j Hi Hj.
    assert (i = 0 \/ i = 1 \/ i = 2 \/ i = 3 \/ i = 4) as Hci by lia.
    assert (j = 0 \/ j = 1 \/ j = 2 \/ j = 3 \/ j = 4) as Hcj by lia.
    destruct Hci as [->|[->|[->|[->| ->]]]];
      destruct Hcj as [->|[->|[->|[->| ->]]]]; vm_compute; try discriminate;
      lia.
  - intros k Hk.
    assert (k = 0 \/ k = 1 \/ k = 2 \/ k = 3 \/ k = 4) as Hck by lia.
    destruct Hck as [->|[->|[->|[->| ->]]]]; vm_compute; split; congruence.
  - unfold two64. lia.
  - intros k Hk.
    assert (k = 0 \/ k = 1 \/ k = 2 \/ k = 3) as Hck by lia.
    destruct Hck as [->|[->|[->| ->]]]; vm_compute; discriminate.
Defined.

(** ** Further properties of the reaper *)

(** X6.  The clean-up frees the heap blocks of the entries it removes and
    no others: the blocks freed so far, followed by the blocks that the
    destructor will free, are the same list before and after.  So every block
    of an entry is freed once, by a clean-up or by the destructor. *)
Theorem clean_up_frees_each_block_once (attribute_num : nat)
    (attribute_ids : list nat) (s s' : ReadState) :
  Reaper.clean_up_processed_overlapping_tiles attribute_num attribute_ids s
  = Returns s' ->
  freed_ (Lifetime.destructor s') = freed_ (Lifetime.destructor s).
Proof.
  unfold Reaper.clean_up_processed_overlapping_tiles. intros Hrun.
  destruct (vec_at (overlapping_tiles_pos_ s) 0) as [p0| | |];
    try discriminate. cbn [obind] in Hrun.
  destruct (Reaper.min_pos_loop _ _ _) as [min_pos| | |]; try discriminate.
  cbn [obind] in Hrun.
  destruct (min_pos =? 0); [by inversion Hrun|].
  destruct (_ || _); [discriminate|]. inversion Hrun; subst s'. clear Hrun.
  unfold Lifetime.destructor.
  cbn [freed_ overlapping_tiles_ with_freed with_overlapping_tiles
         with_overlapping_tiles_pos].
  rewrite <- app_assoc, <- concat_app, <- fmap_app, take_drop. reflexivity.
Qed.

Lemma clean_up_frees_each_block_once_witness :
  freed_ (Lifetime.destructor
            (mkReadState [false; false]
               [mkOverlappingTile 4 [] None false FULL (Some [2; 2]) 1]
               [0; 0] [0; 0] [0; 0] [0] [0] [[1; 1]] [] []))
  = freed_ (Lifetime.destructor
              (mkReadState [false; false]
                 [mkOverlappingTile 4 [] None false FULL (Some [1; 1]) 0;
                  mkOverlappingTile 4 [] None false FULL (Some [2; 2]) 1]
                 [1; 1] [0; 0] [0; 0] [0] [0] [] [] [])).
Proof.
  apply (clean_up_frees_each_block_once 1 [0%nat; 1%nat]).
  reflexivity.
Defined.

(** X7.  The clean-up keeps every cursor on its entry: when it removes [k]
    entries, a cursor of an attribute (or of the coordinates) that stands at
    position [k] or beyond is moved back by [k], and the entry under it is the
    one that was under it before. *)
Theorem clean_up_keeps_cursors_on_their_entries (attribute_num : nat)
    (attribute_ids : list nat) (s s' : ReadState) :
  Reaper.clean_up_processed_overlapping_tiles attribute_num attribute_ids s
  = Returns s' ->
  exists k,
    0 <= k
    /\ overlapping_tiles_ s' = drop (Z.to_nat k) (overlapping_tiles_ s)
    /\ forall (i : nat) (p : Z),
         (i <= attribute_num)%nat ->
         overlapping_tiles_pos_ s !! i = Some p ->
         k <= p ->
         overlapping_tiles_pos_ s' !! i = Some (p - k)
         /\ at_ (overlapping_tiles_ s') (p - k) = at_ (overlapping_tiles_ s) p.
Proof.
  unfold Reaper.clean_up_processed_overlapping_tiles. intros Hrun.
  destruct (vec_at (overlapping_tiles_pos_ s) 0) as [p0| | |];
    try discriminate. cbn [obind] in Hrun.
  destruct (Reaper.min_pos_loop _ _ _) as [min_pos| | |]; try discriminate.
  cbn [obind] in Hrun.
  destruct (Z.eqb_spec min_pos 0) as [E|E].
  - inversion Hrun; subst s'. exists 0. split; [lia|]. split; [by rewrite drop_0|].
    intros i p _ Hp _. rewrite Z.sub_0_r. by split.
  - destruct (Z.ltb_spec min_pos 0); [discriminate|]. cbn [orb] in Hrun.
    destruct (Z.ltb_spec (Z.of_nat (length (overlapping_tiles_ s))) min_pos);
      [discriminate|]. cbn [orb] in Hrun.
    destruct (Nat.ltb_spec (length (overlapping_tiles_pos_ s)) (S attribute_num));
      [discriminate|].
    inversion Hrun; subst s'. clear Hrun.
    exists min_pos. split; [lia|]. split; [reflexivity|].
    intros i p Hi Hp Hk.
    cbn [overlapping_tiles_pos_ overlapping_tiles_ with_overlapping_tiles_pos
           with_overlapping_tiles with_freed].
    split.
    + unfold Reaper.shift_positions.
      rewrite lookup_app_l by (rewrite length_fmap, length_take; lia).
      rewrite list_lookup_fmap, lookup_take_lt by lia. rewrite Hp. simpl.
      destruct (Z.eqb_spec p 0); [lia|reflexivity].
    + unfold at_.
      destruct (Z.ltb_spec (p - min_pos) 0); [lia|].
      destruct (Z.ltb_spec p 0); [lia|].
      rewrite lookup_drop. f_equal. lia.
Qed.

Lemma clean_up_keeps_cursors_on_their_entries_witness :
  exists k,
    0 <= k
    /\ overlapping_tiles_
         (mkReadState [false; false]
            [mkOverlappingTile 4 [] None false FULL (Some [2; 2]) 1]
            [0; 0] [0; 0] [0; 0] [0] [0] [[1; 1]] [] [])
       = drop (Z.to_nat k)
           [mkOverlappingTile 4 [] None false FULL (Some [1; 1]) 0;
            mkOverlappingTile 4 [] None false FULL (Some [2; 2]) 1]
    /\ forall (i : nat) (p : Z),
         (i <= 1)%nat ->
         [1; 1] !! i = Some p ->
         k <= p ->
         [0; 0] !! i = Some (p - k)
         /\ at_ [mkOverlappingTile 4 [] None false FULL (Some [2; 2]) 1]
                (p - k)
            = at_ [mkOverlappingTile 4 [] None false FULL (Some [1; 1]) 0;
                   mkOverlappingTile 4 [] None false FULL (Some [2; 2]) 1] p.
Proof.
  apply (clean_up_keeps_cursors_on_their_entries 1 [0%nat; 1%nat]
           (mkReadState [false; false]
              [mkOverlappingTile 4 [] None false FULL (Some [1; 1]) 0;
               mkOverlappingTile 4 [] None false FULL (Some [2; 2]) 1]
              [1; 1] [0; 0] [0; 0] [0] [0] [] [] [])
           (mkReadState [false; false]
              [mkOverlappingTile 4 [] None false FULL (Some [2; 2]) 1]
              [0; 0] [0; 0] [0; 0] [0] [0] [[1; 1]] [] [])).
  reflexivity.
Defined.

(** ** Witnesses and further properties of the resolver, the slab copy and
    the iterator *)

Lemma slab_copy_into_an_empty_buffer_witness :
  exists s' buffer_offset ms,
    SlabCopy.copy_from_tile_buffer_partial_non_contig_dense false
      (SlabCopy.mkGeometry 4 false 5 10 2 4) 12 0 12 0 at_first_tile
    = Returns (s', buffer_offset, ms)
    /\ Forall (SlabCopy.inside 12) ms
    /\ SlabCopy.bytes_written ms = buffer_offset
    /\ buffer_offset <= 12 - 0.
Proof.
  apply (slab_copy_into_an_empty_buffer false
           (SlabCopy.mkGeometry 4 false 5 10 2 4) 12 0 12 at_first_tile);
    try reflexivity; try (unfold two64; lia); simpl; lia.
Defined.

Lemma hilbert_scan_of_a_full_tile_witness :
  exists t',
    Resolver.compute_cell_pos_ranges_non_contig 0
      Coords.TILEDB_AS_CO_HILBERT 3 2 [0; 5; 0; 5] [4; 4; 6; 6; 1; 1]
      (mkOverlappingTile 3 [] None false PARTIAL_NON_CONTIG
         (Some [0; 5; 0; 5]) 0)
    = Returns t'
    /\ Resolver.ordered (cell_pos_ranges_ t')
    /\ forall c, Resolver.covered (cell_pos_ranges_ t') c
                 <-> 0 <= c < cell_num_
                                (mkOverlappingTile 3 [] None false
                                   PARTIAL_NON_CONTIG (Some [0; 5; 0; 5]) 0)
                     /\ Resolver.qualifies 2 [0; 5; 0; 5] [4; 4; 6; 6; 1; 1] c.
Proof.
  apply (hilbert_scan_of_a_full_tile 0 3 2 [0; 5; 0; 5] [4; 4; 6; 6; 1; 1]
           (mkOverlappingTile 3 [] None false PARTIAL_NON_CONTIG
              (Some [0; 5; 0; 5]) 0));
    [reflexivity | simpl; lia | reflexivity].
Defined.

Lemma row_col_resolver_exact_witness :
  exists t',
    Resolver.compute_cell_pos_ranges_non_contig 0
      Coords.TILEDB_AS_CO_ROW_MAJOR 4 2 [1; 2; 2; 3]
      [1; 1; 1; 3; 2; 2; 3; 1]
      (mkOverlappingTile 4 [] None false PARTIAL_NON_CONTIG
         (Some [1; 2; 2; 3]) 0)
    = Returns t'
    /\ Resolver.ordered (cell_pos_ranges_ t')
    /\ forall c, Resolver.covered (cell_pos_ranges_ t') c
                 <-> 0 <= c < 4
                     /\ Resolver.qualifies 2 [1; 2; 2; 3]
                          [1; 1; 1; 3; 2; 2; 3; 1] c.
Proof.
  apply (row_col_resolver_exact false 2 [1; 1; 1; 3; 2; 2; 3; 1] 4
           ltac:(simpl; lia) eq_refl [1; 2; 2; 3] [1; 2; 2; 3]
           (mkOverlappingTile 4 [] None false PARTIAL_NON_CONTIG
              (Some [1; 2; 2; 3]) 0)
           (conj eq_refl (conj eq_refl eq_refl)) ltac:(lia)
           (fun _ _ H => H) 0 4).
Defined.

Lemma clean_up_bounds_the_list_witness :
  exists s',
    Reaper.clean_up_processed_overlapping_tiles 1 [0%nat; 1%nat]
      (mkReadState [false; false]
         [mkOverlappingTile 4 [] None false FULL (Some [1; 1]) 0;
          mkOverlappingTile 4 [] None false FULL (Some [2; 2]) 1]
         [1; 1] [0; 0] [0; 0] [0] [0] [] [] [])
    = Returns s'
    /\ Z.of_nat (length (overlapping_tiles_ s'))
       <= 1 + Reaper.drift [0%nat; 1%nat] s'.
Proof.
  apply (clean_up_bounds_the_list 1 [1%nat]
           (mkReadState [false; false]
              [mkOverlappingTile 4 [] None false FULL (Some [1; 1]) 0;
               mkOverlappingTile 4 [] None false FULL (Some [2; 2]) 1]
              [1; 1] [0; 0] [0; 0] [0] [0] [] [] [])).
  - reflexivity.
  - repeat constructor.
  - vm_compute. split; discriminate.
  - apply Exists_cons_hd. vm_compute. discriminate.
Defined.

(** What the loop of the iterator does with the overlap of a tile depends
    on the kind the entry has, and on nothing else of the entry. *)
Lemma set_overlap_same_kind (overlap : Z) (t t' : OverlappingTile) :
  overlap_ t = overlap_ t' ->
  Iterator.set_overlap overlap t = Iterator.set_overlap overlap t'.
Proof. intros E. unfold Iterator.set_overlap. by rewrite E. Qed.

Lemma at_in_bounds {A : Type} (a : list A) (i : Z) :
  0 <= i < Z.of_nat (length a) -> exists x, at_ a i = Some x.
Proof.
  intros Hi. unfold at_. destruct (Z.ltb_spec i 0); [lia|].
  apply lookup_lt_is_Some_2. lia.
Qed.

(** X8.  The search of [get_next_overlapping_tile_sparse] stops at the
    first tile, from [tile_pos] on and up to the end of the search range,
    whose MBR overlaps the range of the query: the entry gets the position of
    that tile, its kind of overlap and its overlap range, and no tile before
    it overlaps.  If no tile up to the end of the search range overlaps, the
    entry keeps the kind [NONE]. *)
Theorem find_next_finds_the_first_overlap (fuel : nat)
    (compute_mbr_range_overlap : list Z -> list Z -> list Z * Z)
    (range : list Z) (mbrs : list (list Z)) (tile_search_range_1 : Z) :
  forall (tile_pos : Z) (t : OverlappingTile),
    0 <= tile_pos ->
    tile_search_range_1 < Z.of_nat (length mbrs) ->
    overlap_ t = NONE ->
    (Z.to_nat (tile_search_range_1 - tile_pos + 1) <= fuel)%nat ->
    exists t',
      Iterator.find_next fuel compute_mbr_range_overlap range mbrs
                         tile_search_range_1 tile_pos t
      = Returns t'
      /\ (forall p mbr,
            tile_pos <= p
            < (if bool_decide (overlap_ t' = NONE)
               then tile_search_range_1 + 1 else pos_ t') ->
            at_ mbrs p = Some mbr ->
            Iterator.set_overlap (compute_mbr_range_overlap range mbr).2 t
            = NONE)
      /\ (overlap_ t' <> NONE ->
          tile_pos <= pos_ t' <= tile_search_range_1
          /\ exists mbr,
               at_ mbrs (pos_ t') = Some mbr
               /\ overlap_ t'
                  = Iterator.set_overlap
                      (compute_mbr_range_overlap range mbr).2 t
               /\ overlap_range_ t'
                  = Some (compute_mbr_range_overlap range mbr).1).
Proof.
  induction fuel as [|fuel IH]; intros tile_pos t Hpos Hlen Hnone Hfuel;
    cbn [Iterator.find_next];
    rewrite (bool_decide_true (overlap_ t = NONE)) by exact Hnone;
    cbn [andb].
  - destruct (Z.leb_spec tile_pos tile_search_range_1); [lia|].
    exists t. split; [reflexivity|].
    rewrite (bool_decide_true (overlap_ t = NONE)) by exact Hnone.
    split; [intros; lia | intros; contradiction].
  - destruct (Z.leb_spec tile_pos tile_search_range_1) as [Hle|Hgt].
    2:{ exists t. split; [reflexivity|].
        rewrite (bool_decide_true (overlap_ t = NONE)) by exact Hnone.
        split; [intros; lia | intros; contradiction]. }
    destruct (at_in_bounds mbrs tile_pos ltac:(lia)) as [mbr Hmbr].
    rewrite Hmbr.
    set (o := compute_mbr_range_overlap range mbr).
    set (t1 := mkOverlappingTile (cell_num_ t) (cell_pos_ranges_ t) (coords_ t)
                 (coords_tile_fetched_ t) (overlap_ t) (Some o.1) tile_pos).
    set (t2 := mkOverlappingTile (cell_num_ t1) (cell_pos_ranges_ t1)
                 (coords_ t1) (coords_tile_fetched_ t1)
                 (Iterator.set_overlap o.2 t1) (overlap_range_ t1) (pos_ t1)).
    assert (Hkind : Iterator.set_overlap o.2 t1 = Iterator.set_overlap o.2 t)
      by (by apply set_overlap_same_kind).
    destruct (decide (Iterator.set_overlap o.2 t = NONE)) as [Hno|Hyes].
    + destruct (IH (tile_pos + 1) t2 ltac:(lia) Hlen) as (t' & Hrun & Hbefore & Hat).
      * subst t2. cbn [overlap_]. by rewrite Hkind.
      * lia.
      * exists t'. split; [exact Hrun|].
        assert (Ht2 : overlap_ t2 = overlap_ t)
          by (subst t2; cbn [overlap_]; by rewrite Hkind, Hno, Hnone).
        split.
        -- intros p mbr' Hp Hmbr'.
           destruct (Z.eq_dec p tile_pos) as [->|Hne].
           ++ rewrite Hmbr in Hmbr'. inversion Hmbr'; subst mbr'. exact Hno.
           ++ rewrite <- (set_overlap_same_kind _ t2 t Ht2).
              apply (Hbefore p mbr'); [|exact Hmbr'].
              destruct (bool_decide (overlap_ t' = NONE)); [lia|].
              lia.
        -- intros Hsome. destruct (Hat Hsome) as (Hin & mbr' & Hm & Ho & Hr).
           split; [lia|]. exists mbr'. split; [exact Hm|].
           split; [|exact Hr].
           rewrite Ho. by apply set_overlap_same_kind.
    + assert (Hstop : Iterator.find_next fuel compute_mbr_range_overlap range
                        mbrs tile_search_range_1 (tile_pos + 1) t2
                      = Returns t2).
      { assert (Hguard : bool_decide (overlap_ t2 = NONE) = false).
        { apply bool_decide_false. subst t2. cbn [overlap_].
          by rewrite Hkind. }
        destruct fuel; cbn [Iterator.find_next]; by rewrite Hguard. }
      exists t2. split; [exact Hstop|].
      assert (Hguard : bool_decide (overlap_ t2 = NONE) = false).
      { apply bool_decide_false. subst t2. cbn [overlap_]. by rewrite Hkind. }
      rewrite Hguard. split.
      * intros p mbr' Hp. subst t2 t1. cbn [pos_] in Hp. lia.
      * intros _. subst t2 t1. cbn [pos_ overlap_ overlap_range_ cell_num_].
        split; [lia|]. exists mbr. split; [exact Hmbr|].
        split; [|reflexivity]. by apply set_overlap_same_kind.
Qed.

Lemma find_next_finds_the_first_overlap_witness :
  exists t',
    Iterator.find_next 3 (fun range mbr => (mbr, hd 0 mbr)) [0; 9]
                       [[0]; [0]; [3]] 2 0
                       (Iterator.new_overlapping_tile
                          (mkOverlappingTile 0 [] None false NONE None 0) [])
    = Returns t'
    /\ (forall p mbr,
          0 <= p < (if bool_decide (overlap_ t' = NONE) then 2 + 1
                    else pos_ t') ->
          at_ [[0]; [0]; [3]] p = Some mbr ->
          Iterator.set_overlap
            ((fun range mbr => (mbr, hd 0 mbr)) [0; 9] mbr).2
            (Iterator.new_overlapping_tile
               (mkOverlappingTile 0 [] None false NONE None 0) [])
          = NONE)
    /\ (overlap_ t' <> NONE ->
        0 <= pos_ t' <= 2
        /\ exists mbr,
             at_ [[0]; [0]; [3]] (pos_ t') = Some mbr
             /\ overlap_ t'
                = Iterator.set_overlap
                    ((fun range mbr => (mbr, hd 0 mbr)) [0; 9] mbr).2
                    (Iterator.new_overlapping_tile
                       (mkOverlappingTile 0 [] None false NONE None 0) [])
             /\ overlap_range_ t'
                = Some ((fun range mbr => (mbr, hd 0 mbr)) [0; 9] mbr).1).
Proof.
  apply (find_next_finds_the_first_overlap 3
           (fun range mbr => (mbr, hd 0 mbr)) [0; 9] [[0]; [0]; [3]] 2 0
           (Iterator.new_overlapping_tile
              (mkOverlappingTile 0 [] None false NONE None 0) []));
    [lia | simpl; lia | reflexivity | simpl; lia].
Defined.

(** ** The shift of the offsets of variable-sized cells *)

(** The loop rewrites the entries [i .. i + rounds - 1] and no others. *)
Lemma shift_loop_maps (f : Z -> Z) (rounds : nat) :
  forall (i : nat) (a : list Z),
    (i + rounds <= length a)%nat ->
    exists r,
      VarOffsets.shift_loop f i rounds a = Returns r
      /\ length r = length a
      /\ forall j, r !! j = if bool_decide (i <= j < i + rounds)%nat
                            then f <$> a !! j else a !! j.
Proof.
  induction rounds as [|rounds IH]; intros i a Hlen;
    cbn [VarOffsets.shift_loop].
  - exists a. split; [reflexivity|]. split; [reflexivity|]. intros j.
    rewrite bool_decide_false by lia. reflexivity.
  - destruct (lookup_lt_is_Some_2 a i ltac:(lia)) as [x Hx].
    unfold vec_at, vec_set. rewrite Hx. cbn [obind].
    destruct (Nat.ltb_spec i (length a)); [|lia]. cbn [obind].
    destruct (IH (S i) (<[i := f x]> a)) as (r & Hrun & Hr & Hat);
      [rewrite length_insert; lia|].
    exists r. split; [exact Hrun|].
    split; [by rewrite Hr, length_insert|]. intros j. rewrite Hat.
    destruct (decide (j = i)) as [->|Hne].
    + rewrite bool_decide_false by lia. rewrite bool_decide_true by lia.
      rewrite list_lookup_insert_eq by lia. by rewrite Hx.
    + rewrite list_lookup_insert_ne by lia.
      destruct (decide (S i <= j < S i + rounds)%nat).
      * rewrite !bool_decide_true by lia. reflexivity.
      * rewrite !bool_decide_false by lia. reflexivity.
Qed.

Lemma size_t_idemp (z : Z) : size_t (size_t z) = size_t z.
Proof. unfold size_t. apply Z.mod_mod. unfold two64. lia. Qed.

Lemma size_t_add_l (a b : Z) : size_t (size_t a + b) = size_t (a + b).
Proof. unfold size_t. apply Zplus_mod_idemp_l. Qed.

Lemma size_t_sub_l (a b : Z) : size_t (size_t a - b) = size_t (a - b).
Proof. unfold size_t. apply Zminus_mod_idemp_l. Qed.

Lemma size_t_sub_r (a b : Z) : size_t (a - size_t b) = size_t (a - b).
Proof. unfold size_t. apply Zminus_mod_idemp_r. Qed.

Lemma lookup_total_of_lookup (a : list Z) (i : nat) (x : Z) :
  a !! i = Some x -> a !!! i = x.
Proof. intros E. by rewrite (list_lookup_total_correct a i x E). Qed.

(** X9.  [shift_var_offsets(buffer, offset_num, new_start_offset)] rebases
    the first [offset_num] offsets of the buffer: the first becomes
    [new_start_offset], the byte length of every cell (the difference of two
    consecutive offsets) is kept, and the entries beyond are not touched.
    The offsets are not before the first one, and the rebased offsets are
    values of [size_t]. *)
Theorem shift_var_offsets_rebases (buffer_s : list Z)
    (offset_num new_start_offset : Z) :
  0 < offset_num <= Z.of_nat (length buffer_s) ->
  0 <= new_start_offset ->
  (forall (i : nat) (x : Z),
     Z.of_nat i < offset_num -> buffer_s !! i = Some x ->
     buffer_s !!! 0%nat <= x
     /\ x - buffer_s !!! 0%nat + new_start_offset < two64) ->
  exists r,
    VarOffsets.shift_var_offsets buffer_s offset_num new_start_offset
    = Returns r
    /\ length r = length buffer_s
    /\ r !!! 0%nat = new_start_offset
    /\ (forall i : nat,
          Z.of_nat (S i) < offset_num ->
          VarOffsets.cell_length r i = VarOffsets.cell_length buffer_s i)
    /\ (forall j : nat, offset_num <= Z.of_nat j -> r !! j = buffer_s !! j).
Proof.
  intros Hnum Hnew Hoffsets. unfold VarOffsets.shift_var_offsets.
  destruct (lookup_lt_is_Some_2 buffer_s 0 ltac:(lia)) as [b0 Hb0].
  unfold vec_at at 1. rewrite Hb0. cbn [obind].
  rewrite (lookup_total_of_lookup _ _ _ Hb0) in Hoffsets.
  destruct (shift_loop_maps
              (fun x => size_t (size_t (x - b0) + new_start_offset))
              (Z.to_nat offset_num) 0 buffer_s ltac:(lia))
    as (r & Hrun & Hlen & Hat).
  exists r. split; [exact Hrun|]. split; [exact Hlen|].
  assert (Hshift : forall (i : nat) (x : Z),
             Z.of_nat i < offset_num -> buffer_s !! i = Some x ->
             r !!! i = x - b0 + new_start_offset).
  { intros i x Hi Hx. apply lookup_total_of_lookup. rewrite Hat.
    rewrite bool_decide_true by lia. rewrite Hx. simpl. f_equal.
    destruct (Hoffsets i x Hi Hx) as [Hge Hlt].
    rewrite size_t_add_l. apply size_t_small. lia. }
  split; [rewrite (Hshift 0%nat b0 ltac:(lia) Hb0); lia|]. split.
  - intros i Hi. unfold VarOffsets.cell_length.
    destruct (lookup_lt_is_Some_2 buffer_s i ltac:(lia)) as [x Hx].
    destruct (lookup_lt_is_Some_2 buffer_s (S i) ltac:(lia)) as [y Hy].
    rewrite (Hshift i x ltac:(lia) Hx), (Hshift (S i) y ltac:(lia) Hy).
    rewrite (lookup_total_of_lookup _ _ _ Hx),
      (lookup_total_of_lookup _ _ _ Hy). lia.
  - intros j Hj. rewrite Hat. rewrite bool_decide_false by lia. reflexivity.
Qed.

Lemma shift_var_offsets_rebases_witness :
  exists r,
    VarOffsets.shift_var_offsets [100; 103; 107; 7] 3 20 = Returns r
    /\ length r = length [100; 103; 107; 7]
    /\ r !!! 0%nat = 20
    /\ (forall i : nat,
          Z.of_nat (S i) < 3 ->
          VarOffsets.cell_length r i
          = VarOffsets.cell_length [100; 103; 107; 7] i)
    /\ (forall j : nat, 3 <= Z.of_nat j -> r !! j = [100; 103; 107; 7] !! j).
Proof.
  apply (shift_var_offsets_rebases [100; 103; 107; 7] 3 20);
    [simpl; lia | lia |].
  intros i x Hi Hx. unfold two64.
  destruct i as [|[|[|i]]]; simpl in Hx; inversion Hx; subst;
    cbn; lia.
Defined.

(** X10.  Rebasing twice is rebasing once: offsets shifted to the start
    [c1] and then to the start [c2] are the offsets shifted to [c2]
    directly, whatever the offsets are ([size_t] arithmetic wraps the same
    way on both sides). *)
Theorem shift_var_offsets_twice (buffer_s : list Z) (offset_num c1 c2 : Z) :
  (0 < length buffer_s)%nat ->
  offset_num <= Z.of_nat (length buffer_s) ->
  exists b1 r,
    VarOffsets.shift_var_offsets buffer_s offset_num c1 = Returns b1
    /\ VarOffsets.shift_var_offsets b1 offset_num c2 = Returns r
    /\ VarOffsets.shift_var_offsets buffer_s offset_num c2 = Returns r.
Proof.
  intros Hsome Hnum. unfold VarOffsets.shift_var_offsets.
  destruct (lookup_lt_is_Some_2 buffer_s 0 Hsome) as [b0 Hb0].
  unfold vec_at. rewrite Hb0. cbn [obind].
  destruct (shift_loop_maps (fun x => size_t (size_t (x - b0) + c1))
              (Z.to_nat offset_num) 0 buffer_s ltac:(lia))
    as (b1 & Hrun1 & Hlen1 & Hat1).
  destruct (shift_loop_maps (fun x => size_t (size_t (x - b0) + c2))
              (Z.to_nat offset_num) 0 buffer_s ltac:(lia))
    as (r & Hrun & Hlen & Hat).
  exists b1, r. split; [exact Hrun1|]. split; [|exact Hrun].
  destruct (lookup_lt_is_Some_2 b1 0 ltac:(lia)) as [s0 Hs0].
  rewrite Hs0. cbn [obind].
  destruct (shift_loop_maps (fun x => size_t (size_t (x - s0) + c2))
              (Z.to_nat offset_num) 0 b1 ltac:(lia))
    as (r' & Hrun' & Hlen' & Hat').
  rewrite Hrun'. f_equal. apply list_eq. intros j.
  rewrite Hat', Hat, Hat1.
  destruct (decide (0 <= j < 0 + Z.to_nat offset_num)%nat) as [Hj|Hj].
  - rewrite !bool_decide_true by exact Hj.
    rewrite Hat1 in Hs0. rewrite bool_decide_true in Hs0 by lia.
    rewrite Hb0 in Hs0. simpl in Hs0. inversion Hs0; subst s0.
    destruct (buffer_s !! j) as [x|]; [|reflexivity]. simpl. f_equal.
    rewrite Z.sub_diag.
    assert (Hzero : size_t 0 = 0) by reflexivity. rewrite Hzero.
    rewrite size_t_sub_l, size_t_sub_r, !size_t_add_l.
    replace (size_t (x - b0) + c1 - (0 + c1) + c2)
      with (size_t (x - b0) + c2) by lia.
    by rewrite size_t_add_l.
  - rewrite !bool_decide_false by exact Hj. reflexivity.
Qed.

(** X11.  [shift_var_offsets(attribute_id)] makes the first offset of the
    tile zero and is idempotent: shifting the offsets of a tile that has been
    shifted changes nothing. *)
Theorem shift_var_offsets_of_tile_idempotent (tiles_size : Z)
    (tile_s : list Z) :
  (0 < length tile_s)%nat ->
  tiles_size / TILEDB_CELL_VAR_OFFSET_SIZE <= Z.of_nat (length tile_s) ->
  exists r,
    VarOffsets.shift_var_offsets_of_tile tiles_size tile_s = Returns r
    /\ (0 < tiles_size / TILEDB_CELL_VAR_OFFSET_SIZE -> r !!! 0%nat = 0)
    /\ VarOffsets.shift_var_offsets_of_tile tiles_size r = Returns r.
Proof.
  intros Hsome Hnum. unfold VarOffsets.shift_var_offsets_of_tile.
  set (cell_num := tiles_size / TILEDB_CELL_VAR_OFFSET_SIZE) in *.
  destruct (lookup_lt_is_Some_2 tile_s 0 Hsome) as [b0 Hb0].
  unfold vec_at. rewrite Hb0. cbn [obind].
  destruct (shift_loop_maps (fun x => size_t (x - b0))
              (Z.to_nat cell_num) 0 tile_s ltac:(lia))
    as (r & Hrun & Hlen & Hat).
  exists r. split; [exact Hrun|].
  assert (Hzero : 0 < cell_num -> r !! 0%nat = Some 0).
  { intros Hpos. rewrite Hat. rewrite bool_decide_true by lia.
    rewrite Hb0. simpl. f_equal. rewrite Z.sub_diag. reflexivity. }
  split.
  { intros Hpos. apply lookup_total_of_lookup. by apply Hzero. }
  destruct (lookup_lt_is_Some_2 r 0 ltac:(lia)) as [s0 Hs0].
  rewrite Hs0. cbn [obind].
  destruct (shift_loop_maps (fun x => size_t (x - s0))
              (Z.to_nat cell_num) 0 r ltac:(lia))
    as (r' & Hrun' & Hlen' & Hat').
  rewrite Hrun'. f_equal. apply list_eq. intros j. rewrite Hat'.
  destruct (decide (0 <= j < 0 + Z.to_nat cell_num)%nat) as [Hj|Hj].
  - rewrite bool_decide_true by exact Hj.
    rewrite (Hzero ltac:(lia)) in Hs0. inversion Hs0; subst s0.
    rewrite Hat. rewrite bool_decide_true by exact Hj.
    destruct (tile_s !! j) as [x|]; [|reflexivity]. simpl. f_equal.
    rewrite Z.sub_0_r. apply size_t_idemp.
  - rewrite bool_decide_false by exact Hj. reflexivity.
Qed.

Lemma shift_var_offsets_of_tile_idempotent_witness :
  exists r,
    VarOffsets.shift_var_offsets_of_tile 24 [100; 103; 107] = Returns r
    /\ (0 < 24 / TILEDB_CELL_VAR_OFFSET_SIZE -> r !!! 0%nat = 0)
    /\ VarOffsets.shift_var_offsets_of_tile 24 r = Returns r.
Proof.
  apply (shift_var_offsets_of_tile_idempotent 24 [100; 103; 107]);
    [simpl; lia | vm_compute; discriminate].
Defined.

Lemma shift_var_offsets_twice_witness :
  exists b1 r,
    VarOffsets.shift_var_offsets [100; 103; 107; 7] 3 20 = Returns b1
    /\ VarOffsets.shift_var_offsets b1 3 5 = Returns r
    /\ VarOffsets.shift_var_offsets [100; 103; 107; 7] 3 5 = Returns r.
Proof.
  apply (shift_var_offsets_twice [100; 103; 107; 7] 3 20 5);
    [simpl; lia | simpl; lia].
Defined.

(** ** The resolver for a unary range *)

Section UnaryFacts.

Import Coords Resolver.

Variable cmp_order : list Z -> list Z -> nat -> Z.
Variable dim_num : nat.
Variable tile : list Z.
Variable cell_num : Z.

Abbreviation cell' i := (take dim_num (drop (Z.to_nat i * dim_num) tile)).

(** The comparator is the three-way comparison of a total order, and the
    buffer holds the [cell_num] cells of the tile in that order, each
    before the next. *)
Hypothesis order : three_way cmp_order dim_num.
Hypothesis tile_size : cell_num * Z.of_nat dim_num <= Z.of_nat (length tile).
Hypothesis sorted : cells_in_cell_order cmp_order dim_num tile cell_num = true.

Lemma cell_at_cell' (c : Z) :
  0 <= c < cell_num -> cell_at tile dim_num c = Some (cell' c).
Proof.
  intros Hc. unfold cell_at.
  destruct (Z.ltb_spec c 0); [lia|].
  destruct (Z.ltb_spec (Z.of_nat (length tile)) ((c + 1) * Z.of_nat dim_num));
    [nia | reflexivity].
Qed.

Lemma cells_length : Z.of_nat (length (cells_as_bounds dim_num tile cell_num))
                     = Z.max 0 cell_num.
Proof. unfold cells_as_bounds. rewrite length_fmap, length_seq. lia. Qed.

Lemma cells_at (c : Z) :
  0 <= c < cell_num ->
  at_ (cells_as_bounds dim_num tile cell_num) c = Some (cell' c ++ cell' c).
Proof.
  intros Hc. unfold at_, cells_as_bounds.
  destruct (Z.ltb_spec c 0); [lia|].
  rewrite list_lookup_fmap, lookup_seq_lt by lia. reflexivity.
Qed.

Lemma cell'_length (c : Z) : 0 <= c < cell_num -> length (cell' c) = dim_num.
Proof. intros Hc. rewrite length_take, length_drop. nia. Qed.

(** Cells follow each other strictly. *)
Lemma cells_increase (c c' : Z) :
  0 <= c < c' -> c' < cell_num ->
  cmp_order (cell' c) (cell' c') dim_num < 0.
Proof.
  intros Hc Hc'.
  pose proof (last_lt_first cmp_order dim_num order
                (cells_as_bounds dim_num tile cell_num) sorted c c' Hc
                ltac:(rewrite cells_length; lia)) as Hlt.
  unfold TileSearch.last_coord, TileSearch.first_coord in Hlt.
  rewrite !cells_at in Hlt by lia. simpl in Hlt.
  rewrite drop_app_length' in Hlt by (symmetry; apply cell'_length; lia).
  rewrite (take_app_length' (cell' c')) in Hlt
    by (symmetry; apply cell'_length; lia).
  by rewrite (cmp_take_l _ _ order) in Hlt.
Qed.

Variable t : OverlappingTile.
Variable overlap_range : list Z.

Hypothesis entry :
  overlap_range_ t = Some overlap_range /\ cell_num_ t = cell_num.

Abbreviation point := (range_min_coords overlap_range dim_num).

Lemma unary_in_order_finds_the_cell :
  exists t',
    Unary.compute_cell_pos_ranges_unary_in_order cmp_order dim_num tile t
    = Returns t'
    /\ ((exists m,
           0 <= m < cell_num
           /\ cmp_order point (cell' m) dim_num = 0
           /\ cell_pos_ranges_ t' = cell_pos_ranges_ t ++ [(m, m)])
        \/ (t' = t
            /\ forall c, 0 <= c < cell_num ->
                         cmp_order point (cell' c) dim_num <> 0)).
Proof.
  destruct entry as [Hrange Hnum].
  unfold Unary.compute_cell_pos_ranges_unary_in_order.
  rewrite Hrange, Hnum.
  assert (Hlook : forall c, 0 <= c < cell_num ->
            look cmp_order dim_num tile point c
            = if cmp_order point (cell' c) dim_num <? 0 then GoLeft
              else if cmp_order point (cell' c) dim_num >? 0 then GoRight
                   else Stop).
  { intros c Hc. unfold look. by rewrite cell_at_cell' by exact Hc. }
  destruct (Z_lt_le_dec cell_num 0) as [Hneg|Hpos].
  { (* no cell: the loop is not entered *)
    unfold bsearch.
    replace (Z.to_nat (cell_num - 1 - 0 + 1)) with 0%nat by lia.
    cbn [bsearch_loop]. destruct (Z.ltb_spec (cell_num - 1) 0); [|lia].
    exists t. split; [reflexivity|]. right. split; [reflexivity|].
    intros; lia. }
  pose proof (bsearch_exit (look cmp_order dim_num tile point) 0
                (cell_num - 1) ltac:(lia)) as Hexit.
  destruct (bsearch _ 0 _) as [a b | a b med | |]; try contradiction.
  - destruct Hexit as (Hab & Ha & Hb & Hright & Hleft).
    exists t. split; [reflexivity|]. right. split; [reflexivity|].
    intros c Hc Heq.
    destruct (Z_lt_le_dec c a) as [Hlt|Hge].
    + (* the cell before [a] was sent right: it precedes the point *)
      destruct Hright as [E|R]; [lia|].
      rewrite Hlook in R by lia.
      destruct (Z.ltb_spec (cmp_order point (cell' (a - 1)) dim_num) 0);
        [discriminate|].
      destruct (Z.gtb_spec (cmp_order point (cell' (a - 1)) dim_num) 0);
        [|discriminate].
      destruct (Z.eq_dec c (a - 1)) as [->|Hne]; [lia|].
      pose proof (cells_increase c (a - 1) ltac:(lia) ltac:(lia)) as Hinc.
      assert (cmp_order point (cell' (a - 1)) dim_num < 0); [|lia].
      eapply (cmp_le_lt _ _ order); [|exact Hinc]. lia.
    + destruct Hleft as [E|L]; [lia|].
      rewrite Hlook in L by lia.
      destruct (Z.ltb_spec (cmp_order point (cell' (b + 1)) dim_num) 0);
        [|destruct (_ >? _) in L; discriminate].
      destruct (Z.eq_dec c (b + 1)) as [->|Hne]; [lia|].
      pose proof (cells_increase (b + 1) c ltac:(lia) ltac:(lia)) as Hinc.
      assert (cmp_order point (cell' c) dim_num < 0); [|lia].
      eapply (cmp_lt_le _ _ order); [eassumption|]. lia.
  - destruct Hexit as (Hmed & Hstop). rewrite Hlook in Hstop by lia.
    destruct (Z.ltb_spec (cmp_order point (cell' med) dim_num) 0);
      [discriminate|].
    destruct (Z.gtb_spec (cmp_order point (cell' med) dim_num) 0);
      [discriminate|].
    eexists. split; [reflexivity|]. left. exists med.
    split; [lia|]. split; [lia|]. reflexivity.
  - destruct Hexit as (k & Hk & Hfault). rewrite Hlook in Hfault by lia.
    destruct (_ <? _) in Hfault; [discriminate|].
    destruct (_ >? _) in Hfault; discriminate.
Qed.

End UnaryFacts.

(** The comparators of the row-major and the column-major order are zero
    on equal coordinates only. *)
Lemma cmp_of_zero (column_major : bool) (dim_num : nat) (a b : list Z) :
  TileSearch.cmp_of column_major a b dim_num = 0 ->
  take dim_num a = take dim_num b.
Proof.
  destruct column_major; unfold TileSearch.cmp_of, Coords.cmp_col_order,
    Coords.cmp_row_order; intros E; apply lex_cmp_eq in E; [|exact E].
  rewrite <- (reverse_involutive (take dim_num a)),
    <- (reverse_involutive (take dim_num b)). by rewrite E.
Qed.

(** X12.  For a unary range, in row-major or column-major order and on a
    coordinates tile whose cells follow that order, the resolver attaches
    the interval [(m, m)] of the one cell [m] whose coordinates are those of
    the range, and attaches nothing when the tile holds no such cell. *)
Theorem unary_resolver_finds_the_cell
    (cmp_hilbert : list Z -> list Z -> nat -> Z) (column_major : bool)
    (dim_num : nat) (tile : list Z) (cell_num : Z) (t : OverlappingTile)
    (overlap_range : list Z) :
  cell_num * Z.of_nat dim_num <= Z.of_nat (length tile) ->
  Resolver.cells_in_cell_order (TileSearch.cmp_of column_major) dim_num tile
                               cell_num = true ->
  overlap_range_ t = Some overlap_range /\ cell_num_ t = cell_num ->
  exists t',
    Unary.compute_cell_pos_ranges_unary cmp_hilbert
      (if column_major then Coords.TILEDB_AS_CO_COLUMN_MAJOR
       else Coords.TILEDB_AS_CO_ROW_MAJOR) dim_num tile t
    = Returns t'
    /\ ((exists m,
           0 <= m < cell_num
           /\ Coords.cell_at tile dim_num m
              = Some (Coords.range_min_coords overlap_range dim_num)
           /\ cell_pos_ranges_ t' = cell_pos_ranges_ t ++ [(m, m)])
        \/ (t' = t
            /\ forall c, 0 <= c < cell_num ->
                 Coords.cell_at tile dim_num c
                 <> Some (Coords.range_min_coords overlap_range dim_num))).
Proof.
  intros Hsize Hsorted Hentry.
  pose proof (cmp_of_three_way column_major dim_num) as Hord.
  destruct (unary_in_order_finds_the_cell (TileSearch.cmp_of column_major)
              dim_num tile cell_num Hord Hsize Hsorted t overlap_range Hentry)
    as (t' & Hrun & Hcases).
  assert (Hpoint : length (Coords.range_min_coords overlap_range dim_num)
                   = dim_num)
    by (unfold Coords.range_min_coords; by rewrite length_fmap, length_seq).
  exists t'. split.
  { rewrite <- Hrun. by destruct column_major. }
  destruct Hcases as [(m & Hm & Heq & Hranges) | (-> & Hnone)].
  - left. exists m. split; [exact Hm|]. split; [|exact Hranges].
    rewrite (cell_at_cell' dim_num tile cell_num Hsize m Hm). f_equal.
    apply cmp_of_zero in Heq.
    rewrite take_ge in Heq by lia.
    rewrite take_take, Nat.min_id in Heq. by rewrite <- Heq.
  - right. split; [reflexivity|]. intros c Hc Hcell.
    apply (Hnone c Hc).
    rewrite (cell_at_cell' dim_num tile cell_num Hsize c Hc) in Hcell.
    inversion Hcell as [Hcell']. rewrite Hcell'.
    apply (cmp_refl _ _ Hord).
Qed.

Lemma unary_resolver_finds_the_cell_witness :
  exists t',
    Unary.compute_cell_pos_ranges_unary Coords.cmp_row_order
      Coords.TILEDB_AS_CO_ROW_MAJOR 2 [1; 1; 1; 3; 2; 2; 3; 1]
      (mkOverlappingTile 4 [] None false PARTIAL_CONTIG (Some [2; 2; 2; 2]) 0)
    = Returns t'
    /\ ((exists m,
           0 <= m < 4
           /\ Coords.cell_at [1; 1; 1; 3; 2; 2; 3; 1] 2 m
              = Some (Coords.range_min_coords [2; 2; 2; 2] 2)
           /\ cell_pos_ranges_ t'
              = cell_pos_ranges_
                  (mkOverlappingTile 4 [] None false PARTIAL_CONTIG
                     (Some [2; 2; 2; 2]) 0) ++ [(m, m)])
        \/ (t' = mkOverlappingTile 4 [] None false PARTIAL_CONTIG
                   (Some [2; 2; 2; 2]) 0
            /\ forall c, 0 <= c < 4 ->
                 Coords.cell_at [1; 1; 1; 3; 2; 2; 3; 1] 2 c
                 <> Some (Coords.range_min_coords [2; 2; 2; 2] 2))).
Proof.
  apply (unary_resolver_finds_the_cell Coords.cmp_row_order false 2
           [1; 1; 1; 3; 2; 2; 3; 1] 4
           (mkOverlappingTile 4 [] None false PARTIAL_CONTIG
              (Some [2; 2; 2; 2]) 0) [2; 2; 2; 2]);
    [simpl; lia | reflexivity | split; reflexivity].
Defined.

(** ** The copies from the tile buffer, for sparse fragments *)

Lemma size_t_nonneg (z : Z) : 0 <= size_t z.
Proof. unfold size_t. apply Z.mod_pos_bound. reflexivity. Qed.

Section CopierFacts.

Import Copier.

Variable buffer_size : Z.
Hypothesis buffer_is_small : 0 <= buffer_size < two64.

(** A [memcpy] of no more than the free space stays inside the buffer. *)
Lemma memcpy_within (tiles_offset bytes_to_copy : Z) (c : copy_state) :
  within buffer_size c ->
  0 <= bytes_to_copy <= buffer_size - buffer_offset_ c ->
  within buffer_size (memcpy_to_buffer tiles_offset bytes_to_copy c)
  /\ buffer_offset_ (memcpy_to_buffer tiles_offset bytes_to_copy c)
     = buffer_offset_ c + bytes_to_copy.
Proof.
  intros (Ho & Hw) Hn. unfold memcpy_to_buffer, within.
  cbn [written_ buffer_offset_].
  rewrite (size_t_small (buffer_offset_ c + bytes_to_copy)) by lia.
  split; [|reflexivity]. split; [lia|].
  apply Forall_app. split; [exact Hw|].
  constructor; [|constructor]. unfold inside. simpl. lia.
Qed.

Lemma free_space (c : copy_state) :
  within buffer_size c ->
  size_t (buffer_size - buffer_offset_ c) = buffer_size - buffer_offset_ c.
Proof. intros (Ho & _). apply size_t_small. lia. Qed.

Lemma full_within (NDEBUG : bool) (attribute_id : nat) (c c' : copy_state) :
  within buffer_size c ->
  copy_from_tile_buffer_full NDEBUG attribute_id buffer_size c = Returns c' ->
  within buffer_size c' /\ buffer_offset_ c <= buffer_offset_ c'.
Proof.
  intros Hin Hrun. unfold copy_from_tile_buffer_full in Hrun.
  destruct (vec_at (tiles_sizes_ (state_ c)) attribute_id)
    as [tiles_size| | |]; try discriminate. cbn [obind] in Hrun.
  destruct (vec_at (tiles_offsets_ (state_ c)) attribute_id)
    as [tiles_offset| | |]; try discriminate. cbn [obind] in Hrun.
  destruct (assert_ NDEBUG _) as [[]| | |]; try discriminate.
  cbn [obind] in Hrun. rewrite (free_space c Hin) in Hrun.
  pose proof (size_t_nonneg (tiles_size - tiles_offset)) as Hleft.
  set (left := size_t (tiles_size - tiles_offset)) in *.
  set (n := Z.min left (buffer_size - buffer_offset_ c)) in *.
  assert (Hn : 0 <= n <= buffer_size - buffer_offset_ c)
    by (destruct Hin as (Ho & _); unfold n; lia).
  destruct (memcpy_within tiles_offset n c Hin Hn) as [Hin1 Hoff1].
  destruct (n =? 0); cbn [negb] in Hrun.
  - cbn [obind] in Hrun.
    destruct (left >? 0).
    + destruct (assert_ NDEBUG _) as [[]| | |]; try discriminate.
      cbn [obind] in Hrun.
      destruct (set_overflow _ _) as [s2| | |]; try discriminate.
      inversion Hrun; subst c'. split; [exact Hin|]. cbn. lia.
    + destruct (assert_ NDEBUG _) as [[]| | |]; try discriminate.
      cbn [obind] in Hrun.
      destruct (next_overlapping_tile _ _) as [s2| | |]; try discriminate.
      inversion Hrun; subst c'. split; [exact Hin|]. cbn. lia.
  - destruct (set_tiles_offset _ _ _) as [s1| | |]; try discriminate.
    cbn [obind] in Hrun.
    destruct (_ >? 0).
    + destruct (assert_ NDEBUG _) as [[]| | |]; try discriminate.
      cbn [obind] in Hrun. cbn [state_ with_state] in Hrun.
      destruct (set_overflow _ _) as [s2| | |]; try discriminate.
      inversion Hrun; subst c'. split; [exact Hin1|].
      cbn [buffer_offset_ with_state]. lia.
    + destruct (assert_ NDEBUG _) as [[]| | |]; try discriminate.
      cbn [obind] in Hrun. cbn [state_ with_state] in Hrun.
      destruct (next_overlapping_tile _ _) as [s2| | |]; try discriminate.
      inversion Hrun; subst c'. split; [exact Hin1|].
      cbn [buffer_offset_ with_state]. lia.
Qed.

Lemma partial_contig_sparse_within (NDEBUG : bool) (cell_size : Z)
    (var_size : bool) (attribute_id : nat) (c c' : copy_state) :
  within buffer_size c ->
  copy_from_tile_buffer_partial_contig_sparse NDEBUG cell_size var_size
    attribute_id buffer_size c = Returns c' ->
  within buffer_size c' /\ buffer_offset_ c <= buffer_offset_ c'.
Proof.
  intros Hin Hrun. unfold copy_from_tile_buffer_partial_contig_sparse in Hrun.
  rewrite (free_space c Hin) in Hrun.
  destruct (_ =? 0).
  { destruct (set_overflow _ _) as [s'| | |]; try discriminate.
    inversion Hrun; subst c'. split; [exact Hin | cbn; lia]. }
  destruct (TileIO.current_tile _ _) as [it| | |]; try discriminate.
  cbn [obind] in Hrun.
  destruct (assert_ NDEBUG _) as [[]| | |]; try discriminate.
  cbn [obind] in Hrun.
  destruct (cell_pos_ranges_ it.2) as [|[first second] ranges].
  { inversion Hrun; subst c'. split; [exact Hin | lia]. }
  destruct (assert_ NDEBUG _) as [[]| | |]; try discriminate.
  cbn [obind] in Hrun.
  destruct (vec_at (tiles_offsets_ (state_ c)) attribute_id)
    as [tiles_offset0| | |]; try discriminate. cbn [obind] in Hrun.
  match type of Hrun with
  | context [memcpy_to_buffer ?o (Z.min ?l ?f) c] =>
      pose proof (size_t_nonneg
                    (size_t ((second + 1) * cell_size - 1) - o + 1)) as Hleft;
      destruct (memcpy_within o (Z.min l f) c Hin) as [Hin1 Hoff1];
      [destruct Hin as (Ho & _); lia|]
  end.
  destruct (_ =? _).
  - destruct (vec_at (tiles_sizes_ _) _) as [ts| | |]; try discriminate.
    cbn [obind] in Hrun.
    destruct (set_tiles_offset _ _ _) as [s1| | |]; try discriminate.
    cbn [obind] in Hrun.
    destruct (next_overlapping_tile _ _) as [s2| | |]; try discriminate.
    inversion Hrun; subst c'. split; [exact Hin1|].
    cbn [buffer_offset_ with_state]. rewrite Hoff1.
    destruct Hin as (Ho & _). lia.
  - destruct (set_tiles_offset _ _ _) as [s1| | |]; try discriminate.
    cbn [obind] in Hrun.
    destruct (assert_ NDEBUG _) as [[]| | |]; try discriminate.
    cbn [obind] in Hrun.
    destruct (set_overflow _ _) as [s2| | |]; try discriminate.
    inversion Hrun; subst c'. split; [exact Hin1|].
    cbn [buffer_offset_ with_state]. rewrite Hoff1.
    destruct Hin as (Ho & _). lia.
Qed.

Lemma copy_cell_pos_ranges_within (NDEBUG : bool) (cell_size : Z)
    (attribute_id : nat) (ranges : list (Z * Z)) (rounds : nat) :
  forall (i buffer_free_space : Z) (c c' : copy_state),
    within buffer_size c ->
    buffer_free_space = buffer_size - buffer_offset_ c ->
    copy_cell_pos_ranges NDEBUG cell_size attribute_id buffer_size ranges i
      rounds buffer_free_space c = Returns c' ->
    within buffer_size c' /\ buffer_offset_ c <= buffer_offset_ c'.
Proof.
  induction rounds as [|rounds IH]; intros i free c c' Hin Hfree Hrun;
    cbn [copy_cell_pos_ranges] in Hrun.
  - inversion Hrun; subst c'. split; [exact Hin | lia].
  - destruct (at_ ranges i) as [[first second]|]; [|discriminate].
    destruct (vec_at (tiles_offsets_ (state_ c)) attribute_id)
      as [tiles_offset0| | |]; try discriminate. cbn [obind] in Hrun.
    set (o := if tiles_offset0 <? size_t (first * cell_size)
              then size_t (first * cell_size) else tiles_offset0) in *.
    pose proof (size_t_nonneg
                  (size_t ((second + 1) * cell_size - 1) - o + 1)) as Hleft.
    set (n := Z.min (size_t (size_t ((second + 1) * cell_size - 1) - o + 1))
                    free) in *.
    assert (Hn : 0 <= n <= buffer_size - buffer_offset_ c)
      by (destruct Hin as (Ho & _); unfold n; lia).
    destruct (memcpy_within o n c Hin Hn) as [Hin1 Hoff1].
    set (c1 := if negb (n =? 0) then memcpy_to_buffer o n c else c) in *.
    assert (Hc1 : within buffer_size c1
                  /\ buffer_offset_ c <= buffer_offset_ c1).
    { unfold c1. destruct (n =? 0); cbn [negb]; [split; [exact Hin|lia]|].
      split; [exact Hin1 | lia]. }
    destruct Hc1 as [Hc1 Hmono1].
    assert (Hfree' : (if negb (n =? 0)
                      then size_t (buffer_size - buffer_offset_ c1) else free)
                     = buffer_size - buffer_offset_ c1).
    { destruct (n =? 0) eqn:E; cbn [negb].
      - unfold c1. try rewrite E. cbn [negb]. exact Hfree.
      - by apply free_space. }
    rewrite Hfree' in Hrun.
    destruct (set_tiles_offset _ _ _) as [s1| | |]; try discriminate.
    cbn [obind] in Hrun.
    match type of Hrun with
    | obind ?m _ = _ => destruct m as [c2| | |] eqn:Hc2; try discriminate
    end.
    cbn [obind] in Hrun.
    assert (Hin2 : within buffer_size c2
                   /\ buffer_offset_ c2 = buffer_offset_ c1).
    { revert Hc2. destruct (_ && _).
      - destruct (vec_at (tiles_sizes_ s1) attribute_id) as [ts| | |];
          try discriminate. cbn [obind].
        destruct (set_tiles_offset _ _ _) as [s2| | |]; try discriminate.
        cbn [obind].
        destruct (next_overlapping_tile _ _) as [s3| | |]; try discriminate.
        cbn [obind].
        destruct (vec_set _ _ _) as [p| | |]; try discriminate.
        cbn [obind]. intros [= <-]. split; [exact Hc1 | reflexivity].
      - match goal with
        | |- context [negb (?a =? size_t (?b + 1))] =>
            destruct (negb (a =? size_t (b + 1)))
        end.
        + destruct (assert_ NDEBUG _) as [[]| | |]; try discriminate.
          cbn [obind].
          destruct (set_overflow _ _) as [s2| | |]; try discriminate.
          cbn [obind].
          destruct (vec_set _ _ _) as [p| | |]; try discriminate.
          cbn [obind]. intros [= <-]. split; [exact Hc1 | reflexivity].
        + intros [= <-]. split; [exact Hc1 | reflexivity]. }
    destruct Hin2 as [Hin2 Hoff2].
    destruct (IH (i + 1) (buffer_size - buffer_offset_ c1) c2 c' Hin2
                ltac:(by rewrite Hoff2) Hrun) as [Hin' Hmono'].
    split; [exact Hin' | lia].
Qed.

Lemma partial_non_contig_sparse_within (NDEBUG : bool) (cell_size : Z)
    (var_size : bool) (attribute_id : nat) (c c' : copy_state) :
  within buffer_size c ->
  copy_from_tile_buffer_partial_non_contig_sparse NDEBUG cell_size var_size
    attribute_id buffer_size c = Returns c' ->
  within buffer_size c' /\ buffer_offset_ c <= buffer_offset_ c'.
Proof.
  intros Hin Hrun.
  unfold copy_from_tile_buffer_partial_non_contig_sparse in Hrun.
  rewrite (free_space c Hin) in Hrun.
  destruct (_ =? 0).
  { destruct (set_overflow _ _) as [s'| | |]; try discriminate.
    inversion Hrun; subst c'. split; [exact Hin | cbn; lia]. }
  destruct (TileIO.current_tile _ _) as [it| | |]; try discriminate.
  cbn [obind] in Hrun.
  destruct (assert_ NDEBUG _) as [[]| | |]; try discriminate.
  cbn [obind] in Hrun.
  destruct (cell_pos_ranges_ it.2) as [|r ranges].
  - destruct (vec_at (tiles_sizes_ _) _) as [ts| | |]; try discriminate.
    cbn [obind] in Hrun.
    destruct (set_tiles_offset _ _ _) as [s1| | |]; try discriminate.
    cbn [obind] in Hrun.
    destruct (next_overlapping_tile _ _) as [s2| | |]; try discriminate.
    inversion Hrun; subst c'. split; [exact Hin | cbn; lia].
  - destruct (vec_at (cell_pos_range_pos_ c) attribute_id) as [i| | |];
      try discriminate. cbn [obind] in Hrun.
    eapply copy_cell_pos_ranges_within; [exact Hin | reflexivity |].
    exact Hrun.
Qed.

Lemma copy_from_tile_buffer_sparse_within (NDEBUG : bool)
    (cell_size : Z) (var_size : bool) (attribute_id : nat)
    (c c' : copy_state) :
  within buffer_size c ->
  copy_from_tile_buffer_sparse NDEBUG cell_size var_size attribute_id
    buffer_size c = Returns c' ->
  within buffer_size c' /\ buffer_offset_ c <= buffer_offset_ c'.
Proof.
  intros Hin Hrun. unfold copy_from_tile_buffer_sparse in Hrun.
  destruct (TileIO.current_tile _ _) as [it| | |]; try discriminate.
  cbn [obind] in Hrun. destruct (overlap_ it.2).
  - inversion Hrun; subst c'. split; [exact Hin | lia].
  - by eapply full_within.
  - by eapply partial_contig_sparse_within.
  - by eapply partial_non_contig_sparse_within.
Qed.

End CopierFacts.

(** ** The copies of a tile from the file, and the loops over the
    overlapping tiles of a sparse fragment *)

Section TileCopyFacts.

Import Copier TileCopy.

Variable buffer_size : Z.
Hypothesis buffer_is_small : 0 <= buffer_size < two64.

Lemma with_state_within (s : ReadState) (c : copy_state) :
  within buffer_size c -> within buffer_size (with_state s c).
Proof. intros H. exact H. Qed.

(** A direct read of no more than the free space stays inside the
    buffer. *)
Lemma read_into_buffer_within (E : TileIO.Env) (r : file_read)
    (c : copy_state) :
  within buffer_size c ->
  0 <= file_length r <= buffer_size - buffer_offset_ c ->
  within buffer_size (read_into_buffer E r c).2
  /\ buffer_offset_ (read_into_buffer E r c).2 = buffer_offset_ c.
Proof.
  intros (Ho & Hw) Hn. unfold read_into_buffer, within.
  cbn [snd written_ buffer_offset_]. split; [|reflexivity].
  split; [exact Ho|]. apply Forall_app. split; [exact Hw|].
  constructor; [|constructor]. unfold inside. simpl. lia.
Qed.

Lemma advance_within (attribute_id : nat) (length : Z) (c c' : copy_state) :
  within buffer_size c ->
  0 <= length <= buffer_size - buffer_offset_ c ->
  advance attribute_id length c = Returns c' ->
  within buffer_size c' /\ buffer_offset_ c <= buffer_offset_ c'.
Proof.
  intros (Ho & Hw) Hn Hrun. unfold advance in Hrun.
  destruct (next_overlapping_tile _ _) as [s| | |]; try discriminate.
  inversion Hrun; subst c'. unfold within. cbn [buffer_offset_ written_].
  rewrite (size_t_small (buffer_offset_ c + length)) by lia.
  split; [split; [lia | exact Hw] | lia].
Qed.

Lemma direct_read_within (E : TileIO.Env) (attribute_id : nat)
    (r : file_read) (c : copy_state) (st : status) (c' : copy_state) :
  within buffer_size c ->
  0 <= file_length r <= buffer_size - buffer_offset_ c ->
  (if bool_decide ((read_into_buffer E r c).1 <> TILEDB_RS_OK)
   then Returns (TILEDB_RS_ERR, (read_into_buffer E r c).2)
   else obind (advance attribute_id (file_length r) (read_into_buffer E r c).2)
              (fun c' => Returns (TILEDB_RS_OK, c')))
  = Returns (st, c') ->
  within buffer_size c' /\ buffer_offset_ c <= buffer_offset_ c'.
Proof.
  intros Hin Hn Hrun.
  destruct (read_into_buffer_within E r c Hin Hn) as [Hin1 Hoff1].
  destruct (read_into_buffer E r c) as [st1 c1]. cbn [fst snd] in *.
  destruct (bool_decide _).
  - injection Hrun as <- <-. split; [exact Hin1 | lia].
  - destruct (advance _ _ _) as [c2| | |] eqn:Hadv; try discriminate.
    cbn [obind] in Hrun. injection Hrun as <- <-.
    destruct (advance_within attribute_id (file_length r) c1 c2 Hin1
                ltac:(lia) Hadv).
    split; [assumption|lia].
Qed.

Lemma copy_tile_full_within (NDEBUG : bool) (E : TileIO.Env)
    (var_size : bool) (attribute_id : nat) (c : copy_state) (st : status)
    (c' : copy_state) :
  within buffer_size c ->
  copy_tile_full NDEBUG E var_size attribute_id buffer_size c
  = Returns (st, c') ->
  within buffer_size c' /\ buffer_offset_ c <= buffer_offset_ c'.
Proof.
  intros Hin Hrun. unfold copy_tile_full in Hrun.
  destruct (assert_ NDEBUG _) as [[]| | |]; try discriminate.
  cbn [obind] in Hrun. rewrite (free_space buffer_size buffer_is_small c Hin) in Hrun.
  destruct (_ =? 0).
  { destruct (set_overflow _ _) as [s'| | |]; try discriminate.
    inversion Hrun; subst. split; [exact Hin | cbn; lia]. }
  destruct (TileIO.current_tile _ _) as [it| | |]; try discriminate.
  cbn [obind] in Hrun.
  set (tile_size := size_t (cell_num_ it.2 * TileIO.cell_size E attribute_id))
    in *.
  pose proof (size_t_nonneg (cell_num_ it.2 * TileIO.cell_size E attribute_id))
    as Hts. fold tile_size in Hts.
  destruct (Z.leb_spec tile_size (buffer_size - buffer_offset_ c)) as [Hfit|Hno].
  - unfold copy_tile_full_direct in Hrun.
    destruct (assert_ NDEBUG _) as [[]| | |]; try discriminate.
    cbn [obind] in Hrun.
    destruct (TileIO.current_tile _ _) as [it'| | |]; try discriminate.
    cbn [obind] in Hrun.
    eapply (direct_read_within E attribute_id
              (mkFileRead attribute_id false _ tile_size));
      [exact Hin | simpl; lia | exact Hrun].
  - destruct (TileIO.get_tile_from_disk_cmp_none _ _ _) as [r| | |];
      try discriminate. cbn [obind] in Hrun.
    destruct (bool_decide _).
    + inversion Hrun; subst. split; [exact Hin | cbn; lia].
    + destruct (copy_from_tile_buffer_full _ _ _ _) as [c2| | |] eqn:Hcopy;
        try discriminate. cbn [obind] in Hrun. inversion Hrun; subst.
      apply (full_within buffer_size buffer_is_small _ _ _ _
               (with_state_within r.2 c Hin) Hcopy).
Qed.

Lemma copy_tile_partial_contig_sparse_within (NDEBUG : bool) (E : TileIO.Env)
    (var_size : bool) (attribute_id : nat) (c : copy_state) (st : status)
    (c' : copy_state) :
  within buffer_size c ->
  copy_tile_partial_contig_sparse NDEBUG E var_size attribute_id buffer_size c
  = Returns (st, c') ->
  within buffer_size c' /\ buffer_offset_ c <= buffer_offset_ c'.
Proof.
  intros Hin Hrun. unfold copy_tile_partial_contig_sparse in Hrun.
  destruct (TileIO.current_tile _ _) as [it| | |]; try discriminate.
  cbn [obind] in Hrun.
  destruct (assert_ NDEBUG _) as [[]| | |]; try discriminate.
  cbn [obind] in Hrun.
  destruct (cell_pos_ranges_ it.2) as [|cell_pos_range ranges].
  { inversion Hrun; subst. split; [exact Hin | lia]. }
  rewrite (free_space buffer_size buffer_is_small c Hin) in Hrun.
  set (result_size := size_t ((cell_pos_range.2 - cell_pos_range.1 + 1)
                              * TileIO.cell_size E attribute_id)) in *.
  pose proof (size_t_nonneg ((cell_pos_range.2 - cell_pos_range.1 + 1)
                             * TileIO.cell_size E attribute_id)) as Hrs.
  fold result_size in Hrs.
  destruct (Z.leb_spec result_size (buffer_size - buffer_offset_ c))
    as [Hfit|Hno].
  - destruct (copy_tile_partial_contig_direct_sparse _ _ _ _ _ _ _)
      as [[st1 c1]| | |] eqn:Hdirect; try discriminate.
    cbn [obind] in Hrun. inversion Hrun; subst. cbn [snd].
    unfold copy_tile_partial_contig_direct_sparse in Hdirect.
    destruct (TileIO.current_tile _ _) as [it'| | |]; try discriminate.
    cbn [obind] in Hdirect.
    destruct (assert_ NDEBUG _) as [[]| | |]; try discriminate.
    cbn [obind] in Hdirect.
    destruct (vec_at _ 0) as [r0| | |]; try discriminate.
    cbn [obind] in Hdirect.
    eapply (direct_read_within E attribute_id
              (mkFileRead attribute_id false _ result_size));
      [exact Hin | simpl; lia | exact Hdirect].
  - destruct (TileIO.get_tile_from_disk_cmp_none _ _ _) as [r| | |];
      try discriminate. cbn [obind] in Hrun.
    destruct (bool_decide _).
    + inversion Hrun; subst. split; [exact Hin | cbn; lia].
    + destruct (copy_from_tile_buffer_partial_contig_sparse _ _ _ _ _ _)
        as [c2| | |] eqn:Hcopy; try discriminate.
      cbn [obind] in Hrun. inversion Hrun; subst.
      apply (partial_contig_sparse_within buffer_size buffer_is_small _ _ _ _
               _ _ (with_state_within r.2 c Hin) Hcopy).
Qed.

Lemma copy_tile_partial_non_contig_sparse_within (NDEBUG : bool)
    (E : TileIO.Env) (var_size : bool) (attribute_id : nat) (c : copy_state)
    (st : status) (c' : copy_state) :
  within buffer_size c ->
  copy_tile_partial_non_contig_sparse NDEBUG E var_size attribute_id
    buffer_size c = Returns (st, c') ->
  within buffer_size c' /\ buffer_offset_ c <= buffer_offset_ c'.
Proof.
  intros Hin Hrun. unfold copy_tile_partial_non_contig_sparse in Hrun.
  destruct (TileIO.get_tile_from_disk_cmp_none _ _ _) as [r| | |];
    try discriminate. cbn [obind] in Hrun.
  destruct (bool_decide _).
  - inversion Hrun; subst. split; [exact Hin | cbn; lia].
  - destruct (copy_from_tile_buffer_partial_non_contig_sparse _ _ _ _ _ _)
      as [c2| | |] eqn:Hcopy; try discriminate.
    cbn [obind] in Hrun. inversion Hrun; subst.
    apply (partial_non_contig_sparse_within buffer_size buffer_is_small _ _ _
             _ _ _ (with_state_within r.2 c Hin) Hcopy).
Qed.

End TileCopyFacts.

Section SparseLoopFacts.

Import Copier TileCopy SparseLoops.

Variable get_next_overlapping_tile_sparse : ReadState -> outcome ReadState.
Variable NDEBUG : bool.
Variable E : TileIO.Env.
Variable var_size : bool.
Variable attribute_id : nat.
Variable buffer_size : Z.
Hypothesis buffer_is_small : 0 <= buffer_size < two64.

Lemma copy_pending_within (c c' : copy_state) :
  within buffer_size c ->
  copy_pending NDEBUG E var_size attribute_id buffer_size c = Returns c' ->
  within buffer_size c'.
Proof.
  intros Hin Hrun. unfold copy_pending in Hrun.
  destruct (vec_at _ _) as [to| | |]; try discriminate. cbn [obind] in Hrun.
  destruct (vec_at _ _) as [ts| | |]; try discriminate. cbn [obind] in Hrun.
  destruct (_ <? _).
  - by apply (copy_from_tile_buffer_sparse_within buffer_size buffer_is_small
                _ _ _ _ _ _ Hin Hrun).
  - by inversion Hrun; subst.
Qed.

Lemma unless_overflow_safe (c : copy_state)
    (continue : copy_state -> outcome loop_result) (r : loop_result) :
  within buffer_size c ->
  (forall r', continue c = Returns r' -> safe_result buffer_size r') ->
  unless_overflow attribute_id c continue = Returns r ->
  safe_result buffer_size r.
Proof.
  intros Hin Hcont Hrun. unfold unless_overflow in Hrun.
  destruct (vec_at _ _) as [overflow| | |]; try discriminate.
  cbn [obind] in Hrun. destruct overflow.
  - inversion Hrun; subst r. exact Hin.
  - by apply Hcont.
Qed.

Lemma gzip_loop_safe (fuel : nat) :
  forall (c : copy_state) (r : loop_result),
    within buffer_size c ->
    read_sparse_attr_cmp_gzip_loop get_next_overlapping_tile_sparse NDEBUG E
      var_size attribute_id buffer_size fuel c = Returns r ->
    safe_result buffer_size r.
Proof.
  induction fuel as [|fuel IH]; intros c r Hin Hrun;
    cbn [read_sparse_attr_cmp_gzip_loop] in Hrun; [discriminate|].
  destruct (copy_pending _ _ _ _ _ _) as [c1| | |] eqn:Hpending;
    try discriminate. cbn [obind] in Hrun.
  pose proof (copy_pending_within _ _ Hin Hpending) as Hin1.
  apply (unless_overflow_safe _ _ _ Hin1) in Hrun; [exact Hrun|].
  clear Hrun. intros r' Hrun.
  destruct (compute_next _ _ _) as [s2| | |]; try discriminate.
  cbn [obind] in Hrun.
  destruct (TileIO.current_tile _ _) as [it| | |]; try discriminate.
  cbn [obind] in Hrun.
  destruct (TileIO.fetch_and_decompress _ _ _ _) as [f| | |];
    try discriminate. cbn [obind] in Hrun.
  destruct f.1.
  { inversion Hrun; subst r'. split; [cbn; lia | exact (proj2 Hin1)]. }
  pose proof (with_state_within buffer_size f.2 c1 Hin1) as Hin3.
  destruct (overlap_ it.2).
  - inversion Hrun; subst r'. exact Hin3.
  - destruct (copy_from_tile_buffer_full _ _ _ _) as [c4| | |] eqn:Hcopy;
      try discriminate. cbn [obind] in Hrun.
    destruct (full_within buffer_size buffer_is_small _ _ _ _ Hin3 Hcopy)
      as [Hin4 _].
    apply (unless_overflow_safe _ _ _ Hin4) in Hrun; [exact Hrun|].
    intros r''. by apply IH.
  - destruct (copy_from_tile_buffer_partial_contig_sparse _ _ _ _ _ _)
      as [c4| | |] eqn:Hcopy; try discriminate. cbn [obind] in Hrun.
    destruct (partial_contig_sparse_within buffer_size buffer_is_small _ _ _
                _ _ _ Hin3 Hcopy) as [Hin4 _].
    apply (unless_overflow_safe _ _ _ Hin4) in Hrun; [exact Hrun|].
    intros r''. by apply IH.
  - destruct (copy_from_tile_buffer_partial_non_contig_sparse _ _ _ _ _ _)
      as [c4| | |] eqn:Hcopy; try discriminate. cbn [obind] in Hrun.
    destruct (partial_non_contig_sparse_within buffer_size buffer_is_small _
                _ _ _ _ _ Hin3 Hcopy) as [Hin4 _].
    apply (unless_overflow_safe _ _ _ Hin4) in Hrun; [exact Hrun|].
    intros r''. by apply IH.
Qed.

Lemma copy_command_within (it : nat * OverlappingTile) (c : copy_state)
    (st : status) (c' : copy_state) :
  within buffer_size c ->
  copy_command NDEBUG E var_size attribute_id buffer_size it c
  = Returns (Some (st, c')) ->
  within buffer_size c'.
Proof.
  intros Hin Hrun. unfold copy_command in Hrun.
  destruct (_ && _).
  - destruct (copy_from_tile_buffer_sparse _ _ _ _ _ _) as [c2| | |] eqn:Hcopy;
      try discriminate. cbn [obind] in Hrun. inversion Hrun; subst.
    by apply (copy_from_tile_buffer_sparse_within buffer_size buffer_is_small
                _ _ _ _ _ _ Hin Hcopy).
  - destruct (overlap_ it.2); [discriminate| | |].
    + destruct (copy_tile_full _ _ _ _ _ _) as [[st2 c2]| | |] eqn:Hcopy;
        try discriminate. cbn [obind] in Hrun. inversion Hrun; subst.
      by apply (copy_tile_full_within buffer_size buffer_is_small _ _ _ _ _ _
                  _ Hin Hcopy).
    + destruct (copy_tile_partial_contig_sparse _ _ _ _ _ _)
        as [[st2 c2]| | |] eqn:Hcopy; try discriminate.
      cbn [obind] in Hrun. inversion Hrun; subst.
      by apply (copy_tile_partial_contig_sparse_within buffer_size
                  buffer_is_small _ _ _ _ _ _ _ Hin Hcopy).
    + destruct (copy_tile_partial_non_contig_sparse _ _ _ _ _ _)
        as [[st2 c2]| | |] eqn:Hcopy; try discriminate.
      cbn [obind] in Hrun. inversion Hrun; subst.
      by apply (copy_tile_partial_non_contig_sparse_within buffer_size
                  buffer_is_small _ _ _ _ _ _ _ Hin Hcopy).
Qed.

Lemma none_loop_safe (fuel : nat) :
  forall (c : copy_state) (r : loop_result),
    within buffer_size c ->
    read_sparse_attr_cmp_none_loop get_next_overlapping_tile_sparse NDEBUG E
      var_size attribute_id buffer_size fuel c = Returns r ->
    safe_result buffer_size r.
Proof.
  induction fuel as [|fuel IH]; intros c r Hin Hrun;
    cbn [read_sparse_attr_cmp_none_loop] in Hrun; [discriminate|].
  destruct (copy_pending _ _ _ _ _ _) as [c1| | |] eqn:Hpending;
    try discriminate. cbn [obind] in Hrun.
  pose proof (copy_pending_within _ _ Hin Hpending) as Hin1.
  apply (unless_overflow_safe _ _ _ Hin1) in Hrun; [exact Hrun|].
  clear Hrun. intros r' Hrun.
  destruct (compute_next _ _ _) as [s2| | |]; try discriminate.
  cbn [obind] in Hrun.
  destruct (TileIO.current_tile _ _) as [it| | |]; try discriminate.
  cbn [obind] in Hrun.
  destruct (copy_command _ _ _ _ _ _ _) as [[[st c4]|]| | |] eqn:Hcopy;
    try discriminate; cbn [obind] in Hrun.
  - pose proof (copy_command_within _ _ _ _
                  (with_state_within buffer_size s2 c1 Hin1) Hcopy) as Hin4.
    destruct (bool_decide _).
    + inversion Hrun; subst r'. split; [cbn; lia | exact (proj2 Hin4)].
    + apply (unless_overflow_safe _ _ _ Hin4) in Hrun; [exact Hrun|].
      intros r''. by apply IH.
  - inversion Hrun; subst r'. exact Hin1.
Qed.

End SparseLoopFacts.

(** X13.  The reads of a fixed-sized attribute of a sparse fragment never
    write outside the caller's buffer: whenever [read_sparse_attr_cmp_gzip<T>]
    or [read_sparse_attr_cmp_none<T>] returns, every [memcpy] and every
    direct file read it made lies inside the [buffer_size] bytes of the
    buffer, and the size it returns is at most [buffer_size]. *)
Theorem sparse_reads_stay_inside_the_buffer (gzip : bool)
    (get_next_overlapping_tile_sparse : ReadState -> outcome ReadState)
    (NDEBUG : bool) (E : TileIO.Env) (var_size : bool) (attribute_id : nat)
    (buffer_size : Z) (fuel : nat) (s : ReadState)
    (cell_pos_range_pos : list Z) (st : status) (size : Z)
    (c' : Copier.copy_state) :
  0 <= buffer_size < two64 ->
  (if gzip
   then SparseLoops.read_sparse_attr_cmp_gzip
   else SparseLoops.read_sparse_attr_cmp_none)
    get_next_overlapping_tile_sparse NDEBUG E var_size attribute_id
    buffer_size fuel s cell_pos_range_pos
  = Returns (st, size, c') ->
  0 <= size <= buffer_size
  /\ Forall (Copier.inside buffer_size) (Copier.written_ c').
Proof.
  intros Hsmall Hrun.
  assert (Hin : Copier.within buffer_size
                  (Copier.mkCopyState s cell_pos_range_pos 0 []))
    by (split; [simpl; lia | constructor]).
  destruct gzip.
  - exact (gzip_loop_safe get_next_overlapping_tile_sparse NDEBUG E var_size
             attribute_id buffer_size Hsmall fuel _ _ Hin Hrun).
  - exact (none_loop_safe get_next_overlapping_tile_sparse NDEBUG E var_size
             attribute_id buffer_size Hsmall fuel _ _ Hin Hrun).
Qed.

Lemma sparse_reads_stay_inside_the_buffer_witness :
  exists st size c',
    SparseLoops.read_sparse_attr_cmp_gzip (fun s => Returns s) false
      (one_gzip_tile 16) false 0 10 2 at_first_tile [0; 0]
    = Returns (st, size, c')
    /\ 0 <= size <= 10
    /\ Forall (Copier.inside 10) (Copier.written_ c').
Proof.
  do 3 eexists. split; [reflexivity|].
  apply (sparse_reads_stay_inside_the_buffer true (fun s => Returns s) false
           (one_gzip_tile 16) false 0 10 2 at_first_tile [0; 0]
           TILEDB_RS_OK);
    [unfold two64; lia | reflexivity].
Defined.

Lemma vec_at_some {A : Type} (v : list A) (i : nat) (x : A) :
  v !! i = Some x -> vec_at v i = Returns x.
Proof. intros E. unfold vec_at. by rewrite E. Qed.

Lemma vec_set_in_bounds {A : Type} (v : list A) (i : nat) (x : A) :
  (i < length v)%nat -> vec_set v i x = Returns (<[i := x]> v).
Proof.
  intros Hi. unfold vec_set. destruct (Nat.ltb_spec i (length v)); [|lia].
  reflexivity.
Qed.

(** X14.  [copy_from_tile_buffer_full] copies what fits: with [left]
    bytes of the tile still to copy and [free] bytes free in the caller's
    buffer, it makes one [memcpy] of [min(left, free)] bytes (none when the
    buffer is full), advances the buffer offset and the tile offset by as
    much, and then either flags the overflow of the attribute ([free < left])
    or moves the cursor of the attribute to the next overlapping tile
    ([left <= free]).  No assertion fails. *)
Theorem copy_from_tile_buffer_full_copies_what_fits (NDEBUG : bool)
    (attribute_id : nat) (buffer_size : Z) (c : Copier.copy_state)
    (tiles_size tiles_offset p : Z) :
  0 <= Copier.buffer_offset_ c <= buffer_size ->
  buffer_size < two64 ->
  tiles_sizes_ (Copier.state_ c) !! attribute_id = Some tiles_size ->
  tiles_offsets_ (Copier.state_ c) !! attribute_id = Some tiles_offset ->
  0 <= tiles_offset < tiles_size ->
  tiles_size < two64 ->
  overlapping_tiles_pos_ (Copier.state_ c) !! attribute_id = Some p ->
  (attribute_id < length (overflow_ (Copier.state_ c)))%nat ->
  exists c',
    Copier.copy_from_tile_buffer_full NDEBUG attribute_id buffer_size c
    = Returns c'
    /\ Copier.buffer_offset_ c'
       = Copier.buffer_offset_ c
         + Z.min (tiles_size - tiles_offset)
                 (buffer_size - Copier.buffer_offset_ c)
    /\ tiles_offsets_ (Copier.state_ c') !! attribute_id
       = Some (tiles_offset
               + Z.min (tiles_size - tiles_offset)
                       (buffer_size - Copier.buffer_offset_ c))
    /\ Copier.written_ c'
       = Copier.written_ c
         ++ (if buffer_size - Copier.buffer_offset_ c =? 0 then []
             else [Copier.FromTile
                     (mkMemcpy (Copier.buffer_offset_ c) tiles_offset
                        (Z.min (tiles_size - tiles_offset)
                               (buffer_size - Copier.buffer_offset_ c)))])
    /\ if tiles_size - tiles_offset <=? buffer_size - Copier.buffer_offset_ c
       then overlapping_tiles_pos_ (Copier.state_ c') !! attribute_id
            = Some (p + 1)
            /\ overflow_ (Copier.state_ c') = overflow_ (Copier.state_ c)
       else overflow_ (Copier.state_ c') !! attribute_id = Some true
            /\ overlapping_tiles_pos_ (Copier.state_ c')
               = overlapping_tiles_pos_ (Copier.state_ c).
Proof.
  intros Hoff Hsmall Hsize Hoffset Htile Htsmall Hpos Hflag.
  unfold Copier.copy_from_tile_buffer_full.
  rewrite (vec_at_some _ _ _ Hsize), (vec_at_some _ _ _ Hoffset).
  cbn [obind].
  rewrite (size_t_small (tiles_size - tiles_offset)) by lia.
  rewrite (size_t_small (buffer_size - Copier.buffer_offset_ c)) by lia.
  set (left := tiles_size - tiles_offset) in *.
  set (free := buffer_size - Copier.buffer_offset_ c) in *.
  unfold assert_ at 1.
  destruct (Z.eqb_spec left 0) as [E|_]; [lia|]. cbn [negb].
  rewrite orb_true_r. cbn [obind].
  assert (Hto : (attribute_id < length (tiles_offsets_ (Copier.state_ c)))%nat)
    by (eapply lookup_lt_Some; eassumption).
  assert (Hp : (attribute_id
                < length (overlapping_tiles_pos_ (Copier.state_ c)))%nat)
    by (eapply lookup_lt_Some; eassumption).
  destruct (Z.eqb_spec free 0) as [Hfull|Hroom].
  - (* the buffer is full: nothing is copied *)
    replace (Z.min left free) with 0 by lia. cbn [Z.eqb negb obind].
    destruct (Z.gtb_spec left 0); [|lia].
    unfold assert_. destruct (Z.eqb_spec (Copier.buffer_offset_ c) buffer_size);
      [|lia]. rewrite orb_true_r. cbn [obind].
    unfold set_overflow. rewrite (vec_set_in_bounds _ _ _ Hflag). cbn [obind].
    eexists. split; [reflexivity|].
    cbn [Copier.buffer_offset_ Copier.state_ Copier.with_state
           Copier.written_ tiles_offsets_ overflow_ overlapping_tiles_pos_
           with_overflow].
    split; [lia|]. split; [rewrite Hoffset; f_equal; lia|].
    split; [by rewrite app_nil_r|].
    destruct (Z.leb_spec left free); [lia|].
    split; [by apply list_lookup_insert_eq | reflexivity].
  - set (n := Z.min left free) in *.
    assert (Hn : 0 < n) by (unfold n; lia).
    destruct (Z.eqb_spec n 0); [lia|]. cbn [negb].
    unfold set_tiles_offset. rewrite (vec_set_in_bounds _ _ _ Hto).
    cbn [obind].
    rewrite (size_t_small (tiles_offset + n)) by (unfold n; lia).
    rewrite (size_t_small (left - n)) by (unfold n, left; lia).
    unfold Copier.memcpy_to_buffer.
    cbn [Copier.state_ Copier.with_state Copier.buffer_offset_].
    rewrite (size_t_small (Copier.buffer_offset_ c + n))
      by (unfold n, free; lia).
    destruct (Z.gtb_spec (left - n) 0) as [Hmore|Hdone].
    + (* overflow *)
      unfold assert_.
      destruct (Z.eqb_spec (Copier.buffer_offset_ c + n) buffer_size);
        [|unfold n, free in *; lia].
      rewrite orb_true_r. cbn [obind].
      unfold set_overflow. cbn [overflow_ with_tiles_offsets].
      rewrite (vec_set_in_bounds _ _ _ Hflag). cbn [obind].
      eexists. split; [reflexivity|].
      cbn [Copier.buffer_offset_ Copier.state_ Copier.with_state
             Copier.written_ tiles_offsets_ overflow_ overlapping_tiles_pos_
             with_overflow with_tiles_offsets].
      split; [reflexivity|].
      split; [by apply list_lookup_insert_eq|]. split; [reflexivity|].
      destruct (Z.leb_spec left free); [unfold n in *; lia|].
      split; [by apply list_lookup_insert_eq | reflexivity].
    + (* the tile is done *)
      unfold assert_.
      destruct (Z.eqb_spec (tiles_offset + n) tiles_size);
        [|unfold n, left in *; lia].
      rewrite orb_true_r. cbn [obind].
      unfold next_overlapping_tile.
      cbn [overlapping_tiles_pos_ with_tiles_offsets].
      rewrite (vec_at_some _ _ _ Hpos). cbn [obind].
      rewrite (vec_set_in_bounds _ _ _ Hp). cbn [obind].
      eexists. split; [reflexivity|].
      cbn [Copier.buffer_offset_ Copier.state_ Copier.with_state
             Copier.written_ tiles_offsets_ overflow_ overlapping_tiles_pos_
             with_overlapping_tiles_pos with_tiles_offsets].
      split; [reflexivity|].
      split; [by apply list_lookup_insert_eq|]. split; [reflexivity|].
      destruct (Z.leb_spec left free); [|unfold n in *; lia].
      split; [by apply list_lookup_insert_eq | reflexivity].
Qed.

Lemma copy_from_tile_buffer_full_copies_what_fits_witness :
  exists c',
    Copier.copy_from_tile_buffer_full false 0 10
      (Copier.mkCopyState
         (mkReadState [false; false]
            [mkOverlappingTile 4 [] None false FULL (Some [0; 1; 0; 1]) 0]
            [0; 0] [4; 0] [16; 0] [0] [0] [] [] [])
         [0; 0] 2 [])
    = Returns c'
    /\ Copier.buffer_offset_ c' = 2 + Z.min (16 - 4) (10 - 2)
    /\ tiles_offsets_ (Copier.state_ c') !! 0%nat
       = Some (4 + Z.min (16 - 4) (10 - 2))
    /\ Copier.written_ c'
       = [] ++ (if 10 - 2 =? 0 then []
                else [Copier.FromTile
                        (mkMemcpy 2 4 (Z.min (16 - 4) (10 - 2)))])
    /\ if 16 - 4 <=? 10 - 2
       then overlapping_tiles_pos_ (Copier.state_ c') !! 0%nat = Some (0 + 1)
            /\ overflow_ (Copier.state_ c') = [false; false]
       else overflow_ (Copier.state_ c') !! 0%nat = Some true
            /\ overlapping_tiles_pos_ (Copier.state_ c') = [0; 0].
Proof.
  apply (copy_from_tile_buffer_full_copies_what_fits false 0 10
           (Copier.mkCopyState
              (mkReadState [false; false]
                 [mkOverlappingTile 4 [] None false FULL (Some [0; 1; 0; 1]) 0]
                 [0; 0] [4; 0] [16; 0] [0] [0] [] [] [])
              [0; 0] 2 []) 16 4 0);
    try reflexivity; try (unfold two64; simpl; lia); simpl; lia.
Defined.

Lemma current_tile_at (attribute_id : nat) (s : ReadState) (p : Z)
    (t : OverlappingTile) :
  overlapping_tiles_pos_ s !! attribute_id = Some p ->
  0 <= p ->
  overlapping_tiles_ s !! Z.to_nat p = Some t ->
  TileIO.current_tile attribute_id s = Returns (Z.to_nat p, t).
Proof.
  intros Hp Hpos Ht. unfold TileIO.current_tile.
  rewrite (vec_at_some _ _ _ Hp). cbn [obind].
  destruct (Z.ltb_spec p 0); [lia|].
  rewrite (vec_at_some _ _ _ Ht). reflexivity.
Qed.

(** X15.  When a full tile fits into the free space of the caller's
    buffer, [copy_tile_full] reads it from the file straight into the buffer,
    at the buffer offset: one read of the bytes of the tile, at the file
    offset of the tile; the tile buffer of the attribute is not used.  If the
    read succeeds the buffer offset advances by the size of the tile and the
    cursor of the attribute moves to the next overlapping tile; if it fails,
    the function returns [TILEDB_RS_ERR] and leaves the offset and the cursor
    as they were. *)
Theorem copy_tile_full_reads_into_the_buffer (NDEBUG : bool)
    (E : TileIO.Env) (attribute_id : nat) (buffer_size : Z)
    (c : Copier.copy_state) (p : Z) (t : OverlappingTile) :
  0 <= Copier.buffer_offset_ c < buffer_size ->
  buffer_size < two64 ->
  overlapping_tiles_pos_ (Copier.state_ c) !! attribute_id = Some p ->
  0 <= p ->
  overlapping_tiles_ (Copier.state_ c) !! Z.to_nat p = Some t ->
  0 <= cell_num_ t * TileIO.cell_size E attribute_id
    <= buffer_size - Copier.buffer_offset_ c ->
  exists st c',
    TileCopy.copy_tile_full NDEBUG E false attribute_id buffer_size c
    = Returns (st, c')
    /\ file_reads_ (Copier.state_ c')
       = file_reads_ (Copier.state_ c)
         ++ [mkFileRead attribute_id false
               (pos_ t * TileIO.tile_size E attribute_id)
               (cell_num_ t * TileIO.cell_size E attribute_id)]
    /\ Copier.written_ c'
       = Copier.written_ c
         ++ [Copier.FromFile (Copier.buffer_offset_ c)
               (mkFileRead attribute_id false
                  (pos_ t * TileIO.tile_size E attribute_id)
                  (cell_num_ t * TileIO.cell_size E attribute_id))]
    /\ tiles_sizes_ (Copier.state_ c') = tiles_sizes_ (Copier.state_ c)
    /\ tiles_offsets_ (Copier.state_ c') = tiles_offsets_ (Copier.state_ c)
    /\ if TileIO.read_from_file E
            (mkFileRead attribute_id false
               (pos_ t * TileIO.tile_size E attribute_id)
               (cell_num_ t * TileIO.cell_size E attribute_id))
       then st = TILEDB_RS_OK
            /\ Copier.buffer_offset_ c'
               = Copier.buffer_offset_ c
                 + cell_num_ t * TileIO.cell_size E attribute_id
            /\ overlapping_tiles_pos_ (Copier.state_ c') !! attribute_id
               = Some (p + 1)
       else st = TILEDB_RS_ERR
            /\ Copier.buffer_offset_ c' = Copier.buffer_offset_ c
            /\ overlapping_tiles_pos_ (Copier.state_ c')
               = overlapping_tiles_pos_ (Copier.state_ c).
Proof.
  intros Hoff Hsmall Hp Hpos Ht Hfit.
  unfold TileCopy.copy_tile_full. unfold assert_ at 1.
  cbn [negb]. rewrite orb_true_r. cbn [obind].
  rewrite (size_t_small (buffer_size - Copier.buffer_offset_ c)) by lia.
  destruct (Z.eqb_spec (buffer_size - Copier.buffer_offset_ c) 0); [lia|].
  rewrite (current_tile_at _ _ _ _ Hp Hpos Ht). cbn [obind snd].
  rewrite (size_t_small (cell_num_ t * TileIO.cell_size E attribute_id))
    by lia.
  set (tile_size := cell_num_ t * TileIO.cell_size E attribute_id) in *.
  destruct (Z.leb_spec tile_size (buffer_size - Copier.buffer_offset_ c));
    [|lia].
  unfold TileCopy.copy_tile_full_direct.
  rewrite (size_t_small (buffer_size - Copier.buffer_offset_ c)) by lia.
  unfold assert_.
  destruct (Z.leb_spec tile_size (buffer_size - Copier.buffer_offset_ c));
    [|lia].
  rewrite orb_true_r. cbn [obind].
  rewrite (current_tile_at _ _ _ _ Hp Hpos Ht). cbn [obind snd].
  unfold TileCopy.read_into_buffer, TileIO.do_read. cbn [fst snd].
  set (r := mkFileRead attribute_id false
              (pos_ t * TileIO.tile_size E attribute_id) tile_size).
  destruct (TileIO.read_from_file E r).
  - rewrite bool_decide_false by (intros Hne; by apply Hne).
    unfold TileCopy.advance, next_overlapping_tile.
    cbn [Copier.state_ overlapping_tiles_pos_ with_file_reads].
    rewrite (vec_at_some _ _ _ Hp). cbn [obind].
    rewrite vec_set_in_bounds by (eapply lookup_lt_Some; eassumption).
    cbn [obind]. do 2 eexists. split; [reflexivity|].
    cbn [Copier.state_ Copier.written_ Copier.buffer_offset_ file_reads_
           tiles_sizes_ tiles_offsets_ overlapping_tiles_pos_
           with_overlapping_tiles_pos with_file_reads
           Copier.cell_pos_range_pos_].
    rewrite (size_t_small (Copier.buffer_offset_ c + tile_size)) by lia.
    repeat (split; [reflexivity|]).
    apply list_lookup_insert_eq. eapply lookup_lt_Some; eassumption.
  - rewrite bool_decide_true by discriminate.
    do 2 eexists. split; [reflexivity|].
    cbn [Copier.state_ Copier.written_ Copier.buffer_offset_ file_reads_
           tiles_sizes_ tiles_offsets_ overlapping_tiles_pos_
           with_file_reads]. repeat split.
Qed.

Lemma copy_tile_full_reads_into_the_buffer_witness :
  exists st c',
    TileCopy.copy_tile_full false (one_gzip_tile 16) false 0 20
      (Copier.mkCopyState at_first_tile [0; 0] 2 [])
    = Returns (st, c')
    /\ file_reads_ (Copier.state_ c')
       = [] ++ [mkFileRead 0 false (0 * 16) (4 * 4)]
    /\ Copier.written_ c'
       = [] ++ [Copier.FromFile 2 (mkFileRead 0 false (0 * 16) (4 * 4))]
    /\ tiles_sizes_ (Copier.state_ c') = [0; 0]
    /\ tiles_offsets_ (Copier.state_ c') = [0; 0]
    /\ if TileIO.read_from_file (one_gzip_tile 16)
            (mkFileRead 0 false (0 * 16) (4 * 4))
       then st = TILEDB_RS_OK
            /\ Copier.buffer_offset_ c' = 2 + 4 * 4
            /\ overlapping_tiles_pos_ (Copier.state_ c') !! 0%nat
               = Some (0 + 1)
       else st = TILEDB_RS_ERR
            /\ Copier.buffer_offset_ c' = 2
            /\ overlapping_tiles_pos_ (Copier.state_ c') = [0; 0].
Proof.
  apply (copy_tile_full_reads_into_the_buffer false (one_gzip_tile 16) 0 20
           (Copier.mkCopyState at_first_tile [0; 0] 2 []) 0
           (mkOverlappingTile 4 [] None false FULL (Some [0; 1; 0; 1]) 0));
    try reflexivity; try (unfold two64; simpl; lia); simpl; lia.
Defined.

(** X16.  [copy_tile_partial_contig_sparse] does not look at the status of
    the direct read: when the cells of the one range of the tile fit into the
    free space of the caller's buffer, it returns [TILEDB_RS_OK] whether the
    read from the file succeeds or fails.  After a failed read the buffer
    offset, the cursor of the attribute and its overflow flag are as they
    were. *)
Theorem copy_tile_partial_contig_sparse_drops_the_status (NDEBUG : bool)
    (E : TileIO.Env) (attribute_id : nat) (buffer_size : Z)
    (c : Copier.copy_state) (p : Z) (t : OverlappingTile) (first second : Z) :
  0 <= Copier.buffer_offset_ c <= buffer_size ->
  buffer_size < two64 ->
  overlapping_tiles_pos_ (Copier.state_ c) !! attribute_id = Some p ->
  0 <= p ->
  overlapping_tiles_ (Copier.state_ c) !! Z.to_nat p = Some t ->
  cell_pos_ranges_ t = [(first, second)] ->
  0 <= (second - first + 1) * TileIO.cell_size E attribute_id
    <= buffer_size - Copier.buffer_offset_ c ->
  exists c',
    TileCopy.copy_tile_partial_contig_sparse NDEBUG E false attribute_id
      buffer_size c
    = Returns (TILEDB_RS_OK, c')
    /\ overflow_ (Copier.state_ c') = overflow_ (Copier.state_ c)
    /\ if TileIO.read_from_file E
            (mkFileRead attribute_id false
               (pos_ t * TileIO.tile_size E attribute_id
                + size_t (first * TileIO.cell_size E attribute_id))
               ((second - first + 1) * TileIO.cell_size E attribute_id))
       then Copier.buffer_offset_ c'
            = Copier.buffer_offset_ c
              + (second - first + 1) * TileIO.cell_size E attribute_id
            /\ overlapping_tiles_pos_ (Copier.state_ c') !! attribute_id
               = Some (p + 1)
       else Copier.buffer_offset_ c' = Copier.buffer_offset_ c
            /\ overlapping_tiles_pos_ (Copier.state_ c')
               = overlapping_tiles_pos_ (Copier.state_ c).
Proof.
  intros Hoff Hsmall Hp Hpos Ht Hranges Hfit.
  unfold TileCopy.copy_tile_partial_contig_sparse.
  rewrite (current_tile_at _ _ _ _ Hp Hpos Ht). cbn [obind snd].
  rewrite Hranges. unfold assert_ at 1. cbn [length Nat.leb].
  rewrite orb_true_r. cbn [obind fst snd].
  rewrite (size_t_small (buffer_size - Copier.buffer_offset_ c)) by lia.
  rewrite (size_t_small ((second - first + 1)
                         * TileIO.cell_size E attribute_id)) by lia.
  set (result_size := (second - first + 1) * TileIO.cell_size E attribute_id)
    in *.
  destruct (Z.leb_spec result_size (buffer_size - Copier.buffer_offset_ c));
    [|lia].
  unfold TileCopy.copy_tile_partial_contig_direct_sparse.
  rewrite (current_tile_at _ _ _ _ Hp Hpos Ht). cbn [obind snd].
  unfold assert_. cbn [negb]. rewrite orb_true_r. cbn [obind].
  rewrite Hranges. unfold vec_at at 1. cbn [lookup list_lookup obind fst].
  unfold TileCopy.read_into_buffer, TileIO.do_read. cbn [fst snd].
  set (r := mkFileRead attribute_id false _ result_size).
  destruct (TileIO.read_from_file E r).
  - rewrite bool_decide_false by (intros Hne; by apply Hne).
    unfold TileCopy.advance, next_overlapping_tile.
    cbn [Copier.state_ overlapping_tiles_pos_ with_file_reads].
    rewrite (vec_at_some _ _ _ Hp). cbn [obind].
    rewrite vec_set_in_bounds by (eapply lookup_lt_Some; eassumption).
    cbn [obind snd]. eexists. split; [reflexivity|].
    cbn [Copier.state_ Copier.buffer_offset_ overflow_
           overlapping_tiles_pos_ with_overlapping_tiles_pos with_file_reads].
    rewrite (size_t_small (Copier.buffer_offset_ c + result_size)) by lia.
    split; [reflexivity|]. split; [reflexivity|].
    apply list_lookup_insert_eq. eapply lookup_lt_Some; eassumption.
  - rewrite bool_decide_true by discriminate. cbn [obind snd].
    eexists. split; [reflexivity|].
    cbn [Copier.state_ Copier.buffer_offset_ overflow_
           overlapping_tiles_pos_ with_file_reads]. repeat split.
Qed.

Lemma copy_tile_partial_contig_sparse_drops_the_status_witness :
  exists c',
    TileCopy.copy_tile_partial_contig_sparse false
      (TileIO.mkEnv 1 (fun _ => 4) (fun _ => 16) 4 1 [[0]; [0]] [] []
         (fun _ _ => 16) (fun _ => false) (fun _ _ => (true, 16)))
      false 0 20
      (Copier.mkCopyState
         (mkReadState [false; false]
            [mkOverlappingTile 4 [(1, 2)] None false PARTIAL_CONTIG
               (Some [0; 1; 0; 1]) 0]
            [0; 0] [0; 0] [0; 0] [0] [0] [] [] [])
         [0; 0] 2 [])
    = Returns (TILEDB_RS_OK, c')
    /\ overflow_ (Copier.state_ c') = [false; false]
    /\ if false
       then Copier.buffer_offset_ c' = 2 + (2 - 1 + 1) * 4
            /\ overlapping_tiles_pos_ (Copier.state_ c') !! 0%nat
               = Some (0 + 1)
       else Copier.buffer_offset_ c' = 2
            /\ overlapping_tiles_pos_ (Copier.state_ c') = [0; 0].
Proof.
  apply (copy_tile_partial_contig_sparse_drops_the_status false
           (TileIO.mkEnv 1 (fun _ => 4) (fun _ => 16) 4 1 [[0]; [0]] [] []
              (fun _ _ => 16) (fun _ => false) (fun _ _ => (true, 16)))
           0 20
           (Copier.mkCopyState
              (mkReadState [false; false]
                 [mkOverlappingTile 4 [(1, 2)] None false PARTIAL_CONTIG
                    (Some [0; 1; 0; 1]) 0]
                 [0; 0] [0; 0] [0; 0] [0] [0] [] [] [])
              [0; 0] 2 []) 0
           (mkOverlappingTile 4 [(1, 2)] None false PARTIAL_CONTIG
              (Some [0; 1; 0; 1]) 0) 1 2);
    try reflexivity; try (unfold two64; simpl; lia); simpl; lia.
Defined.

(** ** A tile with a contiguous overlap in which no cell qualifies *)

(** X17.  [read_sparse_attr_cmp_none<T>] does not return when the cursor of
    the attribute stands at an overlapping tile of kind [PARTIAL_CONTIG] to
    which no cell range is attached (the MBR of the tile meets the range, but
    no cell of the tile lies in it) and the caller's buffer has room: the copy
    functions return at their test "no qualifying cells" without moving the
    cursor and without flagging an overflow, and the loop goes round with the
    same state.  The model runs out of fuel whatever the fuel. *)
Theorem partial_contig_tile_without_cells_never_ends
    (get_next_overlapping_tile_sparse : ReadState -> outcome ReadState)
    (NDEBUG : bool) (E : TileIO.Env) (var_size : bool) (attribute_id : nat)
    (buffer_size : Z) (p : Z) (t : OverlappingTile) (fuel : nat) :
  forall c : Copier.copy_state,
    overflow_ (Copier.state_ c) !! attribute_id = Some false ->
    (attribute_id < length (tiles_offsets_ (Copier.state_ c)))%nat ->
    (attribute_id < length (tiles_sizes_ (Copier.state_ c)))%nat ->
    overlapping_tiles_pos_ (Copier.state_ c) !! attribute_id = Some p ->
    0 <= p < two64 ->
    overlapping_tiles_ (Copier.state_ c) !! Z.to_nat p = Some t ->
    overlap_ t = PARTIAL_CONTIG ->
    cell_pos_ranges_ t = [] ->
    size_t (buffer_size - Copier.buffer_offset_ c) <> 0 ->
    SparseLoops.read_sparse_attr_cmp_none_loop
      get_next_overlapping_tile_sparse NDEBUG E var_size attribute_id
      buffer_size fuel c
    = Starves.
Proof.
  induction fuel as [|fuel IH];
    intros c Hflag Hto Hts Hp Hpos Ht Hkind Hranges Hroom;
    cbn [SparseLoops.read_sparse_attr_cmp_none_loop]; [reflexivity|].
  assert (Hcur : TileIO.current_tile attribute_id (Copier.state_ c)
                 = Returns (Z.to_nat p, t))
    by (apply current_tile_at; [exact Hp | lia | exact Ht]).
  assert (Hcontig :
           Copier.copy_from_tile_buffer_partial_contig_sparse NDEBUG
             (TileIO.cell_size E attribute_id) var_size attribute_id
             buffer_size c = Returns c).
  { unfold Copier.copy_from_tile_buffer_partial_contig_sparse.
    destruct (Z.eqb_spec (size_t (buffer_size - Copier.buffer_offset_ c)) 0);
      [contradiction|].
    rewrite Hcur. cbn [obind snd]. rewrite Hranges.
    unfold assert_. cbn [length Nat.leb]. rewrite orb_true_r. reflexivity. }
  assert (Hcopy :
           Copier.copy_from_tile_buffer_sparse NDEBUG
             (TileIO.cell_size E attribute_id) var_size attribute_id
             buffer_size c = Returns c).
  { unfold Copier.copy_from_tile_buffer_sparse.
    rewrite Hcur. cbn [obind snd]. rewrite Hkind. exact Hcontig. }
  assert (Hpending :
           SparseLoops.copy_pending NDEBUG E var_size attribute_id
             buffer_size c = Returns c).
  { unfold SparseLoops.copy_pending.
    destruct (lookup_lt_is_Some_2 _ _ Hto) as [to Eto].
    destruct (lookup_lt_is_Some_2 _ _ Hts) as [ts Ets].
    rewrite (vec_at_some _ _ _ Eto), (vec_at_some _ _ _ Ets). cbn [obind].
    destruct (to <? ts); [exact Hcopy | reflexivity]. }
  rewrite Hpending. cbn [obind].
  unfold SparseLoops.unless_overflow at 1.
  rewrite (vec_at_some _ _ _ Hflag). cbn [obind].
  unfold SparseLoops.compute_next.
  rewrite (vec_at_some _ _ _ Hp). cbn [obind].
  rewrite (size_t_small p) by lia.
  pose proof (lookup_lt_Some _ _ _ Ht) as Hlen.
  destruct (Z.geb_spec p (Z.of_nat (length (overlapping_tiles_
                                              (Copier.state_ c)))));
    [lia|]. cbn [obind].
  rewrite Hcur. cbn [obind].
  assert (Hcommand :
           SparseLoops.copy_command NDEBUG E var_size attribute_id
             buffer_size (Z.to_nat p, t)
             (Copier.with_state (Copier.state_ c) c)
           = Returns (Some (TILEDB_RS_OK,
                            Copier.with_state (Copier.state_ c) c))).
  { unfold SparseLoops.copy_command. cbn [snd].
    destruct (_ && _).
    - unfold Copier.copy_from_tile_buffer_sparse.
      cbn [Copier.state_ Copier.with_state]. rewrite Hcur. cbn [obind snd].
      rewrite Hkind.
      unfold Copier.copy_from_tile_buffer_partial_contig_sparse.
      cbn [Copier.state_ Copier.with_state Copier.buffer_offset_].
      destruct (Z.eqb_spec (size_t (buffer_size - Copier.buffer_offset_ c)) 0);
        [contradiction|].
      rewrite Hcur. cbn [obind snd]. rewrite Hranges.
      unfold assert_. cbn [length Nat.leb]. rewrite orb_true_r. reflexivity.
    - rewrite Hkind. unfold TileCopy.copy_tile_partial_contig_sparse.
      cbn [Copier.state_ Copier.with_state]. rewrite Hcur. cbn [obind snd].
      rewrite Hranges. unfold assert_. cbn [length Nat.leb].
      rewrite orb_true_r. reflexivity. }
  rewrite Hcommand. cbn [obind].
  rewrite bool_decide_false by (intros Hne; by apply Hne).
  unfold SparseLoops.unless_overflow.
  cbn [Copier.state_ Copier.with_state].
  rewrite (vec_at_some _ _ _ Hflag). cbn [obind].
  apply IH; cbn [Copier.state_ Copier.with_state Copier.buffer_offset_];
    assumption.
Qed.

Lemma partial_contig_tile_without_cells_never_ends_witness :
  SparseLoops.read_sparse_attr_cmp_none_loop (fun s => Returns s) false
    (one_gzip_tile 16) false 0 20 1000
    (Copier.mkCopyState
       (mkReadState [false; false]
          [mkOverlappingTile 4 [] None false PARTIAL_CONTIG
             (Some [0; 1; 0; 1]) 0]
          [0; 0] [0; 0] [0; 0] [0] [0] [] [] [])
       [0; 0] 0 [])
  = Starves.
Proof.
  apply (partial_contig_tile_without_cells_never_ends (fun s => Returns s)
           false (one_gzip_tile 16) false 0 20 0
           (mkOverlappingTile 4 [] None false PARTIAL_CONTIG
              (Some [0; 1; 0; 1]) 0) 1000);
    try reflexivity; try (simpl; lia); try (unfold two64; lia).
  vm_compute. discriminate.
Defined.

(** ** The start of a read state of a sparse fragment *)

(** X18.  [init_tile_search_range<T>], row-major or column-major cell order,
    bounding coordinates in that order: the entry "no overlap" is pushed only
    when no tile of the fragment may hold a cell of the range (for every tile,
    its first cell succeeds the upper corner of the range or its last cell
    precedes the lower corner).  Otherwise the state is left as it is and the
    search range is not empty; for a range that is not unary it lies within
    the tiles of the fragment. *)
Theorem init_tile_search_range_sentinel
    (cmp_hilbert : list Z -> list Z -> nat -> Z) (uninit : OverlappingTile)
    (column_major : bool) (dim_num : nat) (range : list Z) (tile_num : Z)
    (bounding_coords : list (list Z)) (s : ReadState) :
  tile_num = Z.of_nat (length bounding_coords) ->
  TileSearch.in_cell_order (TileSearch.cmp_of column_major) dim_num
                           bounding_coords = true ->
  exists first last s',
    Construct.init_tile_search_range cmp_hilbert uninit
      (if column_major then Coords.TILEDB_AS_CO_COLUMN_MAJOR
       else Coords.TILEDB_AS_CO_ROW_MAJOR)
      dim_num range tile_num bounding_coords s
    = Returns (first, last, s')
    /\ ((s' = s /\ first <= last
         /\ (Coords.is_unary_range range dim_num = false ->
             0 <= first /\ last < tile_num))
        \/ (s' = with_overlapping_tiles
                   (overlapping_tiles_ s ++ [DenseInit.sentinel uninit]) s
            /\ forall t, 0 <= t < tile_num ->
                 ~ Construct.may_hold (TileSearch.cmp_of column_major) dim_num
                     bounding_coords range t)).
Proof.
  intros -> Hsorted.
  pose proof (cmp_of_three_way column_major dim_num) as Hord.
  pose proof (start_tile_found _ _ Hord _ Hsorted
                (Coords.range_min_coords range dim_num)) as Hfirst.
  pose proof (end_tile_found _ _ Hord _ Hsorted
                (Coords.range_max_coords range dim_num)) as Hlast.
  assert (Hrun : exists first last,
             TileSearch.init_tile_search_range_in_order
               (TileSearch.cmp_of column_major) dim_num range
               (Z.of_nat (length bounding_coords)) bounding_coords
             = Returns (first, last)
             /\ TileSearch.first_tile_from (TileSearch.cmp_of column_major)
                  dim_num bounding_coords (Z.of_nat (length bounding_coords))
                  (Coords.range_min_coords range dim_num) first
             /\ if Coords.is_unary_range range dim_num
                then last = first
                else TileSearch.last_tile_upto (TileSearch.cmp_of column_major)
                       dim_num bounding_coords
                       (Z.of_nat (length bounding_coords))
                       (Coords.range_max_coords range dim_num) last).
  { unfold TileSearch.init_tile_search_range_in_order.
    destruct (bsearch _ 0 _) as [a b | a b med | |] in Hfirst |- *;
      try contradiction; simpl;
      destruct (Coords.is_unary_range range dim_num); eauto;
      destruct (bsearch _ 0 _) as [a' b' | a' b' med' | |] in Hlast |- *;
      try contradiction; simpl; eauto. }
  destruct Hrun as (first & last & Hrun & Hf & Hl).
  assert (Hcall :
           match (if column_major then Coords.TILEDB_AS_CO_COLUMN_MAJOR
                  else Coords.TILEDB_AS_CO_ROW_MAJOR) with
           | Coords.TILEDB_AS_CO_HILBERT =>
               Construct.init_tile_search_range_hil cmp_hilbert dim_num range
                 (Z.of_nat (length bounding_coords)) bounding_coords
           | Coords.TILEDB_AS_CO_ROW_MAJOR =>
               TileSearch.init_tile_search_range_row dim_num range
                 (Z.of_nat (length bounding_coords)) bounding_coords
           | Coords.TILEDB_AS_CO_COLUMN_MAJOR =>
               TileSearch.init_tile_search_range_col dim_num range
                 (Z.of_nat (length bounding_coords)) bounding_coords
           end = Returns (first, last))
    by (destruct column_major; exact Hrun).
  unfold Construct.init_tile_search_range. rewrite Hcall. cbn [obind fst snd].
  exists first, last.
  destruct (Z.ltb_spec last first) as [Hempty|Hfull].
  - eexists. split; [reflexivity|]. right. split; [reflexivity|].
    destruct (Coords.is_unary_range range dim_num); [lia|].
    destruct Hf as (_ & Hbefore & _). destruct Hl as (_ & Hafter & _).
    intros t Ht [Hleft Hright].
    destruct (Z_lt_le_dec t first) as [Hlt|Hge].
    + specialize (Hbefore t ltac:(lia)).
      pose proof (cmp_opp _ _ Hord
                    (TileSearch.last_coord dim_num bounding_coords t)
                    (Coords.range_min_coords range dim_num)). lia.
    + specialize (Hafter t ltac:(lia)).
      pose proof (cmp_opp _ _ Hord
                    (TileSearch.first_coord dim_num bounding_coords t)
                    (Coords.range_max_coords range dim_num)). lia.
  - exists s. split; [reflexivity|]. left. split; [reflexivity|].
    split; [lia|]. intros Hunary. rewrite Hunary in Hl.
    destruct Hf as (Hf & _). destruct Hl as (Hl & _). lia.
Qed.

Lemma init_tile_search_range_sentinel_witness :
  exists first last s',
    Construct.init_tile_search_range (fun _ _ _ => 0)
      (mkOverlappingTile 0 [] None false NONE None 0) Coords.TILEDB_AS_CO_ROW_MAJOR
      2 [1; 1; 4; 9] 3 [[0; 0; 0; 3]; [1; 1; 1; 2]; [3; 0; 3; 3]]
      (Construct.initial 1)
    = Returns (first, last, s')
    /\ ((s' = Construct.initial 1 /\ first <= last
         /\ (Coords.is_unary_range [1; 1; 4; 9] 2 = false ->
             0 <= first /\ last < 3))
        \/ (s' = with_overlapping_tiles
                   (overlapping_tiles_ (Construct.initial 1)
                    ++ [DenseInit.sentinel
                          (mkOverlappingTile 0 [] None false NONE None 0)])
                   (Construct.initial 1)
            /\ forall t, 0 <= t < 3 ->
                 ~ Construct.may_hold (TileSearch.cmp_of false) 2
                     [[0; 0; 0; 3]; [1; 1; 1; 2]; [3; 0; 3; 3]]
                     [1; 1; 4; 9] t)).
Proof.
  apply (init_tile_search_range_sentinel (fun _ _ _ => 0)
           (mkOverlappingTile 0 [] None false NONE None 0) false 2
           [1; 1; 4; 9] 3 [[0; 0; 0; 3]; [1; 1; 1; 2]; [3; 0; 3; 3]]
           (Construct.initial 1)); reflexivity.
Defined.

(** ** A query whose range meets no tile *)




Section NothingOverlaps.

Variable compute_mbr_range_overlap : list Z -> list Z -> list Z * Z.
Variable compute_cell_pos_ranges : ReadState -> outcome ReadState.
Variables uninit uninit' : OverlappingTile.
Variable block : list Z.
Variable attribute_num : nat.
Variable attribute_ids : list nat.
Variables capacity last_tile_cell_num : Z.
Variable range : list Z.
Variable mbrs : list (list Z).
Variable tile_search_range_ : Z * Z.

Hypothesis requested : Forall (fun id => (id <= attribute_num)%nat)
                              attribute_ids.
Hypothesis in_fragment : tile_search_range_.2 < Z.of_nat (length mbrs).
Hypothesis no_overlap :
  forall p mbr,
    tile_search_range_.1 <= p <= tile_search_range_.2 ->
    at_ mbrs p = Some mbr -> (compute_mbr_range_overlap range mbr).2 = 0.


End NothingOverlaps.



(** ** An overflow inside a tile with several cell ranges *)

Section DrainedLoop.

Variable NDEBUG : bool.
Variable cell_size : Z.
Variable attribute_id : nat.
Variable buffer_size : Z.
Variable ranges : list (Z * Z).

Hypothesis cell_size_pos : 0 < cell_size.
Hypothesis ordered : Copier.ordered_ranges cell_size ranges.

Lemma range_offsets (k : nat) (first second : Z) :
  ranges !! k = Some (first, second) ->
  size_t (first * cell_size) = first * cell_size
  /\ size_t ((second + 1) * cell_size - 1) = (second + 1) * cell_size - 1
  /\ size_t ((second + 1) * cell_size - 1 + 1) = (second + 1) * cell_size
  /\ 0 <= first * cell_size < (second + 1) * cell_size.
Proof.
  intros Hk. destruct (proj1 ordered _ _ _ Hk) as [Hfs Hfit].
  assert (0 <= first * cell_size) by nia.
  assert (first * cell_size < (second + 1) * cell_size) by nia.
  rewrite !size_t_small by lia. repeat split; lia.
Qed.

(** Once the buffer is full, the rest of the loop copies nothing; each
    round moves the tile offset to the start of its range and the cursor
    to its range. *)
Lemma drained_rounds (rounds : nat) :
  forall (i : Z) (c : Copier.copy_state) (tiles_offset first second : Z),
    0 <= i ->
    i + Z.of_nat (S rounds) = Z.of_nat (length ranges) ->
    Copier.buffer_offset_ c = buffer_size ->
    tiles_offsets_ (Copier.state_ c) !! attribute_id = Some tiles_offset ->
    at_ ranges i = Some (first, second) ->
    tiles_offset < first * cell_size ->
    (attribute_id < length (overflow_ (Copier.state_ c)))%nat ->
    (attribute_id < length (Copier.cell_pos_range_pos_ c))%nat ->
    exists c' first_last second_last,
      Copier.copy_cell_pos_ranges NDEBUG cell_size attribute_id buffer_size
        ranges i (S rounds) 0 c
      = Returns c'
      /\ at_ ranges (Z.of_nat (length ranges) - 1)
         = Some (first_last, second_last)
      /\ tiles_offsets_ (Copier.state_ c') !! attribute_id
         = Some (first_last * cell_size)
      /\ Copier.cell_pos_range_pos_ c' !! attribute_id
         = Some (Z.of_nat (length ranges) - 1)
      /\ overflow_ (Copier.state_ c') !! attribute_id = Some true
      /\ Copier.buffer_offset_ c' = Copier.buffer_offset_ c
      /\ Copier.written_ c' = Copier.written_ c
      /\ overlapping_tiles_pos_ (Copier.state_ c')
         = overlapping_tiles_pos_ (Copier.state_ c).
Proof.
  induction rounds as [|rounds IH];
    intros i c tiles_offset first second Hi Hrounds Hfull Hto Hrange Hbefore
           Hflags Hcursor.
  - assert (Hlast : i = Z.of_nat (length ranges) - 1) by lia.
    cbn [Copier.copy_cell_pos_ranges]. rewrite Hrange.
    assert (Hk : ranges !! Z.to_nat i = Some (first, second)).
    { unfold at_ in Hrange. destruct (Z.ltb_spec i 0); [lia|exact Hrange]. }
    destruct (range_offsets _ _ _ Hk) as (Hs & He & He1 & Hlt).
    rewrite Hs, He, He1. rewrite (vec_at_some _ _ _ Hto). cbn [obind].
    destruct (Z.ltb_spec tiles_offset (first * cell_size)); [|lia].
    replace ((second + 1) * cell_size - 1 - first * cell_size + 1)
      with ((second + 1) * cell_size - first * cell_size) by lia.
    rewrite (size_t_small ((second + 1) * cell_size - first * cell_size)).
    2:{ destruct (proj1 ordered _ _ _ Hk). lia. }
    rewrite Z.min_r by lia. cbn [Z.eqb negb].
    unfold set_tiles_offset.
    rewrite vec_set_in_bounds by (apply (lookup_lt_Some _ _ _ Hto)).
    cbn [obind].
    destruct (Z.eqb_spec (first * cell_size) ((second + 1) * cell_size));
      [lia|]. rewrite andb_false_r. cbn [negb].
    unfold assert_. rewrite Hfull, Z.eqb_refl, orb_true_r. cbn [obind].
    unfold set_overflow. cbn [with_tiles_offsets overflow_].
    rewrite vec_set_in_bounds by exact Hflags. cbn [obind].
    rewrite vec_set_in_bounds by exact Hcursor. cbn [obind].
    eexists _, first, second. split; [reflexivity|].
    cbn [Copier.state_ Copier.cell_pos_range_pos_ Copier.buffer_offset_
         Copier.written_ with_overflow with_tiles_offsets tiles_offsets_
         overflow_ overlapping_tiles_pos_].
    rewrite <- Hlast.
    split; [exact Hrange|].
    split; [apply list_lookup_insert_eq, (lookup_lt_Some _ _ _ Hto)|].
    split; [by apply list_lookup_insert_eq|].
    split; [by apply list_lookup_insert_eq|].
    repeat split; congruence.
  - assert (Hk : ranges !! Z.to_nat i = Some (first, second)).
    { unfold at_ in Hrange. destruct (Z.ltb_spec i 0); [lia|exact Hrange]. }
    destruct (range_offsets _ _ _ Hk) as (Hs & He & He1 & Hlt).
    assert (Hnext : exists first' second',
               ranges !! S (Z.to_nat i) = Some (first', second')).
    { destruct (lookup_lt_is_Some_2 ranges (S (Z.to_nat i)) ltac:(lia))
        as [[f' s'] Hn]. by exists f', s'. }
    destruct Hnext as (first' & second' & Hnext).
    pose proof (proj2 ordered _ _ _ _ _ Hk Hnext) as Hgap.
    destruct (proj1 ordered _ _ _ Hk) as [Hfs Hfit].
    assert (Hrange' : at_ ranges (i + 1) = Some (first', second')).
    { unfold at_. destruct (Z.ltb_spec (i + 1) 0); [lia|].
      replace (Z.to_nat (i + 1)) with (S (Z.to_nat i)) by lia. exact Hnext. }
    remember (S rounds) as rounds' eqn:Hrounds'.
    cbn [Copier.copy_cell_pos_ranges]. rewrite Hrange.
    rewrite Hs, He, He1. rewrite (vec_at_some _ _ _ Hto). cbn [obind].
    destruct (Z.ltb_spec tiles_offset (first * cell_size)); [|lia].
    replace ((second + 1) * cell_size - 1 - first * cell_size + 1)
      with ((second + 1) * cell_size - first * cell_size) by lia.
    rewrite (size_t_small ((second + 1) * cell_size - first * cell_size))
      by lia.
    rewrite Z.min_r by lia. cbn [Z.eqb negb].
    unfold set_tiles_offset.
    rewrite vec_set_in_bounds by (apply (lookup_lt_Some _ _ _ Hto)).
    cbn [obind].
    destruct (Z.eqb_spec (first * cell_size) ((second + 1) * cell_size));
      [lia|]. rewrite andb_false_r. cbn [negb].
    unfold assert_. rewrite Hfull, Z.eqb_refl, orb_true_r. cbn [obind].
    unfold set_overflow. cbn [with_tiles_offsets overflow_].
    rewrite vec_set_in_bounds by exact Hflags. cbn [obind].
    rewrite vec_set_in_bounds by exact Hcursor. cbn [obind].
    subst rounds'.
    match goal with
    | |- context [Copier.copy_cell_pos_ranges _ _ _ _ _ _ _ _ ?c2] =>
        destruct (IH (i + 1) c2 (first * cell_size) first' second')
          as (c' & fl & sl & Hrun & Hl & H1 & H2 & H3 & H4 & H5 & H6)
    end;
      cbn [Copier.state_ Copier.cell_pos_range_pos_ Copier.buffer_offset_
           Copier.written_ with_overflow with_tiles_offsets tiles_offsets_
           overflow_ overlapping_tiles_pos_] in *;
      try lia; try assumption.
    + apply list_lookup_insert_eq, (lookup_lt_Some _ _ _ Hto).
    + nia.
    + by rewrite length_insert.
    + by rewrite length_insert.
    + exists c', fl, sl. repeat split; try assumption; congruence.
Qed.

End DrainedLoop.

(** X20.  [copy_from_tile_buffer_partial_non_contig_sparse] has no exit from
    its loop over the cell position ranges.  When the free space of the
    caller's buffer ends inside a range that is not the last one of the tile,
    the function copies the bytes that fit, and then still visits every later
    range: each visit moves the tile offset to the start of its range and the
    cursor [cell_pos_range_pos_] to its range, and copies nothing.  The
    function returns with the overflow flagged, the cursor on the last range
    and the tile offset at the first cell of the last range, so that the next
    call goes on from there. *)
Theorem non_contig_sparse_overflow_moves_to_the_last_range (NDEBUG : bool)
    (cell_size : Z) (var_size : bool) (attribute_id : nat) (buffer_size : Z)
    (c : Copier.copy_state) (p : Z) (t : OverlappingTile)
    (i tiles_offset first second : Z) :
  0 < cell_size ->
  var_size = false ->
  0 <= Copier.buffer_offset_ c < buffer_size ->
  buffer_size < two64 ->
  overlapping_tiles_pos_ (Copier.state_ c) !! attribute_id = Some p ->
  0 <= p ->
  overlapping_tiles_ (Copier.state_ c) !! Z.to_nat p = Some t ->
  Copier.ordered_ranges cell_size (cell_pos_ranges_ t) ->
  Copier.cell_pos_range_pos_ c !! attribute_id = Some i ->
  0 <= i < Z.of_nat (length (cell_pos_ranges_ t)) - 1 ->
  at_ (cell_pos_ranges_ t) i = Some (first, second) ->
  tiles_offsets_ (Copier.state_ c) !! attribute_id = Some tiles_offset ->
  0 <= tiles_offset ->
  buffer_size - Copier.buffer_offset_ c
  < (second + 1) * cell_size - Z.max tiles_offset (first * cell_size) ->
  (attribute_id < length (overflow_ (Copier.state_ c)))%nat ->
  exists c' first_last second_last,
    Copier.copy_from_tile_buffer_partial_non_contig_sparse NDEBUG cell_size
      var_size attribute_id buffer_size c
    = Returns c'
    /\ at_ (cell_pos_ranges_ t) (Z.of_nat (length (cell_pos_ranges_ t)) - 1)
       = Some (first_last, second_last)
    /\ Copier.written_ c'
       = Copier.written_ c
         ++ [Copier.FromTile
               (mkMemcpy (Copier.buffer_offset_ c)
                         (Z.max tiles_offset (first * cell_size))
                         (buffer_size - Copier.buffer_offset_ c))]
    /\ Copier.buffer_offset_ c' = buffer_size
    /\ overflow_ (Copier.state_ c') !! attribute_id = Some true
    /\ Copier.cell_pos_range_pos_ c' !! attribute_id
       = Some (Z.of_nat (length (cell_pos_ranges_ t)) - 1)
    /\ tiles_offsets_ (Copier.state_ c') !! attribute_id
       = Some (first_last * cell_size)
    /\ overlapping_tiles_pos_ (Copier.state_ c')
       = overlapping_tiles_pos_ (Copier.state_ c).
Proof.
  intros Hcell -> Hoff Hsize Hp Hpos Ht Hordered Hcursor Hi Hrange Hto
         Htiles_offset Hshort Hflags.
  set (ranges := cell_pos_ranges_ t) in *.
  set (free := buffer_size - Copier.buffer_offset_ c) in *.
  assert (Hk : ranges !! Z.to_nat i = Some (first, second)).
  { unfold at_ in Hrange. destruct (Z.ltb_spec i 0); [lia|exact Hrange]. }
  destruct (range_offsets cell_size ranges Hcell Hordered _ _ _ Hk)
    as (Hs & He & He1 & Hlt).
  destruct (proj1 Hordered _ _ _ Hk) as [Hfs Hfit].
  assert (Hnext : exists first' second',
             ranges !! S (Z.to_nat i) = Some (first', second')).
  { destruct (lookup_lt_is_Some_2 ranges (S (Z.to_nat i)) ltac:(lia))
      as [[f' s'] Hn]. by exists f', s'. }
  destruct Hnext as (first' & second' & Hnext).
  pose proof (proj2 Hordered _ _ _ _ _ Hk Hnext) as Hgap.
  assert (Hrange' : at_ ranges (i + 1) = Some (first', second')).
  { unfold at_. destruct (Z.ltb_spec (i + 1) 0); [lia|].
    replace (Z.to_nat (i + 1)) with (S (Z.to_nat i)) by lia. exact Hnext. }
  unfold Copier.copy_from_tile_buffer_partial_non_contig_sparse.
  fold free. rewrite (size_t_small free) by (unfold free; lia).
  destruct (Z.eqb_spec free 0) as [Hzero|_]; [unfold free in Hzero; lia|].
  rewrite (current_tile_at _ _ _ _ Hp Hpos Ht). cbn [obind snd].
  unfold assert_ at 1. cbn [negb]. rewrite orb_true_r. cbn [obind].
  fold ranges.
  destruct ranges as [|r0 rest] eqn:Hranges; [discriminate|].
  rewrite <- Hranges in *.
  rewrite (vec_at_some _ _ _ Hcursor). cbn [obind].
  destruct (Z.to_nat (Z.of_nat (length ranges) - i)) as [|[|rounds]] eqn:Hr;
    [lia|lia|].
  remember (S rounds) as rounds' eqn:Hrounds.
  cbn [Copier.copy_cell_pos_ranges]. rewrite Hrange.
  rewrite Hs, He, He1. rewrite (vec_at_some _ _ _ Hto). cbn [obind].
  set (tiles_offset1 := if tiles_offset <? first * cell_size
                        then first * cell_size else tiles_offset).
  assert (Hmax : tiles_offset1 = Z.max tiles_offset (first * cell_size))
    by (unfold tiles_offset1;
        destruct (Z.ltb_spec tiles_offset (first * cell_size)); lia).
  replace ((second + 1) * cell_size - 1 - tiles_offset1 + 1)
    with ((second + 1) * cell_size - tiles_offset1) by lia.
  rewrite (size_t_small ((second + 1) * cell_size - tiles_offset1)) by lia.
  rewrite Z.min_r by lia.
  destruct (Z.eqb_spec free 0) as [Hzero|_]; [unfold free in Hzero; lia|].
  cbn [negb]. unfold Copier.memcpy_to_buffer.
  cbn [Copier.state_ Copier.cell_pos_range_pos_ Copier.buffer_offset_
       Copier.written_].
  replace (Copier.buffer_offset_ c + free) with buffer_size
    by (unfold free; lia).
  rewrite (size_t_small buffer_size) by lia.
  rewrite Z.sub_diag. change (size_t 0) with 0.
  rewrite (size_t_small (tiles_offset1 + free)) by (unfold free in *; lia).
  unfold set_tiles_offset.
  rewrite vec_set_in_bounds by (apply (lookup_lt_Some _ _ _ Hto)).
  cbn [obind].
  destruct (Z.eqb_spec i (Z.of_nat (length ranges) - 1)); [lia|].
  cbn [andb].
  destruct (Z.eqb_spec (tiles_offset1 + free) ((second + 1) * cell_size));
    [lia|]. cbn [negb].
  unfold assert_. rewrite Z.eqb_refl, orb_true_r. cbn [obind].
  unfold set_overflow. cbn [with_tiles_offsets overflow_].
  rewrite vec_set_in_bounds by exact Hflags. cbn [obind].
  rewrite vec_set_in_bounds by (apply (lookup_lt_Some _ _ _ Hcursor)).
  cbn [obind]. subst rounds'.
  match goal with
  | |- context [Copier.copy_cell_pos_ranges _ _ _ _ _ _ _ _ ?c2] =>
      destruct (drained_rounds NDEBUG cell_size attribute_id buffer_size
                  ranges Hcell Hordered rounds (i + 1) c2
                  (tiles_offset1 + free) first' second')
        as (c' & fl & sl & Hrun & Hl & H1 & H2 & H3 & H4 & H5 & H6)
  end;
    cbn [Copier.state_ Copier.cell_pos_range_pos_ Copier.buffer_offset_
         Copier.written_ with_overflow with_tiles_offsets tiles_offsets_
         overflow_ overlapping_tiles_pos_] in *;
    try lia; try assumption.
  - apply list_lookup_insert_eq, (lookup_lt_Some _ _ _ Hto).
  - nia.
  - by rewrite length_insert.
  - rewrite length_insert. apply (lookup_lt_Some _ _ _ Hcursor).
  - exists c', fl, sl. rewrite <- Hmax.
    repeat split; try assumption; congruence.
Qed.

Lemma non_contig_sparse_overflow_moves_to_the_last_range_witness :
  exists c' first_last second_last,
    Copier.copy_from_tile_buffer_partial_non_contig_sparse false 4 false 0 8
      (Copier.mkCopyState
         (mkReadState [false; false]
            [mkOverlappingTile 8 [(0, 2); (4, 4); (6, 7)] None false
               PARTIAL_NON_CONTIG (Some [0; 1; 0; 1]) 0]
            [0; 0] [0; 0] [32; 0] [0] [0] [] [] [])
         [0; 0] 0 [])
    = Returns c'
    /\ at_ [(0, 2); (4, 4); (6, 7)] (3 - 1) = Some (first_last, second_last)
    /\ Copier.written_ c'
       = [] ++ [Copier.FromTile (mkMemcpy 0 (Z.max 0 (0 * 4)) (8 - 0))]
    /\ Copier.buffer_offset_ c' = 8
    /\ overflow_ (Copier.state_ c') !! 0%nat = Some true
    /\ Copier.cell_pos_range_pos_ c' !! 0%nat = Some (3 - 1)
    /\ tiles_offsets_ (Copier.state_ c') !! 0%nat = Some (first_last * 4)
    /\ overlapping_tiles_pos_ (Copier.state_ c') = [0; 0].
Proof.
  apply (non_contig_sparse_overflow_moves_to_the_last_range false 4 false 0 8
           (Copier.mkCopyState
              (mkReadState [false; false]
                 [mkOverlappingTile 8 [(0, 2); (4, 4); (6, 7)] None false
                    PARTIAL_NON_CONTIG (Some [0; 1; 0; 1]) 0]
                 [0; 0] [0; 0] [32; 0] [0] [0] [] [] [])
              [0; 0] 0 [])
           0 (mkOverlappingTile 8 [(0, 2); (4, 4); (6, 7)] None false
                PARTIAL_NON_CONTIG (Some [0; 1; 0; 1]) 0)
           0 0 0 2);
    try reflexivity; try (simpl; lia); try (unfold two64; lia).
  split.
  - intros k first second Hk.
    destruct k as [|[|[|k]]]; simpl in Hk; try discriminate;
      injection Hk as <- <-; unfold two64; lia.
  - intros k first second first' second' Hk Hk'.
    destruct k as [|[|[|k]]]; simpl in Hk, Hk'; try discriminate;
      injection Hk as <- <-; injection Hk' as <- <-; lia.
Defined.

(** ** A tile with several cell ranges that fit the buffer *)

Section FittingRanges.

Variable NDEBUG : bool.
Variable cell_size : Z.
Variable attribute_id : nat.
Variable buffer_size : Z.
Variable ranges : list (Z * Z).

Hypothesis cell_size_pos : 0 < cell_size.
Hypothesis ordered : Copier.ordered_ranges cell_size ranges.
Hypothesis buffer_small : buffer_size < two64.

Lemma bytes_of_nonneg (m : nat) :
  forall (k : nat) (tiles_offset : Z),
    length ranges = (k + m)%nat ->
    (forall first second,
       ranges !! k = Some (first, second) ->
       tiles_offset < (second + 1) * cell_size) ->
    0 <= Copier.bytes_of cell_size (drop k ranges) tiles_offset.
Proof.
  induction m as [|m IH]; intros k tiles_offset Hlen Hinside.
  - rewrite drop_ge by lia. reflexivity.
  - destruct (lookup_lt_is_Some_2 ranges k ltac:(lia)) as [[first second] Hk].
    rewrite (drop_S _ _ _ Hk). cbn [Copier.bytes_of].
    destruct (proj1 ordered _ _ _ Hk) as [Hfs Hfit].
    pose proof (Hinside _ _ Hk) as Hto.
    assert (0 <= Copier.bytes_of cell_size (drop (S k) ranges)
                   (Z.max tiles_offset (first * cell_size)
                    + ((second + 1) * cell_size
                       - Z.max tiles_offset (first * cell_size)))).
    { apply IH; [lia|]. intros first' second' Hk'.
      pose proof (proj2 ordered _ _ _ _ _ Hk Hk').
      destruct (proj1 ordered _ _ _ Hk'). nia. }
    nia.
Qed.

(** While the rest of the ranges fits the free space, each round copies
    the cells of its range, and the last one ends the tile. *)
Lemma fitting_rounds (rounds : nat) :
  forall (i : Z) (c : Copier.copy_state)
         (tiles_offset first second tiles_size p : Z),
    0 <= i ->
    i + Z.of_nat (S rounds) = Z.of_nat (length ranges) ->
    0 <= Copier.buffer_offset_ c ->
    tiles_offsets_ (Copier.state_ c) !! attribute_id = Some tiles_offset ->
    tiles_sizes_ (Copier.state_ c) !! attribute_id = Some tiles_size ->
    overlapping_tiles_pos_ (Copier.state_ c) !! attribute_id = Some p ->
    (attribute_id < length (Copier.cell_pos_range_pos_ c))%nat ->
    at_ ranges i = Some (first, second) ->
    0 <= tiles_offset < (second + 1) * cell_size ->
    Copier.bytes_of cell_size (drop (Z.to_nat i) ranges) tiles_offset
    <= buffer_size - Copier.buffer_offset_ c ->
    exists c',
      Copier.copy_cell_pos_ranges NDEBUG cell_size attribute_id buffer_size
        ranges i (S rounds) (buffer_size - Copier.buffer_offset_ c) c
      = Returns c'
      /\ Copier.written_ c'
         = Copier.written_ c
           ++ Copier.copies_of cell_size (drop (Z.to_nat i) ranges)
                (Copier.buffer_offset_ c) tiles_offset
      /\ Copier.buffer_offset_ c'
         = Copier.buffer_offset_ c
           + Copier.bytes_of cell_size (drop (Z.to_nat i) ranges) tiles_offset
      /\ tiles_offsets_ (Copier.state_ c') !! attribute_id = Some tiles_size
      /\ overlapping_tiles_pos_ (Copier.state_ c') !! attribute_id
         = Some (p + 1)
      /\ Copier.cell_pos_range_pos_ c' !! attribute_id = Some 0
      /\ overflow_ (Copier.state_ c') = overflow_ (Copier.state_ c).
Proof.
  induction rounds as [|rounds IH];
    intros i c tiles_offset first second tiles_size p Hi Hrounds Hoff Hto Hts
           Hp Hcursor Hrange Htiles_offset Hfits.
  all: assert (Hk : ranges !! Z.to_nat i = Some (first, second))
    by (unfold at_ in Hrange; destruct (Z.ltb_spec i 0); [lia|exact Hrange]).
  all: destruct (range_offsets cell_size ranges cell_size_pos ordered _ _ _ Hk)
    as (Hs & He & He1 & Hlt).
  all: destruct (proj1 ordered _ _ _ Hk) as [Hfs Hfit].
  all: rewrite (drop_S _ _ _ Hk) in Hfits |- *.
  all: cbn [Copier.bytes_of Copier.copies_of] in Hfits |- *.
  all: set (src := Z.max tiles_offset (first * cell_size)) in *.
  all: set (n := (second + 1) * cell_size - src) in *.
  all: assert (Hsrc : (if tiles_offset <? first * cell_size
                       then first * cell_size else tiles_offset) = src)
    by (unfold src; destruct (Z.ltb_spec tiles_offset (first * cell_size));
        lia).
  all: assert (Hn : 0 < n) by (unfold n, src; lia).
  all: assert (Hrest : 0 <= Copier.bytes_of cell_size
                              (drop (S (Z.to_nat i)) ranges) (src + n)).
  1,3: (apply (bytes_of_nonneg (length ranges - S (Z.to_nat i))); [lia|];
        intros first' second' Hk';
        pose proof (proj2 ordered _ _ _ _ _ Hk Hk');
        destruct (proj1 ordered _ _ _ Hk'); unfold n; nia).
  all: try remember (S rounds) as rounds' eqn:Hrounds'.
  all: cbn [Copier.copy_cell_pos_ranges]; rewrite Hrange.
  all: rewrite Hs, He, He1; rewrite (vec_at_some _ _ _ Hto); cbn [obind].
  all: rewrite Hsrc.
  all: replace ((second + 1) * cell_size - 1 - src + 1) with n
    by (unfold n; lia).
  all: rewrite (size_t_small n) by (unfold n, src in *; lia).
  all: rewrite Z.min_l by lia.
  all: destruct (Z.eqb_spec n 0) as [Hzero|_]; [lia|]; cbn [negb].
  all: unfold Copier.memcpy_to_buffer;
    cbn [Copier.state_ Copier.cell_pos_range_pos_ Copier.buffer_offset_
         Copier.written_].
  all: rewrite (size_t_small (Copier.buffer_offset_ c + n)) by lia.
  all: replace (src + n) with ((second + 1) * cell_size) in *
    by (unfold n; lia).
  all: rewrite (size_t_small ((second + 1) * cell_size)) by lia.
  all: unfold set_tiles_offset at 1;
    rewrite vec_set_in_bounds by (apply (lookup_lt_Some _ _ _ Hto));
    cbn [obind].
  all: rewrite Z.eqb_refl, andb_true_r.
  - destruct (Z.eqb_spec i (Z.of_nat (length ranges) - 1)); [|lia].
    cbn [with_tiles_offsets tiles_sizes_].
    rewrite (vec_at_some _ _ _ Hts). cbn [obind].
    unfold set_tiles_offset. cbn [with_tiles_offsets tiles_offsets_].
    rewrite vec_set_in_bounds
      by (rewrite length_insert; apply (lookup_lt_Some _ _ _ Hto)).
    cbn [obind]. unfold next_overlapping_tile.
    cbn [with_tiles_offsets overlapping_tiles_pos_].
    rewrite (vec_at_some _ _ _ Hp). cbn [obind].
    rewrite vec_set_in_bounds by (apply (lookup_lt_Some _ _ _ Hp)).
    cbn [obind]. rewrite vec_set_in_bounds by exact Hcursor. cbn [obind].
    rewrite (drop_ge ranges (S (Z.to_nat i))) in * by lia.
    cbn [Copier.bytes_of Copier.copies_of].
    eexists. split; [reflexivity|].
    cbn [Copier.state_ Copier.cell_pos_range_pos_ Copier.buffer_offset_
         Copier.written_ with_overlapping_tiles_pos with_tiles_offsets
         tiles_offsets_ overflow_ overlapping_tiles_pos_].
    split; [reflexivity|]. split; [lia|].
    split; [apply list_lookup_insert_eq; rewrite length_insert;
            apply (lookup_lt_Some _ _ _ Hto)|].
    split; [apply list_lookup_insert_eq, (lookup_lt_Some _ _ _ Hp)|].
    split; [by apply list_lookup_insert_eq|reflexivity].
  - destruct (Z.eqb_spec i (Z.of_nat (length ranges) - 1)); [lia|].
    cbn [negb obind].
    destruct (lookup_lt_is_Some_2 ranges (S (Z.to_nat i)) ltac:(lia))
      as [[first' second'] Hnext].
    pose proof (proj2 ordered _ _ _ _ _ Hk Hnext) as Hgap.
    destruct (proj1 ordered _ _ _ Hnext) as [Hfs' Hfit'].
    assert (Hrange' : at_ ranges (i + 1) = Some (first', second')).
    { unfold at_. destruct (Z.ltb_spec (i + 1) 0); [lia|].
      replace (Z.to_nat (i + 1)) with (S (Z.to_nat i)) by lia. exact Hnext. }
    rewrite (size_t_small (buffer_size - (Copier.buffer_offset_ c + n)))
      by lia.
    subst rounds'.
    match goal with
    | |- context [Copier.copy_cell_pos_ranges _ _ _ _ _ _ _ _ ?c2] =>
        destruct (IH (i + 1) c2 ((second + 1) * cell_size) first' second'
                     tiles_size p)
          as (c' & Hrun & H1 & H2 & H3 & H4 & H5 & H6)
    end;
      cbn [Copier.state_ Copier.cell_pos_range_pos_ Copier.buffer_offset_
           Copier.written_ Copier.with_state with_tiles_offsets
           tiles_offsets_ tiles_sizes_ overflow_ overlapping_tiles_pos_] in *;
      try lia; try assumption.
    + apply list_lookup_insert_eq, (lookup_lt_Some _ _ _ Hto).
    + nia.
    + replace (Z.to_nat (i + 1)) with (S (Z.to_nat i)) by lia. lia.
    + replace (Z.to_nat (i + 1)) with (S (Z.to_nat i)) in * by lia.
      exists c'. split; [exact Hrun|].
      rewrite H1, H2, <- app_assoc. cbn [app].
      repeat split; try assumption; lia.
Qed.

End FittingRanges.

(** X21.  When the cells still to copy of the current tile fit the free
    space of the caller's buffer, [copy_from_tile_buffer_partial_non_contig_sparse]
    copies every cell position range from the cursor [cell_pos_range_pos_]
    on, once and in order: one [memcpy] for each range, from the first cell
    of the range (for the range at the cursor, from the tile offset if that
    lies inside it) to its last cell, packed one after the other from the
    buffer offset on.  The tile is then done: the tile offset is set to the
    size of the tile, the cursor of the attribute moves to the next
    overlapping tile, the cursor of the ranges is reset, and no overflow is
    flagged, also when the cells fill the buffer exactly. *)
Theorem non_contig_sparse_copies_the_ranges_that_fit (NDEBUG : bool)
    (cell_size : Z) (var_size : bool) (attribute_id : nat) (buffer_size : Z)
    (c : Copier.copy_state) (p : Z) (t : OverlappingTile)
    (i tiles_offset tiles_size first second : Z) :
  0 < cell_size ->
  var_size = false ->
  0 <= Copier.buffer_offset_ c < buffer_size ->
  buffer_size < two64 ->
  overlapping_tiles_pos_ (Copier.state_ c) !! attribute_id = Some p ->
  0 <= p ->
  overlapping_tiles_ (Copier.state_ c) !! Z.to_nat p = Some t ->
  Copier.ordered_ranges cell_size (cell_pos_ranges_ t) ->
  Copier.cell_pos_range_pos_ c !! attribute_id = Some i ->
  0 <= i ->
  at_ (cell_pos_ranges_ t) i = Some (first, second) ->
  tiles_offsets_ (Copier.state_ c) !! attribute_id = Some tiles_offset ->
  0 <= tiles_offset < (second + 1) * cell_size ->
  tiles_sizes_ (Copier.state_ c) !! attribute_id = Some tiles_size ->
  Copier.bytes_of cell_size (drop (Z.to_nat i) (cell_pos_ranges_ t))
                  tiles_offset
  <= buffer_size - Copier.buffer_offset_ c ->
  exists c',
    Copier.copy_from_tile_buffer_partial_non_contig_sparse NDEBUG cell_size
      var_size attribute_id buffer_size c
    = Returns c'
    /\ Copier.written_ c'
       = Copier.written_ c
         ++ Copier.copies_of cell_size
              (drop (Z.to_nat i) (cell_pos_ranges_ t))
              (Copier.buffer_offset_ c) tiles_offset
    /\ Copier.buffer_offset_ c'
       = Copier.buffer_offset_ c
         + Copier.bytes_of cell_size
             (drop (Z.to_nat i) (cell_pos_ranges_ t)) tiles_offset
    /\ tiles_offsets_ (Copier.state_ c') !! attribute_id = Some tiles_size
    /\ overlapping_tiles_pos_ (Copier.state_ c') !! attribute_id
       = Some (p + 1)
    /\ Copier.cell_pos_range_pos_ c' !! attribute_id = Some 0
    /\ overflow_ (Copier.state_ c') = overflow_ (Copier.state_ c).
Proof.
  intros Hcell -> Hoff Hsize Hp Hpos Ht Hordered Hcursor Hi Hrange Hto
         Htiles_offset Hts Hfits.
  set (ranges := cell_pos_ranges_ t) in *.
  assert (Hk : ranges !! Z.to_nat i = Some (first, second)).
  { unfold at_ in Hrange. destruct (Z.ltb_spec i 0); [lia|exact Hrange]. }
  pose proof (lookup_lt_Some _ _ _ Hk) as Hlen.
  unfold Copier.copy_from_tile_buffer_partial_non_contig_sparse.
  rewrite (size_t_small (buffer_size - Copier.buffer_offset_ c)) by lia.
  destruct (Z.eqb_spec (buffer_size - Copier.buffer_offset_ c) 0); [lia|].
  rewrite (current_tile_at _ _ _ _ Hp Hpos Ht). cbn [obind snd].
  unfold assert_ at 1. cbn [negb]. rewrite orb_true_r. cbn [obind].
  fold ranges.
  destruct ranges as [|r0 rest] eqn:Hranges; [discriminate|].
  rewrite <- Hranges in *.
  rewrite (vec_at_some _ _ _ Hcursor). cbn [obind].
  destruct (Z.to_nat (Z.of_nat (length ranges) - i)) as [|rounds] eqn:Hr;
    [lia|].
  apply (fitting_rounds NDEBUG cell_size attribute_id buffer_size ranges
           Hcell Hordered Hsize rounds i c tiles_offset first second
           tiles_size p); try assumption; try lia.
  apply (lookup_lt_Some _ _ _ Hcursor).
Qed.

Lemma non_contig_sparse_copies_the_ranges_that_fit_witness :
  exists c',
    Copier.copy_from_tile_buffer_partial_non_contig_sparse false 4 false 0 24
      (Copier.mkCopyState
         (mkReadState [false; false]
            [mkOverlappingTile 8 [(0, 2); (4, 4); (6, 7)] None false
               PARTIAL_NON_CONTIG (Some [0; 1; 0; 1]) 0]
            [0; 0] [0; 0] [32; 0] [0] [0] [] [] [])
         [0; 0] 0 [])
    = Returns c'
    /\ Copier.written_ c'
       = [] ++ Copier.copies_of 4 (drop (Z.to_nat 0) [(0, 2); (4, 4); (6, 7)])
                 0 0
    /\ Copier.buffer_offset_ c'
       = 0 + Copier.bytes_of 4 (drop (Z.to_nat 0) [(0, 2); (4, 4); (6, 7)]) 0
    /\ tiles_offsets_ (Copier.state_ c') !! 0%nat = Some 32
    /\ overlapping_tiles_pos_ (Copier.state_ c') !! 0%nat = Some (0 + 1)
    /\ Copier.cell_pos_range_pos_ c' !! 0%nat = Some 0
    /\ overflow_ (Copier.state_ c') = [false; false].
Proof.
  apply (non_contig_sparse_copies_the_ranges_that_fit false 4 false 0 24
           (Copier.mkCopyState
              (mkReadState [false; false]
                 [mkOverlappingTile 8 [(0, 2); (4, 4); (6, 7)] None false
                    PARTIAL_NON_CONTIG (Some [0; 1; 0; 1]) 0]
                 [0; 0] [0; 0] [32; 0] [0] [0] [] [] [])
              [0; 0] 0 [])
           0 (mkOverlappingTile 8 [(0, 2); (4, 4); (6, 7)] None false
                PARTIAL_NON_CONTIG (Some [0; 1; 0; 1]) 0)
           0 0 32 0 2);
    try reflexivity; try (simpl; lia); try (unfold two64; lia).
  split.
  - intros k first second Hk.
    destruct k as [|[|[|k]]]; simpl in Hk; try discriminate;
      injection Hk as <- <-; unfold two64; lia.
  - intros k first second first' second' Hk Hk'.
    destruct k as [|[|[|k]]]; simpl in Hk, Hk'; try discriminate;
      injection Hk as <- <-; injection Hk' as <- <-; lia.
Defined.

(** ** The entry "no overlap" of a sparse fragment and its flag *)

(** At an entry "no overlap" whose flag [coords_tile_fetched_] is up, the
    read of the coordinates without compression copies "from the tile
    buffer", which does nothing for such an entry, and goes round. *)
Lemma set_flag_on_no_overlap_never_ends
    (get_next_overlapping_tile_sparse : ReadState -> outcome ReadState)
    (NDEBUG : bool) (E : TileIO.Env) (var_size : bool) (buffer_size : Z)
    (p : Z) (t : OverlappingTile) (fuel : nat) :
  forall c : Copier.copy_state,
    overflow_ (Copier.state_ c) !! TileIO.attribute_num E = Some false ->
    (TileIO.attribute_num E < length (tiles_offsets_ (Copier.state_ c)))%nat ->
    (TileIO.attribute_num E < length (tiles_sizes_ (Copier.state_ c)))%nat ->
    overlapping_tiles_pos_ (Copier.state_ c) !! TileIO.attribute_num E
    = Some p ->
    0 <= p < two64 ->
    overlapping_tiles_ (Copier.state_ c) !! Z.to_nat p = Some t ->
    overlap_ t = NONE ->
    coords_tile_fetched_ t = true ->
    SparseLoops.read_sparse_attr_cmp_none_loop
      get_next_overlapping_tile_sparse NDEBUG E var_size
      (TileIO.attribute_num E) buffer_size fuel c
    = Starves.
Proof.
  induction fuel as [|fuel IH];
    intros c Hflag Hto Hts Hp Hpos Ht Hkind Hfetched;
    cbn [SparseLoops.read_sparse_attr_cmp_none_loop]; [reflexivity|].
  set (a := TileIO.attribute_num E) in *.
  assert (Hcur : TileIO.current_tile a (Copier.state_ c)
                 = Returns (Z.to_nat p, t))
    by (apply current_tile_at; [exact Hp | lia | exact Ht]).
  assert (Hcopy :
           Copier.copy_from_tile_buffer_sparse NDEBUG (TileIO.cell_size E a)
             var_size a buffer_size c = Returns c).
  { unfold Copier.copy_from_tile_buffer_sparse.
    rewrite Hcur. cbn [obind snd]. by rewrite Hkind. }
  assert (Hpending :
           SparseLoops.copy_pending NDEBUG E var_size a buffer_size c
           = Returns c).
  { unfold SparseLoops.copy_pending.
    destruct (lookup_lt_is_Some_2 _ _ Hto) as [to Eto].
    destruct (lookup_lt_is_Some_2 _ _ Hts) as [ts Ets].
    rewrite (vec_at_some _ _ _ Eto), (vec_at_some _ _ _ Ets). cbn [obind].
    destruct (to <? ts); [exact Hcopy | reflexivity]. }
  rewrite Hpending. cbn [obind].
  unfold SparseLoops.unless_overflow at 1.
  rewrite (vec_at_some _ _ _ Hflag). cbn [obind].
  unfold SparseLoops.compute_next.
  rewrite (vec_at_some _ _ _ Hp). cbn [obind].
  rewrite (size_t_small p) by lia.
  pose proof (lookup_lt_Some _ _ _ Ht) as Hlen.
  destruct (Z.geb_spec p (Z.of_nat (length (overlapping_tiles_
                                              (Copier.state_ c)))));
    [lia|]. cbn [obind].
  rewrite Hcur. cbn [obind].
  assert (Hcommand :
           SparseLoops.copy_command NDEBUG E var_size a buffer_size
             (Z.to_nat p, t) (Copier.with_state (Copier.state_ c) c)
           = Returns (Some (TILEDB_RS_OK,
                            Copier.with_state (Copier.state_ c) c))).
  { unfold SparseLoops.copy_command. cbn [snd]. fold a.
    rewrite bool_decide_true by reflexivity. rewrite Hfetched. cbn [andb].
    unfold Copier.copy_from_tile_buffer_sparse.
    cbn [Copier.state_ Copier.with_state]. rewrite Hcur. cbn [obind snd].
    by rewrite Hkind. }
  rewrite Hcommand. cbn [obind].
  rewrite bool_decide_false by (intros Hne; by apply Hne).
  unfold SparseLoops.unless_overflow.
  cbn [Copier.state_ Copier.with_state].
  rewrite (vec_at_some _ _ _ Hflag). cbn [obind].
  apply IH; cbn [Copier.state_ Copier.with_state]; assumption.
Qed.

(** C10.  The entry "no overlap" that [init_tile_search_range<T>] pushes for
    a range that meets no tile is created without its flag
    [coords_tile_fetched_] being written: the flag holds what the memory of
    the local variable held, while the entry that
    [get_next_overlapping_tile_sparse] builds from the same memory has the
    flag down.  Here the tiles are [(0,0) .. (0,3)], [(1,1) .. (1,2)] and
    [(3,0) .. (3,3)], the range is [[1,1] x [4,9]] and the memory holds a set
    flag: the constructor leaves the tile search range [(2, 1)] and the entry
    with its flag up, though no coordinates tile has been loaded.  The read
    of the coordinates (attribute 1) without compression, which tests the
    flag before the kind of overlap, then never returns, whatever the
    iterator; with the flag down the same read returns [TILEDB_RS_OK] with 0
    bytes. *)
Theorem sentinel_flag_is_not_written :
  Construct.ReadState_sparse (fun _ _ _ => 0) unwritten_with_set_flag 1
    Coords.TILEDB_AS_CO_ROW_MAJOR 2 [1; 1; 4; 9] 3
    [[0; 0; 0; 3]; [1; 1; 1; 2]; [3; 0; 3; 3]]
  = Returns (2, 1,
             with_overlapping_tiles
               [DenseInit.sentinel unwritten_with_set_flag]
               (Construct.initial 1))
  /\ coords_tile_fetched_ (DenseInit.sentinel unwritten_with_set_flag) = true
  /\ coords_tile_fetched_
       (Iterator.new_overlapping_tile unwritten_with_set_flag []) = false
  /\ file_reads_
       (with_overlapping_tiles [DenseInit.sentinel unwritten_with_set_flag]
          (Construct.initial 1)) = []
  /\ (forall (get_next_overlapping_tile_sparse : ReadState ->
                                                 outcome ReadState)
             (fuel : nat),
         SparseLoops.read_sparse_attr_cmp_none
           get_next_overlapping_tile_sparse false one_coords_tile false 1 100
           fuel
           (with_overlapping_tiles
              [DenseInit.sentinel unwritten_with_set_flag]
              (Construct.initial 1))
           (Construct.initial_cell_pos_range_pos 1)
         = Starves)
  /\ (forall (get_next_overlapping_tile_sparse : ReadState ->
                                                 outcome ReadState)
             (fuel : nat),
         SparseLoops.read_sparse_attr_cmp_none
           get_next_overlapping_tile_sparse false one_coords_tile false 1 100
           (S fuel)
           (with_overlapping_tiles
              [DenseInit.sentinel
                 (mkOverlappingTile 0 [] None false NONE None 0)]
              (Construct.initial 1))
           (Construct.initial_cell_pos_range_pos 1)
         = Returns
             (TILEDB_RS_OK, 0,
              Copier.mkCopyState
                (with_overlapping_tiles
                   [DenseInit.sentinel
                      (mkOverlappingTile 0 [] None false NONE None 0)]
                   (Construct.initial 1))
                (Construct.initial_cell_pos_range_pos 1) 0 [])).
Proof.
  split; [reflexivity|]. split; [reflexivity|]. split; [reflexivity|].
  split; [reflexivity|]. split.
  - intros get_next fuel. unfold SparseLoops.read_sparse_attr_cmp_none.
    apply (set_flag_on_no_overlap_never_ends get_next false one_coords_tile
             false 100 0 (DenseInit.sentinel unwritten_with_set_flag) fuel);
      try reflexivity; try (simpl; lia); unfold two64; lia.
  - intros get_next fuel. reflexivity.
Qed.
